(** * bfcalc: the value engine of the arbitrary-precision calculator

    A shallow embedding of the parts of [bfcalc.c] that decide the
    properties stated about its value engine: the promotion rules of the
    binary and unary dispatch, fractions, the integer number theory
    helpers ([invmod], [pmod], [isprime], [factor]), truncated power
    series and string indexing.

    Conventions.
    - A C function returning [BCValue] returns [res value] here:
      [Val v] is a value, [Exc kind msg] is [BC_EXCEPTION] together with
      the pending error of the context, and [Fault f] is a run of the C
      program that leaves the calculator (a NULL pointer dereferenced,
      [abort], signed overflow) or leaves the embedded fragment.
    - Reference counts are not represented: values are immutable in every
      function embedded here.
    - The generic entry points ([cval_op2], [cval_op1], [cval_convert],
      ...) are mutually recursive with the per-kind implementations.  The
      embedding ties this knot with an explicit depth: per-kind functions
      take the record [engine] of generic entry points they call back
      into, and [engine_at fuel] unfolds the recursion [fuel] times.
    - Integers are [Z]; the bignum primitives on integers are exact. *)

From Stdlib Require Import ZArith List Bool Lia String Ascii QArith Qround Qpower Znumtheory.
From Bignums Require Import BigZ.
Import ListNotations.

Local Open Scope Z_scope.

(** ** Outcomes *)

Inductive BCErrorTypeEnum : Type :=
| CERR_TYPE
| CERR_RANGE
| CERR_SYNTAX
| CERR_REFERENCE.

Definition cerr_type_str (e : BCErrorTypeEnum) : string :=
  match e with
  | CERR_TYPE => "TypeError"
  | CERR_RANGE => "RangeError"
  | CERR_SYNTAX => "SyntaxError"
  | CERR_REFERENCE => "ReferenceError"
  end.

(** Ways in which a run leaves the calculator or the embedded fragment. *)
Inductive fault : Type :=
| NullDeref        (* BC_EXCEPTION (NULL) used as a value *)
| NullStored       (* BC_EXCEPTION (NULL) stored inside a value: the
                      embedding does not represent such values *)
| Aborted          (* abort() or a failed assert *)
| SignedOverflow   (* overflow of a C signed integer *)
| OutOfBounds      (* a read past the end of a buffer *)
| NotModelled      (* a kind or branch outside the embedded fragment *)
| OutOfFuel.       (* the recursion depth given to [engine_at] was too small *)

Inductive res (A : Type) : Type :=
| Val (a : A)
| Exc (e : BCErrorTypeEnum) (msg : string)
| Fault (f : fault).

Arguments Val {A} a.
Arguments Exc {A} e msg.
Arguments Fault {A} f.

(** [bind]: the caller tests [cval_is_error] and hands the exception on. *)
Definition bind {A B : Type} (m : res A) (k : A -> res B) : res B :=
  match m with
  | Val a => k a
  | Exc e s => Exc e s
  | Fault f => Fault f
  end.

(** [deref]: the caller uses the result without testing it, so that
    [BC_EXCEPTION] is dereferenced. *)
Definition deref {A B : Type} (m : res A) (k : A -> res B) : res B :=
  match m with
  | Val a => k a
  | Exc _ _ => Fault NullDeref
  | Fault f => Fault f
  end.

(** [store]: the caller stores the result in a component of a value
    without testing it. *)
Definition store {A B : Type} (m : res A) (k : A -> res B) : res B :=
  match m with
  | Val a => k a
  | Exc _ _ => Fault NullStored
  | Fault f => Fault f
  end.

Declare Scope res_scope.
Delimit Scope res_scope with res.
Notation "x <- m ;; k" := (bind m (fun x => k))
  (at level 61, m at next level, right associativity) : res_scope.
Notation "x <-! m ;; k" := (deref m (fun x => k))
  (at level 61, m at next level, right associativity) : res_scope.
Notation "x <-# m ;; k" := (store m (fun x => k))
  (at level 61, m at next level, right associativity) : res_scope.
Local Open Scope res_scope.

Definition cval_type_error {A : Type} (msg : string) : res A := Exc CERR_TYPE msg.
Definition cval_range_error {A : Type} (msg : string) : res A := Exc CERR_RANGE msg.

(** ** Loops

    A [while]/[for(;;)] loop of the source is a body that either continues
    with a new state or leaves the loop.  [iter_loop p body s] runs the
    body at most [p] times; [p] is a binary number, so that a bound as
    large as the numbers being processed costs nothing until it is used. *)

Inductive step (S R : Type) : Type :=
| Continue (s : S)
| Break (r : R).

Arguments Continue {S R} s.
Arguments Break {S R} r.

Fixpoint iter_loop {S R : Type} (p : positive) (body : S -> step S R) (s : S)
  : step S R :=
  match p with
  | xH => body s
  | xO q =>
      match iter_loop q body s with
      | Continue s1 => iter_loop q body s1
      | Break r => Break r
      end
  | xI q =>
      match body s with
      | Continue s1 =>
          match iter_loop q body s1 with
          | Continue s2 => iter_loop q body s2
          | Break r => Break r
          end
      | Break r => Break r
      end
  end.

Fixpoint iter_nat {S R : Type} (n : nat) (body : S -> step S R) (s : S)
  : step S R :=
  match n with
  | O => Continue s
  | Datatypes.S k =>
      match body s with
      | Continue s1 => iter_nat k body s1
      | Break r => Break r
      end
  end.

(** A loop body written in [res]: an exception or a fault leaves the loop. *)
Definition lift_body {S A : Type} (body : S -> res (step S A))
  : S -> step S (res A) :=
  fun s =>
    match body s with
    | Val (Continue s1) => Continue s1
    | Val (Break a) => Break (Val a)
    | Exc e m => Break (Exc e m)
    | Fault f => Break (Fault f)
    end.

(** The loop with an iteration bound [bound]; the bound is chosen by each
    caller so that it is never reached. *)
Definition while_loop {S A : Type} (bound : Z) (body : S -> res (step S A))
  (s : S) : res A :=
  match iter_loop (Z.to_pos bound) (lift_body body) s with
  | Break r => r
  | Continue _ => Fault OutOfFuel
  end.

(** ** Kind tags and type descriptors *)

Inductive BCTypeEnum : Type :=
| CTYPE_BOOL
| CTYPE_INT
| CTYPE_FRAC
| CTYPE_DECIMAL
| CTYPE_FLOAT
| CTYPE_COMPLEX
| CTYPE_POLY
| CTYPE_RFRAC
| CTYPE_SER
| CTYPE_TENSOR
| CTYPE_ARRAY
| CTYPE_FUNCTION
| CTYPE_STRING
| CTYPE_NULL
| CTYPE_RANGE.

(** The numeric value of the enumerator: the ordering of the tags matters. *)
Definition tag_num (t : BCTypeEnum) : Z :=
  match t with
  | CTYPE_BOOL => 0
  | CTYPE_INT => 1
  | CTYPE_FRAC => 2
  | CTYPE_DECIMAL => 3
  | CTYPE_FLOAT => 4
  | CTYPE_COMPLEX => 5
  | CTYPE_POLY => 6
  | CTYPE_RFRAC => 7
  | CTYPE_SER => 8
  | CTYPE_TENSOR => 9
  | CTYPE_ARRAY => 10
  | CTYPE_FUNCTION => 11
  | CTYPE_STRING => 12
  | CTYPE_NULL => 13
  | CTYPE_RANGE => 14
  end.

Definition tag_eqb (a b : BCTypeEnum) : bool := tag_num a =? tag_num b.
Definition tag_ltb (a b : BCTypeEnum) : bool := tag_num a <? tag_num b.
Definition tag_leb (a b : BCTypeEnum) : bool := tag_num a <=? tag_num b.

Definition max_tag (a b : BCTypeEnum) : BCTypeEnum :=
  if tag_ltb a b then b else a.

(** [struct BCType]: a tag and an optional element type. *)
#[local] Set Warnings "-register-all".
Inductive BCType : Type :=
| ctype_new (tag : BCTypeEnum) (elem_type : option BCType).

Definition tag (t : BCType) : BCTypeEnum :=
  match t with ctype_new g _ => g end.

Definition elem_type (t : BCType) : option BCType :=
  match t with ctype_new _ e => e end.

(** [ctx->def_type[tag]]: the preallocated descriptor of a kind without
    element type. *)
Definition def_type (g : BCTypeEnum) : BCType := ctype_new g None.

Definition has_elem_type (g : BCTypeEnum) : bool :=
  match g with
  | CTYPE_COMPLEX | CTYPE_POLY | CTYPE_RFRAC | CTYPE_SER | CTYPE_TENSOR => true
  | _ => false
  end.

Fixpoint ctype_depth (t : BCType) : nat :=
  match t with
  | ctype_new _ None => 1%nat
  | ctype_new _ (Some e) => Datatypes.S (ctype_depth e)
  end.

Inductive BCOP2Enum : Type :=
| BC_OP2_ADD
| BC_OP2_SUB
| BC_OP2_MUL
| BC_OP2_DIV
| BC_OP2_MOD
| BC_OP2_POW
| BC_OP2_ATAN2
| BC_OP2_DOT_MUL
| BC_OP2_CMP_EQ
| BC_OP2_CMP_LT
| BC_OP2_CMP_LE
| BC_OP2_OR
| BC_OP2_AND
| BC_OP2_XOR
| BC_OP2_DIVREM
| BC_OP2_FRAC_DIV.

Inductive BCOP1Enum : Type :=
| BC_OP1_NEG
| BC_OP1_ABS
| BC_OP1_TRUNC
| BC_OP1_FLOOR
| BC_OP1_CEIL
| BC_OP1_ROUND
| BC_OP1_CONJ
| BC_OP1_RE
| BC_OP1_IM
| BC_OP1_SQRT
| BC_OP1_EXP
| BC_OP1_LOG
| BC_OP1_SIN
| BC_OP1_COS
| BC_OP1_TAN
| BC_OP1_ASIN
| BC_OP1_ACOS
| BC_OP1_ATAN.

Definition is_cmp_op (op : BCOP2Enum) : bool :=
  match op with
  | BC_OP2_CMP_EQ | BC_OP2_CMP_LT | BC_OP2_CMP_LE => true
  | _ => false
  end.

(** [same_type]: when the first descriptor has an element type the second
    one is read without a test. *)
Fixpoint same_type (t1 t2 : BCType) : res bool :=
  match t1 with
  | ctype_new g1 e1 =>
      if negb (tag_eqb g1 (tag t2)) then Val false
      else
        match e1 with
        | Some a =>
            match elem_type t2 with
            | Some b => same_type a b
            | None => Fault NullDeref
            end
        | None => Val true
        end
  end.

(** [get_op2_type]: the promoted type of a binary operation.  The
    recursion goes to the element type of the operand of larger tag; the
    sum of the depths of the two descriptors decreases. *)
Fixpoint get_op2_type_rec (n : nat) (t1 t2 : BCType) (op : BCOP2Enum)
  : res BCType :=
  match n with
  | O => Fault OutOfFuel
  | Datatypes.S n' =>
      if is_cmp_op op then Val (ctype_new CTYPE_BOOL None)
      else
        let '(t1, t2) := if tag_ltb (tag t1) (tag t2) then (t2, t1) else (t1, t2) in
        let g1 := tag t1 in
        if match op with BC_OP2_DIV => tag_eqb g1 CTYPE_INT | _ => false end then
          Val (def_type CTYPE_DECIMAL)
        else if match op with BC_OP2_FRAC_DIV => tag_eqb g1 CTYPE_INT | _ => false end then
          Val (def_type CTYPE_FRAC)
        else if match op with BC_OP2_POW => tag_eqb g1 CTYPE_FRAC | _ => false end then
          Val (def_type CTYPE_DECIMAL)
        else if match op with BC_OP2_ATAN2 => tag_leb g1 CTYPE_FRAC | _ => false end then
          Val (def_type CTYPE_DECIMAL)
        else if tag_eqb g1 CTYPE_BOOL then Val (ctype_new CTYPE_INT None)
        else
          same <- same_type t1 t2 ;;
          if same then Val t1
          else if tag_eqb g1 CTYPE_FLOAT && tag_eqb (tag t2) CTYPE_DECIMAL then
            cval_type_error "float and decimal are not compatible"
          else if tag_leb g1 CTYPE_FLOAT then Val t1
          else if tag_eqb g1 CTYPE_COMPLEX || tag_eqb g1 CTYPE_POLY
                  || tag_eqb g1 CTYPE_SER || tag_eqb g1 CTYPE_RFRAC then
            match elem_type t1 with
            | None => Fault NullDeref
            | Some e1 =>
                let t2' := if tag_eqb (tag t2) g1 then elem_type t2 else Some t2 in
                match t2' with
                | None => Fault NullDeref
                | Some t2'' =>
                    (* ctype_new_free keeps a NULL element type when the
                       recursive call failed *)
                    match get_op2_type_rec n' e1 t2'' op with
                    | Val e => Val (ctype_new g1 (Some e))
                    | Exc _ _ => Val (ctype_new g1 None)
                    | Fault f => Fault f
                    end
                end
            end
          else cval_type_error "incompatible types"
  end.

Definition get_op2_type (t1 t2 : BCType) (op : BCOP2Enum) : res BCType :=
  get_op2_type_rec (ctype_depth t1 + ctype_depth t2) t1 t2 op.

(** ** The bignum primitives

    Modelled from the spec: the arbitrary-precision library (libbf) is an
    external collaborator and not part of the embedded sources.  Its
    integer operations are exact and are written out on [Z] below.  Its
    decimal and binary floating point numbers share one representation
    ([bf_t] and [bfdec_t] are the same structure); their operations are
    the fields of [Bignum], taken as given, together with the precisions
    and flags of the calculator context. *)

Inductive bf_rnd_t : Type :=
| BF_RNDN    (* round to nearest, ties to even *)
| BF_RNDZ    (* round toward zero *)
| BF_RNDD    (* round toward -inf *)
| BF_RNDU    (* round toward +inf *)
| BF_RNDNA   (* round to nearest, ties away from zero *)
| BF_RNDA    (* round away from zero *)
| BF_RNDF.   (* faithful rounding *)

(** For [bf_divrem] and [bf_rem] the last mode selects the Euclidean
    division, whose remainder is never negative. *)
Definition BF_DIVREM_EUCLIDIAN : bf_rnd_t := BF_RNDF.

(** A [flags] argument is either the flags word of the context or a bare
    rounding mode. *)
Inductive bf_flags_t : Type :=
| FlagsCtx (w : Z)
| FlagsRnd (r : bf_rnd_t).

(** A precision: a number of digits, or [BF_PREC_INF]. *)
Inductive bf_prec_t : Type :=
| Prec (p : Z)
| BF_PREC_INF.

Class Bignum : Type := {
  (* the payload of a Decimal or a Float *)
  bfnum : Type;
  (* ctx->dec_prec, ctx->dec_flags, ctx->float_prec, ctx->float_flags *)
  dec_prec : Z;
  dec_flags : Z;
  float_prec : Z;
  float_flags : Z;
  (* decimal floating point *)
  bfdec_set_si : Z -> bfnum;
  bfdec_set_inf : bool -> bfnum;   (* the infinity of the given sign *)
  bfdec_from_int : Z -> bf_prec_t -> bf_flags_t -> bfnum;  (* bfdec_from_f of an integer *)
  bfdec_from_f : bfnum -> bf_prec_t -> bf_flags_t -> bfnum;
  bfdec_to_f : bfnum -> bf_prec_t -> bf_flags_t -> bfnum;
  bfdec_to_int : bfnum -> option Z;  (* bfdec_to_f at BF_PREC_INF of an integral decimal; None when not finite *)
  bfdec_add : bfnum -> bfnum -> bf_prec_t -> bf_flags_t -> bfnum;
  bfdec_sub : bfnum -> bfnum -> bf_prec_t -> bf_flags_t -> bfnum;
  bfdec_mul : bfnum -> bfnum -> bf_prec_t -> bf_flags_t -> bfnum;
  bfdec_div : bfnum -> bfnum -> bf_prec_t -> bf_flags_t -> bfnum;
  bfdec_rem : bfnum -> bfnum -> bf_prec_t -> bf_flags_t -> bf_rnd_t -> bfnum;
  bfdec_sqrt : bfnum -> bf_prec_t -> bf_flags_t -> bfnum;
  bfdec_rint : bfnum -> bf_rnd_t -> bfnum;
  bfdec_neg : bfnum -> bfnum;
  bfdec_abs : bfnum -> bfnum;   (* sign = 0 *)
  bfdec_cmp_eq : bfnum -> bfnum -> bool;
  bfdec_cmp_lt : bfnum -> bfnum -> bool;
  bfdec_cmp_le : bfnum -> bfnum -> bool;
  (* binary floating point *)
  bf_set_si : Z -> bfnum;
  bf_from_int : Z -> bf_prec_t -> bf_flags_t -> bfnum;  (* bf_set of an integer, then bf_round *)
  bf_to_int : bfnum -> option Z;  (* bf_set of an integral float; None when not finite *)
  bf_add : bfnum -> bfnum -> bf_prec_t -> bf_flags_t -> bfnum;
  bf_sub : bfnum -> bfnum -> bf_prec_t -> bf_flags_t -> bfnum;
  bf_mul : bfnum -> bfnum -> bf_prec_t -> bf_flags_t -> bfnum;
  bf_div : bfnum -> bfnum -> bf_prec_t -> bf_flags_t -> bfnum;
  bf_rem : bfnum -> bfnum -> bf_prec_t -> bf_flags_t -> bf_rnd_t -> bfnum;
  bf_pow : bfnum -> bfnum -> bf_prec_t -> bf_flags_t -> bfnum;
  bf_atan2 : bfnum -> bfnum -> bf_prec_t -> bf_flags_t -> bfnum;
  bf_sqrt : bfnum -> bf_prec_t -> bf_flags_t -> bfnum;
  bf_exp : bfnum -> bf_prec_t -> bf_flags_t -> bfnum;
  bf_log : bfnum -> bf_prec_t -> bf_flags_t -> bfnum;
  bf_sin : bfnum -> bf_prec_t -> bf_flags_t -> bfnum;
  bf_cos : bfnum -> bf_prec_t -> bf_flags_t -> bfnum;
  bf_tan : bfnum -> bf_prec_t -> bf_flags_t -> bfnum;
  bf_asin : bfnum -> bf_prec_t -> bf_flags_t -> bfnum;
  bf_acos : bfnum -> bf_prec_t -> bf_flags_t -> bfnum;
  bf_atan : bfnum -> bf_prec_t -> bf_flags_t -> bfnum;
  bf_rint : bfnum -> bf_rnd_t -> bfnum;
  bf_neg : bfnum -> bfnum;
  bf_abs : bfnum -> bfnum;   (* sign = 0 *)
  bf_cmp_eq : bfnum -> bfnum -> bool;
  bf_cmp_lt : bfnum -> bfnum -> bool;
  bf_cmp_le : bfnum -> bfnum -> bool
}.

(** Integer primitives, at [BF_PREC_INF].  Modelled from the spec (section
    6, bignum primitive contract): exact integer arithmetic, a quotient
    rounded as requested with the remainder [a - q * b], and the
    Euclidean mode in which the remainder is never negative. *)
Module BfInt.

(** The quotient of [a] by [b <> 0] under a rounding mode. *)
Definition quotient (a b : Z) (rnd : bf_rnd_t) : Z :=
  match rnd with
  | BF_RNDZ => Z.quot a b
  | BF_RNDD => a / b
  | BF_RNDU => - ((- a) / b)
  | BF_RNDA => if Z.rem a b =? 0 then Z.quot a b
               else Z.quot a b + Z.sgn a * Z.sgn b
  | BF_RNDNA => if 2 * Z.abs (Z.rem a b) <? Z.abs b then Z.quot a b
                else Z.quot a b + Z.sgn a * Z.sgn b
  | BF_RNDN => if 2 * Z.abs (Z.rem a b) <? Z.abs b then Z.quot a b
               else if (2 * Z.abs (Z.rem a b) =? Z.abs b) && Z.even (Z.quot a b)
                    then Z.quot a b
                    else Z.quot a b + Z.sgn a * Z.sgn b
  | BF_RNDF => Z.sgn b * (a / Z.abs b)   (* BF_DIVREM_EUCLIDIAN *)
  end.

(** [bf_divrem]: [None] is a non-zero status (division by zero). *)
Definition bf_divrem (a b : Z) (rnd : bf_rnd_t) : option (Z * Z) :=
  if b =? 0 then None
  else let q := quotient a b rnd in Some (q, a - q * b).

(** [bf_rem]: the remainder of [bf_divrem]. *)
Definition bf_rem (a b : Z) (rnd : bf_rnd_t) : option Z :=
  option_map snd (bf_divrem a b rnd).

(** [bf_pow] on integers with a non-negative exponent. *)
Definition bf_pow (a b : Z) : Z := a ^ b.

Definition INT32_MIN : Z := - 2 ^ 31.
Definition INT32_MAX : Z := 2 ^ 31 - 1.
Definition INT64_MIN : Z := - 2 ^ 63.
Definition INT64_MAX : Z := 2 ^ 63 - 1.

(** [bf_get_int32] with flags 0: the value saturates and the status
    (second component) tells whether it did. *)
Definition bf_get_int32 (a : Z) : Z * bool :=
  if a <? INT32_MIN then (INT32_MIN, true)
  else if INT32_MAX <? a then (INT32_MAX, true)
  else (a, false).

(** [bf_get_int32] with [BF_GET_INT_MOD]: the value modulo [2^32], as a
    signed 32 bit integer. *)
Definition bf_get_int32_mod (a : Z) : Z :=
  (a + 2 ^ 31) mod 2 ^ 32 - 2 ^ 31.

Definition bf_get_int64 (a : Z) : Z * bool :=
  if a <? INT64_MIN then (INT64_MIN, true)
  else if INT64_MAX <? a then (INT64_MAX, true)
  else (a, false).

(** [bf_mul_2exp] by [e], followed by [bf_rint] toward -inf when [e] is
    negative. *)
Definition bf_mul_2exp_floor (a e : Z) : Z := Z.shiftl a e.

(** [bf_get_exp_min] of a non-zero integer: the position of its lowest
    set bit. *)
Fixpoint ctz_pos (p : positive) : Z :=
  match p with
  | xO q => 1 + ctz_pos q
  | _ => 0
  end.

Definition bf_get_exp_min (a : Z) : Z :=
  match a with
  | Z0 => 0
  | Zpos p | Zneg p => ctz_pos p
  end.

End BfInt.

(** ** Values *)

Inductive value {B : Bignum} : Type :=
| VNull
| VBool (bool_val : bool)
| VInt (cint : Z)
| VFrac (num den : Z)                       (* numerator and denominator are Integers *)
| VDec (cdec : bfnum)
| VFloat (cfloat : bfnum)
| VComplex (el : BCType) (re im : value)
| VSer (el : BCType) (emin : Z) (tab : list value)   (* len is the length of tab *)
| VArray (tab : list value)
| VString (str : string)                    (* UTF-8 bytes *)
| VRange (start stop : Z).

(** Polynomials, rational functions, tensors and functions are not
    embedded: no value has one of these kinds, and the branches of the
    dispatch that build one end in [Fault NotModelled]. *)

(** [v->type] *)
Definition vtype {B : Bignum} (v : value) : BCType :=
  match v with
  | VNull => def_type CTYPE_NULL
  | VBool _ => def_type CTYPE_BOOL
  | VInt _ => def_type CTYPE_INT
  | VFrac _ _ => def_type CTYPE_FRAC
  | VDec _ => def_type CTYPE_DECIMAL
  | VFloat _ => def_type CTYPE_FLOAT
  | VComplex el _ _ => ctype_new CTYPE_COMPLEX (Some el)
  | VSer el _ _ => ctype_new CTYPE_SER (Some el)
  | VArray _ => def_type CTYPE_ARRAY
  | VString _ => def_type CTYPE_STRING
  | VRange _ _ => def_type CTYPE_RANGE
  end.

Definition cval_type {B : Bignum} (v : value) : BCTypeEnum := tag (vtype v).

(** The generic entry points and the per-kind binary operations that the
    functions below call back into. *)
Record engine {B : Bignum} : Type := {
  e_op2 : value -> value -> BCOP2Enum -> res value;      (* cval_op2 *)
  e_op1 : value -> BCOP1Enum -> res value;               (* cval_op1 *)
  e_convert : value -> BCType -> res value;              (* cval_convert *)
  e_sqrt : value -> res value;                           (* cval_sqrt *)
  e_log : value -> res value;                            (* cval_log *)
  e_inverse : value -> res value;                        (* cval_inverse *)
  e_cint_op2 : value -> value -> BCOP2Enum -> res value; (* cint_op2 *)
  e_cdec_op2 : value -> value -> BCOP2Enum -> res value; (* cdec_op2 *)
  e_cfloat_op2 : value -> value -> BCOP2Enum -> res value; (* cfloat_op2 *)
  e_complex_op2 : value -> value -> BCOP2Enum -> res value (* complex_op2 *)
}.

Definition RANGE_DEFAULT : Z := BfInt.INT32_MIN.

Definition INT_MIN : Z := BfInt.INT32_MIN.
Definition INT_MAX : Z := BfInt.INT32_MAX.

(** The result of an arithmetic operation on C [int]s. *)
Definition c_int (z : Z) : res Z :=
  if (INT_MIN <=? z) && (z <=? INT_MAX) then Val z else Fault SignedOverflow.

(** The result of an arithmetic operation on C [int64_t]s. *)
Definition c_int64 (z : Z) : res Z :=
  if (BfInt.INT64_MIN <=? z) && (z <=? BfInt.INT64_MAX) then Val z
  else Fault SignedOverflow.

Section Engine.

Context {B : Bignum}.
Variable E : engine.

(** *** Generic operations, as seen by the per-kind code *)

Definition cval_add (v1 v2 : value) := e_op2 E v1 v2 BC_OP2_ADD.
Definition cval_sub (v1 v2 : value) := e_op2 E v1 v2 BC_OP2_SUB.
Definition cval_mul (v1 v2 : value) := e_op2 E v1 v2 BC_OP2_MUL.
Definition cval_dot_mul (v1 v2 : value) := e_op2 E v1 v2 BC_OP2_DOT_MUL.
Definition cval_div (v1 v2 : value) := e_op2 E v1 v2 BC_OP2_DIV.
Definition cval_mod (v1 v2 : value) := e_op2 E v1 v2 BC_OP2_MOD.
Definition cval_or (v1 v2 : value) := e_op2 E v1 v2 BC_OP2_OR.
Definition cval_and (v1 v2 : value) := e_op2 E v1 v2 BC_OP2_AND.
Definition cval_xor (v1 v2 : value) := e_op2 E v1 v2 BC_OP2_XOR.
Definition cval_cmp_eq (v1 v2 : value) := e_op2 E v1 v2 BC_OP2_CMP_EQ.
Definition cval_cmp_lt (v1 v2 : value) := e_op2 E v1 v2 BC_OP2_CMP_LT.
Definition cval_cmp_le (v1 v2 : value) := e_op2 E v1 v2 BC_OP2_CMP_LE.
Definition cval_divrem (v1 v2 : value) := e_op2 E v1 v2 BC_OP2_DIVREM.
Definition cval_frac_div (v1 v2 : value) := e_op2 E v1 v2 BC_OP2_FRAC_DIV.

Definition cval_neg (v1 : value) := e_op1 E v1 BC_OP1_NEG.
Definition cval_abs (v1 : value) := e_op1 E v1 BC_OP1_ABS.
Definition cval_trunc (v1 : value) := e_op1 E v1 BC_OP1_TRUNC.
Definition cval_floor (v1 : value) := e_op1 E v1 BC_OP1_FLOOR.
Definition cval_ceil (v1 : value) := e_op1 E v1 BC_OP1_CEIL.
Definition cval_round (v1 : value) := e_op1 E v1 BC_OP1_ROUND.
Definition cval_conj (v1 : value) := e_op1 E v1 BC_OP1_CONJ.
Definition cval_re (v1 : value) := e_op1 E v1 BC_OP1_RE.
Definition cval_im (v1 : value) := e_op1 E v1 BC_OP1_IM.
Definition cval_exp (v1 : value) := e_op1 E v1 BC_OP1_EXP.
Definition cval_sin (v1 : value) := e_op1 E v1 BC_OP1_SIN.
Definition cval_cos (v1 : value) := e_op1 E v1 BC_OP1_COS.
Definition cval_tan (v1 : value) := e_op1 E v1 BC_OP1_TAN.
Definition cval_asin (v1 : value) := e_op1 E v1 BC_OP1_ASIN.
Definition cval_acos (v1 : value) := e_op1 E v1 BC_OP1_ACOS.
Definition cval_atan (v1 : value) := e_op1 E v1 BC_OP1_ATAN.

(** *** Booleans and integers *)

Definition cbool_new (val : bool) : value := VBool val.

(** [cbool_to_int] asserts that its argument is a Boolean. *)
Definition cbool_to_int (v : value) : res bool :=
  match v with
  | VBool b => Val b
  | _ => Fault Aborted
  end.

Definition cint_from_int (n : Z) : value := VInt n.

Definition cint_to_int (v : value) : res Z :=
  match v with
  | VInt z =>
      let '(r, overflow) := BfInt.bf_get_int32 z in
      if overflow then cval_range_error "integer is too large" else Val r
  | _ => cval_type_error "integer expected"
  end.

(** The payload of a value read as [u.cint]. *)
Definition u_cint (v : value) : res Z :=
  match v with
  | VInt z => Val z
  | _ => Fault NotModelled
  end.

(** The payload of a value read as [u.cdec] or [u.cfloat]: one storage. *)
Definition u_bfnum (v : value) : res bfnum :=
  match v with
  | VDec x | VFloat x => Val x
  | _ => Fault NotModelled
  end.

Definition cval_cmp2 (v1 v2 : value) (op : BCOP2Enum) : res bool :=
  r <-! e_op2 E v1 v2 op ;; cbool_to_int r.

Definition cval_cmp_eq2 (v1 v2 : value) := cval_cmp2 v1 v2 BC_OP2_CMP_EQ.
Definition cval_cmp_lt2 (v1 v2 : value) := cval_cmp2 v1 v2 BC_OP2_CMP_LT.
Definition cval_cmp_le2 (v1 v2 : value) := cval_cmp2 v1 v2 BC_OP2_CMP_LE.

Definition cval_cmp_eq_int (a : value) (b : Z) : res bool :=
  match e_op2 E a (cint_from_int b) BC_OP2_CMP_EQ with
  | Val v => cbool_to_int v
  | Exc _ _ => Val false
  | Fault f => Fault f
  end.

Definition cval_cmp_lt_int (a : value) (b : Z) : res bool :=
  match e_op2 E a (cint_from_int b) BC_OP2_CMP_LT with
  | Val v => cbool_to_int v
  | Exc _ _ => Val false
  | Fault f => Fault f
  end.

(** [to_cint]: conversion to an integer, by truncation. *)
Definition to_cint (v1 : value) : res value :=
  match v1 with
  | VInt _ => Val v1
  | VBool b => Val (cint_from_int (if b then 1 else 0))
  | VFrac n d => e_cint_op2 E (VInt n) (VInt d) BC_OP2_DIV
  | VDec _ =>
      t <-! cval_trunc v1 ;;
      x <- u_bfnum t ;;
      match bfdec_to_int x with
      | Some z => Val (VInt z)
      | None => Fault NotModelled   (* an Integer holding NaN or Inf *)
      end
  | VFloat _ =>
      t <-! cval_trunc v1 ;;
      x <- u_bfnum t ;;
      match bf_to_int x with
      | Some z => Val (VInt z)
      | None => Fault NotModelled   (* an Integer holding NaN or Inf *)
      end
  | _ => cval_type_error "cannot convert to integer"
  end.

Definition cint_op1 (v1 : value) (op : BCOP1Enum) : res value :=
  a <- u_cint v1 ;;
  match op with
  | BC_OP1_NEG => Val (VInt (- a))
  | BC_OP1_ABS => Val (VInt (Z.abs a))
  | _ => Fault Aborted
  end.

Definition cint_shl (a b : value) : res value :=
  x <- u_cint a ;;
  y <- u_cint b ;;
  let v2 := fst (BfInt.bf_get_int64 y) in
  let v2 := if v2 =? BfInt.INT64_MIN then BfInt.INT64_MIN + 1 else v2 in
  Val (VInt (BfInt.bf_mul_2exp_floor x v2)).

Definition is_int (v : value) : bool :=
  match v with VInt _ => true | _ => false end.

(** The loop of [cint_gcd]; the remainders decrease, so that the
    absolute value of the second argument bounds the iterations. *)
Definition cint_gcd_body (s : value * value) : res (step (value * value) value) :=
  let '(a, b) := s in
  z <- cval_cmp_eq_int b 0 ;;
  if z then Val (Break a)
  else
    r <-! e_cint_op2 E a b BC_OP2_MOD ;;
    Val (Continue (b, r)).

Definition cint_gcd (a b : value) : res value :=
  match a, b with
  | VInt _, VInt y => while_loop (Z.abs y + 2) cint_gcd_body (a, b)
  | _, _ => cval_type_error "integer expected"
  end.

Definition carray_pair (q r : value) : value := VArray [q; r].

(** *** Fractions *)

(** [cfrac_new2]: no check apart from the assertion on the kinds. *)
Definition cfrac_new2 (num den : value) : res value :=
  match num, den with
  | VInt n, VInt d => Val (VFrac n d)
  | _, _ => Fault Aborted
  end.

(** [cfrac_new]: an irreducible fraction with a positive denominator. *)
Definition cfrac_new (num den : value) : res value :=
  if negb (is_int num && is_int den) then cval_type_error "integer expected"
  else
    z <- cval_cmp_eq_int den 0 ;;
    if z then cval_range_error "division by zero"
    else
      neg <- cval_cmp_lt_int den 0 ;;
      nd <- (if neg then
               n1 <-! cval_neg num ;;
               d1 <-! cval_neg den ;;
               Val (n1, d1)
             else Val (num, den)) ;;
      let '(num, den) := nd in
      g <-! cint_gcd num den ;;
      one <- cval_cmp_eq_int g 1 ;;
      if negb one then
        n1 <-! e_cint_op2 E num g BC_OP2_DIV ;;
        d1 <-! e_cint_op2 E den g BC_OP2_DIV ;;
        cfrac_new2 n1 d1
      else cfrac_new2 num den.

Definition cint_op2 (v1 v2 : value) (op : BCOP2Enum) : res value :=
  v1 <- to_cint v1 ;;
  v2 <- to_cint v2 ;;
  a <- u_cint v1 ;;
  b <- u_cint v2 ;;
  match op with
  | BC_OP2_ADD => Val (VInt (a + b))
  | BC_OP2_SUB => Val (VInt (a - b))
  | BC_OP2_MUL | BC_OP2_DOT_MUL => Val (VInt (a * b))
  | BC_OP2_DIV =>
      match BfInt.bf_divrem a b BF_RNDZ with
      | Some (q, _) => Val (VInt q)
      | None => cval_range_error "division by zero"
      end
  | BC_OP2_MOD =>
      match BfInt.bf_rem a b BF_DIVREM_EUCLIDIAN with
      | Some r => Val (VInt r)
      | None => cval_range_error "division by zero"
      end
  | BC_OP2_POW =>
      if b <? 0 then cval_range_error "power yields non integer result"
      else Val (VInt (BfInt.bf_pow a b))
  | BC_OP2_CMP_EQ => Val (cbool_new (a =? b))
  | BC_OP2_CMP_LT => Val (cbool_new (a <? b))
  | BC_OP2_CMP_LE => Val (cbool_new (a <=? b))
  | BC_OP2_OR => Val (VInt (Z.lor a b))
  | BC_OP2_AND => Val (VInt (Z.land a b))
  | BC_OP2_XOR => Val (VInt (Z.lxor a b))
  | BC_OP2_DIVREM =>
      match BfInt.bf_divrem a b BF_DIVREM_EUCLIDIAN with
      | Some (q, r) => Val (carray_pair (VInt q) (VInt r))
      | None => cval_range_error "division by zero"
      end
  | BC_OP2_FRAC_DIV => cfrac_new v1 v2
  | BC_OP2_ATAN2 => cval_type_error "unsupported operation"
  end.

(** [to_cfrac]: the argument is an Integer, a Boolean or a Fraction. *)
Definition to_cfrac (v1 : value) : res value :=
  match v1 with
  | VFrac _ _ => Val v1
  | VBool _ => n <-! to_cint v1 ;; cfrac_new2 n (cint_from_int 1)
  | VInt _ => cfrac_new2 v1 (cint_from_int 1)
  | _ => cval_type_error "integer or fraction expected"
  end.

(** The fields [u.frac.num] and [u.frac.den]. *)
Definition u_frac (v : value) : res (Z * Z) :=
  match v with
  | VFrac n d => Val (n, d)
  | _ => Fault NotModelled
  end.

Definition cfrac_op2 (v1 v2 : value) (op : BCOP2Enum) : res value :=
  v1 <-! to_cfrac v1 ;;
  v2 <-! to_cfrac v2 ;;
  f1 <- u_frac v1 ;;
  f2 <- u_frac v2 ;;
  let '(n1, d1) := f1 in
  let '(n2, d2) := f2 in
  match op with
  | BC_OP2_ADD =>
      a <-! cval_mul (VInt n1) (VInt d2) ;;
      b <-! cval_mul (VInt n2) (VInt d1) ;;
      n <-! cval_add a b ;;
      d <-! cval_mul (VInt d1) (VInt d2) ;;
      cfrac_new n d
  | BC_OP2_SUB =>
      a <-! cval_mul (VInt n1) (VInt d2) ;;
      b <-! cval_mul (VInt n2) (VInt d1) ;;
      n <-! cval_sub a b ;;
      d <-! cval_mul (VInt d1) (VInt d2) ;;
      cfrac_new n d
  | BC_OP2_MUL | BC_OP2_DOT_MUL =>
      n <-! cval_mul (VInt n1) (VInt n2) ;;
      d <-! cval_mul (VInt d1) (VInt d2) ;;
      cfrac_new n d
  | BC_OP2_DIV | BC_OP2_FRAC_DIV =>
      n <-! cval_mul (VInt n1) (VInt d2) ;;
      d <-! cval_mul (VInt d1) (VInt n2) ;;
      cfrac_new n d
  | BC_OP2_MOD =>
      (* XXX: not euclidian *)
      t <-! cval_div v1 v2 ;;
      q <-! cval_floor t ;;
      m <-! cval_mul q v2 ;;
      cval_sub v1 m
  | BC_OP2_CMP_EQ | BC_OP2_CMP_LT | BC_OP2_CMP_LE =>
      a <-! cval_mul (VInt n1) (VInt d2) ;;
      b <-! cval_mul (VInt d1) (VInt n2) ;;
      cint_op2 a b op
  | _ => cval_type_error "unsupported operation"
  end.

Definition get_op1_rnd_mode (op : BCOP1Enum) : res bf_rnd_t :=
  match op with
  | BC_OP1_TRUNC => Val BF_RNDZ
  | BC_OP1_FLOOR => Val BF_RNDD
  | BC_OP1_CEIL => Val BF_RNDU
  | BC_OP1_ROUND => Val BF_RNDNA
  | _ => Fault Aborted
  end.

Definition cfrac_op1 (v1 : value) (op : BCOP1Enum) : res value :=
  f <- u_frac v1 ;;
  let '(n, d) := f in
  match op with
  | BC_OP1_NEG =>
      n1 <-! cval_neg (VInt n) ;; cfrac_new2 n1 (VInt d)
  | BC_OP1_ABS =>
      n1 <-! cval_abs (VInt n) ;; cfrac_new2 n1 (VInt d)
  | BC_OP1_TRUNC | BC_OP1_FLOOR | BC_OP1_CEIL | BC_OP1_ROUND =>
      rnd <- get_op1_rnd_mode op ;;
      match BfInt.bf_divrem n d rnd with
      | Some (q, _) => Val (VInt q)
      | None => Fault NotModelled   (* a zero denominator *)
      end
  | _ => Fault Aborted
  end.

(** *** Decimals *)

Definition ctx_dec_prec : bf_prec_t := Prec dec_prec.
Definition ctx_dec_flags : bf_flags_t := FlagsCtx dec_flags.
Definition ctx_float_prec : bf_prec_t := Prec float_prec.
Definition ctx_float_flags : bf_flags_t := FlagsCtx float_flags.

Definition to_dec1 (v1 : value) (allow_float : bool) : res value :=
  match v1 with
  | VBool b => Val (VDec (bfdec_set_si (if b then 1 else 0)))
  | VInt z => Val (VDec (bfdec_from_int z ctx_dec_prec ctx_dec_flags))
  | VDec _ => Val v1
  | VFrac n d => e_cdec_op2 E (VInt n) (VInt d) BC_OP2_DIV
  | VFloat x =>
      if allow_float then Val (VDec (bfdec_from_f x ctx_dec_prec ctx_dec_flags))
      else cval_type_error "cannot convert to decimal"
  | _ => cval_type_error "cannot convert to decimal"
  end.

Definition to_dec (v1 : value) : res value := to_dec1 v1 false.

Definition cdec_ctor (v1 : value) : res value := to_dec1 v1 true.

Definition DEC_TO_BIN_EXTRA_PREC : Z := 16.

Definition dec_to_bin_prec (prec : Z) : Z := Z.shiftr (prec * 851 + 255) 8.

Definition cdec_op2 (v1 v2 : value) (op : BCOP2Enum) : res value :=
  v1 <- to_dec v1 ;;
  v2 <- to_dec v2 ;;
  a <- u_bfnum v1 ;;
  b <- u_bfnum v2 ;;
  match op with
  | BC_OP2_ADD => Val (VDec (bfdec_add a b ctx_dec_prec ctx_dec_flags))
  | BC_OP2_SUB => Val (VDec (bfdec_sub a b ctx_dec_prec ctx_dec_flags))
  | BC_OP2_MUL | BC_OP2_DOT_MUL => Val (VDec (bfdec_mul a b ctx_dec_prec ctx_dec_flags))
  | BC_OP2_DIV => Val (VDec (bfdec_div a b ctx_dec_prec ctx_dec_flags))
  | BC_OP2_MOD =>
      Val (VDec (bfdec_rem a b ctx_dec_prec ctx_dec_flags BF_DIVREM_EUCLIDIAN))
  | BC_OP2_POW | BC_OP2_ATAN2 =>
      (* no decimal transcendentals: through binary floating point *)
      let prec1 := Prec (dec_to_bin_prec dec_prec + DEC_TO_BIN_EXTRA_PREC) in
      let t1 := bfdec_to_f a prec1 (FlagsRnd BF_RNDF) in
      let t2 := bfdec_to_f b prec1 (FlagsRnd BF_RNDF) in
      let t1 :=
        match op with
        | BC_OP2_POW => bf_pow t1 t2 prec1 (FlagsRnd BF_RNDF)
        | _ => bf_atan2 t1 t2 prec1 (FlagsRnd BF_RNDF)
        end in
      Val (VDec (bfdec_from_f t1 ctx_dec_prec ctx_dec_flags))
  | BC_OP2_CMP_EQ => Val (cbool_new (bfdec_cmp_eq a b))
  | BC_OP2_CMP_LT => Val (cbool_new (bfdec_cmp_lt a b))
  | BC_OP2_CMP_LE => Val (cbool_new (bfdec_cmp_le a b))
  | _ => cval_type_error "unsupported operation"
  end.

Definition cdec_op1 (v1 : value) (op : BCOP1Enum) : res value :=
  a <- u_bfnum v1 ;;
  match op with
  | BC_OP1_NEG => Val (VDec (bfdec_neg a))
  | BC_OP1_ABS => Val (VDec (bfdec_abs a))
  | BC_OP1_TRUNC | BC_OP1_FLOOR | BC_OP1_CEIL | BC_OP1_ROUND =>
      rnd <- get_op1_rnd_mode op ;;
      Val (VDec (bfdec_rint a rnd))
  | BC_OP1_SQRT => Val (VDec (bfdec_sqrt a ctx_dec_prec ctx_dec_flags))
  | _ =>
      (* no decimal transcendentals: through binary floating point *)
      let prec1 := Prec (dec_to_bin_prec dec_prec + DEC_TO_BIN_EXTRA_PREC) in
      let t0 := bfdec_to_f a prec1 (FlagsRnd BF_RNDF) in
      t1 <- match op with
            | BC_OP1_EXP => Val (bf_exp t0 prec1 (FlagsRnd BF_RNDF))
            | BC_OP1_LOG => Val (bf_log t0 prec1 (FlagsRnd BF_RNDF))
            | BC_OP1_SIN => Val (bf_sin t0 prec1 (FlagsRnd BF_RNDF))
            | BC_OP1_COS => Val (bf_cos t0 prec1 (FlagsRnd BF_RNDF))
            | BC_OP1_TAN => Val (bf_tan t0 prec1 (FlagsRnd BF_RNDF))
            | BC_OP1_ASIN => Val (bf_asin t0 prec1 (FlagsRnd BF_RNDF))
            | BC_OP1_ACOS => Val (bf_acos t0 prec1 (FlagsRnd BF_RNDF))
            | BC_OP1_ATAN => Val (bf_atan t0 prec1 (FlagsRnd BF_RNDF))
            | _ => Fault Aborted
            end ;;
      Val (VDec (bfdec_from_f t1 ctx_dec_prec ctx_dec_flags))
  end.

(** *** Binary floats *)

(** For a Boolean the source allocates the result with [cdec_new] and
    fills it with [bf_set_si]: the value is tagged Decimal and holds a
    binary float. *)
Definition to_float1 (v1 : value) (allow_dec : bool) : res value :=
  match v1 with
  | VFloat _ => Val v1
  | VBool b => Val (VDec (bf_set_si (if b then 1 else 0)))
  | VInt z => Val (VFloat (bf_from_int z ctx_float_prec ctx_float_flags))
  | VFrac n d => e_cfloat_op2 E (VInt n) (VInt d) BC_OP2_DIV
  | VDec x =>
      if allow_dec then Val (VFloat (bfdec_to_f x ctx_float_prec ctx_float_flags))
      else cval_type_error "cannot convert to float"
  | _ => cval_type_error "cannot convert to float"
  end.

Definition to_float (v1 : value) : res value := to_float1 v1 false.

Definition cfloat_ctor (v1 : value) : res value := to_float1 v1 true.

Definition cfloat_op2 (v1 v2 : value) (op : BCOP2Enum) : res value :=
  v1 <- to_float v1 ;;
  v2 <- to_float v2 ;;
  a <- u_bfnum v1 ;;
  b <- u_bfnum v2 ;;
  match op with
  | BC_OP2_ADD => Val (VFloat (bf_add a b ctx_float_prec ctx_float_flags))
  | BC_OP2_SUB => Val (VFloat (bf_sub a b ctx_float_prec ctx_float_flags))
  | BC_OP2_MUL | BC_OP2_DOT_MUL => Val (VFloat (bf_mul a b ctx_float_prec ctx_float_flags))
  | BC_OP2_DIV => Val (VFloat (bf_div a b ctx_float_prec ctx_float_flags))
  | BC_OP2_MOD =>
      Val (VFloat (bf_rem a b ctx_float_prec ctx_float_flags BF_DIVREM_EUCLIDIAN))
  | BC_OP2_POW => Val (VFloat (bf_pow a b ctx_float_prec ctx_float_flags))
  | BC_OP2_ATAN2 => Val (VFloat (bf_atan2 a b ctx_float_prec ctx_float_flags))
  | BC_OP2_CMP_EQ => Val (cbool_new (bf_cmp_eq a b))
  | BC_OP2_CMP_LT => Val (cbool_new (bf_cmp_lt a b))
  | BC_OP2_CMP_LE => Val (cbool_new (bf_cmp_le a b))
  | _ => cval_type_error "unsupported operation"
  end.

Definition cfloat_op1 (v1 : value) (op : BCOP1Enum) : res value :=
  a <- u_bfnum v1 ;;
  match op with
  | BC_OP1_NEG => Val (VFloat (bf_neg a))
  | BC_OP1_ABS => Val (VFloat (bf_abs a))
  | BC_OP1_TRUNC | BC_OP1_FLOOR | BC_OP1_CEIL | BC_OP1_ROUND =>
      rnd <- get_op1_rnd_mode op ;;
      Val (VFloat (bf_rint a rnd))
  | BC_OP1_SQRT => Val (VFloat (bf_sqrt a ctx_float_prec ctx_float_flags))
  | BC_OP1_EXP => Val (VFloat (bf_exp a ctx_float_prec ctx_float_flags))
  | BC_OP1_LOG => Val (VFloat (bf_log a ctx_float_prec ctx_float_flags))
  | BC_OP1_SIN => Val (VFloat (bf_sin a ctx_float_prec ctx_float_flags))
  | BC_OP1_COS => Val (VFloat (bf_cos a ctx_float_prec ctx_float_flags))
  | BC_OP1_TAN => Val (VFloat (bf_tan a ctx_float_prec ctx_float_flags))
  | BC_OP1_ASIN => Val (VFloat (bf_asin a ctx_float_prec ctx_float_flags))
  | BC_OP1_ACOS => Val (VFloat (bf_acos a ctx_float_prec ctx_float_flags))
  | BC_OP1_ATAN => Val (VFloat (bf_atan a ctx_float_prec ctx_float_flags))
  | _ => Fault Aborted
  end.

Definition cval_atan2 (v1 v2 : value) : res value :=
  let max_type := max_tag (cval_type v1) (cval_type v2) in
  if tag_leb max_type CTYPE_DECIMAL then cdec_op2 v1 v2 BC_OP2_ATAN2
  else if tag_eqb max_type CTYPE_FLOAT then cfloat_op2 v1 v2 BC_OP2_ATAN2
  else cval_type_error "incompatible types".

(** *** Complex numbers *)

Definition is_real_number (t : BCType) : bool :=
  match tag t with
  | CTYPE_INT | CTYPE_FRAC | CTYPE_DECIMAL | CTYPE_FLOAT => true
  | _ => false
  end.

Definition is_complex_frac (t : BCType) : res bool :=
  match tag t with
  | CTYPE_FRAC => Val true
  | CTYPE_COMPLEX =>
      match elem_type t with
      | Some e => Val (tag_eqb (tag e) CTYPE_FRAC)
      | None => Fault NullDeref
      end
  | _ => Val false
  end.

(** [complex_new2]: both parts are converted to the element type [el];
    the results of the conversions are stored without a test. *)
Definition complex_new2 (re im : value) (el : BCType) : res value :=
  re1 <-# e_convert E re el ;;
  im1 <-# e_convert E im el ;;
  Val (VComplex el re1 im1).

Definition complex_new (re im : value) : res value :=
  if negb (is_real_number (vtype re) && is_real_number (vtype im)) then
    cval_type_error "incompatible types for complex data"
  else
    match get_op2_type (vtype re) (vtype im) BC_OP2_ADD with
    | Val el => complex_new2 re im el
    | Exc _ _ => cval_type_error "incompatible types for complex data"
    | Fault f => Fault f
    end.

Definition complex_new_int (re im : Z) : res value :=
  complex_new (cint_from_int re) (cint_from_int im).

Definition to_complex (v1 : value) : res value :=
  match v1 with
  | VComplex _ _ _ => Val v1
  | _ => complex_new v1 (cint_from_int 0)
  end.

(** The fields [u.complex.re], [u.complex.im] and the element type. *)
Definition u_complex (v : value) : res (BCType * value * value) :=
  match v with
  | VComplex el re im => Val (el, re, im)
  | _ => Fault NotModelled
  end.

Definition complex_norm2 (v1 : value) : res value :=
  v1 <- to_complex v1 ;;
  c <- u_complex v1 ;;
  let '(_, re, im) := c in
  a <-! cval_mul re re ;;
  b <-! cval_mul im im ;;
  cval_add a b.

Definition complex_sqrt (a : value) : res value :=
  a <- to_complex a ;;
  c <- u_complex a ;;
  let '(_, u, a_im) := c in
  t <-! cval_abs a ;;
  s1 <-! cval_add t u ;;
  h1 <-! cval_div s1 (cint_from_int 2) ;;
  re <-! e_sqrt E h1 ;;
  s2 <-! cval_sub t u ;;
  h2 <-! cval_div s2 (cint_from_int 2) ;;
  im <-! e_sqrt E h2 ;;
  neg <- cval_cmp_lt_int a_im 0 ;;
  im <-! (if neg then cval_neg im else Val im) ;;
  complex_new re im.

(** multiply by [I] *)
Definition complex_muli (v1 : value) : res value :=
  match v1 with
  | VComplex _ re im =>
      n <-! cval_neg im ;;
      complex_new n re
  | _ => Fault Aborted
  end.

Definition complex_inverse (v1 : value) : res value :=
  v1 <- to_complex v1 ;;
  c0 <- u_complex v1 ;;
  let '(_, re, im) := c0 in
  c <-! complex_norm2 v1 ;;
  a <-! cval_div re c ;;
  b0 <-! cval_div im c ;;
  b <-! cval_neg b0 ;;
  complex_new a b.

Definition complex_op1 (v1 : value) (op : BCOP1Enum) : res value :=
  c <- u_complex v1 ;;
  let '(_, re, im) := c in
  match op with
  | BC_OP1_NEG | BC_OP1_TRUNC | BC_OP1_FLOOR | BC_OP1_CEIL | BC_OP1_ROUND =>
      a <-! e_op1 E re op ;;
      b <-! e_op1 E im op ;;
      complex_new a b
  | BC_OP1_ABS =>
      n <-! complex_norm2 v1 ;;
      e_sqrt E n
  | BC_OP1_CONJ =>
      b <-! cval_neg im ;;
      complex_new re b
  | BC_OP1_RE => Val re
  | BC_OP1_IM => Val im
  | BC_OP1_SQRT => complex_sqrt v1
  | BC_OP1_EXP =>
      r <-! cval_exp re ;;
      co <-! cval_cos im ;;
      a <-! cval_mul co r ;;
      si <-! cval_sin im ;;
      b <-! cval_mul si r ;;
      complex_new a b
  | BC_OP1_LOG =>
      arg <-! cval_atan2 im re ;;
      r <-! cval_abs v1 ;;
      l <-! e_log E r ;;
      complex_new l arg
  | BC_OP1_SIN =>
      m <-! complex_muli v1 ;;
      t <-! cval_exp m ;;
      i <-! e_inverse E t ;;
      d <-! cval_sub t i ;;
      c2 <-! complex_new (cint_from_int 0) (cint_from_int 2) ;;
      cval_div d c2
  | BC_OP1_COS =>
      m <-! complex_muli v1 ;;
      t <-! cval_exp m ;;
      i <-! e_inverse E t ;;
      d <-! cval_add t i ;;
      cval_div d (cint_from_int 2)
  | BC_OP1_TAN =>
      m <-! complex_muli v1 ;;
      t <-! cval_exp m ;;
      t1 <-! e_inverse E t ;;
      a <-! cval_sub t t1 ;;
      b <-! cval_add t t1 ;;
      t2 <-! cval_div a b ;;
      c2 <- u_complex t2 ;;
      let '(_, re2, im2) := c2 in
      n <-! cval_neg re2 ;;
      complex_new im2 n
  | _ => cval_type_error "unsupported type"
  end.

Definition to_complex_frac (v1 : value) : res value :=
  c <- u_complex v1 ;;
  let '(el, re, im) := c in
  match tag el with
  | CTYPE_FRAC => Val v1
  | CTYPE_INT =>
      a <-! to_cfrac re ;;
      b <-! to_cfrac im ;;
      complex_new a b
  | _ => cval_type_error "integer or fractional complex expected"
  end.

Definition complex_op2 (v1 v2 : value) (op : BCOP2Enum) : res value :=
  v1 <- to_complex v1 ;;
  v2 <- to_complex v2 ;;
  c1 <- u_complex v1 ;;
  c2 <- u_complex v2 ;;
  let '(el1, re1, im1) := c1 in
  let '(el2, re2, im2) := c2 in
  match op with
  | BC_OP2_ADD =>
      a <-! cval_add re1 re2 ;;
      b <-! cval_add im1 im2 ;;
      complex_new a b
  | BC_OP2_SUB =>
      a <-! cval_sub re1 re2 ;;
      b <-! cval_sub im1 im2 ;;
      complex_new a b
  | BC_OP2_MUL | BC_OP2_DOT_MUL =>
      rr <-! cval_mul re1 re2 ;;
      ii <-! cval_mul im1 im2 ;;
      a <-! cval_sub rr ii ;;
      ri <-! cval_mul re1 im2 ;;
      ir <-! cval_mul im1 re2 ;;
      b <-! cval_add ri ir ;;
      complex_new a b
  | BC_OP2_DIV | BC_OP2_FRAC_DIV =>
      v2 <-! (if tag_eqb (tag el2) CTYPE_INT
                 && (match op with BC_OP2_FRAC_DIV => true | _ => false end
                     || tag_eqb (tag el1) CTYPE_FRAC)
              then to_complex_frac v2 else Val v2) ;;
      i <-! complex_inverse v2 ;;
      e_complex_op2 E v1 i BC_OP2_MUL
  | BC_OP2_POW =>
      l <-! e_log E v1 ;;
      m <-! cval_mul l v2 ;;
      cval_exp m
  | BC_OP2_CMP_EQ =>
      r <- cval_cmp_eq2 re1 re2 ;;
      r <- (if r then cval_cmp_eq2 im1 im2 else Val false) ;;
      Val (cbool_new r)
  | BC_OP2_CMP_LT | BC_OP2_CMP_LE =>
      cval_type_error "complex numbers are not comparable"
  | BC_OP2_DIVREM =>
      (* Gaussian integer Euclidian division *)
      if negb (tag_eqb (tag el1) CTYPE_INT && tag_eqb (tag el2) CTYPE_INT) then
        cval_type_error "both complex must have integer components for divrem"
      else
        q <- cval_frac_div v1 v2 ;;
        q <-! cval_round q ;;
        m <-! cval_mul v2 q ;;
        r <-# cval_sub v1 m ;;
        Val (carray_pair q r)
  | _ => cval_type_error "unsupported operation"
  end.

(** *** Strings *)

(** [len = st1->len + st2->len] is a sum of C [int]s (the lengths in
    bytes). *)
Definition cstring_concat (v1 v2 : value) : res value :=
  match v1, v2 with
  | VString s1, VString s2 =>
      len <- c_int (Z.of_nat (String.length s1) + Z.of_nat (String.length s2)) ;;
      Val (VString (String.append s1 s2))
  | _, _ => Fault NotModelled
  end.

(** *** Power series

    A series is [X^emin * (tab[0] + tab[1] X + ...) + O(X^(emin+len))].
    [emin] and [len] are C [int]s. *)

Definition is_poly_elem_type (g : BCTypeEnum) : bool :=
  match g with
  | CTYPE_INT | CTYPE_FRAC | CTYPE_DECIMAL | CTYPE_FLOAT | CTYPE_COMPLEX => true
  | _ => false
  end.

Definition ser_new (elem_type : BCType) (len emin : Z) : res value :=
  if len <? 0 then Fault Aborted
  else if negb (is_poly_elem_type (tag elem_type)) then
    cval_type_error "only numeric types are allowed in series"
  else if len =? 0 then Val (VSer elem_type emin [])
  else
    z <-# e_convert E (cint_from_int 0) elem_type ;;
    Val (VSer elem_type emin (repeat z (Z.to_nat len))).

Definition ser_new2 (t1 t2 : BCType) (len emin : Z) : res value :=
  t <- get_op2_type t1 t2 BC_OP2_ADD ;;
  ser_new t len emin.

(** [get_emin]: the number of leading coefficients equal to zero. *)
Fixpoint get_emin (tab : list value) : res Z :=
  match tab with
  | [] => Val 0
  | c :: rest =>
      z <- cval_cmp_eq_int c 0 ;;
      if z then e <- get_emin rest ;; Val (e + 1) else Val 0
  end.

(** The fields of a series. *)
Definition u_ser (v : value) : res (BCType * Z * list value) :=
  match v with
  | VSer el emin tab => Val (el, emin, tab)
  | _ => Fault NotModelled
  end.

Definition ser_len (tab : list value) : Z := Z.of_nat (List.length tab).

(** [ser_trim]: remove the leading zero terms (the source updates the
    series in place; here the trimmed series is returned). *)
Definition ser_trim (v1 : value) : res value :=
  p <- u_ser v1 ;;
  let '(el, emin, tab) := p in
  i <- get_emin tab ;;
  if i <=? 0 then Val v1
  else
    emin1 <- c_int (emin + i) ;;
    Val (VSer el emin1 (skipn (Z.to_nat i) tab)).

(** [set_value] on every cell, with the results stored untested. *)
Fixpoint store_all (l : list (res value)) : res (list value) :=
  match l with
  | [] => Val []
  | x :: rest =>
      v <-# x ;;
      vs <- store_all rest ;;
      Val (v :: vs)
  end.

Definition ser_neg (v1 : value) : res value :=
  p <- u_ser v1 ;;
  let '(el, emin, tab) := p in
  r <-! ser_new el (ser_len tab) emin ;;
  tab1 <- store_all (map cval_neg tab) ;;
  Val (VSer el emin tab1).

Fixpoint convert_all (l : list value) (elem_type : BCType) : res (list value) :=
  match l with
  | [] => Val []
  | x :: rest =>
      v <- e_convert E x elem_type ;;
      vs <- convert_all rest elem_type ;;
      Val (v :: vs)
  end.

Definition ser_convert (v1 : value) (elem_type : BCType) : res value :=
  p <- u_ser v1 ;;
  let '(_, emin, tab) := p in
  v <- ser_new elem_type (ser_len tab) emin ;;
  tab1 <- convert_all tab elem_type ;;
  ser_trim (VSer elem_type emin tab1).

(** The coefficient of [ser_add] at position [i] of the result. *)
Definition ser_add_coef (el : BCType) (emin emin1 emin2 : Z)
  (tab1 tab2 : list value) (i : Z) : res value :=
  j1 <- c_int (i + emin - emin1) ;;
  c1 <-! (if (0 <=? j1) && (j1 <? ser_len tab1)
          then Val (nth (Z.to_nat j1) tab1 VNull)
          else e_convert E (cint_from_int 0) el) ;;
  j2 <- c_int (i + emin - emin2) ;;
  c2 <-! (if (0 <=? j2) && (j2 <? ser_len tab2)
          then Val (nth (Z.to_nat j2) tab2 VNull)
          else e_convert E (cint_from_int 0) el) ;;
  cval_add c1 c2.

(** [ser_add] up to, and without, the final [ser_trim]. *)
Definition ser_add_untrimmed (v1 v2 : value) : res value :=
  let '(v1, v2) :=
    match v1 with VSer _ _ _ => (v1, v2) | _ => (v2, v1) end in
  p1 <- u_ser v1 ;;
  let '(el1, emin1, tab1) := p1 in
  d <- c_int (emin1 + ser_len tab1) ;;
  match v2 with
  | VSer el2 emin2 tab2 =>
      d2 <- c_int (emin2 + ser_len tab2) ;;
      let d := Z.min d d2 in
      let emin := Z.min emin1 emin2 in
      n <- c_int (d - emin) ;;
      r <-! ser_new2 el1 el2 n emin ;;
      pr <- u_ser r ;;
      let '(el, _, _) := pr in
      tab <- store_all
               (map (fun i => ser_add_coef el emin emin1 emin2 tab1 tab2 (Z.of_nat i))
                    (seq 0 (Z.to_nat n))) ;;
      Val (VSer el emin tab)
  | _ =>
      (* the other operand is a scalar: it goes through to_poly *)
      Fault NotModelled
  end.

(** at least one argument must be a series *)
Definition ser_add (v1 v2 : value) : res value :=
  r <- ser_add_untrimmed v1 v2 ;;
  ser_trim r.

Definition ser_sub (v1 v2 : value) : res value :=
  n <-! cval_neg v2 ;;
  ser_add v1 n.

Definition list_set (l : list value) (i : nat) (v : value) : list value :=
  firstn i l ++ v :: skipn (Datatypes.S i) l.

(** The inner loop of [ser_mul]: [j] runs over [js]. *)
Fixpoint ser_mul_inner (tab1 tab2 : list value) (i : nat) (js : list nat)
  (tab : list value) : res (list value) :=
  match js with
  | [] => Val tab
  | j :: rest =>
      m <-! cval_mul (nth i tab1 VNull) (nth j tab2 VNull) ;;
      c <-# cval_add (nth (i + j) tab VNull) m ;;
      ser_mul_inner tab1 tab2 i rest (list_set tab (i + j) c)
  end.

(** The outer loop of [ser_mul]: [i] runs over [idxs], with [j < n - i]. *)
Fixpoint ser_mul_outer (tab1 tab2 : list value) (n : nat) (idxs : list nat)
  (tab : list value) : res (list value) :=
  match idxs with
  | [] => Val tab
  | i :: rest =>
      tab' <- ser_mul_inner tab1 tab2 i (seq 0 (n - i)) tab ;;
      ser_mul_outer tab1 tab2 n rest tab'
  end.

(** [ser_mul] up to, and without, the final [ser_trim]. *)
Definition ser_mul_untrimmed (v1 v2 : value) : res value :=
  match v1, v2 with
  | VSer el1 emin1 tab1, VSer el2 emin2 tab2 =>
      emin <- c_int (emin1 + emin2) ;;
      let n := Z.min (ser_len tab1) (ser_len tab2) in
      r <-! ser_new2 el1 el2 n emin ;;
      pr <- u_ser r ;;
      let '(el, _, tab0) := pr in
      tab <- ser_mul_outer tab1 tab2 (Z.to_nat n) (seq 0 (Z.to_nat n)) tab0 ;;
      Val (VSer el emin tab)
  | _, _ =>
      (* the other operand is not a series: it goes through to_ser *)
      Fault NotModelled
  end.

(** at least one argument must be a series *)
Definition ser_mul (v1 v2 : value) : res value :=
  r <- ser_mul_untrimmed v1 v2 ;;
  ser_trim r.

Definition ser_op2 (v1 v2 : value) (op : BCOP2Enum) : res value :=
  match op with
  | BC_OP2_ADD => ser_add v1 v2
  | BC_OP2_SUB => ser_sub v1 v2
  | BC_OP2_MUL | BC_OP2_DOT_MUL => ser_mul v1 v2
  | BC_OP2_DIV | BC_OP2_FRAC_DIV => Fault NotModelled   (* ser_div *)
  | _ => cval_type_error "unsupported operation"
  end.

Definition ser_op1 (v1 : value) (op : BCOP1Enum) : res value :=
  match op with
  | BC_OP1_NEG => ser_neg v1
  | BC_OP1_LOG | BC_OP1_EXP | BC_OP1_SIN | BC_OP1_COS | BC_OP1_TAN =>
      Fault NotModelled   (* ser_log, ser_exp *)
  | _ => cval_type_error "unsupported type"
  end.

(** *** The generic value operations *)

Definition cval_convert (v1 : value) (t1 : BCType) : res value :=
  same <- same_type (vtype v1) t1 ;;
  if same then Val v1
  else
    match tag t1 with
    | CTYPE_INT => to_cint v1
    | CTYPE_FRAC => to_cfrac v1
    | CTYPE_FLOAT => to_float1 v1 true
    | CTYPE_DECIMAL => to_dec1 v1 true
    | CTYPE_COMPLEX =>
        match to_complex v1 with
        | Val v1 =>
            c <- u_complex v1 ;;
            let '(_, re, im) := c in
            match elem_type t1 with
            | Some el => complex_new2 re im el
            | None => Fault NullDeref
            end
        | Exc _ _ => cval_type_error "cannot convert type"   (* goto fail *)
        | Fault f => Fault f
        end
    | CTYPE_POLY | CTYPE_RFRAC => Fault NotModelled   (* to_poly, to_rfrac *)
    | CTYPE_SER =>
        match v1 with
        | VSer _ _ _ =>
            match elem_type t1 with
            | Some el => ser_convert v1 el
            | None => Fault NullDeref
            end
        | _ => cval_type_error "cannot convert type"
        end
    | _ => cval_type_error "cannot convert type"
    end.

Definition cval_op2 (v1 v2 : value) (op : BCOP2Enum) : res value :=
  let max_type := max_tag (cval_type v1) (cval_type v2) in
  match max_type with
  | CTYPE_INT | CTYPE_BOOL =>
      match op with
      | BC_OP2_DIV => cdec_op2 v1 v2 op
      | _ => cint_op2 v1 v2 op
      end
  | CTYPE_FRAC => cfrac_op2 v1 v2 op
  | CTYPE_DECIMAL => cdec_op2 v1 v2 op
  | CTYPE_FLOAT => cfloat_op2 v1 v2 op
  | CTYPE_COMPLEX => complex_op2 v1 v2 op
  | CTYPE_TENSOR | CTYPE_POLY | CTYPE_RFRAC =>
      Fault NotModelled   (* tensor_op2, poly_op2, rfrac_op2 *)
  | CTYPE_SER => ser_op2 v1 v2 op
  | _ =>
      if tag_eqb (cval_type v1) CTYPE_STRING && tag_eqb (cval_type v2) CTYPE_STRING
         && match op with BC_OP2_ADD => true | _ => false end
      then cstring_concat v1 v2
      else cval_type_error "incompatible types"
  end.

Definition cval_inverse (v1 : value) : res value :=
  let g := cval_type v1 in
  if tag_leb g CTYPE_FLOAT || tag_eqb g CTYPE_POLY || tag_eqb g CTYPE_RFRAC then
    cval_div (cint_from_int 1) v1
  else if tag_eqb g CTYPE_COMPLEX then complex_inverse v1
  else if tag_eqb g CTYPE_TENSOR then Fault NotModelled   (* matrix_inverse *)
  else if tag_eqb g CTYPE_SER then Fault NotModelled      (* ser_inverse *)
  else cval_type_error "incompatible type".

(** The loop of [generic_pow]: binary exponentiation on the bits of
    [b > 0].  [r] is the accumulator, possibly still [BC_EXCEPTION]. *)
Definition generic_pow_body (s : res value * value * Z)
  : res (step (res value * value * Z) value) :=
  let '(r, a, b) := s in
  let sb := BfInt.bf_get_int32_mod b in
  r <- (if Z.odd sb then
          r0 <-! r ;;
          Val (cval_mul r0 a)
        else Val r) ;;
  b1 <-! cint_shl (VInt b) (cint_from_int (-1)) ;;
  z <- cval_cmp_eq_int b1 0 ;;
  if z then r0 <- r ;; Val (Break r0)
  else
    a1 <-! cval_mul a a ;;
    b2 <- u_cint b1 ;;
    Val (Continue (r, a1, b2)).

Definition generic_pow (a b : value) : res value :=
  let r :=
    match a with
    | VSer _ _ _ => Fault NotModelled   (* to_ser *)
    | _ => e_convert E (cint_from_int 1) (vtype a)
    end in
  z <- cval_cmp_eq_int b 0 ;;
  if z then r
  else
    neg <- cval_cmp_lt_int b 0 ;;
    ab <- (if neg then
             a1 <- cval_inverse a ;;
             b1 <-! cval_neg b ;;
             Val (a1, b1)
           else Val (a, b)) ;;
    let '(a, b) := ab in
    bz <- u_cint b ;;
    while_loop (Z.abs bz + 1) generic_pow_body (r, a, bz).

Definition cval_pow (v1 v2 : value) : res value :=
  let max_type := max_tag (cval_type v1) (cval_type v2) in
  if tag_eqb max_type CTYPE_INT then
    neg <- cval_cmp_lt_int v2 0 ;;
    if neg then cdec_op2 v1 v2 BC_OP2_POW   (* for convenience, return a float *)
    else cint_op2 v1 v2 BC_OP2_POW
  else if tag_eqb max_type CTYPE_DECIMAL then cdec_op2 v1 v2 BC_OP2_POW
  else if tag_eqb max_type CTYPE_FLOAT then cfloat_op2 v1 v2 BC_OP2_POW
  else if tag_eqb (cval_type v1) CTYPE_TENSOR && tag_eqb (cval_type v2) CTYPE_TENSOR then
    Fault NotModelled   (* tensor_op2 *)
  else if tag_eqb (cval_type v2) CTYPE_INT then generic_pow v1 v2
  else if tag_eqb max_type CTYPE_COMPLEX then complex_op2 v1 v2 BC_OP2_POW
  else if tag_eqb (cval_type v1) CTYPE_SER then Fault NotModelled   (* ser_exp, ser_log *)
  else cval_type_error "incompatible types".

(** only for integer or complex(int) *)
Definition cval_divexact (v1 v2 : value) : res value :=
  arr <- cval_divrem v1 v2 ;;
  match arr with
  | VArray (q :: r :: _) =>
      is_zero <- cval_cmp_eq_int r 0 ;;
      if negb is_zero then cval_range_error "division is not exact"
      else Val q
  | _ => Fault NotModelled
  end.

Definition is_transcendental_op (op : BCOP1Enum) : bool :=
  match op with
  | BC_OP1_SQRT | BC_OP1_EXP | BC_OP1_LOG | BC_OP1_SIN | BC_OP1_COS
  | BC_OP1_TAN | BC_OP1_ASIN | BC_OP1_ACOS | BC_OP1_ATAN => true
  | _ => false
  end.

Definition cval_op1_dispatch (v1 : value) (op : BCOP1Enum) : res value :=
  match cval_type v1 with
  | CTYPE_INT => cint_op1 v1 op
  | CTYPE_FRAC => cfrac_op1 v1 op
  | CTYPE_DECIMAL => cdec_op1 v1 op
  | CTYPE_FLOAT => cfloat_op1 v1 op
  | CTYPE_COMPLEX => complex_op1 v1 op
  | CTYPE_POLY | CTYPE_RFRAC | CTYPE_TENSOR =>
      Fault NotModelled   (* poly_op1, rfrac_op1, tensor_op1 *)
  | CTYPE_SER => ser_op1 v1 op
  | _ => cval_type_error "unsupported type"
  end.

Definition cval_op1 (v1 : value) (op : BCOP1Enum) : res value :=
  if is_transcendental_op op then
    v1 <- (if tag_ltb (cval_type v1) CTYPE_DECIMAL then to_dec v1 else Val v1) ;;
    cval_op1_dispatch v1 op
  else if match op with BC_OP1_CONJ | BC_OP1_RE | BC_OP1_IM => true | _ => false end
          && tag_leb (cval_type v1) CTYPE_FLOAT then
    match op with
    | BC_OP1_IM => e_convert E (cint_from_int 0) (vtype v1)
    | _ => Val v1
    end
  else cval_op1_dispatch v1 op.

Definition cval_sqrt (v1 : value) : res value :=
  neg <- (if tag_leb (cval_type v1) CTYPE_FLOAT then cval_cmp_lt_int v1 0
          else Val false) ;;
  if neg then
    (* for convenience, return a complex value *)
    n <-! cval_neg v1 ;;
    s <-! e_sqrt E n ;;
    complex_new (cint_from_int 0) s
  else cval_op1 v1 BC_OP1_SQRT.

Definition cval_log (v1 : value) : res value :=
  (* for convenience in the scalar log case, we redirect to complex
     in case the argument is negative *)
  neg <- (if tag_leb (cval_type v1) CTYPE_FLOAT then cval_cmp_lt_int v1 0
          else Val false) ;;
  v1 <-! (if neg then to_complex v1 else Val v1) ;;
  cval_op1 v1 BC_OP1_LOG.

End Engine.

(** ** Tying the knot *)

Definition engine_bottom {B : Bignum} : engine := {|
  e_op2 := fun _ _ _ => Fault OutOfFuel;
  e_op1 := fun _ _ => Fault OutOfFuel;
  e_convert := fun _ _ => Fault OutOfFuel;
  e_sqrt := fun _ => Fault OutOfFuel;
  e_log := fun _ => Fault OutOfFuel;
  e_inverse := fun _ => Fault OutOfFuel;
  e_cint_op2 := fun _ _ _ => Fault OutOfFuel;
  e_cdec_op2 := fun _ _ _ => Fault OutOfFuel;
  e_cfloat_op2 := fun _ _ _ => Fault OutOfFuel;
  e_complex_op2 := fun _ _ _ => Fault OutOfFuel
|}.

(** [engine_at fuel]: the generic entry points, with nested calls through the
    dispatch allowed down to depth [fuel]. *)
Fixpoint engine_at {B : Bignum} (fuel : nat) : engine :=
  match fuel with
  | O => engine_bottom
  | Datatypes.S n =>
      let E := engine_at n in
      {| e_op2 := cval_op2 E;
         e_op1 := cval_op1 E;
         e_convert := cval_convert E;
         e_sqrt := cval_sqrt E;
         e_log := cval_log E;
         e_inverse := cval_inverse E;
         e_cint_op2 := cint_op2 E;
         e_cdec_op2 := cdec_op2 E;
         e_cfloat_op2 := cfloat_op2 E;
         e_complex_op2 := complex_op2 E |}
  end.

(** ** Integer number theory *)

(** The loop of [bf_invmod]: the extended Euclidean algorithm on
    [(u, v, c, a)]. *)
Definition bf_invmod_body (s : Z * Z * Z * Z)
  : res (step (Z * Z * Z * Z) (Z * Z)) :=
  let '(u, v, c, a) := s in
  if u =? 0 then Val (Break (v, a))
  else
    match BfInt.bf_divrem v u BF_DIVREM_EUCLIDIAN with
    | Some (q, t) => Val (Continue (t, u, a - q * c, c))
    | None => Fault NotModelled
    end.

(** [bf_invmod]: [None] is the status -1 (not invertible). *)
Definition bf_invmod (x y : Z) : res (option Z) :=
  va <- while_loop (Z.abs x + 2) bf_invmod_body (x, y, 1, 0) ;;
  let '(v, a) := va in
  if negb (v =? 1) then Val None
  else
    match BfInt.bf_divrem a y BF_DIVREM_EUCLIDIAN with
    | Some (_, r) => Val (Some r)
    | None => Fault NotModelled
    end.

Definition small_primes : list Z :=
  [ 2; 3; 5; 7; 11; 13; 17; 19; 23; 29; 31; 37; 41; 43; 47; 53; 59; 61; 67;
    71; 73; 79; 83; 89; 97; 101; 103; 107; 109; 113; 127; 131; 137; 139;
    149; 151; 157; 163; 167; 173; 179; 181; 191; 193; 197; 199; 211; 223;
    227; 229; 233; 239; 241; 251; 257; 263; 269; 271; 277; 281; 283; 293;
    307; 311; 313; 317; 331; 337; 347; 349; 353; 359; 367; 373; 379; 383;
    389; 397; 401; 409; 419; 421; 431; 433; 439; 443; 449; 457; 461; 463;
    467; 479; 487; 491; 499 ].

Section NumberTheory.

Context {B : Bignum}.
Variable E : engine.

(** inverse modulo m *)
Definition cint_invmod (v1 v2 : value) : res value :=
  match v1, v2 with
  | VInt x, VInt y =>
      neg <- cval_cmp_lt_int E v2 1 ;;
      if neg then cval_range_error "the modulo must be positive"
      else
        r <- bf_invmod x y ;;
        match r with
        | Some z => Val (VInt z)
        | None => cval_range_error "not invertible"
        end
  | _, _ => cval_type_error "cannot convert to integer"
  end.

(** The loop of [cint_pmod] on [(r, a, b)], with [b > 0]. *)
Definition cint_pmod_body (m : value) (s : value * value * value)
  : res (step (value * value * value) value) :=
  let '(r, a, b) := s in
  bz <- u_cint b ;;
  let sb := BfInt.bf_get_int32_mod bz in
  r <-! (if Z.odd sb then
           t <-! cval_mul E r a ;;
           cval_mod E t m
         else Val r) ;;
  b <-! cint_shl b (cint_from_int (-1)) ;;
  z <- cval_cmp_eq_int E b 0 ;;
  if z then Val (Break r)
  else
    t <-! cval_mul E a a ;;
    a <-! cval_mod E t m ;;
    Val (Continue (r, a, b)).

Definition cint_pmod (a b m : value) : res value :=
  if negb (is_int a && is_int b && is_int m) then
    cval_type_error "integer expected"
  else
    neg <- cval_cmp_lt_int E m 1 ;;
    if neg then cval_range_error "the modulo must be positive"
    else
      let r := cint_from_int 1 in
      z <- cval_cmp_eq_int E b 0 ;;
      if z then Val r
      else
        neg <- cval_cmp_lt_int E b 0 ;;
        ab <- (if neg then
                 a1 <- cint_invmod a m ;;
                 b1 <-! cval_neg E b ;;
                 Val (a1, b1)
               else Val (a, b)) ;;
        let '(a, b) := ab in
        bz <- u_cint b ;;
        while_loop (Z.abs bz + 1) (cint_pmod_body m) (r, a, b).

Definition cint_ctz1 (v1 : value) : res Z :=
  a <- u_cint v1 ;;
  if a =? 0 then Val (-1) else Val (BfInt.bf_get_exp_min a).

Definition cval_shl (v1 v2 : value) : res value :=
  match v2 with
  | VInt _ => cint_shl v1 v2
  | _ => cval_type_error "right argument in shifts must be an integer"
  end.

(** The inner loop of [miller_rabin_test]: [cnt] squarings are left.
    The result is [Some false] for a composite witness and [Some true]
    when [n - 1] was met; [None] when the squarings are used up. *)
Fixpoint miller_rabin_squarings (n n1 : value) (cnt : nat) (r : value)
  : res (option bool) :=
  match cnt with
  | O => Val None
  | Datatypes.S cnt' =>
      r <-! cval_mul E r r ;;
      r <-! cval_mod E r n ;;
      one <- cval_cmp_eq_int E r 1 ;;
      if one then Val (Some false)
      else
        m1 <- cval_cmp_eq2 E r n1 ;;
        if m1 then Val (Some true)
        else miller_rabin_squarings n n1 cnt' r
  end.

(** The loop of [miller_rabin_test] over the bases. *)
Fixpoint miller_rabin_bases (n n1 d : value) (s : Z) (bases : list Z)
  : res bool :=
  match bases with
  | [] => Val true
  | a :: rest =>
      r <-! cint_pmod (cint_from_int a) d n ;;
      one <- cval_cmp_eq_int E r 1 ;;
      pass <- (if one then Val true else cval_cmp_eq2 E r n1) ;;
      if pass then miller_rabin_bases n n1 d s rest
      else
        w <- miller_rabin_squarings n n1 (Z.to_nat (s - 1)) r ;;
        match w with
        | Some true => miller_rabin_bases n n1 d s rest
        | Some false => Val false
        | None => Val false   (* n is composite *)
        end
  end.

Definition miller_rabin_test (n : value) (t : Z) : res bool :=
  if negb (is_int n) then Fault Aborted
  else
    d <-! cval_sub E n (cint_from_int 1) ;;
    s <- cint_ctz1 d ;;
    d <-! cval_shl d (cint_from_int (- s)) ;;
    let t := Z.min t (Z.of_nat (List.length small_primes)) in
    n1 <-! cval_sub E n (cint_from_int 1) ;;
    miller_rabin_bases n n1 d s (firstn (Z.to_nat t) small_primes).

(** return true if b divides a *)
Definition cint_divide (a b : value) : res bool :=
  r <-! cval_mod E a b ;;
  cval_cmp_eq_int E r 0.

(** The trial divisions of [is_prime]: [None] when the table is used up. *)
Fixpoint is_prime_trial (n : value) (primes : list Z) : res (option bool) :=
  match primes with
  | [] => Val None
  | d :: rest =>
      dv <- cint_divide n (cint_from_int d) ;;
      if dv then Val (Some false)
      else
        small <- cval_cmp_lt_int E n (d * d) ;;
        if small then Val (Some true)
        else is_prime_trial n rest
  end.

Definition is_prime (n : value) (t : Z) : res bool :=
  if negb (is_int n) then Fault Aborted
  else
    let t := if t =? 0 then 64 else t in
    lt2 <- cval_cmp_lt_int E n 2 ;;
    if lt2 then Val false
    else
      w <- is_prime_trial n small_primes ;;
      match w with
      | Some b => Val b
      | None => miller_rabin_test n t
      end.

(** [carray_push1] on the array under construction. *)
Definition carray_push1 (tab : list value) (a : value) : list value :=
  tab ++ [a].

(** First loop of [cint_factor]: the factors 2. *)
Definition factor_twos_body (s : value * list value)
  : res (step (value * list value) (value * list value)) :=
  let '(n, r) := s in
  dv <- cint_divide n (cint_from_int 2) ;;
  if negb dv then Val (Break (n, r))
  else
    let r := carray_push1 r (cint_from_int 2) in
    n <-! cval_divexact E n (cint_from_int 2) ;;
    Val (Continue (n, r)).

(** The search for the next odd divisor [d] of [n]. *)
Definition factor_search_body (n : value) (d : Z) : res (step Z Z) :=
  dv <- cint_divide n (cint_from_int d) ;;
  if dv then Val (Break d)
  else
    d <- c_int64 (d + 2) ;;
    Val (Continue d).

(** The divisions of [n] by the divisor [d] found. *)
Definition factor_divide_body (d : Z) (s : value * list value)
  : res (step (value * list value) (value * list value)) :=
  let '(n, r) := s in
  let r := carray_push1 r (cint_from_int d) in
  n <-! cval_divexact E n (cint_from_int d) ;;
  dv <- cint_divide n (cint_from_int d) ;;
  if negb dv then Val (Break (n, r)) else Val (Continue (n, r)).

(** The bound given to the loops of [cint_factor]: the number factored. *)
Definition factor_bound (n : value) : Z :=
  match n with
  | VInt z => Z.abs z + 1
  | _ => 1
  end.

(** Main loop of [cint_factor], over the odd divisors. *)
Definition factor_odd_body (bound : Z) (s : value * Z * list value)
  : res (step (value * Z * list value) (list value)) :=
  let '(n, d, r) := s in
  one <- cval_cmp_eq_int E n 1 ;;
  if one then Val (Break r)
  else
    (* test if prime *)
    p <- is_prime n 0 ;;
    if p then Val (Break (carray_push1 r n))
    else
      (* we are sure this is at least one divisor, so one test *)
      d <- while_loop bound (factor_search_body n) d ;;
      nr <- while_loop bound (factor_divide_body d) (n, r) ;;
      let '(n, r) := nr in
      Val (Continue (n, d, r)).

Definition cint_factor (n : value) : res value :=
  match n with
  | VInt _ =>
      lt1 <- cval_cmp_lt_int E n 1 ;;
      if lt1 then cval_range_error "positive integer expected"
      else
        let bound := factor_bound n in
        (* test 2 *)
        nr <- while_loop bound factor_twos_body (n, []) ;;
        let '(n, r) := nr in
        (* test odd numbers *)
        r <- while_loop bound (factor_odd_body bound) (n, 3, r) ;;
        Val (VArray r)
  | _ => cval_type_error "integer expected"
  end.

End NumberTheory.

(** ** Strings *)

Definition byte_of (c : ascii) : Z := Z.of_N (N_of_ascii c).

(** A byte of the form 10xxxxxx. *)
Definition is_continuation (c : ascii) : bool :=
  (0x80 <=? byte_of c) && (byte_of c <? 0xc0).

(** [cstring_len]: the number of bytes that start a character. *)
Fixpoint cstring_len (s : string) : Z :=
  match s with
  | EmptyString => 0
  | String c rest =>
      (if (byte_of c <? 0x80) || (0xc0 <=? byte_of c) then 1 else 0)
      + cstring_len rest
  end.

(** The inner loop of [utf8_pos]: the continuation bytes at the head of
    the buffer; the terminating zero stops it. *)
Fixpoint skip_continuation (s : string) : Z * string :=
  match s with
  | EmptyString => (0, EmptyString)
  | String c rest =>
      if is_continuation c then
        let '(k, rest') := skip_continuation rest in (k + 1, rest')
      else (0, s)
  end.

(** [utf8_pos str char_pos]: the byte offset of the character number
    [char_pos]; [str] is the buffer from the current position to its
    terminating zero. *)
Fixpoint utf8_pos (str : string) (char_pos : nat) : res Z :=
  match char_pos with
  | O => Val 0
  | Datatypes.S k =>
      match str with
      | EmptyString => Fault OutOfBounds   (* p++ steps over the terminator *)
      | String _ rest =>
          let '(c, rest') := skip_continuation rest in
          r <- utf8_pos rest' k ;;
          Val (1 + c + r)
      end
  end.

Fixpoint string_skipn (n : nat) (s : string) : string :=
  match n, s with
  | O, _ => s
  | Datatypes.S k, EmptyString => EmptyString
  | Datatypes.S k, String _ rest => string_skipn k rest
  end.

Fixpoint string_firstn (n : nat) (s : string) : string :=
  match n, s with
  | O, _ => EmptyString
  | Datatypes.S k, EmptyString => EmptyString
  | Datatypes.S k, String c rest => String c (string_firstn k rest)
  end.

Definition clamp_int (v lo hi : Z) : Z :=
  if v <? lo then lo else if hi <? v then hi else v.

Section Strings.

Context {B : Bignum}.

Definition cstring_slice (str : string) (start stop : Z) : res value :=
  if start =? stop then Val (VString EmptyString)
  else
    start1 <- utf8_pos str (Z.to_nat start) ;;
    len1 <- utf8_pos (string_skipn (Z.to_nat start1) str) (Z.to_nat (stop - start)) ;;
    Val (VString (string_firstn (Z.to_nat len1)
                    (string_skipn (Z.to_nat start1) str))).

(** [cstring_getitem n_args args]: [args] holds the string and the
    subscripts. *)
Definition cstring_getitem (args : list value) : res value :=
  match args with
  | [v; idx] =>
      match v with
      | VString str =>
          let len := cstring_len str in
          match idx with
          | VRange start stop =>
              (* slice *)
              let start := if start =? RANGE_DEFAULT then 0 else start in
              let stop := if stop =? RANGE_DEFAULT then len else stop in
              let start := if start <? 0 then start + len else start in
              let stop := if stop <? 0 then stop + len else stop in
              let start := if start <? 0 then 0 else start in
              let start := clamp_int start 0 len in
              let stop := clamp_int stop 0 len in
              let stop := if stop <? start then start else stop in
              cstring_slice str start stop
          | _ =>
              idx <- cint_to_int idx ;;
              let idx := if idx <? 0 then idx + len else idx in
              if (idx <? 0) || (len <=? idx) then
                cval_range_error "array index out of bounds"
              else cstring_slice str idx (idx + 1)
          end
      | _ => Fault NotModelled
      end
  | _ => cval_type_error "strings have a single dimension"
  end.

End Strings.


(** * Vocabulary of the properties *)

(** The normal form computed by [cfrac_new] for [num / den]. *)
Definition frac_norm (num den : Z) : Z * Z :=
  let g := Z.gcd num den in
  (Z.sgn den * num / g, Z.abs den / g).

(** The invariant of a Fraction: positive denominator, lowest terms. *)
Definition frac_ok (num den : Z) : Prop :=
  0 < den /\ Z.gcd (Z.abs num) den = 1.

(** Every Fraction inside a value satisfies the invariant. *)
Fixpoint frac_inv {B : Bignum} (v : value) : Prop :=
  match v with
  | VFrac n d => frac_ok n d
  | VComplex _ re im => frac_inv re /\ frac_inv im
  | VSer _ _ tab =>
      (fix all (l : list value) : Prop :=
         match l with [] => True | x :: r => frac_inv x /\ all r end) tab
  | VArray tab =>
      (fix all (l : list value) : Prop :=
         match l with [] => True | x :: r => frac_inv x /\ all r end) tab
  | _ => True
  end.

(** The rational number denoted by a Fraction with a positive denominator. *)
Definition frac_Q (num den : Z) : Q := Qmake num (Z.to_pos den).

(** An operand of fraction arithmetic: a Boolean, an Integer or a
    Fraction that satisfies the invariant. *)
Definition frac_operand {B : Bignum} (v : value) : Prop :=
  match v with
  | VBool _ | VInt _ => True
  | VFrac n d => frac_ok n d
  | _ => False
  end.

(** An Integer or Boolean operand, and the integer it stands for. *)
Definition int_operand {B : Bignum} (v : value) : option Z :=
  match v with
  | VInt z => Some z
  | VBool b => Some (if b then 1 else 0)
  | _ => None
  end.

(** A reference implementation of the bignum primitives: exact rational
    arithmetic extended with NaN and the two infinities.  It has no
    rounding and no transcendental functions (they return NaN). *)
Module RationalBignum.

Inductive xnum : Type :=
| XNaN
| XInf (neg : bool)
| XFin (q : Q).

Definition of_Z (z : Z) : xnum := XFin (inject_Z z).

Definition q_ltb (a b : Q) : bool := Qnum a * QDen b <? Qnum b * QDen a.
Definition q_eqb (a b : Q) : bool := Qnum a * QDen b =? Qnum b * QDen a.
Definition q_is_zero (a : Q) : bool := Qnum a =? 0.

Definition neg (x : xnum) : xnum :=
  match x with
  | XNaN => XNaN
  | XInf s => XInf (negb s)
  | XFin q => XFin (Qopp q)
  end.

Definition abs (x : xnum) : xnum :=
  match x with
  | XNaN => XNaN
  | XInf _ => XInf false
  | XFin q => XFin (Qmake (Z.abs (Qnum q)) (Qden q))
  end.

Definition add (x y : xnum) : xnum :=
  match x, y with
  | XNaN, _ | _, XNaN => XNaN
  | XInf s, XInf t => if Bool.eqb s t then XInf s else XNaN
  | XInf s, XFin _ | XFin _, XInf s => XInf s
  | XFin a, XFin b => XFin (Qred (Qplus a b))
  end.

Definition sub (x y : xnum) : xnum := add x (neg y).

Definition mul (x y : xnum) : xnum :=
  match x, y with
  | XNaN, _ | _, XNaN => XNaN
  | XInf s, XInf t => XInf (xorb s t)
  | XInf s, XFin q | XFin q, XInf s =>
      if q_is_zero q then XNaN else XInf (xorb s (q_ltb q 0))
  | XFin a, XFin b => XFin (Qred (Qmult a b))
  end.

Definition div (x y : xnum) : xnum :=
  match x, y with
  | XNaN, _ | _, XNaN => XNaN
  | XInf _, XInf _ => XNaN
  | XInf s, XFin q => XInf (xorb s (q_ltb q 0))
  | XFin _, XInf _ => XFin 0
  | XFin a, XFin b =>
      if q_is_zero b then
        if q_is_zero a then XNaN else XInf (q_ltb a 0)
      else XFin (Qred (Qdiv a b))
  end.

Definition rint (x : xnum) (rnd : bf_rnd_t) : xnum :=
  match x with
  | XFin q => XFin (inject_Z (BfInt.quotient (Qnum q) (QDen q) rnd))
  | _ => x
  end.

Definition rem (x y : xnum) (rnd : bf_rnd_t) : xnum :=
  match x, y with
  | XFin a, XFin b =>
      if q_is_zero b then XNaN
      else sub x (mul (rint (div x y) rnd) y)
  | XFin _, XInf _ => x
  | _, _ => XNaN
  end.

Definition sqrt (x : xnum) : xnum :=
  match x with
  | XNaN => XNaN
  | XInf s => if s then XNaN else XInf false
  | XFin q =>
      if q_ltb q 0 then XNaN
      else XFin (Qmake (Z.sqrt (Qnum q * QDen q)) (Qden q))
  end.

Definition cmp_eq (x y : xnum) : bool :=
  match x, y with
  | XInf s, XInf t => Bool.eqb s t
  | XFin a, XFin b => q_eqb a b
  | _, _ => false
  end.

Definition cmp_lt (x y : xnum) : bool :=
  match x, y with
  | XNaN, _ | _, XNaN => false
  | XInf s, XInf t => s && negb t
  | XInf s, XFin _ => s
  | XFin _, XInf t => negb t
  | XFin a, XFin b => q_ltb a b
  end.

Definition cmp_le (x y : xnum) : bool := cmp_lt x y || cmp_eq x y.

Definition to_int (x : xnum) : option Z :=
  match x with
  | XFin q => Some (Z.quot (Qnum q) (QDen q))
  | _ => None
  end.

Definition no_transcendental (x : xnum) : xnum := XNaN.

End RationalBignum.

Definition rational_bignum : Bignum := {|
  bfnum := RationalBignum.xnum;
  dec_prec := 16;
  dec_flags := 0;
  float_prec := 53;
  float_flags := 0;
  bfdec_set_si := RationalBignum.of_Z;
  bfdec_set_inf := RationalBignum.XInf;
  bfdec_from_int := fun z _ _ => RationalBignum.of_Z z;
  bfdec_from_f := fun x _ _ => x;
  bfdec_to_f := fun x _ _ => x;
  bfdec_to_int := RationalBignum.to_int;
  bfdec_add := fun x y _ _ => RationalBignum.add x y;
  bfdec_sub := fun x y _ _ => RationalBignum.sub x y;
  bfdec_mul := fun x y _ _ => RationalBignum.mul x y;
  bfdec_div := fun x y _ _ => RationalBignum.div x y;
  bfdec_rem := fun x y _ _ rnd => RationalBignum.rem x y rnd;
  bfdec_sqrt := fun x _ _ => RationalBignum.sqrt x;
  bfdec_rint := RationalBignum.rint;
  bfdec_neg := RationalBignum.neg;
  bfdec_abs := RationalBignum.abs;
  bfdec_cmp_eq := RationalBignum.cmp_eq;
  bfdec_cmp_lt := RationalBignum.cmp_lt;
  bfdec_cmp_le := RationalBignum.cmp_le;
  bf_set_si := RationalBignum.of_Z;
  bf_from_int := fun z _ _ => RationalBignum.of_Z z;
  bf_to_int := RationalBignum.to_int;
  bf_add := fun x y _ _ => RationalBignum.add x y;
  bf_sub := fun x y _ _ => RationalBignum.sub x y;
  bf_mul := fun x y _ _ => RationalBignum.mul x y;
  bf_div := fun x y _ _ => RationalBignum.div x y;
  bf_rem := fun x y _ _ rnd => RationalBignum.rem x y rnd;
  bf_pow := fun x _ _ _ => RationalBignum.no_transcendental x;
  bf_atan2 := fun x _ _ _ => RationalBignum.no_transcendental x;
  bf_sqrt := fun x _ _ => RationalBignum.sqrt x;
  bf_exp := fun x _ _ => RationalBignum.no_transcendental x;
  bf_log := fun x _ _ => RationalBignum.no_transcendental x;
  bf_sin := fun x _ _ => RationalBignum.no_transcendental x;
  bf_cos := fun x _ _ => RationalBignum.no_transcendental x;
  bf_tan := fun x _ _ => RationalBignum.no_transcendental x;
  bf_asin := fun x _ _ => RationalBignum.no_transcendental x;
  bf_acos := fun x _ _ => RationalBignum.no_transcendental x;
  bf_atan := fun x _ _ => RationalBignum.no_transcendental x;
  bf_rint := RationalBignum.rint;
  bf_neg := RationalBignum.neg;
  bf_abs := RationalBignum.abs;
  bf_cmp_eq := RationalBignum.cmp_eq;
  bf_cmp_lt := RationalBignum.cmp_lt;
  bf_cmp_le := RationalBignum.cmp_le
|}.


(** ** Assumptions on the bignum library

    Modelled from the spec: the error scenarios state that [1/0] is the
    decimal [Inf], not an error. *)
Definition div_by_zero_is_inf (B : Bignum) : Prop :=
  bfdec_div (bfdec_from_int 1 (Prec dec_prec) (FlagsCtx dec_flags))
            (bfdec_from_int 0 (Prec dec_prec) (FlagsCtx dec_flags))
            (Prec dec_prec) (FlagsCtx dec_flags)
  = bfdec_set_inf false.

(** ** Characters of a string

    A character is a byte that is not of the form 10xxxxxx, followed by
    bytes of that form; every string in UTF-8 is a sequence of such
    characters. *)
Definition uchar : Type := ascii * string.

Fixpoint all_continuation (s : string) : bool :=
  match s with
  | EmptyString => true
  | String c rest => is_continuation c && all_continuation rest
  end.

Definition uchar_ok (ch : uchar) : Prop :=
  is_continuation (fst ch) = false /\ all_continuation (snd ch) = true.

Definition uchar_bytes (ch : uchar) : string := String (fst ch) (snd ch).

Fixpoint concat_chars (l : list uchar) : string :=
  match l with
  | [] => EmptyString
  | ch :: rest => String.append (uchar_bytes ch) (concat_chars rest)
  end.

(** The index of [s[i]] in a string of [n] characters. *)
Definition resolve_index (i n : Z) : Z := if i <? 0 then i + n else i.

(** A string that does not start with a continuation byte. *)
Definition starts_char (s : string) : Prop :=
  match s with
  | EmptyString => True
  | String c _ => is_continuation c = false
  end.

(** ** Signs of real operands

    The zero with which a Decimal, respectively a Float, is compared:
    the conversion of the Integer 0. *)
Definition dec_zero {B : Bignum} : bfnum :=
  bfdec_from_int 0 (Prec dec_prec) (FlagsCtx dec_flags).

Definition float_zero {B : Bignum} : bfnum :=
  bf_from_int 0 (Prec float_prec) (FlagsCtx float_flags).

Definition real_operand {B : Bignum} (v : value) : Prop :=
  match v with
  | VInt _ | VDec _ | VFloat _ => True
  | VFrac p q => frac_ok p q
  | _ => False
  end.

(** The test [v < 0] of [cval_sqrt] and [cval_log]. *)
Definition is_negative {B : Bignum} (v : value) : bool :=
  match v with
  | VInt z => z <? 0
  | VFrac p _ => p <? 0
  | VDec x => bfdec_cmp_lt x dec_zero
  | VFloat x => bf_cmp_lt x float_zero
  | _ => false
  end.

(** The kind in which the square root or the logarithm of a real
    operand is computed. *)
Definition promoted_kind {B : Bignum} (v : value) : BCTypeEnum :=
  match v with
  | VFloat _ => CTYPE_FLOAT
  | _ => CTYPE_DECIMAL
  end.

Definition sub_decimal {B : Bignum} (v : value) : Prop :=
  match v with
  | VBool _ | VInt _ => True
  | VFrac p q => frac_ok p q
  | _ => False
  end.

(** Modelled from the spec: what the calculator needs from the order of
    the library.  The opposite of a number below zero is not below zero;
    a square root and a sum of two squares are not below zero (they may
    be NaN, which is below nothing). *)
Record sign_laws (B : Bignum) : Prop := {
  dec_neg_sign : forall x,
    bfdec_cmp_lt x dec_zero = true -> bfdec_cmp_lt (bfdec_neg x) dec_zero = false;
  dec_sqrt_sign : forall x p f,
    bfdec_cmp_lt (bfdec_sqrt x p f) dec_zero = false;
  dec_norm_sign : forall x y p f,
    bfdec_cmp_lt (bfdec_add (bfdec_mul x x p f) (bfdec_mul y y p f) p f) dec_zero
    = false;
  float_neg_sign : forall x,
    bf_cmp_lt x float_zero = true -> bf_cmp_lt (bf_neg x) float_zero = false;
  float_sqrt_sign : forall x p f,
    bf_cmp_lt (bf_sqrt x p f) float_zero = false;
  float_norm_sign : forall x y p f,
    bf_cmp_lt (bf_add (bf_mul x x p f) (bf_mul y y p f) p f) float_zero = false
}.

(** The zero of the kind of a real operand: the imaginary part it gets
    as a complex number. *)
Definition zero_like {B : Bignum} (v : value) : value :=
  match v with
  | VInt _ => VInt 0
  | VFrac _ _ => VFrac 0 1
  | VDec _ => VDec dec_zero
  | VFloat _ => VFloat float_zero
  | _ => VNull
  end.

(** The zero of the kind in which the result is computed. *)
Definition kind_zero {B : Bignum} (v : value) : value :=
  match v with
  | VFloat _ => VFloat float_zero
  | _ => VDec dec_zero
  end.

(** The Decimal that stands for a Boolean, an Integer, a Fraction or a
    Decimal: [0] or [1], the conversion of the Integer, the quotient of
    the conversions of the numerator and of the denominator, the Decimal
    itself. *)
Definition dec_of {B : Bignum} (v : value) : bfnum :=
  match v with
  | VBool b => bfdec_set_si (if b then 1 else 0)
  | VInt z => bfdec_from_int z (Prec dec_prec) (FlagsCtx dec_flags)
  | VFrac p q =>
      bfdec_div (bfdec_from_int p (Prec dec_prec) (FlagsCtx dec_flags))
                (bfdec_from_int q (Prec dec_prec) (FlagsCtx dec_flags))
                (Prec dec_prec) (FlagsCtx dec_flags)
  | VDec x => x
  | _ => dec_zero
  end.

(** The opposite [- v] of a real operand. *)
Definition opposite {B : Bignum} (v : value) : value :=
  match v with
  | VInt z => VInt (- z)
  | VFrac p q => VFrac (- p) q
  | VDec x => VDec (bfdec_neg x)
  | VFloat x => VFloat (bf_neg x)
  | _ => v
  end.

(** The square [v * v] of a real operand, in its own kind: the squared
    modulus of [v + 0 i]. *)
Definition real_square {B : Bignum} (v : value) : value :=
  match v with
  | VInt z => VInt (z * z)
  | VFrac p q => VFrac (p * p) (q * q)
  | VDec x =>
      VDec (bfdec_add (bfdec_mul x x (Prec dec_prec) (FlagsCtx dec_flags))
              (bfdec_mul dec_zero dec_zero (Prec dec_prec) (FlagsCtx dec_flags))
              (Prec dec_prec) (FlagsCtx dec_flags))
  | VFloat x =>
      VFloat (bf_add (bf_mul x x (Prec float_prec) (FlagsCtx float_flags))
                (bf_mul float_zero float_zero (Prec float_prec) (FlagsCtx float_flags))
                (Prec float_prec) (FlagsCtx float_flags))
  | _ => v
  end.

(** The square root of a real operand that is not below zero: the
    square root of the library, in the Floats for a Float and in the
    Decimals, after the conversion, for every other kind. *)
Definition real_sqrt {B : Bignum} (v : value) : value :=
  match v with
  | VFloat x => VFloat (bf_sqrt x (Prec float_prec) (FlagsCtx float_flags))
  | _ => VDec (bfdec_sqrt (dec_of v) (Prec dec_prec) (FlagsCtx dec_flags))
  end.

(** ** The primality test, on integers

    The test of [is_prime] as a function of the integer tested.  The
    modular power is a parameter, so that the test can be evaluated with
    any implementation of it. *)
Fixpoint mr_squarings_Z (n : Z) (cnt : nat) (r : Z) : option bool :=
  match cnt with
  | O => None
  | Datatypes.S cnt' =>
      let r := (r * r) mod n in
      if r =? 1 then Some false
      else if r =? n - 1 then Some true
      else mr_squarings_Z n cnt' r
  end.

Fixpoint mr_bases_Z (pm : Z -> Z -> Z -> Z) (n d s : Z) (bases : list Z)
  : bool :=
  match bases with
  | [] => true
  | a :: rest =>
      let r := pm a d n in
      if (r =? 1) || (r =? n - 1) then mr_bases_Z pm n d s rest
      else
        match mr_squarings_Z n (Z.to_nat (s - 1)) r with
        | Some true => mr_bases_Z pm n d s rest
        | _ => false
        end
  end.

Definition miller_rabin_Z (pm : Z -> Z -> Z -> Z) (n t : Z) : bool :=
  let s := BfInt.bf_get_exp_min (n - 1) in
  let e := fst (BfInt.bf_get_int64 (- s)) in
  let e := if e =? BfInt.INT64_MIN then BfInt.INT64_MIN + 1 else e in
  let d := BfInt.bf_mul_2exp_floor (n - 1) e in
  let t := Z.min t (Z.of_nat (List.length small_primes)) in
  mr_bases_Z pm n d s (firstn (Z.to_nat t) small_primes).

Fixpoint is_prime_trial_Z (n : Z) (primes : list Z) : option bool :=
  match primes with
  | [] => None
  | d :: rest =>
      if n mod d =? 0 then Some false
      else if n <? d * d then Some true
      else is_prime_trial_Z n rest
  end.

Definition is_prime_with (pm : Z -> Z -> Z -> Z) (n : Z) : bool :=
  if n <? 2 then false
  else
    match is_prime_trial_Z n small_primes with
    | Some b => b
    | None => miller_rabin_Z pm n 64
    end.

Definition pow_mod (a b m : Z) : Z := a ^ b mod m.

(** The numbers that [is_prime] accepts. *)
Definition is_prime_Z (n : Z) : bool := is_prime_with pow_mod n.

(** The modular power on big integers, for evaluation. *)
Fixpoint big_pow_mod (a : bigZ) (b : positive) (m : bigZ) : bigZ :=
  match b with
  | xH => BigZ.modulo a m
  | xO b' =>
      let r := big_pow_mod a b' m in BigZ.modulo (BigZ.mul r r) m
  | xI b' =>
      let r := big_pow_mod a b' m in
      BigZ.modulo (BigZ.mul (BigZ.modulo (BigZ.mul r r) m) a) m
  end.

Definition big_pm (a b m : Z) : Z :=
  BigZ.to_Z (big_pow_mod (BigZ.of_Z a) (Z.to_pos b) (BigZ.of_Z m)).

(** ** Factorisations *)

Definition product (l : list Z) : Z := fold_right Z.mul 1 l.

Fixpoint ascending (l : list Z) : Prop :=
  match l with
  | a :: rest =>
      match rest with
      | b :: _ => a <= b /\ ascending rest
      | [] => True
      end
  | [] => True
  end.

(** The trial divisor of [cint_factor] is a C [int64_t]: every divisor
    of [n] that the primality test rejects must have a divisor that
    fits. *)
Definition trial_divisors_fit (n : Z) : Prop :=
  forall m, (m | n) -> 1 < m -> is_prime_Z m = false ->
  exists d, 1 < d <= BfInt.INT64_MAX /\ (d | m).

(** A composite number that the primality test accepts: the product of
    three primes [p], [313 (p - 1) + 1] and [353 (p - 1) + 1]. *)
Definition pseudo_p1 : Z :=
  15920708751662815618309223938197979820117424712963284238537444438223859007714307420540794463094337412048139085832258856874033108482871.

Definition pseudo_p2 : Z := 313 * (pseudo_p1 - 1) + 1.

Definition pseudo_p3 : Z := 353 * (pseudo_p1 - 1) + 1.

Definition pseudoprime : Z := pseudo_p1 * pseudo_p2 * pseudo_p3.

(** ** Series with real coefficients *)

Definition real_kind (k : BCTypeEnum) : bool :=
  match k with
  | CTYPE_INT | CTYPE_FRAC | CTYPE_DECIMAL | CTYPE_FLOAT => true
  | _ => false
  end.

(** Two kinds of coefficients that have a common kind: all pairs but a
    Float with a Decimal. *)
Definition kinds_compatible (k1 k2 : BCTypeEnum) : bool :=
  match k1, k2 with
  | CTYPE_FLOAT, CTYPE_DECIMAL | CTYPE_DECIMAL, CTYPE_FLOAT => false
  | _, _ => true
  end.

(** A coefficient of kind [k]. *)
Definition coef_ok {B : Bignum} (k : BCTypeEnum) (c : value) : Prop :=
  cval_type c = k /\ real_operand c.

(** Exponents for which the arithmetic on C [int]s of the series
    operations does not overflow: the series holds the terms of exponent
    [e] to [e + l - 1]. *)
Definition exp_range (e l : Z) : Prop := - 2 ^ 30 <= e /\ e + l < 2 ^ 30.

(** * Ranges, arrays, subscripts and combinatorial functions

    The remaining functions of [bfcalc.c] that work on the kinds embedded
    above.  An array is updated in place by the source; the functions that
    update one return their result together with the contents of the array
    after the call, and an exception leaves the array as it was (every
    check of the source comes before its first store).

    The elements are held by value.  The source stores a reference to a
    new element; for a value that is not an array this is the same, as
    such a value is never changed.  An array that is stored is shared
    with its other holders, and may be the array that receives it
    ([a[0] = a]): the assignment of an array to an element is left out
    of the model ([NotModelled]). *)

Section Containers.

Context {B : Bignum}.
Variable E : engine.

(** *** Ranges *)

Definition crange_new (v1 v2 : value) : res value :=
  start <- match v1 with
           | VNull => Val RANGE_DEFAULT
           | _ => cint_to_int v1
           end ;;
  stop <- match v2 with
          | VNull => Val RANGE_DEFAULT
          | _ => cint_to_int v2
          end ;;
  Val (VRange start stop).

(** *** Arrays *)

Definition is_array (v : value) : bool := tag_eqb (cval_type v) CTYPE_ARRAY.

Definition carray_ctor (args : list value) : value := VArray args.

(** [carray_getsetitem n_args args is_set]: [args] holds the array, the
    subscript and, for an assignment, the new value.  The two loops over
    a slice are the folds over [i = 0 .. len - 1]. *)
Definition carray_getsetitem (args : list value) (is_set : bool)
  : res (value * list value) :=
  if negb (Z.of_nat (List.length args) =? 2 + (if is_set then 1 else 0)) then
    cval_type_error "arrays have a single dimension"
  else
    match args with
    | VArray tab :: a1 :: rest =>
        let arr_len := Z.of_nat (List.length tab) in
        match a1 with
        | VRange start stop =>
            (* slice *)
            let start := if start =? RANGE_DEFAULT then 0 else start in
            let stop := if stop =? RANGE_DEFAULT then arr_len else stop in
            let start := if start <? 0 then start + arr_len else start in
            let stop := if stop <? 0 then stop + arr_len else stop in
            let start := if start <? 0 then 0 else start in
            let start := clamp_int start 0 arr_len in
            let stop := clamp_int stop 0 arr_len in
            let stop := if stop <? start then start else stop in
            let len := stop - start in
            if is_set then
              match rest with
              | VArray tab1 :: _ =>
                  (* no insertion nor deletion *)
                  if negb (Z.of_nat (List.length tab1) =? len) then
                    cval_type_error "invalid length of right hande side array"
                  else if existsb is_array tab1 then
                    Fault NotModelled   (* a shared element *)
                  else
                    Val (VNull,
                         fold_left
                           (fun t i =>
                              list_set t (Z.to_nat start + i) (nth i tab1 VNull))
                           (seq 0 (Z.to_nat len)) tab)
              | _ :: _ =>
                  cval_type_error
                    "right hand side of array slice assignment must be an array"
              | [] => Fault OutOfBounds
              end
            else
              Val (VArray (map (fun i => nth (Z.to_nat start + i) tab VNull)
                             (seq 0 (Z.to_nat len))),
                   tab)
        | _ =>
            idx <- cint_to_int a1 ;;
            let idx := if idx <? 0 then idx + arr_len else idx in
            if (idx <? 0) || (arr_len <=? idx) then
              cval_range_error "array index out of bounds"
            else if is_set then
              match rest with
              | v :: _ =>
                  if is_array v then Fault NotModelled   (* a shared element *)
                  else Val (VNull, list_set tab (Z.to_nat idx) v)
              | [] => Fault OutOfBounds
              end
            else Val (nth (Z.to_nat idx) tab VNull, tab)
        end
    | _ => Fault NotModelled
    end.

Definition carray_getitem (args : list value) : res (value * list value) :=
  carray_getsetitem args false.

Definition carray_setitem (args : list value) : res (value * list value) :=
  carray_getsetitem args true.


Definition cval_len (v1 : value) : res value :=
  match v1 with
  | VArray tab => Val (cint_from_int (Z.of_nat (List.length tab)))
  | VString str => Val (cint_from_int (cstring_len str))
  | _ => cval_type_error "unsupported type for len"
  end.

(** *** Series subscripts *)

Definition ser_getitem (args : list value) : res value :=
  match args with
  | [v; a1] =>
      match v with
      | VSer el emin tab =>
          match a1 with
          | VRange _ _ =>
              cval_type_error "ranges are not supported for series"
          | _ =>
              idx <- cint_to_int a1 ;;
              idx <- c_int (idx - emin) ;;
              if (idx <? 0) || (ser_len tab <=? idx) then
                e_convert E (cint_from_int 0) el
              else Val (nth (Z.to_nat idx) tab VNull)
          end
      | _ => Fault NotModelled
      end
  | _ => cval_type_error "series have a single dimension"
  end.

(** *** Subscripts of any value *)

Definition cval_getitem (args : list value) : res value :=
  match args with
  | [] => Fault OutOfBounds
  | tab :: _ =>
      match cval_type tab with
      | CTYPE_ARRAY =>
          r <- carray_getitem args ;;
          Val (fst r)
      | CTYPE_TENSOR => Fault NotModelled   (* tensor_getitem *)
      | CTYPE_STRING => cstring_getitem args
      | CTYPE_POLY => Fault NotModelled     (* poly_getitem *)
      | CTYPE_SER => ser_getitem args
      | _ => cval_type_error "getitem is not supported for this type"
      end
  end.

Definition cval_setitem (args : list value) : res (value * list value) :=
  match args with
  | [] => Fault OutOfBounds
  | tab :: _ =>
      match cval_type tab with
      | CTYPE_ARRAY => carray_setitem args
      | CTYPE_TENSOR => Fault NotModelled   (* tensor_setitem *)
      | _ => cval_type_error "setitem is not supported for this type"
      end
  end.

(** *** Comparison, fraction parts and complement *)

Definition cval_cmp_neq (v1 v2 : value) : res value :=
  v <- e_op2 E v1 v2 BC_OP2_CMP_EQ ;;
  res <- cbool_to_int v ;;
  Val (cbool_new (negb res)).

Definition cval_num (v1 : value) : res value :=
  match cval_type v1 with
  | CTYPE_FRAC =>
      f <- u_frac v1 ;;
      Val (VInt (fst f))
  | CTYPE_RFRAC => Fault NotModelled   (* u.rfrac.num *)
  | _ => cval_type_error "incompatible type"
  end.

Definition cval_den (v1 : value) : res value :=
  match cval_type v1 with
  | CTYPE_FRAC =>
      f <- u_frac v1 ;;
      Val (VInt (snd f))
  | CTYPE_RFRAC => Fault NotModelled   (* u.rfrac.den *)
  | _ => cval_type_error "incompatible type"
  end.

Definition cval_not (v1 : value) : res value :=
  match v1 with
  | VInt x => Val (VInt (- (x + 1)))
  | _ => cval_type_error "operands must be integer"
  end.

Definition cval_gcd (v1 v2 : value) : res value :=
  if tag_eqb (cval_type v1) CTYPE_INT && tag_eqb (cval_type v1) CTYPE_INT then
    cint_gcd E v1 v2
  else if tag_eqb (cval_type v1) CTYPE_POLY && tag_eqb (cval_type v1) CTYPE_POLY
  then Fault NotModelled   (* poly_gcd *)
  else cval_type_error "incompatible types".

Definition cint_ctz (v1 : value) : res value :=
  match v1 with
  | VInt _ =>
      r <- cint_ctz1 v1 ;;
      Val (cint_from_int r)
  | _ => cval_type_error "integer expected"
  end.

(** *** Primes *)

Definition cint_isprime (args : list value) : res value :=
  if 2 <? Z.of_nat (List.length args) then
    cval_type_error "at most two arguments expected"
  else
    match args with
    | [] => Fault OutOfBounds
    | a0 :: rest =>
        if negb (is_int a0) then cval_type_error "integer expected"
        else
          t <- match rest with
               | a1 :: _ => cint_to_int a1
               | [] => Val 0
               end ;;
          res <- is_prime E a0 t ;;
          Val (cbool_new res)
    end.

(** The loop of [cint_nextprime]. *)
Definition cint_nextprime_body (v1 : value) : res (step value value) :=
  v1 <-! cval_add E v1 (cint_from_int 1) ;;
  p <- is_prime E v1 0 ;;
  if p then Val (Break v1) else Val (Continue v1).

(** The source loops until [is_prime] accepts a number; [bound] limits
    the iterations of the embedding. *)
Definition cint_nextprime (bound : Z) (v1 : value) : res value :=
  if negb (is_int v1) then cval_type_error "integer expected"
  else while_loop bound cint_nextprime_body v1.

(** *** Factorial and binomial coefficient *)

(** The loop of [fact_rec]: [i] runs from [a + 1] to [b]. *)
Definition fact_rec_body (b : Z) (s : value * Z)
  : res (step (value * Z) value) :=
  let '(r, i) := s in
  if i <=? b then
    r <-! cval_mul E r (cint_from_int i) ;;
    i <- c_int (i + 1) ;;
    Val (Continue (r, i))
  else Val (Break r).

(** assume a <= b.  The interval is halved at each call, so that the
    calls nest at most [fact_rec_depth] deep for C [int]s. *)
Fixpoint fact_rec (depth : nat) (a b : Z) : res value :=
  match depth with
  | O => Fault OutOfFuel
  | Datatypes.S depth =>
      d <- c_int (b - a) ;;
      if d <=? 5 then
        i <- c_int (a + 1) ;;
        while_loop 7 (fact_rec_body b) (cint_from_int a, i)
      else
        (* to avoid a quadratic running time it is better to multiply
           numbers of similar size *)
        s <- c_int (a + b) ;;
        let i := Z.shiftr s 1 in
        x <-! fact_rec depth a i ;;
        i1 <- c_int (i + 1) ;;
        y <-! fact_rec depth i1 b ;;
        cval_mul E x y
  end.

Definition fact_rec_depth : nat := 32.

Definition cval_fact1 (n : Z) : res value :=
  if n <=? 1 then Val (cint_from_int 1)
  else fact_rec fact_rec_depth 1 n.

Definition cval_fact (v1 : value) : res value :=
  n <- cint_to_int v1 ;;
  cval_fact1 n.

Definition cval_comb (n1 k1 : value) : res value :=
  n <- cint_to_int n1 ;;
  k <- cint_to_int k1 ;;
  if (k <? 0) || (n <? k) then Val (cint_from_int 0)
  else
    d <- c_int (n - k) ;;
    let k := if d <? k then d else k in
    if k =? 0 then Val (cint_from_int 1)
    else
      d <- c_int (n - k) ;;
      a <- c_int (d + 1) ;;
      x <-! fact_rec fact_rec_depth a n ;;
      y <-! fact_rec fact_rec_depth 1 k ;;
      cval_divexact E x y.

End Containers.

(** ** Vocabulary of the combinatorial functions *)

(** The product of the integers from [a] to [a + k - 1]. *)
Fixpoint interval_product (a : Z) (k : nat) : Z :=
  match k with
  | O => 1
  | Datatypes.S k' => a * interval_product (a + 1) k'
  end.

(** The binomial coefficients, by Pascal's rule. *)
Fixpoint binomial (n k : nat) : Z :=
  match n, k with
  | _, O => 1
  | O, Datatypes.S _ => 0
  | Datatypes.S n', Datatypes.S k' => binomial n' k' + binomial n' k
  end.

(** The elements [start .. stop - 1] of a list. *)
Definition sublist {A : Type} (start stop : nat) (l : list A) : list A :=
  firstn (stop - start) (skipn start l).

(** The bound of a slice: a default bound stands for [dflt], a negative
    one counts from the end, and the result is brought into [0, len]. *)
Definition slice_bound (b dflt len : Z) : Z :=
  if b =? RANGE_DEFAULT then dflt
  else Z.max 0 (Z.min len (if b <? 0 then b + len else b)).

(** The rational number that an operand of fraction arithmetic stands
    for. *)
Definition operand_Q {B : Bignum} (v : value) : Q :=
  match v with
  | VBool b => inject_Z (if b then 1 else 0)
  | VInt z => inject_Z z
  | VFrac p q => frac_Q p q
  | _ => 0%Q
  end.

(** ** Vocabulary of the series with Integer coefficients *)

(** The coefficient of [X^e] in the series that holds the coefficients
    [l] from the exponent [emin] on. *)
Definition ser_coef (emin : Z) (l : list Z) (e : Z) : Z :=
  if (emin <=? e) && (e <? emin + Z.of_nat (List.length l))
  then nth (Z.to_nat (e - emin)) l 0
  else 0.

Fixpoint leading_zeros (l : list Z) : nat :=
  match l with
  | 0 :: rest => Datatypes.S (leading_zeros rest)
  | _ => O
  end.

(** The coefficient number [k] of the product of two polynomials. *)
Definition cauchy_coef (l1 l2 : list Z) (k : nat) : Z :=
  fold_right Z.add 0
    (map (fun i => nth i l1 0 * nth (k - i) l2 0) (seq 0 (Datatypes.S k))).

(** ** Vocabulary of the complex numbers *)

(** The complex number [x + y i] with Integer parts, and the complex
    number [p/q + (p'/q') i] with Fraction parts. *)
Definition gauss_int {B : Bignum} (x y : Z) : value :=
  VComplex (def_type CTYPE_INT) (VInt x) (VInt y).

Definition gauss_frac {B : Bignum} (p q p' q' : Z) : value :=
  VComplex (def_type CTYPE_FRAC) (VFrac p q) (VFrac p' q').

(** * Part II: properties *)

(** ** Loops *)

Lemma iter_nat_add {S R : Type} (body : S -> step S R) (n m : nat) (s : S) :
  iter_nat (n + m) body s =
  match iter_nat n body s with
  | Continue s1 => iter_nat m body s1
  | Break r => Break r
  end.
Proof.
  revert s; induction n as [|n IH]; intros s; simpl.
  - reflexivity.
  - destruct (body s) as [s1|r]; [apply IH | reflexivity].
Qed.

Lemma iter_loop_nat {S R : Type} (body : S -> step S R) (p : positive) (s : S) :
  iter_loop p body s = iter_nat (Pos.to_nat p) body s.
Proof.
  revert s; induction p as [p IH|p IH|]; intros s.
  - rewrite Pos2Nat.inj_xI. simpl.
    destruct (body s) as [s1|r]; [|reflexivity].
    replace (Pos.to_nat p + (Pos.to_nat p + 0))%nat
      with (Pos.to_nat p + Pos.to_nat p)%nat by lia.
    rewrite iter_nat_add, IH.
    destruct (iter_nat (Pos.to_nat p) body s1); [apply IH | reflexivity].
  - rewrite Pos2Nat.inj_xO. simpl.
    replace (Pos.to_nat p + (Pos.to_nat p + 0))%nat
      with (Pos.to_nat p + Pos.to_nat p)%nat by lia.
    rewrite iter_nat_add, IH.
    destruct (iter_nat (Pos.to_nat p) body s); [apply IH | reflexivity].
  - simpl. destruct (body s); reflexivity.
Qed.

(** A loop whose body preserves [I] and decreases [mu] on [Continue]
    leaves within [mu s] iterations, with a result accepted by [P]. *)
Lemma iter_nat_rule {S R : Type} (body : S -> step S R)
  (I : S -> Prop) (P : R -> Prop) (mu : S -> Z) :
  (forall s, I s ->
     match body s with
     | Continue s1 => I s1 /\ 0 <= mu s1 < mu s
     | Break r => P r
     end) ->
  forall (n : nat) (s : S), I s -> 0 <= mu s < Z.of_nat n ->
  exists r, iter_nat n body s = Break r /\ P r.
Proof.
  intros Hstep n; induction n as [|n IH]; intros s Hs Hmu.
  - simpl in Hmu. lia.
  - simpl. specialize (Hstep s Hs).
    destruct (body s) as [s1|r].
    + apply IH; [tauto | lia].
    + exists r; auto.
Qed.

Lemma while_loop_rule {S A : Type} (body : S -> res (step S A))
  (I : S -> Prop) (P : res A -> Prop) (mu : S -> Z) :
  (forall s, I s ->
     match body s with
     | Val (Continue s1) => I s1 /\ 0 <= mu s1 < mu s
     | Val (Break a) => P (Val a)
     | Exc e m => P (Exc e m)
     | Fault f => P (Fault f)
     end) ->
  forall (bound : Z) (s : S), I s -> 0 <= mu s < bound ->
  P (while_loop bound body s).
Proof.
  intros Hstep bound s Hs Hmu.
  unfold while_loop. rewrite iter_loop_nat.
  destruct (iter_nat_rule (lift_body body) I P mu) with (n := Pos.to_nat (Z.to_pos bound)) (s := s)
    as [r [Hr HP]]; auto.
  - intros s0 Hs0. specialize (Hstep s0 Hs0). unfold lift_body.
    destruct (body s0) as [[s1|a]|e m|f]; auto.
  - rewrite positive_nat_Z, Z2Pos.id by lia. lia.
  - rewrite Hr. exact HP.
Qed.

(** ** Integers and the fraction constructor *)

Lemma gcd_pos_r (a b : Z) : b <> 0 -> 0 < Z.gcd a b.
Proof.
  intros Hb. pose proof (Z.gcd_nonneg a b).
  destruct (Z.eq_dec (Z.gcd a b) 0) as [H0|]; [|lia].
  apply Z.gcd_eq_0_r in H0. contradiction.
Qed.

Lemma frac_norm_den_pos (num den : Z) : den <> 0 -> 0 < snd (frac_norm num den).
Proof.
  intros Hden. unfold frac_norm; cbn [snd].
  pose proof (gcd_pos_r num den Hden) as Hg.
  destruct (Z.gcd_divide_r num den) as [k Hk].
  assert (Hk' : Z.abs den = Z.abs k * Z.gcd num den).
  { rewrite Hk at 1. rewrite Z.abs_mul. f_equal. apply Z.abs_eq. lia. }
  rewrite Hk', Z.div_mul by lia.
  assert (k <> 0) by (intros ->; lia). lia.
Qed.

Lemma frac_norm_value (num den : Z) :
  den <> 0 -> fst (frac_norm num den) * den = num * snd (frac_norm num den).
Proof.
  intros Hden. unfold frac_norm; cbn [fst snd].
  pose proof (gcd_pos_r num den Hden) as Hg.
  destruct (Z.gcd_divide_r num den) as [k Hk].
  destruct (Z.gcd_divide_l num den) as [j Hj].
  set (g := Z.gcd num den) in *.
  assert (H1 : Z.sgn den * num / g = Z.sgn den * j).
  { rewrite Hj at 1. rewrite Z.mul_assoc, Z.div_mul by lia. reflexivity. }
  assert (H2 : Z.abs den / g = Z.sgn den * k).
  { rewrite <- (Z.sgn_abs den). rewrite Hk at 1.
    replace (k * g * Z.sgn den) with (Z.sgn den * k * g) by ring.
    rewrite Z.div_mul by lia. reflexivity. }
  rewrite H1, H2. clearbody g. remember (Z.sgn den) as s eqn:Hs. clear Hs H1 H2.
  subst den num. ring.
Qed.

Lemma frac_norm_coprime (num den : Z) :
  den <> 0 ->
  Z.gcd (Z.abs (fst (frac_norm num den))) (snd (frac_norm num den)) = 1.
Proof.
  intros Hden. unfold frac_norm; cbn [fst snd].
  pose proof (gcd_pos_r num den Hden) as Hg.
  rewrite Z.gcd_abs_l.
  assert (Hd1 : (Z.gcd num den | Z.sgn den * num)).
  { apply Z.divide_mul_r. apply Z.gcd_divide_l. }
  assert (Hd2 : (Z.gcd num den | Z.abs den)).
  { apply Z.divide_abs_r. apply Z.gcd_divide_r. }
  assert (Hgg : Z.gcd (Z.sgn den * num) (Z.abs den) = Z.gcd num den).
  { rewrite Z.gcd_abs_r. destruct den; try lia; cbn [Z.sgn].
    - now rewrite Z.mul_1_l.
    - replace (-1 * num) with (- num) by lia. apply Z.gcd_opp_l. }
  rewrite Z.gcd_div_factor; auto.
  rewrite Hgg. apply Z.div_same. lia.
Qed.

Lemma euclid_rem (a b : Z) :
  b <> 0 -> a - Z.sgn b * (a / Z.abs b) * b = a mod Z.abs b.
Proof.
  intros Hb. rewrite Z.mod_eq by lia.
  generalize (a / Z.abs b); intros q.
  rewrite <- (Z.sgn_abs b). ring.
Qed.

Section IntegerLayer.
Context {B : Bignum}.
Variable n : nat.
Local Notation "'E'" := (engine_at (S n)).

Lemma cint_mod_spec (a b : Z) :
  b <> 0 -> e_cint_op2 E (VInt a) (VInt b) BC_OP2_MOD = Val (VInt (a mod Z.abs b)).
Proof.
  intros Hb. cbn. unfold BfInt.bf_rem, BfInt.bf_divrem.
  destruct (Z.eqb_spec b 0); [contradiction|]. cbn.
  now rewrite euclid_rem.
Qed.

Lemma cint_gcd_spec (a b : Z) :
  0 < b -> cint_gcd E (VInt a) (VInt b) = Val (VInt (Z.gcd a b)).
Proof.
  intros Hb. unfold cint_gcd.
  apply (while_loop_rule (cint_gcd_body E)
           (fun s => exists x y, s = (VInt x, VInt y) /\ 0 <= y /\ (y = 0 -> 0 < x)
                                 /\ Z.gcd x y = Z.gcd a b)
           (fun r => r = Val (VInt (Z.gcd a b)))
           (fun s => match s with (_, VInt y) => y | _ => 0 end)).
  - intros s (x & y & -> & Hy & Hx & Hg).
    unfold cint_gcd_body.
    change (cval_cmp_eq_int E (VInt y) 0) with (@Val bool (y =? 0)).
    cbn [bind].
    destruct (Z.eqb_spec y 0) as [->|Hy0].
    + rewrite Z.gcd_0_r in Hg. f_equal. f_equal. lia.
    + rewrite cint_mod_spec by assumption. cbn [deref].
      assert (Hm : 0 <= x mod Z.abs y < Z.abs y) by (apply Z.mod_pos_bound; lia).
      split.
      * exists y, (x mod Z.abs y). repeat split; try lia.
        rewrite Z.abs_eq by lia. rewrite Z.gcd_mod_r. now rewrite Z.gcd_comm.
      * lia.
  - exists a, b. repeat split; lia.
  - lia.
Qed.

Lemma cint_div_spec (a b : Z) :
  b <> 0 -> e_cint_op2 E (VInt a) (VInt b) BC_OP2_DIV = Val (VInt (Z.quot a b)).
Proof.
  intros Hb. cbn. unfold BfInt.bf_divrem.
  destruct (Z.eqb_spec b 0); [contradiction|]. reflexivity.
Qed.

Lemma cfrac_new_spec (num den : Z) :
  den <> 0 ->
  cfrac_new E (VInt num) (VInt den) =
  Val (VFrac (fst (frac_norm num den)) (snd (frac_norm num den))).
Proof.
  intros Hden. unfold cfrac_new, frac_norm. cbn [is_int andb negb fst snd].
  change (cval_cmp_eq_int E (VInt den) 0) with (@Val bool (den =? 0)).
  change (cval_cmp_lt_int E (VInt den) 0) with (@Val bool (den <? 0)).
  cbn [bind].
  destruct (Z.eqb_spec den 0) as [|_]; [contradiction|].
  assert (Hnd : (if den <? 0
                 then n1 <-! cval_neg E (VInt num);; d1 <-! cval_neg E (VInt den);; Val (n1, d1)
                 else Val (VInt num, VInt den))%res
                = Val (VInt (Z.sgn den * num), VInt (Z.abs den))).
  { destruct (Z.ltb_spec den 0).
    - cbn. rewrite Z.sgn_neg, Z.abs_neq by lia. do 3 f_equal; lia.
    - rewrite Z.sgn_pos, Z.abs_eq by lia. do 3 f_equal; lia. }
  rewrite Hnd. cbn [bind].
  rewrite cint_gcd_spec by lia. cbn [deref].
  assert (Hg : Z.gcd (Z.sgn den * num) (Z.abs den) = Z.gcd num den).
  { rewrite Z.gcd_abs_r. destruct den; try lia; cbn [Z.sgn].
    - now rewrite Z.mul_1_l.
    - replace (-1 * num) with (- num) by lia. apply Z.gcd_opp_l. }
  rewrite Hg.
  set (g := Z.gcd num den).
  assert (Hgpos : 0 < g).
  { pose proof (Z.gcd_nonneg num den). 
    destruct (Z.eq_dec g 0) as [H0|]; [|unfold g in *; lia].
    apply Z.gcd_eq_0_r in H0. contradiction. }
  change (cval_cmp_eq_int E (VInt g) 1) with (@Val bool (g =? 1)).
  cbn [bind].
  destruct (Z.eqb_spec g 1) as [H1|H1]; cbn [negb].
  - rewrite H1, !Z.div_1_r. reflexivity.
  - rewrite !cint_div_spec by lia. cbn [deref cfrac_new2].
    assert (Hd1 : (g | Z.sgn den * num)).
    { apply Z.divide_mul_r. apply Z.gcd_divide_l. }
    assert (Hd2 : (g | Z.abs den)).
    { apply Z.divide_abs_r. apply Z.gcd_divide_r. }
    rewrite !Z.quot_div_exact by (auto; lia).
    reflexivity.
Qed.

End IntegerLayer.

(** ** Float and Decimal do not mix *)

(** C7.  A binary operation on a Float and a Decimal, in either order,
    raises a type error, whatever the operation (addition, subtraction,
    product, quotient, remainder, power, atan2, comparison, ...) and
    whatever the recursion depth: the Float implementation refuses to
    convert the Decimal operand.  The promoted type of the two kinds
    does not exist either, except for comparisons, whose type is Boolean. *)
Theorem float_decimal_type_error {B : Bignum} (fuel : nat) (f d : bfnum)
  (op : BCOP2Enum) :
  cval_op2 (engine_at fuel) (VFloat f) (VDec d) op
    = Exc CERR_TYPE "cannot convert to float"
  /\ cval_op2 (engine_at fuel) (VDec d) (VFloat f) op
    = Exc CERR_TYPE "cannot convert to float"
  /\ cval_pow (engine_at fuel) (VFloat f) (VDec d)
    = Exc CERR_TYPE "cannot convert to float"
  /\ cval_pow (engine_at fuel) (VDec d) (VFloat f)
    = Exc CERR_TYPE "cannot convert to float"
  /\ cval_atan2 (engine_at fuel) (VFloat f) (VDec d)
    = Exc CERR_TYPE "cannot convert to float"
  /\ cval_atan2 (engine_at fuel) (VDec d) (VFloat f)
    = Exc CERR_TYPE "cannot convert to float"
  /\ get_op2_type (def_type CTYPE_FLOAT) (def_type CTYPE_DECIMAL) op
    = (if is_cmp_op op then Val (def_type CTYPE_BOOL)
       else Exc CERR_TYPE "float and decimal are not compatible")
  /\ get_op2_type (def_type CTYPE_DECIMAL) (def_type CTYPE_FLOAT) op
    = (if is_cmp_op op then Val (def_type CTYPE_BOOL)
       else Exc CERR_TYPE "float and decimal are not compatible").
Proof.
  repeat split; try reflexivity; destruct op; reflexivity.
Qed.

(** ** Division of integers *)

Section IntegerDivision.

Context {B : Bignum}.
Variable n : nat.
Local Notation "'E'" := (engine_at (S n)).

Lemma to_cint_operand (v : value) (z : Z) :
  int_operand v = Some z -> to_cint E v = Val (VInt z).
Proof.
  destruct v; cbn; intros H; inversion H; reflexivity.
Qed.

Lemma cfrac_new_ok (num den : Z) :
  den <> 0 ->
  exists p q, cfrac_new E (VInt num) (VInt den) = Val (VFrac p q)
              /\ frac_ok p q /\ p * den = num * q.
Proof.
  intros Hden.
  exists (fst (frac_norm num den)), (snd (frac_norm num den)).
  split; [now apply cfrac_new_spec|].
  split; [split|].
  - now apply frac_norm_den_pos.
  - now apply frac_norm_coprime.
  - now apply frac_norm_value.
Qed.

Lemma cfrac_new_zero (num : Z) :
  cfrac_new E (VInt num) (VInt 0) = Exc CERR_RANGE "division by zero".
Proof. reflexivity. Qed.

Lemma cfrac_new_any (v1 v2 r : value) :
  cfrac_new E v1 v2 = Val r -> frac_inv r.
Proof.
  destruct v1 as [ | | num | | | | | | | | ]; try discriminate;
    destruct v2 as [ | | den | | | | | | | | ]; try discriminate.
  destruct (Z.eq_dec den 0) as [->|Hden].
  - rewrite cfrac_new_zero. discriminate.
  - destruct (cfrac_new_ok num den Hden) as (p & q & -> & Hok & _).
    intros H; inversion H; subst. exact Hok.
Qed.

End IntegerDivision.

(** C1, as amended.  For Integer or Boolean operands standing for [a]
    and [b]: [/] returns a Decimal, whatever [b]; [//] returns the
    Fraction [a/b] in lowest terms when [b <> 0], and raises the range
    error [division by zero] when [b = 0].  When the decimal division
    of the library gives [Inf] for [1/0], so does [1/0] in the
    calculator, without any error. *)
Theorem integer_division_kinds {B : Bignum} (n : nat) (v1 v2 : value) (a b : Z) :
  int_operand v1 = Some a ->
  int_operand v2 = Some b ->
  (exists d, cval_op2 (engine_at (S n)) v1 v2 BC_OP2_DIV = Val (VDec d))
  /\ (b <> 0 ->
      exists p q, cval_op2 (engine_at (S n)) v1 v2 BC_OP2_FRAC_DIV = Val (VFrac p q)
                  /\ frac_ok p q /\ p * b = a * q)
  /\ (b = 0 ->
      cval_op2 (engine_at (S n)) v1 v2 BC_OP2_FRAC_DIV
      = Exc CERR_RANGE "division by zero")
  /\ (div_by_zero_is_inf B ->
      cval_op2 (engine_at (S n)) (VInt 1) (VInt 0) BC_OP2_DIV
      = Val (VDec (bfdec_set_inf false))).
Proof.
  intros H1 H2.
  assert (Hd : cval_op2 (engine_at (S n)) v1 v2 BC_OP2_FRAC_DIV
               = cfrac_new (engine_at (S n)) (VInt a) (VInt b)).
  { destruct v1; try discriminate; destruct v2; try discriminate;
      cbn in H1, H2; inversion H1; inversion H2; reflexivity. }
  split; [|split; [|split]].
  - destruct v1; try discriminate; destruct v2; try discriminate;
      eexists; reflexivity.
  - intros Hb. rewrite Hd. now apply cfrac_new_ok.
  - intros ->. rewrite Hd. apply cfrac_new_zero.
  - intros Hinf. unfold div_by_zero_is_inf in Hinf. cbn.
    unfold ctx_dec_prec, ctx_dec_flags. now rewrite Hinf.
Qed.

(** The theorem at [6 // -4] and [1/0], on the rational reference library. *)
Lemma integer_division_kinds_witness :
  (exists p q, cval_op2 (engine_at 1) (VInt 6) (VInt (-4)) BC_OP2_FRAC_DIV
               = Val (@VFrac rational_bignum p q))
  /\ cval_op2 (engine_at 1) (VInt 1) (VInt 0) BC_OP2_DIV
     = Val (@VDec rational_bignum (RationalBignum.XInf false)).
Proof.
  destruct (@integer_division_kinds rational_bignum 0 (VInt 6) (VInt (-4)) 6 (-4)
              eq_refl eq_refl) as (_ & Hq & _ & Hinf).
  split.
  - destruct (Hq ltac:(lia)) as (p & q & Hpq & _). exists p, q. exact Hpq.
  - apply Hinf. reflexivity.
Defined.

(** C1 as stated fails: [1 // 0] is not a Fraction. *)
Lemma frac_div_by_zero_not_fraction :
  ~ (exists p q, cval_op2 (engine_at 4) (VInt 1) (VInt 0) BC_OP2_FRAC_DIV
                 = Val (@VFrac rational_bignum p q)).
Proof.
  intros (p & q & H). discriminate H.
Qed.

(** ** The invariant of fractions *)

Lemma frac_ok_neg (p q : Z) : frac_ok p q -> frac_ok (- p) q.
Proof. unfold frac_ok. now rewrite Z.abs_opp. Qed.

Lemma frac_ok_abs (p q : Z) : frac_ok p q -> frac_ok (Z.abs p) q.
Proof. unfold frac_ok. now rewrite Z.abs_idemp. Qed.

Lemma frac_ok_int (z : Z) : frac_ok z 1.
Proof. unfold frac_ok. split; [lia | apply Z.gcd_1_r]. Qed.

Section FractionInvariant.

Context {B : Bignum}.
Variable n : nat.

(** Depth 1: everything but the remainder. *)
Local Notation "'E1'" := (engine_at (S n)).

Lemma to_cfrac_operand (v : value) :
  frac_operand v ->
  exists p q, to_cfrac E1 v = Val (VFrac p q) /\ frac_ok p q.
Proof.
  destruct v; cbn; try contradiction; intros H.
  - eexists _, _; split; [reflexivity | apply frac_ok_int].
  - eexists _, _; split; [reflexivity | apply frac_ok_int].
  - eexists _, _; split; [reflexivity | exact H].
Qed.

Lemma cfrac_op2_inv (v1 v2 r : value) (op : BCOP2Enum) :
  frac_operand v1 -> frac_operand v2 ->
  op <> BC_OP2_MOD ->
  cfrac_op2 E1 v1 v2 op = Val r -> frac_inv r.
Proof.
  intros H1 H2 Hop.
  destruct (to_cfrac_operand v1 H1) as (n1 & d1 & Hv1 & Hok1).
  destruct (to_cfrac_operand v2 H2) as (n2 & d2 & Hv2 & Hok2).
  unfold cfrac_op2. rewrite Hv1, Hv2. cbn [deref bind u_frac].
  destruct op; try contradiction; try discriminate;
    try (cbn -[cfrac_new]; apply cfrac_new_any).
  all: cbn; intros H; inversion H; exact I.
Qed.

Lemma cval_op1_inv (v r : value) (op : BCOP1Enum) :
  frac_operand v -> cval_op1 E1 v op = Val r -> frac_inv r.
Proof.
  destruct v as [ | b | z | p q | | | | | | | ]; cbn [frac_operand];
    try contradiction; intros Hok.
  - destruct op; cbn; intros H; inversion H; exact I.
  - destruct op; cbn; intros H; inversion H; exact I.
  - destruct op; cbn; intros H;
      try (destruct (BfInt.bf_divrem p q _) as [[? ?]|]);
      inversion H; subst; cbn; auto using frac_ok_neg, frac_ok_abs, frac_ok_int.
Qed.

Lemma cval_op2_inv_1 (v1 v2 r : value) (op : BCOP2Enum) :
  frac_operand v1 -> frac_operand v2 ->
  op <> BC_OP2_MOD ->
  cval_op2 E1 v1 v2 op = Val r -> frac_inv r.
Proof.
  intros H1 H2 Hop.
  destruct v1 as [ | b1 | z1 | p1 q1 | | | | | | | ]; try contradiction;
    destruct v2 as [ | b2 | z2 | p2 q2 | | | | | | | ]; try contradiction;
    try (change (cval_op2 E1 ?a ?b op) with (cfrac_op2 E1 a b op);
         now apply cfrac_op2_inv).
  all: destruct op; try contradiction;
    try (cbn -[cfrac_new]; apply cfrac_new_any);
    cbn; intros H;
    repeat match type of H with
      | context [BfInt.bf_divrem ?a ?b ?m] => destruct (BfInt.bf_divrem a b m) as [[? ?]|]
      | context [BfInt.bf_rem ?a ?b ?m] => destruct (BfInt.bf_rem a b m)
      | context [if ?c then _ else _] => destruct c
      end;
    inversion H; subst; cbn; auto.
Qed.

End FractionInvariant.

(** ** The remainder of fractions *)

(** The floor of a quotient does not depend on the representative. *)
Lemma floor_div_same_ratio (tn td N D : Z) :
  0 < td -> D <> 0 -> tn * D = N * td -> tn / td = N / D.
Proof.
  intros Htd HD Heq.
  assert (Hpos : forall N' D', 0 < D' -> tn * D' = N' * td -> tn / td = N' / D').
  { intros N' D' HD' Heq'.
    apply Z.div_unique_pos with (r := N' - D' * (tn / td)); [|ring].
    pose proof (Z.div_mod tn td ltac:(lia)) as Hdm.
    pose proof (Z.mod_pos_bound tn td Htd) as Hb.
    split; nia. }
  destruct (Z_lt_ge_dec 0 D) as [HD'|HD'].
  - now apply Hpos.
  - rewrite <- (Z.div_opp_opp N D) by lia.
    apply Hpos; [lia | nia].
Qed.

Section FractionRemainder.

Context {B : Bignum}.
Variable n : nat.
Local Notation "'E1'" := (engine_at (S n)).
Local Notation "'E2'" := (engine_at (S (S n))).

Lemma cfrac_floor_spec (p q : Z) :
  q <> 0 -> cval_op1 E1 (VFrac p q) BC_OP1_FLOOR = Val (VInt (p / q)).
Proof.
  intros Hq. cbn. unfold BfInt.bf_divrem.
  destruct (Z.eqb_spec q 0); [contradiction | reflexivity].
Qed.

Lemma cfrac_mod_spec (n1 d1 n2 d2 : Z) :
  frac_ok n1 d1 -> frac_ok n2 d2 -> n2 <> 0 ->
  exists p q,
    cval_op2 E2 (VFrac n1 d1) (VFrac n2 d2) BC_OP2_MOD = Val (VFrac p q)
    /\ frac_ok p q
    /\ p * (d1 * d2) = (n1 * d2 - (n1 * d2) / (d1 * n2) * n2 * d1) * q.
Proof.
  intros [Hd1 _] [Hd2 _] Hn2.
  change (cval_op2 E2 (VFrac n1 d1) (VFrac n2 d2) BC_OP2_MOD)
    with (t <-! cfrac_new E1 (VInt (n1 * d2)) (VInt (d1 * n2)) ;;
          q <-! cval_op1 E1 t BC_OP1_FLOOR ;;
          m <-! cval_op2 E1 q (VFrac n2 d2) BC_OP2_MUL ;;
          cval_op2 E1 (VFrac n1 d1) m BC_OP2_SUB).
  destruct (cfrac_new_ok n (n1 * d2) (d1 * n2) ltac:(nia))
    as (tn & td & -> & [Htd _] & Ht).
  cbn [deref]. rewrite cfrac_floor_spec by lia. cbn [deref].
  rewrite (floor_div_same_ratio tn td (n1 * d2) (d1 * n2)) by (auto; nia).
  set (k := n1 * d2 / (d1 * n2)).
  change (cval_op2 E1 (VInt k) (VFrac n2 d2) BC_OP2_MUL)
    with (cfrac_new E1 (VInt (k * n2)) (VInt (1 * d2))).
  destruct (cfrac_new_ok n (k * n2) (1 * d2) ltac:(lia))
    as (mn & md & -> & [Hmd _] & Hm).
  cbn [deref].
  change (cval_op2 E1 (VFrac n1 d1) (VFrac mn md) BC_OP2_SUB)
    with (cfrac_new E1 (VInt (n1 * md - mn * d1)) (VInt (d1 * md))).
  destruct (cfrac_new_ok n (n1 * md - mn * d1) (d1 * md) ltac:(nia))
    as (p & q & -> & Hok & Hpq).
  exists p, q. split; [reflexivity|]. split; [exact Hok|].
  (* p / q = n1/d1 - mn/md and mn/md = k n2 / d2 *)
  assert (Hmd0 : md <> 0) by lia.
  apply (Z.mul_reg_r _ _ md Hmd0).
  transitivity (p * (d1 * md) * d2); [ring|].
  rewrite Hpq.
  transitivity ((n1 * md * d2 - (mn * (1 * d2)) * d1) * q); [ring|].
  rewrite Hm. ring.
Qed.

Lemma cfrac_mod_zero (n1 d1 d2 : Z) (r : value) :
  cval_op2 E2 (VFrac n1 d1) (VFrac 0 d2) BC_OP2_MOD <> Val r.
Proof.
  change (cval_op2 E2 (VFrac n1 d1) (VFrac 0 d2) BC_OP2_MOD)
    with (t <-! cfrac_new E1 (VInt (n1 * d2)) (VInt (d1 * 0)) ;;
          q <-! cval_op1 E1 t BC_OP1_FLOOR ;;
          m <-! cval_op2 E1 q (VFrac 0 d2) BC_OP2_MUL ;;
          cval_op2 E1 (VFrac n1 d1) m BC_OP2_SUB).
  rewrite Z.mul_0_r, cfrac_new_zero. discriminate.
Qed.

End FractionRemainder.

Lemma Qfloor_frac_div (n1 d1 n2 d2 : Z) :
  0 < d1 -> 0 < d2 -> n2 <> 0 ->
  Qfloor (frac_Q n1 d1 / frac_Q n2 d2) = (n1 * d2) / (d1 * n2).
Proof.
  intros Hd1 Hd2 Hn2.
  destruct d1 as [|pd1|]; try lia. destruct d2 as [|pd2|]; try lia.
  unfold frac_Q. cbn [Z.to_pos].
  destruct n2 as [|p2|p2]; try lia.
  - cbn. reflexivity.
  - cbn. rewrite <- (Z.div_opp_opp (n1 * Z.pos pd2)) by lia.
    f_equal; lia.
Qed.

Lemma frac_Q_value (p q : Z) (a b : Z) :
  0 < q -> 0 < b -> p * b = a * q -> (frac_Q p q == frac_Q a b)%Q.
Proof.
  intros Hq Hb H. unfold frac_Q, Qeq. cbn [Qnum Qden].
  rewrite !Z2Pos.id by lia. exact H.
Qed.

(** C5.  For Fractions [a = n1/d1] and [b = n2/d2 <> 0] satisfying the
    invariant, [a % b] is the Fraction [a - floor(a/b) * b] (again in
    lowest terms): the remainder of the floor division.  It is zero or
    has the sign of [b], and is smaller than [b] in absolute value; it
    is not the non-negative Euclidean remainder. *)
Theorem fraction_mod_floor {B : Bignum} (n : nat) (n1 d1 n2 d2 : Z) :
  frac_ok n1 d1 -> frac_ok n2 d2 -> n2 <> 0 ->
  exists p q,
    cval_op2 (engine_at (S (S n))) (VFrac n1 d1) (VFrac n2 d2) BC_OP2_MOD
      = Val (VFrac p q)
    /\ frac_ok p q
    /\ (frac_Q p q ==
        frac_Q n1 d1
        - inject_Z (Qfloor (frac_Q n1 d1 / frac_Q n2 d2)) * frac_Q n2 d2)%Q
    /\ (0 < n2 -> (0 <= frac_Q p q /\ frac_Q p q < frac_Q n2 d2)%Q)
    /\ (n2 < 0 -> (frac_Q n2 d2 < frac_Q p q /\ frac_Q p q <= 0)%Q).
Proof.
  intros Hok1 Hok2 Hn2.
  destruct (cfrac_mod_spec n n1 d1 n2 d2 Hok1 Hok2 Hn2) as (p & q & Hev & Hok & Hval).
  exists p, q. split; [exact Hev|]. split; [exact Hok|].
  destruct Hok1 as [Hd1 _], Hok2 as [Hd2 _], Hok as [Hq _].
  rewrite Qfloor_frac_div by assumption.
  set (k := n1 * d2 / (d1 * n2)) in *.
  assert (Hmod : n1 * d2 - k * n2 * d1 = (n1 * d2) mod (d1 * n2)).
  { rewrite Z.mod_eq by nia. subst k. ring. }
  rewrite Hmod in Hval.
  assert (HQ : forall a b c d : Z, 0 < b -> 0 < d ->
               (frac_Q a b < frac_Q c d)%Q <-> a * d < c * b).
  { intros a b c d Hb Hd. unfold frac_Q, Qlt. cbn [Qnum Qden].
    rewrite !Z2Pos.id by lia. reflexivity. }
  assert (HQle : forall a b : Z, 0 < b ->
               ((0 <= frac_Q a b)%Q <-> 0 <= a) /\ ((frac_Q a b <= 0)%Q <-> a <= 0)).
  { intros a b Hb. unfold frac_Q, Qle. cbn [Qnum Qden]. lia. }
  split; [|split].
  - unfold frac_Q, Qeq, Qminus, Qplus, Qopp, Qmult, inject_Z. cbn [Qnum Qden].
    rewrite !Pos2Z.inj_mul, !Z2Pos.id by lia.
    rewrite <- Hmod in Hval. nia.
  - intros Hpos.
    pose proof (Z.mod_pos_bound (n1 * d2) (d1 * n2) ltac:(nia)) as Hb.
    rewrite (proj1 (HQle p q Hq)), HQ by assumption. split; nia.
  - intros Hneg.
    pose proof (Z.mod_neg_bound (n1 * d2) (d1 * n2) ltac:(nia)) as Hb.
    rewrite (proj2 (HQle p q Hq)), HQ by assumption. split; nia.
Qed.

(** The theorem at [(-2/3) % (1/5)], on the rational reference library. *)
Lemma fraction_mod_floor_witness :
  exists p q,
    cval_op2 (engine_at 2) (VFrac (-2) 3) (VFrac 1 5) BC_OP2_MOD
      = Val (@VFrac rational_bignum p q)
    /\ frac_ok p q
    /\ (frac_Q p q ==
        frac_Q (-2) 3
        - inject_Z (Qfloor (frac_Q (-2) 3 / frac_Q 1 5)) * frac_Q 1 5)%Q
    /\ (0 < 1 -> (0 <= frac_Q p q /\ frac_Q p q < frac_Q 1 5)%Q)
    /\ (1 < 0 -> (frac_Q 1 5 < frac_Q p q /\ frac_Q p q <= 0)%Q).
Proof.
  apply (@fraction_mod_floor rational_bignum 0 (-2) 3 1 5).
  - split; [lia | reflexivity].
  - split; [lia | reflexivity].
  - lia.
Defined.

Section FractionInvariantMod.

Context {B : Bignum}.
Variable n : nat.
Local Notation "'E2'" := (engine_at (S (S n))).

Lemma cval_op2_mod_inv (v1 v2 r : value) :
  frac_operand v1 -> frac_operand v2 ->
  cval_op2 E2 v1 v2 BC_OP2_MOD = Val r -> frac_inv r.
Proof.
  intros H1 H2.
  assert (Hff : forall n1 d1 n2 d2, frac_ok n1 d1 -> frac_ok n2 d2 ->
            cval_op2 E2 (VFrac n1 d1) (VFrac n2 d2) BC_OP2_MOD = Val r ->
            frac_inv r).
  { intros n1 d1 n2 d2 Hok1 Hok2 Hr.
    destruct (Z.eq_dec n2 0) as [->|Hn2].
    - now apply cfrac_mod_zero in Hr.
    - destruct (cfrac_mod_spec n n1 d1 n2 d2 Hok1 Hok2 Hn2)
        as (p & q & Hev & Hok & _).
      rewrite Hev in Hr. inversion Hr; subst. exact Hok. }
  destruct v1 as [ | b1 | z1 | p1 q1 | | | | | | | ]; try contradiction;
    destruct v2 as [ | b2 | z2 | p2 q2 | | | | | | | ]; try contradiction.
  1,2,4,5: cbn; intros H;
    repeat match type of H with
      | context [BfInt.bf_rem ?a ?b ?m] => destruct (BfInt.bf_rem a b m)
      | context [if ?c then _ else _] => destruct c
      end; inversion H; subst; exact I.
  - apply (Hff _ 1 p2 q2); [apply frac_ok_int | exact H2].
  - apply (Hff _ 1 p2 q2); [apply frac_ok_int | exact H2].
  - apply (Hff p1 q1 _ 1); [exact H1 | apply frac_ok_int].
  - apply (Hff p1 q1 _ 1); [exact H1 | apply frac_ok_int].
  - apply (Hff p1 q1 p2 q2); assumption.
Qed.

Lemma cval_op2_inv (v1 v2 r : value) (op : BCOP2Enum) :
  frac_operand v1 -> frac_operand v2 ->
  cval_op2 E2 v1 v2 op = Val r -> frac_inv r.
Proof.
  intros H1 H2.
  assert (Hop : op = BC_OP2_MOD \/ op <> BC_OP2_MOD)
    by (destruct op; (now left) || (right; discriminate)).
  destruct Hop as [->|Hop].
  - now apply cval_op2_mod_inv.
  - now apply (cval_op2_inv_1 (S n)).
Qed.

Lemma cfrac_arith_total (n1 d1 n2 d2 : Z) (op : BCOP2Enum) :
  frac_ok n1 d1 -> frac_ok n2 d2 ->
  op = BC_OP2_ADD \/ op = BC_OP2_SUB \/ op = BC_OP2_MUL ->
  exists p q, cval_op2 E2 (VFrac n1 d1) (VFrac n2 d2) op = Val (VFrac p q).
Proof.
  intros [Hd1 _] [Hd2 _] Hop.
  assert (Hnew : exists p q, cfrac_new E2 (VInt (match op with
               | BC_OP2_ADD => n1 * d2 + n2 * d1
               | BC_OP2_SUB => n1 * d2 - n2 * d1
               | _ => n1 * n2 end)) (VInt (d1 * d2)) = Val (VFrac p q)).
  { destruct (cfrac_new_ok (S n) (match op with
               | BC_OP2_ADD => n1 * d2 + n2 * d1
               | BC_OP2_SUB => n1 * d2 - n2 * d1
               | _ => n1 * n2 end) (d1 * d2) ltac:(nia)) as (p & q & Hpq & _).
    now exists p, q. }
  destruct Hop as [-> | [-> | ->]]; exact Hnew.
Qed.

End FractionInvariantMod.

(** ** The modular inverse *)

Lemma bf_divrem_euclid (a b : Z) :
  b <> 0 ->
  BfInt.bf_divrem a b BF_DIVREM_EUCLIDIAN
  = Some (Z.sgn b * (a / Z.abs b), a mod Z.abs b).
Proof.
  intros Hb. unfold BfInt.bf_divrem.
  destruct (Z.eqb_spec b 0); [contradiction|].
  cbn. now rewrite euclid_rem.
Qed.

(** The loop of [bf_invmod] is the extended Euclidean algorithm: it
    leaves with [v = +- gcd (x, y)] and [a * x = v] modulo [y]; the sign
    of [v] is negative only when [v] still is the first operand. *)
Lemma bf_invmod_loop (x y : Z) :
  1 <= y ->
  exists v a,
    while_loop (Z.abs x + 2) bf_invmod_body (x, y, 1, 0) = Val (v, a)
    /\ Z.abs v = Z.gcd x y
    /\ (y | a * x - v)
    /\ (0 < v \/ v = x).
Proof.
  intros Hy.
  apply (while_loop_rule bf_invmod_body
           (fun s => let '(u, v, c, a) := s in
                     (y | c * x - u) /\ (y | a * x - v)
                     /\ Z.gcd u v = Z.gcd x y
                     /\ (0 < v \/ v = x) /\ (0 <= u \/ u = x)
                     /\ Z.abs u <= Z.abs x)
           (fun r => exists v a, r = Val (v, a) /\ Z.abs v = Z.gcd x y
                                 /\ (y | a * x - v) /\ (0 < v \/ v = x))
           (fun s => let '(u, _, _, _) := s in Z.abs u)).
  - intros [[[u v] c] a] (Hc & Ha & Hg & Hv & Hu & Hux).
    unfold bf_invmod_body.
    destruct (Z.eqb_spec u 0) as [->|Hu0].
    + exists v, a. repeat split; auto.
    + rewrite bf_divrem_euclid by assumption.
      set (q := Z.sgn u * (v / Z.abs u)).
      assert (Ht : v mod Z.abs u = v - q * u)
        by (subst q; now rewrite euclid_rem).
      pose proof (Z.mod_pos_bound v (Z.abs u) ltac:(lia)) as Hb.
      split; [|lia].
      repeat split; try lia.
      * rewrite Ht.
        replace ((a - q * c) * x - (v - q * u))
          with ((a * x - v) - q * (c * x - u)) by ring.
        apply Z.divide_sub_r; [exact Ha | now apply Z.divide_mul_r].
      * exact Hc.
      * rewrite Ht, <- Hg.
        replace (v - q * u) with (v + (- q) * u) by ring.
        rewrite Z.gcd_comm, Z.gcd_add_mult_diag_r. reflexivity.
  - repeat split; try lia.
    + exists 0. ring.
    + exists (-1). ring.
  - lia.
Qed.

Lemma bf_invmod_spec (x y : Z) :
  1 <= y ->
  (Z.gcd x y = 1 -> x <> -1 ->
   exists r, bf_invmod x y = Val (Some r)
             /\ 0 <= r < y /\ (x * r) mod y = 1 mod y)
  /\ (Z.gcd x y <> 1 \/ x = -1 -> bf_invmod x y = Val None).
Proof.
  intros Hy.
  destruct (bf_invmod_loop x y Hy) as (v & a & Hloop & Hg & Ha & Hv).
  unfold bf_invmod. rewrite Hloop. cbn [bind].
  split.
  - intros Hg1 Hx.
    assert (v = 1) as -> by lia.
    cbn [Z.eqb negb Pos.eqb].
    rewrite bf_divrem_euclid by lia.
    rewrite (Z.abs_eq y) by lia.
    exists (a mod y). split; [reflexivity|].
    split; [apply Z.mod_pos_bound; lia|].
    rewrite Z.mul_mod_idemp_r by lia.
    destruct Ha as [k Hk].
    replace (x * a) with (1 + k * y) by (rewrite <- Hk; ring).
    apply Z.mod_add. lia.
  - intros Hbad.
    destruct (Z.eqb_spec v 1) as [->|Hv1]; [|reflexivity].
    exfalso. cbn in Hg. destruct Hbad as [Hbad | ->]; [congruence|].
    destruct Hv as [Hv|Hv]; [|discriminate].
    (* x = -1: the loop leaves with v = -1 *)
    clear Hg Ha.
    revert Hloop. unfold while_loop. cbn [Z.abs Z.add Pos.add Z.to_pos].
    cbn [iter_loop]. unfold lift_body at 1, bf_invmod_body at 1.
    cbn [Z.eqb].
    rewrite bf_divrem_euclid by lia.
    rewrite Z.mod_1_r.
    cbn. discriminate.
Qed.

Section ModularInverse.

Context {B : Bignum}.
Variable n : nat.
Local Notation "'E1'" := (engine_at (S n)).

Lemma cint_invmod_unfold (x y : Z) :
  cint_invmod E1 (VInt x) (VInt y)
  = if y <? 1 then Exc CERR_RANGE "the modulo must be positive"
    else match bf_invmod x y with
         | Val (Some z) => Val (VInt z)
         | Val None => Exc CERR_RANGE "not invertible"
         | Exc e m => Exc e m
         | Fault f => Fault f
         end.
Proof.
  unfold cint_invmod.
  change (cval_cmp_lt_int E1 (VInt y) 1) with (@Val bool (y <? 1)).
  cbn [bind].
  destruct (y <? 1); [reflexivity|].
  destruct (bf_invmod x y) as [[z|]| |]; reflexivity.
Qed.

(** What [invmod] computes: a range error for a modulus below 1 and
    for an operand that is not coprime to the modulus, and also for
    the operand -1; the inverse in [0, m) in all other cases. *)
Lemma cint_invmod_spec (x y : Z) :
  (y < 1 ->
   cint_invmod E1 (VInt x) (VInt y)
   = Exc CERR_RANGE "the modulo must be positive")
  /\ (1 <= y -> Z.gcd x y <> 1 ->
      cint_invmod E1 (VInt x) (VInt y) = Exc CERR_RANGE "not invertible")
  /\ (1 <= y -> x = -1 ->
      cint_invmod E1 (VInt x) (VInt y) = Exc CERR_RANGE "not invertible")
  /\ (1 <= y -> Z.gcd x y = 1 -> x <> -1 ->
      exists r, cint_invmod E1 (VInt x) (VInt y) = Val (VInt r)
                /\ 0 <= r < y /\ (x * r) mod y = 1 mod y).
Proof.
  rewrite cint_invmod_unfold.
  destruct (Z.ltb_spec y 1) as [Hy|Hy].
  - repeat split; intros; try lia; reflexivity.
  - destruct (bf_invmod_spec x y Hy) as [Hgood Hbad].
    repeat split; intros; try lia.
    + now rewrite Hbad by (now left).
    + now rewrite Hbad by (now right).
    + destruct Hgood as (r & -> & Hr); auto. now exists r.
Qed.

End ModularInverse.

(** C8.  [invmod(-1, 5)] raises the range error [not invertible],
    although -1 is invertible modulo 5: its inverse is 4.  The same
    happens for the operand -1 and any modulus [m >= 1]. *)
Theorem invmod_minus_one_not_invertible {B : Bignum} (n : nat) :
  cint_invmod (engine_at (S n)) (VInt (-1)) (VInt 5)
  = Exc CERR_RANGE "not invertible"
  /\ Z.gcd (-1) 5 = 1
  /\ (-1 * 4) mod 5 = 1 mod 5
  /\ forall m, 1 <= m ->
       cint_invmod (engine_at (S n)) (VInt (-1)) (VInt m)
       = Exc CERR_RANGE "not invertible".
Proof.
  split; [|split; [|split]]; try reflexivity.
  intros m Hm.
  destruct (cint_invmod_spec n (-1) m) as (_ & _ & H & _). now apply H.
Qed.

(** The theorem on the rational reference library, at the modulus 7. *)
Lemma invmod_minus_one_not_invertible_witness :
  @cint_invmod rational_bignum (engine_at 1) (VInt (-1)) (VInt 7)
  = Exc CERR_RANGE "not invertible".
Proof.
  destruct (@invmod_minus_one_not_invertible rational_bignum 0)
    as (_ & _ & _ & H).
  apply H. lia.
Defined.

(** ** Integer powers of fractions *)

Lemma odd_get_int32_mod (b : Z) : Z.odd (BfInt.bf_get_int32_mod b) = Z.odd b.
Proof.
  unfold BfInt.bf_get_int32_mod.
  rewrite Z.odd_sub, <- !Z.bit0_odd.
  rewrite Z.mod_pow2_bits_low by lia.
  rewrite !Z.bit0_odd, Z.odd_add. cbn. now rewrite !xorb_false_r.
Qed.

Lemma frac_Q_mul (p q a b c d : Z) :
  0 < q -> 0 < b -> 0 < d ->
  p * (b * d) = a * c * q -> (frac_Q p q == frac_Q a b * frac_Q c d)%Q.
Proof.
  intros Hq Hb Hd H. unfold frac_Q, Qeq, Qmult. cbn [Qnum Qden].
  rewrite Pos2Z.inj_mul, !Z2Pos.id by lia. exact H.
Qed.

Lemma frac_Q_inv (p q a b : Z) :
  0 < q -> 0 < b -> a <> 0 ->
  p * a = b * q -> (frac_Q p q == / frac_Q a b)%Q.
Proof.
  intros Hq Hb Ha H. unfold frac_Q, Qeq, Qinv. cbn [Qnum Qden].
  destruct a as [|a|a]; [contradiction| |]; cbn [Qnum Qden].
  - rewrite !Z2Pos.id by lia. exact H.
  - rewrite <- Pos2Z.opp_pos, Z2Pos.id, Z2Pos.id by lia.
    rewrite <- Pos2Z.opp_pos in H. lia.
Qed.

Lemma Qpower_halve (a : Q) (b : Z) :
  0 < b ->
  (a ^ b == (a * a) ^ (b / 2) * (if Z.odd b then a else 1))%Q.
Proof.
  intros Hb.
  rewrite (Z.div_mod b 2) at 1 by lia.
  rewrite <- Z.bit0_mod, Z.bit0_odd.
  destruct (Z.eq_dec (b / 2) 0) as [H0|H0].
  - rewrite H0. assert (b = 1) as -> by
      (pose proof (Z.div_mod b 2 ltac:(lia)); pose proof (Z.mod_pos_bound b 2 ltac:(lia)); lia).
    cbn. ring.
  - assert (Hk : 0 < b / 2) by (pose proof (Z.div_pos b 2); lia).
    rewrite Qmult_power.
    destruct (Z.odd b); cbn [Z.b2z].
    + rewrite Qpower_plus' by lia.
      replace (2 * (b / 2)) with (b / 2 + b / 2) by ring.
      rewrite Qpower_plus' by lia. rewrite Qpower_1_r. reflexivity.
    + rewrite Z.add_0_r.
      replace (2 * (b / 2)) with (b / 2 + b / 2) by ring.
      rewrite Qpower_plus' by lia. ring.
Qed.

Section FractionPower.

Context {B : Bignum}.
Variable n : nat.
Local Notation "'E1'" := (engine_at (S n)).
Local Notation "'E2'" := (engine_at (S (S n))).

Lemma cfrac_mul_spec (rn rd an ad : Z) :
  0 < rd -> 0 < ad ->
  exists p q,
    cval_op2 E1 (VFrac rn rd) (VFrac an ad) BC_OP2_MUL = Val (VFrac p q)
    /\ frac_ok p q
    /\ (frac_Q p q == frac_Q rn rd * frac_Q an ad)%Q.
Proof.
  intros Hrd Had.
  change (cval_op2 E1 (VFrac rn rd) (VFrac an ad) BC_OP2_MUL)
    with (cfrac_new E1 (VInt (rn * an)) (VInt (rd * ad))).
  destruct (cfrac_new_ok n (rn * an) (rd * ad) ltac:(nia))
    as (p & q & -> & Hok & Hv).
  exists p, q. split; [reflexivity|]. split; [exact Hok|].
  apply frac_Q_mul; try lia. apply Hok.
Qed.

Lemma cfrac_inverse_spec (p q : Z) :
  0 < q ->
  (p = 0 ->
   cval_inverse E2 (VFrac p q) = Exc CERR_RANGE "division by zero")
  /\ (p <> 0 ->
      exists p' q',
        cval_inverse E2 (VFrac p q) = Val (VFrac p' q')
        /\ frac_ok p' q'
        /\ (frac_Q p' q' == / frac_Q p q)%Q).
Proof.
  intros Hq.
  change (cval_inverse E2 (VFrac p q))
    with (cfrac_new E1 (VInt (1 * q)) (VInt (1 * p))).
  split.
  - intros ->. apply cfrac_new_zero.
  - intros Hp.
    destruct (cfrac_new_ok n (1 * q) (1 * p) ltac:(lia))
      as (p' & q' & -> & Hok & Hv).
    exists p', q'. split; [reflexivity|]. split; [exact Hok|].
    apply frac_Q_inv; try lia. apply Hok.
Qed.

Lemma cint_shl_minus_one (b : Z) :
  cint_shl (VInt b) (cint_from_int (-1)) = Val (VInt (b / 2)).
Proof.
  unfold cint_shl, cint_from_int. cbn.
  now rewrite Z.div2_div.
Qed.

Lemma generic_pow_body_spec (rn rd an ad b : Z) :
  frac_ok rn rd -> 0 < ad -> 0 < b ->
  exists p q,
    frac_ok p q
    /\ (frac_Q p q == frac_Q rn rd * (if Z.odd b then frac_Q an ad else 1))%Q
    /\ (b / 2 = 0 ->
        generic_pow_body E2 (Val (VFrac rn rd), VFrac an ad, b)
        = Val (Break (VFrac p q)))
    /\ (b / 2 <> 0 ->
        exists an' ad',
        generic_pow_body E2 (Val (VFrac rn rd), VFrac an ad, b)
        = Val (Continue (Val (VFrac p q), VFrac an' ad', b / 2))
        /\ 0 < ad'
        /\ (frac_Q an' ad' == frac_Q an ad * frac_Q an ad)%Q).
Proof.
  intros Hr Had Hb.
  unfold generic_pow_body. rewrite odd_get_int32_mod, cint_shl_minus_one.
  cbn [deref bind].
  change (cval_cmp_eq_int E2 (VInt (b / 2)) 0) with (@Val bool (b / 2 =? 0)).
  cbn [bind u_cint].
  change (cval_mul E2) with (fun x y => cval_op2 E1 x y BC_OP2_MUL).
  cbv beta.
  destruct (cfrac_mul_spec an ad an ad Had Had) as (sn & sd & Hs & [Hsd _] & Hsv).
  rewrite Hs.
  assert (Hacc : exists p q,
             (if Z.odd b
              then Val (cval_op2 E1 (VFrac rn rd) (VFrac an ad) BC_OP2_MUL)
              else Val (Val (VFrac rn rd))) = Val (Val (VFrac p q))
             /\ frac_ok p q
             /\ (frac_Q p q
                 == frac_Q rn rd * (if Z.odd b then frac_Q an ad else 1))%Q).
  { destruct (Z.odd b).
    - destruct (cfrac_mul_spec rn rd an ad (proj1 Hr) Had) as (p & q & -> & Hok & Hv).
      now exists p, q.
    - exists rn, rd. split; [reflexivity|]. split; [exact Hr|]. ring. }
  destruct Hacc as (p & q & -> & Hok & Hv).
  exists p, q. split; [exact Hok|]. split; [exact Hv|].
  cbn [bind deref].
  split.
  - intros ->. reflexivity.
  - intros H0. destruct (Z.eqb_spec (b / 2) 0); [contradiction|].
    exists sn, sd. auto.
Qed.

Lemma generic_pow_loop (rn rd an ad b bound : Z) :
  frac_ok rn rd -> 0 < ad -> 0 < b < bound ->
  exists p q,
    while_loop bound (generic_pow_body E2) (Val (VFrac rn rd), VFrac an ad, b)
    = Val (VFrac p q)
    /\ frac_ok p q
    /\ (frac_Q p q == frac_Q rn rd * frac_Q an ad ^ b)%Q.
Proof.
  intros Hr Had Hb.
  apply (while_loop_rule (generic_pow_body E2)
           (fun s => exists rn' rd' an' ad' b',
                s = (Val (VFrac rn' rd'), VFrac an' ad', b')
                /\ frac_ok rn' rd' /\ 0 < ad' /\ 0 < b'
                /\ (frac_Q rn' rd' * frac_Q an' ad' ^ b'
                    == frac_Q rn rd * frac_Q an ad ^ b)%Q)
           (fun r => exists p q, r = Val (VFrac p q) /\ frac_ok p q
                /\ (frac_Q p q == frac_Q rn rd * frac_Q an ad ^ b)%Q)
           (fun s => snd s)).
  - intros s (rn' & rd' & an' & ad' & b' & -> & Hr' & Had' & Hb' & Hv).
    destruct (generic_pow_body_spec rn' rd' an' ad' b' Hr' Had' Hb')
      as (p & q & Hok & Hpq & Hbrk & Hcont).
    rewrite (Qpower_halve _ b' Hb') in Hv.
    destruct (Z.eq_dec (b' / 2) 0) as [H0|H0].
    + rewrite (Hbrk H0). exists p, q. split; [reflexivity|].
      split; [exact Hok|].
      rewrite <- Hv, Hpq, H0. cbn [Qpower]. ring.
    + destruct (Hcont H0) as (an2 & ad2 & -> & Had2 & Ha2).
      assert (Hk : 0 < b' / 2) by (pose proof (Z.div_pos b' 2); lia).
      split.
      * exists p, q, an2, ad2, (b' / 2). split; [reflexivity|].
        repeat split; try apply Hok; try lia.
        rewrite <- Hv, Hpq, Ha2. ring.
      * cbn [snd]. split; [lia|]. apply Z.div_lt; lia.
  - exists rn, rd, an, ad, b. repeat split; try apply Hr; try lia.
  - cbn [snd]. lia.
Qed.

(** [a ^ e] for a Fraction [a = p/q] and an Integer [e]. *)
Lemma cval_pow_frac_spec (p q e : Z) :
  frac_ok p q ->
  (e < 0 -> p = 0 ->
   cval_pow E2 (VFrac p q) (VInt e) = Exc CERR_RANGE "division by zero")
  /\ (0 <= e \/ p <> 0 ->
      exists p' q',
        cval_pow E2 (VFrac p q) (VInt e) = Val (VFrac p' q')
        /\ frac_ok p' q'
        /\ (frac_Q p' q' == frac_Q p q ^ e)%Q).
Proof.
  intros Hok.
  change (cval_pow E2 (VFrac p q) (VInt e))
    with (generic_pow E2 (VFrac p q) (VInt e)).
  unfold generic_pow.
  change (cval_cmp_eq_int E2 (VInt e) 0) with (@Val bool (e =? 0)).
  change (cval_cmp_lt_int E2 (VInt e) 0) with (@Val bool (e <? 0)).
  change (e_convert E2 (cint_from_int 1) (vtype (VFrac p q)))
    with (@Val value (VFrac 1 1)).
  cbn [bind].
  destruct (Z.eqb_spec e 0) as [->|He0].
  { split; [lia|]. intros _. exists 1, 1.
    split; [reflexivity|]. split; [apply frac_ok_int|]. reflexivity. }
  destruct (Z.ltb_spec e 0) as [Hneg|Hpos].
  - destruct (cfrac_inverse_spec p q (proj1 Hok)) as [Hzero Hinv].
    split.
    + intros _ Hp. now rewrite (Hzero Hp).
    + intros [He|Hp]; [lia|].
      destruct (Hinv Hp) as (an & ad & -> & [Had _] & Hav).
      cbn [bind deref cval_neg]. 
      change (cval_neg E2 (VInt e)) with (@Val value (VInt (- e))).
      cbn [bind deref u_cint].
      destruct (generic_pow_loop 1 1 an ad (- e) (Z.abs (- e) + 1)
                  (frac_ok_int 1) Had ltac:(lia))
        as (p' & q' & -> & Hok' & Hv).
      exists p', q'. split; [reflexivity|]. split; [exact Hok'|].
      rewrite Hv, Hav, Qinv_power, <- Qpower_opp, Z.opp_involutive.
      change (frac_Q 1 1) with 1%Q. ring.
  - split; [lia|]. intros _.
    cbn [bind deref u_cint].
    destruct (generic_pow_loop 1 1 p q e (Z.abs e + 1)
                (frac_ok_int 1) (proj1 Hok) ltac:(lia))
      as (p' & q' & -> & Hok' & Hv).
    exists p', q'. split; [reflexivity|]. split; [exact Hok'|].
    rewrite Hv. change (frac_Q 1 1) with 1%Q. ring.
Qed.

End FractionPower.

(** C3, as amended.  For a Fraction [a = p/q] and a negative Integer
    [e], [a ^ e] is the range error [division by zero] when [a] is zero
    and otherwise the Fraction equal to [a ^ e], in lowest terms; it is
    never a Decimal.  A Decimal is what an Integer base gives with a
    negative Integer exponent. *)
Theorem fraction_pow_negative {B : Bignum} (n : nat) (p q e : Z) :
  frac_ok p q -> e < 0 ->
  (p = 0 ->
   cval_pow (engine_at (S (S n))) (VFrac p q) (VInt e)
   = Exc CERR_RANGE "division by zero")
  /\ (p <> 0 ->
      exists p' q',
        cval_pow (engine_at (S (S n))) (VFrac p q) (VInt e) = Val (VFrac p' q')
        /\ frac_ok p' q'
        /\ (frac_Q p' q' == frac_Q p q ^ e)%Q)
  /\ (forall d,
      cval_pow (engine_at (S (S n))) (VFrac p q) (VInt e) <> Val (VDec d))
  /\ (forall a, exists d,
      cval_pow (engine_at (S (S n))) (VInt a) (VInt e) = Val (VDec d)).
Proof.
  intros Hok He.
  destruct (cval_pow_frac_spec n p q e Hok) as [Hzero Hval].
  split; [auto|]. split; [auto|]. split.
  - intros d. destruct (Z.eq_dec p 0) as [Hp|Hp].
    + rewrite Hzero by assumption. discriminate.
    + destruct Hval as (p' & q' & -> & _); [now right | discriminate].
  - intros a.
    unfold cval_pow. cbn [cval_type max_tag tag_eqb tag_num tag_ltb Z.eqb Z.ltb Z.compare Pos.compare Pos.compare_cont Pos.eqb].
    change (cval_cmp_lt_int (engine_at (S (S n))) (VInt e) 0)
      with (@Val bool (e <? 0)).
    cbn [bind]. destruct (Z.ltb_spec e 0); [|lia].
    eexists. reflexivity.
Qed.

(** The theorem at [(3/5) ^ (-2)], on the rational reference library. *)
Lemma fraction_pow_negative_witness :
  exists p' q',
    cval_pow (engine_at 2) (VFrac 3 5) (VInt (-2))
    = Val (@VFrac rational_bignum p' q')
    /\ frac_ok p' q'
    /\ (frac_Q p' q' == frac_Q 3 5 ^ (-2))%Q.
Proof.
  destruct (@fraction_pow_negative rational_bignum 0 3 5 (-2)) as (_ & H & _).
  - split; [lia | reflexivity].
  - lia.
  - apply H. lia.
Defined.

(** C3 as stated fails: no Fraction raised to a negative Integer is a
    Decimal. *)
Lemma fraction_pow_never_decimal :
  ~ (exists (B : Bignum) (n : nat) (p q e : Z) (d : bfnum),
        frac_ok p q /\ e < 0
        /\ cval_pow (engine_at (S (S n))) (VFrac p q) (VInt e) = Val (VDec d)).
Proof.
  intros (B & n & p & q & e & d & Hok & He & H).
  destruct (cval_pow_frac_spec n p q e Hok) as [Hzero Hval].
  destruct (Z.eq_dec p 0) as [Hp|Hp].
  - rewrite Hzero in H by assumption. discriminate.
  - destruct Hval as (p' & q' & Hev & _); [now right|].
    rewrite Hev in H. discriminate.
Qed.

(** C2.  The fraction constructor refuses a zero denominator with the
    range error [division by zero]; for any other denominator it returns
    the fraction in lowest terms with a positive denominator.  Every
    value returned by the constructor, by the conversion to a fraction,
    by a binary operation, by a unary operation or by an Integer power
    on operands that are Booleans, Integers or Fractions satisfying the
    invariant, satisfies the invariant [den > 0] and
    [gcd (|num|, den) = 1] again; sums, differences and products of two
    such Fractions always are Fractions. *)
Theorem fraction_invariant {B : Bignum} (n : nat) :
  (forall num,
      cfrac_new (engine_at (S (S n))) (VInt num) (VInt 0)
      = Exc CERR_RANGE "division by zero")
  /\ (forall num den, den <> 0 ->
      exists p q,
        cfrac_new (engine_at (S (S n))) (VInt num) (VInt den) = Val (VFrac p q)
        /\ 0 < q /\ Z.gcd (Z.abs p) q = 1 /\ p * den = num * q)
  /\ (forall v1 v2 r,
      cfrac_new (engine_at (S (S n))) v1 v2 = Val r -> frac_inv r)
  /\ (forall v r,
      frac_operand v -> to_cfrac (engine_at (S (S n))) v = Val r -> frac_inv r)
  /\ (forall v1 v2 op r,
      frac_operand v1 -> frac_operand v2 ->
      cval_op2 (engine_at (S (S n))) v1 v2 op = Val r -> frac_inv r)
  /\ (forall v op r,
      frac_operand v ->
      cval_op1 (engine_at (S (S n))) v op = Val r -> frac_inv r)
  /\ (forall p q e r,
      frac_ok p q ->
      cval_pow (engine_at (S (S n))) (VFrac p q) (VInt e) = Val r -> frac_inv r)
  /\ (forall n1 d1 n2 d2 op,
      frac_ok n1 d1 -> frac_ok n2 d2 ->
      op = BC_OP2_ADD \/ op = BC_OP2_SUB \/ op = BC_OP2_MUL ->
      exists p q,
        cval_op2 (engine_at (S (S n))) (VFrac n1 d1) (VFrac n2 d2) op
        = Val (VFrac p q)).
Proof.
  repeat split.
  - intros num den Hden.
    destruct (cfrac_new_ok (S n) num den Hden) as (p & q & Hev & [Hq Hg] & Hv).
    exists p, q. auto.
  - intros v1 v2 r. apply cfrac_new_any.
  - intros v r Hv Hr.
    destruct (to_cfrac_operand (S n) v Hv) as (p & q & Hev & Hok).
    rewrite Hev in Hr. inversion Hr; subst. exact Hok.
  - intros v1 v2 op r. apply cval_op2_inv.
  - intros v op r. apply (cval_op1_inv (S n)).
  - intros p q e r Hok Hr.
    destruct (cval_pow_frac_spec n p q e Hok) as [Hzero Hval].
    destruct (Z_lt_ge_dec e 0) as [He|He]; [destruct (Z.eq_dec p 0) as [Hp|Hp]|].
    + rewrite Hzero in Hr by assumption. discriminate Hr.
    + destruct Hval as (p' & q' & Hev & Hok' & _); [now right|].
      rewrite Hev in Hr. inversion Hr; subst. exact Hok'.
    + destruct Hval as (p' & q' & Hev & Hok' & _); [left; lia|].
      rewrite Hev in Hr. inversion Hr; subst. exact Hok'.
  - intros n1 d1 n2 d2 op. apply cfrac_arith_total.
Qed.

(** The theorem at [6 // -4] and at [1/2 + 1/3], on the rational
    reference library. *)
Lemma fraction_invariant_witness :
  frac_inv (@VFrac rational_bignum (-3) 2)
  /\ exists p q,
      cval_op2 (engine_at 2) (VFrac 1 2) (VFrac 1 3) BC_OP2_ADD
      = Val (@VFrac rational_bignum p q).
Proof.
  destruct (@fraction_invariant rational_bignum 0)
    as (_ & _ & _ & _ & Hop & _ & _ & Htot).
  split.
  - apply (Hop (VInt 6) (VInt (-4)) BC_OP2_FRAC_DIV); [exact I | exact I |].
    reflexivity.
  - apply Htot; [split; [lia | reflexivity] | split; [lia | reflexivity] |].
    left; reflexivity.
Defined.

(** ** Indexing strings *)

Lemma cstring_len_app (s t : string) :
  cstring_len (String.append s t) = cstring_len s + cstring_len t.
Proof.
  induction s as [|c s IH]; cbn [String.append cstring_len]; [reflexivity|].
  rewrite IH. ring.
Qed.

Lemma cstring_len_continuation (s : string) :
  all_continuation s = true -> cstring_len s = 0.
Proof.
  induction s as [|c s IH]; cbn [all_continuation cstring_len]; [reflexivity|].
  intros H. apply andb_prop in H as [Hc Hs]. rewrite (IH Hs).
  unfold is_continuation in Hc. apply andb_prop in Hc as [H1 H2].
  destruct (Z.ltb_spec (byte_of c) 128); [lia|].
  destruct (Z.leb_spec 192 (byte_of c)); [lia|]. reflexivity.
Qed.

Lemma cstring_len_uchar (ch : uchar) :
  uchar_ok ch -> cstring_len (uchar_bytes ch) = 1.
Proof.
  intros [Hc Hs]. unfold uchar_bytes. cbn [cstring_len].
  rewrite (cstring_len_continuation _ Hs).
  unfold is_continuation in Hc.
  destruct (Z.ltb_spec (byte_of (fst ch)) 128); [reflexivity|].
  destruct (Z.leb_spec 192 (byte_of (fst ch))); [reflexivity|].
  exfalso. apply andb_false_iff in Hc as [Hc|Hc]; lia.
Qed.

Lemma cstring_len_chars (chars : list uchar) :
  Forall uchar_ok chars ->
  cstring_len (concat_chars chars) = Z.of_nat (List.length chars).
Proof.
  induction 1 as [|ch chars Hch _ IH]; [reflexivity|].
  cbn [concat_chars List.length]. rewrite cstring_len_app, IH, cstring_len_uchar by assumption.
  lia.
Qed.

Lemma starts_char_chars (chars : list uchar) :
  Forall uchar_ok chars -> starts_char (concat_chars chars).
Proof.
  intros H. destruct H as [|ch chars [Hc _] _]; [exact I | exact Hc].
Qed.

Lemma skip_continuation_app (s rest : string) :
  all_continuation s = true -> starts_char rest ->
  skip_continuation (String.append s rest) = (Z.of_nat (String.length s), rest).
Proof.
  intros Hs Hrest. induction s as [|c s IH].
  - cbn [String.append String.length]. destruct rest as [|c rest]; [reflexivity|].
    cbn in Hrest. cbn [skip_continuation]. now rewrite Hrest.
  - cbn [all_continuation] in Hs. apply andb_prop in Hs as [Hc Hs].
    cbn [String.append skip_continuation String.length]. rewrite Hc, (IH Hs).
    f_equal. lia.
Qed.

Lemma string_skipn_app (s t : string) :
  string_skipn (String.length s) (String.append s t) = t.
Proof. induction s; [destruct t; reflexivity | assumption]. Qed.

Lemma string_firstn_app (s t : string) :
  string_firstn (String.length s) (String.append s t) = s.
Proof.
  induction s as [|c s IH]; [destruct t; reflexivity|].
  cbn. now rewrite IH.
Qed.

Lemma string_length_app (s t : string) :
  String.length (String.append s t) = (String.length s + String.length t)%nat.
Proof. induction s; cbn; auto. Qed.

Lemma string_app_assoc (s t u : string) :
  String.append (String.append s t) u = String.append s (String.append t u).
Proof. induction s; cbn; congruence. Qed.

(** [utf8_pos] steps over whole characters. *)
Lemma utf8_pos_chars (pre post : list uchar) :
  Forall uchar_ok pre -> Forall uchar_ok post ->
  utf8_pos (concat_chars (pre ++ post)) (List.length pre)
  = Val (Z.of_nat (String.length (concat_chars pre))).
Proof.
  intros Hpre Hpost. induction Hpre as [|ch pre Hch Hpre IH]; [reflexivity|].
  cbn [List.app concat_chars List.length utf8_pos].
  unfold uchar_bytes at 1. cbn [String.append].
  rewrite skip_continuation_app.
  - rewrite IH. cbn [bind]. f_equal.
    unfold uchar_bytes. cbn [String.append String.length].
    rewrite string_length_app. lia.
  - apply Hch.
  - apply starts_char_chars, Forall_app; auto.
Qed.

Lemma concat_chars_app (pre post : list uchar) :
  concat_chars (pre ++ post)
  = String.append (concat_chars pre) (concat_chars post).
Proof.
  induction pre as [|ch pre IH]; [reflexivity|].
  cbn [List.app concat_chars]. now rewrite IH, string_app_assoc.
Qed.

Lemma chars_length_le (chars : list uchar) :
  (List.length chars <= String.length (concat_chars chars))%nat.
Proof.
  induction chars as [|ch chars IH]; [apply le_n|].
  cbn [concat_chars List.length uchar_bytes String.append String.length].
  rewrite string_length_app. lia.
Qed.

Section StringIndex.

Context {B : Bignum}.

(** The slice of one character. *)
Lemma cstring_slice_char (pre post : list uchar) (ch : uchar) :
  Forall uchar_ok pre -> uchar_ok ch -> Forall uchar_ok post ->
  cstring_slice (concat_chars (pre ++ ch :: post))
    (Z.of_nat (List.length pre)) (Z.of_nat (List.length pre) + 1)
  = Val (VString (uchar_bytes ch)).
Proof.
  intros Hpre Hch Hpost. unfold cstring_slice.
  destruct (Z.eqb_spec (Z.of_nat (List.length pre)) (Z.of_nat (List.length pre) + 1));
    [lia|].
  rewrite Nat2Z.id, utf8_pos_chars by auto. cbn [bind].
  rewrite Nat2Z.id, concat_chars_app, string_skipn_app.
  replace (Z.to_nat (Z.of_nat (List.length pre) + 1 - Z.of_nat (List.length pre)))
    with (List.length [ch]) by (cbn; lia).
  change (ch :: post) with ([ch] ++ post).
  rewrite (utf8_pos_chars [ch] post) by auto. cbn [bind].
  rewrite Nat2Z.id.
  change (concat_chars ([ch] ++ post))
    with (String.append (uchar_bytes ch) (concat_chars post)).
  change (concat_chars [ch]) with (String.append (uchar_bytes ch) EmptyString).
  assert (Happ : forall s, String.append s EmptyString = s)
    by (induction s; cbn; congruence).
  now rewrite Happ, string_firstn_app.
Qed.

End StringIndex.

(** C10.  For a string of [n] characters and an Integer index [i],
    resolved as [i + n] when [i] is negative: when the resolved index is
    in [0, n), [s[i]] is the string made of the character at that
    position; otherwise it is a range error ([array index out of bounds],
    or [integer is too large] for an index that is not a 32 bit
    integer). *)
Theorem string_index {B : Bignum} (chars : list uchar) (i : Z) (d : uchar) :
  Forall uchar_ok chars ->
  Z.of_nat (String.length (concat_chars chars)) <= INT_MAX ->
  cstring_len (concat_chars chars) = Z.of_nat (List.length chars)
  /\ (0 <= resolve_index i (Z.of_nat (List.length chars))
           < Z.of_nat (List.length chars) ->
      cstring_getitem [VString (concat_chars chars); VInt i]
      = Val (VString (uchar_bytes
               (nth (Z.to_nat (resolve_index i (Z.of_nat (List.length chars))))
                    chars d))))
  /\ (~ 0 <= resolve_index i (Z.of_nat (List.length chars))
             < Z.of_nat (List.length chars) ->
      cstring_getitem [VString (concat_chars chars); VInt i]
      = Exc CERR_RANGE
          (if (i <? BfInt.INT32_MIN) || (BfInt.INT32_MAX <? i)
           then "integer is too large" else "array index out of bounds")).
Proof.
  intros Hok Hlen.
  pose proof (chars_length_le chars) as Hle.
  pose proof (cstring_len_chars chars Hok) as Hn.
  split; [exact Hn|].
  assert (Hmax : Z.of_nat (List.length chars) <= 2 ^ 31 - 1)
    by (unfold INT_MAX, BfInt.INT32_MAX in Hlen; lia).
  set (n := Z.of_nat (List.length chars)) in *.
  unfold cstring_getitem. rewrite Hn. fold n.
  unfold cint_to_int, BfInt.bf_get_int32, resolve_index, BfInt.INT32_MIN, BfInt.INT32_MAX.
  split.
  - intros Hr.
    destruct (Z.ltb_spec i (- 2 ^ 31)) as [H1|H1];
      [destruct (Z.ltb_spec i 0); lia|].
    destruct (Z.ltb_spec (2 ^ 31 - 1) i) as [H2|H2];
      [destruct (Z.ltb_spec i 0); lia|].
    cbn [bind].
    set (r := if i <? 0 then i + n else i) in *.
    destruct (Z.ltb_spec r 0); [lia|].
    destruct (Z.leb_spec n r); [lia|]. cbn [orb].
    destruct (nth_split (n := Z.to_nat r) chars d ltac:(lia))
      as (pre & post & Hsplit & Hpre).
    set (ch := nth (Z.to_nat r) chars d) in *.
    rewrite Hsplit in Hok. apply Forall_app in Hok as [Hokpre Hokpost].
    apply Forall_cons_iff in Hokpost as [Hch Hpost].
    replace r with (Z.of_nat (List.length pre)) by lia.
    rewrite Hsplit at 1.
    now apply cstring_slice_char.
  - intros Hr.
    destruct (Z.ltb_spec i (- 2 ^ 31)) as [H1|H1]; [reflexivity|].
    destruct (Z.ltb_spec (2 ^ 31 - 1) i) as [H2|H2]; [reflexivity|].
    cbn [bind orb].
    set (r := if i <? 0 then i + n else i) in *.
    destruct (Z.ltb_spec r 0); [reflexivity|].
    destruct (Z.leb_spec n r); [reflexivity|]. lia.
Qed.

(** The theorem at ["abc"[-1]], at ["abc"[10]] and at the second
    character of a string whose second character takes three bytes. *)
Lemma string_index_witness :
  @cstring_getitem rational_bignum [VString "abc"; VInt (-1)]
  = Val (VString "c")
  /\ @cstring_getitem rational_bignum [VString "abc"; VInt 10]
     = Exc CERR_RANGE "array index out of bounds"
  /\ @cstring_getitem rational_bignum
       [VString (String "a" (String (ascii_of_nat 226) (String (ascii_of_nat 130)
                   (String (ascii_of_nat 172) "cd")))); VInt 1]
     = Val (VString (String (ascii_of_nat 226) (String (ascii_of_nat 130)
                       (String (ascii_of_nat 172) EmptyString)))).
Proof.
  assert (Habc : Forall uchar_ok
                   [("a"%char, EmptyString); ("b"%char, EmptyString);
                    ("c"%char, EmptyString)])
    by (repeat constructor).
  assert (Heur : Forall uchar_ok
                   [("a"%char, EmptyString);
                    (ascii_of_nat 226,
                     String (ascii_of_nat 130) (String (ascii_of_nat 172) EmptyString));
                    ("c"%char, EmptyString); ("d"%char, EmptyString)])
    by (repeat constructor).
  split; [|split].
  - destruct (@string_index rational_bignum _ (-1) ("x"%char, EmptyString) Habc)
      as (_ & H & _); [vm_compute; discriminate|].
    apply H. vm_compute. split; [discriminate | reflexivity].
  - destruct (@string_index rational_bignum _ 10 ("x"%char, EmptyString) Habc)
      as (_ & _ & H); [vm_compute; discriminate|].
    apply H. vm_compute. intros [_ H1]. discriminate H1.
  - destruct (@string_index rational_bignum _ 1 ("x"%char, EmptyString) Heur)
      as (_ & H & _); [vm_compute; discriminate|].
    apply H. vm_compute. split; [discriminate | reflexivity].
Defined.

(** ** Square roots and logarithms of negative reals *)

Section EngineSteps.

Context {B : Bignum}.
Variable m : nat.

Lemma e_op2_at v1 v2 op :
  e_op2 (engine_at (S m)) v1 v2 op = cval_op2 (engine_at m) v1 v2 op.
Proof. reflexivity. Qed.

Lemma e_op1_at v op :
  e_op1 (engine_at (S m)) v op = cval_op1 (engine_at m) v op.
Proof. reflexivity. Qed.

Lemma e_sqrt_at v : e_sqrt (engine_at (S m)) v = cval_sqrt (engine_at m) v.
Proof. reflexivity. Qed.

Lemma e_log_at v : e_log (engine_at (S m)) v = cval_log (engine_at m) v.
Proof. reflexivity. Qed.

Lemma e_convert_at v t :
  e_convert (engine_at (S m)) v t = cval_convert (engine_at m) v t.
Proof. reflexivity. Qed.

Lemma e_cdec_op2_at v1 v2 op :
  e_cdec_op2 (engine_at (S m)) v1 v2 op = cdec_op2 (engine_at m) v1 v2 op.
Proof. reflexivity. Qed.

End EngineSteps.

Section NegativeReals.

Context {B : Bignum}.
Variable m : nat.

(** The test [v < 0] on the four kinds of reals. *)
Lemma cmp_lt_int_spec (v : value) :
  real_operand v ->
  cval_cmp_lt_int (engine_at (S (S m))) v 0 = Val (is_negative v).
Proof.
  destruct v; cbn [real_operand]; try contradiction; intros Hv.
  - reflexivity.
  - unfold cval_cmp_lt_int. rewrite e_op2_at.
    change (cval_op2 (engine_at (S m)) (VFrac num den) (cint_from_int 0) BC_OP2_CMP_LT)
      with (@Val value (VBool (num * 1 <? den * 0))).
    cbn. now rewrite Z.mul_1_r, Z.mul_0_r.
  - reflexivity.
  - reflexivity.
Qed.

(** Sub-Decimal operands are promoted to Decimal. *)
Lemma to_dec_sub_decimal (v : value) :
  sub_decimal v -> exists d, to_dec (engine_at (S m)) v = Val (VDec d).
Proof.
  destruct v; cbn [sub_decimal]; try contradiction; intros _;
    eexists; reflexivity.
Qed.

Lemma cdec_op1_transcendental (d : bfnum) (op : BCOP1Enum) :
  is_transcendental_op op = true ->
  exists r, cdec_op1 (VDec d) op = Val (VDec r).
Proof.
  destruct op; try discriminate; intros _; eexists; reflexivity.
Qed.

Lemma cfloat_op1_transcendental (x : bfnum) (op : BCOP1Enum) :
  is_transcendental_op op = true ->
  exists r, cfloat_op1 (VFloat x) op = Val (VFloat r).
Proof.
  destruct op; try discriminate; intros _; eexists; reflexivity.
Qed.

Lemma cval_op1_sub_decimal (v : value) (op : BCOP1Enum) (d : bfnum) :
  is_transcendental_op op = true ->
  tag_ltb (cval_type v) CTYPE_DECIMAL = true ->
  to_dec (engine_at (S m)) v = Val (VDec d) ->
  cval_op1 (engine_at (S m)) v op = cdec_op1 (VDec d) op.
Proof.
  intros Hop Hlt Hd. unfold cval_op1. rewrite Hop, Hlt, Hd. reflexivity.
Qed.

Lemma cval_op1_real (v : value) (op : BCOP1Enum) :
  real_operand v -> is_transcendental_op op = true ->
  exists r, cval_op1 (engine_at (S m)) v op = Val r
            /\ cval_type r = promoted_kind v.
Proof.
  intros Hv Hop.
  destruct v as [ | b | z | num den | d | f | | | | | ];
    cbn [real_operand] in Hv; try contradiction.
  - destruct (cdec_op1_transcendental
                (bfdec_from_int z ctx_dec_prec ctx_dec_flags) op Hop) as [r Hr].
    exists (VDec r). split; [|reflexivity].
    rewrite (cval_op1_sub_decimal (VInt z) op _ Hop eq_refl eq_refl). exact Hr.
  - destruct (cdec_op1_transcendental
                (bfdec_div (bfdec_from_int num ctx_dec_prec ctx_dec_flags)
                           (bfdec_from_int den ctx_dec_prec ctx_dec_flags)
                           ctx_dec_prec ctx_dec_flags) op Hop) as [r Hr].
    exists (VDec r). split; [|reflexivity].
    rewrite (cval_op1_sub_decimal (VFrac num den) op _ Hop eq_refl eq_refl). exact Hr.
  - destruct (cdec_op1_transcendental d op Hop) as [r Hr].
    exists (VDec r). split; [|reflexivity].
    unfold cval_op1. rewrite Hop. exact Hr.
  - destruct (cfloat_op1_transcendental f op Hop) as [r Hr].
    exists (VFloat r). split; [|reflexivity].
    unfold cval_op1. rewrite Hop. exact Hr.
Qed.

End NegativeReals.

Section NegativeRealsComplex.

Context {B : Bignum}.
Hypothesis laws : sign_laws B.

Lemma real_operand_leb (v : value) :
  real_operand v -> tag_leb (cval_type v) CTYPE_FLOAT = true.
Proof. destruct v; cbn [real_operand]; try contradiction; reflexivity. Qed.

(** The square root of the library is the square root of a real
    operand, after the conversion of an Integer or a Fraction to a
    Decimal. *)
Lemma cval_op1_sqrt_real (m : nat) (v : value) :
  real_operand v ->
  cval_op1 (engine_at (S m)) v BC_OP1_SQRT = Val (real_sqrt v).
Proof.
  destruct v as [ | b | z | num den | d | f | | | | | ];
    cbn [real_operand]; try contradiction; intros _; reflexivity.
Qed.

Lemma real_sqrt_sign (v : value) :
  real_operand v ->
  cval_type (real_sqrt v) = promoted_kind v
  /\ real_operand (real_sqrt v) /\ is_negative (real_sqrt v) = false.
Proof.
  destruct v as [ | b | z | num den | d | f | | | | | ];
    cbn [real_operand]; try contradiction; intros _;
    (split; [reflexivity|]); (split; [exact I|]).
  - apply (dec_sqrt_sign B laws).
  - apply (dec_sqrt_sign B laws).
  - apply (dec_sqrt_sign B laws).
  - apply (float_sqrt_sign B laws).
Qed.

Lemma cval_sqrt_not_negative (m : nat) (v : value) :
  real_operand v -> is_negative v = false ->
  cval_sqrt (engine_at (S (S m))) v = Val (real_sqrt v).
Proof.
  intros Hv Hneg. unfold cval_sqrt.
  rewrite (real_operand_leb v Hv), cmp_lt_int_spec, Hneg by assumption.
  cbn [bind]. now apply cval_op1_sqrt_real.
Qed.

Lemma cval_log_not_negative (m : nat) (v : value) :
  real_operand v -> is_negative v = false ->
  cval_log (engine_at (S (S m))) v
  = cval_op1 (engine_at (S (S m))) v BC_OP1_LOG.
Proof.
  intros Hv Hneg. unfold cval_log.
  rewrite (real_operand_leb v Hv), cmp_lt_int_spec, Hneg by assumption.
  reflexivity.
Qed.

Lemma opposite_real (v : value) :
  real_operand v -> is_negative v = true ->
  real_operand (opposite v) /\ is_negative (opposite v) = false
  /\ promoted_kind (opposite v) = promoted_kind v.
Proof.
  intros Hv Hneg.
  destruct v as [ | b | z | num den | d | f | | | | | ];
    cbn [real_operand is_negative] in Hv, Hneg; try contradiction.
  - repeat split. cbn [opposite is_negative].
    apply Z.ltb_lt in Hneg. apply Z.ltb_ge. lia.
  - split; [now apply frac_ok_neg|]. split; [|reflexivity].
    cbn [opposite is_negative].
    apply Z.ltb_lt in Hneg. apply Z.ltb_ge. lia.
  - repeat split. now apply (dec_neg_sign B laws).
  - repeat split. now apply (float_neg_sign B laws).
Qed.

Lemma cval_neg_real (m : nat) (v : value) :
  real_operand v ->
  cval_neg (engine_at (S (S m))) v = Val (opposite v).
Proof.
  destruct v as [ | b | z | num den | d | f | | | | | ];
    cbn [real_operand]; try contradiction; intros _; reflexivity.
Qed.

(** A complex number made of an Integer zero and a Decimal or a Float:
    the zero is converted to the kind of the other part. *)
Lemma complex_new_zero (m : nat) (v : value) :
  real_operand v ->
  complex_new (engine_at (S m)) (cint_from_int 0) (real_sqrt v)
  = Val (VComplex (def_type (promoted_kind v)) (kind_zero v) (real_sqrt v)).
Proof.
  destruct v as [ | b | z | num den | d | f | | | | | ];
    cbn [real_operand]; try contradiction; intros _; reflexivity.
Qed.

Lemma complex_new_same (m : nat) (a b : value) :
  cval_type a = CTYPE_DECIMAL \/ cval_type a = CTYPE_FLOAT ->
  cval_type b = cval_type a ->
  complex_new (engine_at (S m)) a b
  = Val (VComplex (def_type (cval_type a)) a b).
Proof.
  destruct a as [ | ? | ? | ? ? | da | fa | | | | | ];
    intros [H|H]; try discriminate H;
    destruct b as [ | ? | ? | ? ? | db | fb | | | | | ];
    intros Hb; try discriminate Hb; reflexivity.
Qed.

Lemma promoted_kind_cases (v : value) :
  promoted_kind v = CTYPE_DECIMAL \/ promoted_kind v = CTYPE_FLOAT.
Proof. destruct v; auto. Qed.

Lemma kind_zero_opposite (v : value) :
  real_operand v -> kind_zero (opposite v) = kind_zero v.
Proof.
  destruct v; cbn [real_operand]; try contradiction; reflexivity.
Qed.

(** The square root of a real below zero: [0 + sqrt(- v) i]. *)
Lemma cval_sqrt_negative (m : nat) (v : value) :
  real_operand v -> is_negative v = true ->
  cval_sqrt (engine_at (S (S (S m)))) v
  = Val (VComplex (def_type (promoted_kind v)) (kind_zero v)
           (real_sqrt (opposite v))).
Proof.
  intros Hv Hneg. unfold cval_sqrt.
  rewrite (real_operand_leb v Hv), cmp_lt_int_spec, Hneg by assumption.
  cbn [bind].
  destruct (opposite_real v Hv Hneg) as (Hreal & Hpos & Hkind).
  rewrite cval_neg_real by assumption. cbn [deref]. rewrite e_sqrt_at.
  rewrite cval_sqrt_not_negative by assumption. cbn [deref].
  rewrite complex_new_zero by assumption.
  now rewrite Hkind, kind_zero_opposite.
Qed.

End NegativeRealsComplex.

Lemma frac_norm_fixed (p q : Z) : frac_ok p q -> frac_norm p q = (p, q).
Proof.
  intros [Hq Hg]. unfold frac_norm.
  rewrite Z.gcd_abs_l in Hg. rewrite Hg, !Z.div_1_r.
  rewrite Z.sgn_pos, Z.abs_eq by lia. f_equal. lia.
Qed.

(** The square of a Fraction in lowest terms is in lowest terms. *)
Lemma frac_ok_square (p q : Z) : frac_ok p q -> frac_ok (p * p) (q * q).
Proof.
  intros [Hq Hg]. split; [nia|].
  rewrite Z.gcd_abs_l in *.
  assert (H1 : Z.gcd p (q * q) = 1) by now apply Z.coprime_mul_r.
  now apply Z.coprime_mul_l.
Qed.

Section NegativeRealsLog.

Context {B : Bignum}.
Hypothesis laws : sign_laws B.

Lemma to_complex_real (m : nat) (v : value) :
  real_operand v ->
  to_complex (engine_at (S m)) v = Val (VComplex (vtype v) v (zero_like v)).
Proof.
  destruct v as [ | b | z | num den | d | f | | | | | ];
    cbn [real_operand]; try contradiction; intros _; reflexivity.
Qed.

Lemma cval_atan2_real (m : nat) (v : value) :
  real_operand v ->
  exists a, cval_atan2 (engine_at (S m)) (zero_like v) v = Val a
            /\ cval_type a = promoted_kind v.
Proof.
  destruct v as [ | b | z | num den | d | f | | | | | ];
    cbn [real_operand]; try contradiction; intros _;
    eexists; (split; [reflexivity|reflexivity]).
Qed.

Lemma cfrac_add_spec (m : nat) (a b c d : Z) :
  0 < b -> 0 < d ->
  exists p q,
    cval_op2 (engine_at (S m)) (VFrac a b) (VFrac c d) BC_OP2_ADD
    = Val (VFrac p q)
    /\ frac_ok p q /\ p * (b * d) = (a * d + c * b) * q.
Proof.
  intros Hb Hd.
  change (cval_op2 (engine_at (S m)) (VFrac a b) (VFrac c d) BC_OP2_ADD)
    with (cfrac_new (engine_at (S m)) (VInt (a * d + c * b)) (VInt (b * d))).
  destruct (cfrac_new_ok m (a * d + c * b) (b * d) ltac:(nia))
    as (p & q & -> & Hok & Hv).
  now exists p, q.
Qed.

Lemma cfrac_new_lowest (m : nat) (p q : Z) :
  frac_ok p q -> cfrac_new (engine_at (S m)) (VInt p) (VInt q) = Val (VFrac p q).
Proof.
  intros Hok. rewrite cfrac_new_spec by (destruct Hok; lia).
  now rewrite frac_norm_fixed.
Qed.

(** The squared modulus of [v + 0 i]. *)
Lemma complex_norm2_real (m : nat) (v : value) :
  real_operand v ->
  complex_norm2 (engine_at (S (S m))) (VComplex (vtype v) v (zero_like v))
  = Val (real_square v).
Proof.
  intros Hv.
  destruct v as [ | b | z | num den | d | f | | | | | ];
    cbn [real_operand] in Hv; try contradiction.
  - change (complex_norm2 (engine_at (S (S m)))
              (VComplex (vtype (VInt z)) (VInt z) (zero_like (VInt z))))
      with (@Val value (VInt (z * z + 0 * 0))).
    cbn [real_square]. do 2 f_equal. lia.
  - pose proof (frac_ok_square num den Hv) as Hsq.
    unfold complex_norm2. cbn [to_complex bind u_complex zero_like].
    unfold cval_mul, cval_add. rewrite !e_op2_at.
    change (cval_op2 (engine_at (S m)) (VFrac num den) (VFrac num den) BC_OP2_MUL)
      with (cfrac_new (engine_at (S m)) (VInt (num * num)) (VInt (den * den))).
    rewrite cfrac_new_lowest by assumption. cbn [deref].
    change (cval_op2 (engine_at (S m)) (VFrac 0 1) (VFrac 0 1) BC_OP2_MUL)
      with (cfrac_new (engine_at (S m)) (VInt (0 * 0)) (VInt (1 * 1))).
    change (0 * 0) with 0. change (1 * 1) with 1.
    rewrite cfrac_new_lowest by apply frac_ok_int. cbn [deref].
    rewrite e_op2_at.
    change (cval_op2 (engine_at (S m)) (VFrac (num * num) (den * den))
              (VFrac 0 1) BC_OP2_ADD)
      with (cfrac_new (engine_at (S m))
              (VInt (num * num * 1 + 0 * (den * den)))
              (VInt (den * den * 1))).
    replace (num * num * 1 + 0 * (den * den)) with (num * num) by lia.
    replace (den * den * 1) with (den * den) by lia.
    now rewrite cfrac_new_lowest by assumption.
  - reflexivity.
  - reflexivity.
Qed.

Lemma real_square_sign (v : value) :
  real_operand v ->
  real_operand (real_square v) /\ is_negative (real_square v) = false
  /\ promoted_kind (real_square v) = promoted_kind v.
Proof.
  intros Hv.
  destruct v as [ | b | z | num den | d | f | | | | | ];
    cbn [real_operand] in Hv; try contradiction.
  - repeat split. cbn [real_square is_negative]. apply Z.ltb_ge. nia.
  - split; [now apply frac_ok_square|]. split; [|reflexivity].
    cbn [real_square is_negative]. apply Z.ltb_ge. nia.
  - repeat split. apply (dec_norm_sign B laws).
  - repeat split. apply (float_norm_sign B laws).
Qed.

(** The logarithm of a square root does not use the engine. *)
Lemma cval_op1_log_sqrt (E1 E2 : engine) (w : value) :
  cval_op1 E1 (real_sqrt w) BC_OP1_LOG = cval_op1 E2 (real_sqrt w) BC_OP1_LOG.
Proof. destruct w; reflexivity. Qed.

(** The logarithm of a real below zero: the logarithm of the modulus
    [sqrt (v * v)] and the argument [atan2 (0, v)]. *)
Lemma cval_log_negative (m : nat) (v : value) :
  real_operand v -> is_negative v = true ->
  exists l arg,
    cval_op1 (engine_at (S (S (S (S (S m)))))) (real_sqrt (real_square v))
      BC_OP1_LOG = Val l
    /\ cval_atan2 (engine_at (S (S (S (S (S m)))))) (zero_like v) v = Val arg
    /\ cval_type l = promoted_kind v /\ cval_type arg = promoted_kind v
    /\ cval_log (engine_at (S (S (S (S (S m)))))) v
       = Val (VComplex (def_type (promoted_kind v)) l arg).
Proof.
  intros Hv Hneg.
  destruct (real_square_sign v Hv) as (Hnv & Hnvpos & Hnvk).
  destruct (real_sqrt_sign laws (real_square v) Hnv) as (Hsk & Hs & Hspos).
  rewrite Hnvk in Hsk.
  destruct (cval_op1_real (S (S (S (S m)))) (real_sqrt (real_square v))
              BC_OP1_LOG Hs eq_refl) as (l & Hl & Hlk).
  assert (Hk : promoted_kind (real_sqrt (real_square v)) = promoted_kind v).
  { destruct v; cbn [real_operand] in Hv; try contradiction; reflexivity. }
  rewrite Hk in Hlk.
  destruct (cval_atan2_real (S (S (S (S m)))) v Hv) as (arg & Harg & Hargk).
  exists l, arg.
  split; [exact Hl|]. split; [exact Harg|]. split; [exact Hlk|].
  split; [exact Hargk|].
  unfold cval_log.
  rewrite (real_operand_leb v Hv), cmp_lt_int_spec, Hneg by assumption.
  cbn [bind]. rewrite to_complex_real by assumption. cbn [deref].
  change (cval_op1 (engine_at (S (S (S (S (S m))))))
            (VComplex (vtype v) v (zero_like v)) BC_OP1_LOG)
    with (arg <-! cval_atan2 (engine_at (S (S (S (S (S m)))))) (zero_like v) v ;;
          r <-! cval_abs (engine_at (S (S (S (S (S m))))))
                  (VComplex (vtype v) v (zero_like v)) ;;
          l <-! e_log (engine_at (S (S (S (S (S m)))))) r ;;
          complex_new (engine_at (S (S (S (S (S m)))))) l arg).
  rewrite Harg. cbn [deref].
  unfold cval_abs. rewrite e_op1_at.
  change (cval_op1 (engine_at (S (S (S (S m)))))
            (VComplex (vtype v) v (zero_like v)) BC_OP1_ABS)
    with (nv <-! complex_norm2 (engine_at (S (S (S (S m)))))
                   (VComplex (vtype v) v (zero_like v)) ;;
          e_sqrt (engine_at (S (S (S (S m))))) nv).
  rewrite complex_norm2_real by assumption. cbn [deref]. rewrite e_sqrt_at.
  rewrite (cval_sqrt_not_negative (S m)) by assumption.
  cbn [deref]. rewrite e_log_at.
  rewrite (cval_log_not_negative (S (S m))) by assumption.
  assert (Hl4 : cval_op1 (engine_at (S (S (S (S m))))) (real_sqrt (real_square v))
                  BC_OP1_LOG = Val l).
  { rewrite <- Hl. apply cval_op1_log_sqrt. }
  rewrite Hl4. cbn [deref].
  rewrite complex_new_same.
  - now rewrite Hlk.
  - rewrite Hlk. apply promoted_kind_cases.
  - now rewrite Hlk, Hargk.
Qed.

End NegativeRealsLog.

(** The rational reference library satisfies the laws of the order. *)
Lemma q_ltb_Qred_zero (q : Q) :
  RationalBignum.q_ltb (Qred q) 0 = RationalBignum.q_ltb q 0.
Proof.
  unfold RationalBignum.q_ltb. cbn [Qnum Qden]. rewrite !Z.mul_0_l, !Z.mul_1_r.
  pose proof (Qred_correct q) as H. unfold Qeq in H.
  destruct (Z.ltb_spec (Qnum (Qred q)) 0), (Z.ltb_spec (Qnum q) 0);
    try reflexivity; exfalso;
    pose proof (Pos2Z.is_pos (Qden q)); pose proof (Pos2Z.is_pos (Qden (Qred q)));
    nia.
Qed.

Lemma rational_xsquare_sign (x : RationalBignum.xnum) :
  match RationalBignum.mul x x with
  | RationalBignum.XNaN => True
  | RationalBignum.XInf s => s = false
  | RationalBignum.XFin q => RationalBignum.q_ltb q 0 = false
  end.
Proof.
  destruct x as [ | s | q]; cbn [RationalBignum.mul];
    [exact I | apply xorb_nilpotent |].
  rewrite q_ltb_Qred_zero. unfold RationalBignum.q_ltb. cbn [Qnum Qden Qmult].
  rewrite Z.mul_0_l, Z.mul_1_r. apply Z.ltb_ge. nia.
Qed.

Lemma rational_norm_sign (x y : RationalBignum.xnum) :
  RationalBignum.cmp_lt
    (RationalBignum.add (RationalBignum.mul x x) (RationalBignum.mul y y))
    (RationalBignum.of_Z 0) = false.
Proof.
  pose proof (rational_xsquare_sign x) as Hx.
  pose proof (rational_xsquare_sign y) as Hy.
  destruct (RationalBignum.mul x x) as [ | s | a];
    destruct (RationalBignum.mul y y) as [ | t | b]; subst;
    cbn [RationalBignum.add RationalBignum.cmp_lt RationalBignum.of_Z Bool.eqb];
    try reflexivity.
  change (inject_Z 0) with 0%Q. rewrite q_ltb_Qred_zero.
  unfold RationalBignum.q_ltb in *. cbn [Qnum Qden Qplus] in *.
  rewrite Z.mul_0_l, Z.mul_1_r in *. apply Z.ltb_ge in Hx, Hy. apply Z.ltb_ge.
  pose proof (Pos2Z.is_pos (Qden a)); pose proof (Pos2Z.is_pos (Qden b)). nia.
Qed.

Lemma rational_sign_laws : sign_laws rational_bignum.
Proof.
  split.
  - intros [ | [|] | q]; cbn; try discriminate; try reflexivity.
    unfold RationalBignum.q_ltb. cbn. rewrite !Z.mul_1_r.
    intros H. apply Z.ltb_lt in H. apply Z.ltb_ge. lia.
  - intros [ | [|] | q] p f; cbn; try reflexivity.
    destruct (RationalBignum.q_ltb q 0) eqn:Hq; [reflexivity|].
    cbn. unfold RationalBignum.q_ltb. cbn. rewrite Z.mul_1_r.
    apply Z.ltb_ge, Z.sqrt_nonneg.
  - intros x y p f. apply rational_norm_sign.
  - intros [ | [|] | q]; cbn; try discriminate; try reflexivity.
    unfold RationalBignum.q_ltb. cbn. rewrite !Z.mul_1_r.
    intros H. apply Z.ltb_lt in H. apply Z.ltb_ge. lia.
  - intros [ | [|] | q] p f; cbn; try reflexivity.
    destruct (RationalBignum.q_ltb q 0) eqn:Hq; [reflexivity|].
    cbn. unfold RationalBignum.q_ltb. cbn. rewrite Z.mul_1_r.
    apply Z.ltb_ge, Z.sqrt_nonneg.
  - intros x y p f. apply rational_norm_sign.
Qed.

(** C9.  Under the laws of the order of the library: for a real operand
    [v] (Integer, Fraction, Decimal or Float) below zero, [sqrt] and
    [log] raise no error and return a Complex value, whose parts are
    Floats for a Float operand and Decimals otherwise.  The square root
    is [0 + s i], where [s] is the square root of the opposite [- v];
    the logarithm is [l + a i], where [l] is the logarithm of the
    modulus [sqrt (v * v)] and [a] is [atan2 (0, v)]: the operand is
    taken as the complex number [v + 0 i].  A Boolean, Integer or
    Fraction operand of [sqrt], [exp], [log] and of the trigonometric
    functions is first converted to the Decimal that stands for it, and
    the result is the Decimal that the Decimal implementation gives for
    that Decimal. *)
Theorem negative_sqrt_log_complex {B : Bignum} (n : nat) :
  sign_laws B ->
  (forall v, real_operand v -> is_negative v = true ->
     cval_cmp_lt_int (engine_at (5 + n)) v 0 = Val true
     /\ cval_neg (engine_at (5 + n)) v = Val (opposite v)
     /\ cval_op1 (engine_at (5 + n)) (opposite v) BC_OP1_SQRT
        = Val (real_sqrt (opposite v))
     /\ cval_sqrt (engine_at (5 + n)) v
        = Val (VComplex (def_type (promoted_kind v)) (kind_zero v)
                 (real_sqrt (opposite v)))
     /\ to_complex (engine_at (5 + n)) v
        = Val (VComplex (vtype v) v (zero_like v))
     /\ (exists l arg,
          cval_op1 (engine_at (5 + n)) (real_sqrt (real_square v)) BC_OP1_LOG
          = Val l
          /\ cval_atan2 (engine_at (5 + n)) (zero_like v) v = Val arg
          /\ cval_type l = promoted_kind v /\ cval_type arg = promoted_kind v
          /\ cval_log (engine_at (5 + n)) v
             = Val (VComplex (def_type (promoted_kind v)) l arg)))
  /\ (forall v op, sub_decimal v -> is_transcendental_op op = true ->
      to_dec (engine_at (5 + n)) v = Val (VDec (dec_of v))
      /\ cval_op1 (engine_at (5 + n)) v op = cdec_op1 (VDec (dec_of v)) op
      /\ exists r, cdec_op1 (VDec (dec_of v)) op = Val (VDec r)).
Proof.
  intros laws. change (5 + n)%nat with (S (S (S (S (S n))))). split.
  - intros v Hv Hneg.
    destruct (opposite_real laws v Hv Hneg) as (Hov & _ & _).
    split; [|split; [|split; [|split; [|split]]]].
    + rewrite cmp_lt_int_spec by assumption. now rewrite Hneg.
    + now apply cval_neg_real.
    + now apply cval_op1_sqrt_real.
    + now apply (cval_sqrt_negative laws (S (S n))).
    + now apply to_complex_real.
    + now apply (cval_log_negative laws n).
  - intros v op Hv Hop.
    assert (Hd : to_dec (engine_at (S (S (S (S (S n)))))) v = Val (VDec (dec_of v))).
    { destruct v; cbn [sub_decimal] in Hv; try contradiction; reflexivity. }
    split; [exact Hd|]. split.
    + apply cval_op1_sub_decimal; auto.
      destruct v; cbn [sub_decimal] in Hv; try contradiction; reflexivity.
    + apply cdec_op1_transcendental. exact Hop.
Qed.

(** The theorem at [sqrt(-4)] and [log(-4)], on the rational reference
    library: [sqrt(-4)] is [0 + sqrt(4) i], and [log(-4)] has the parts
    [log (sqrt 16)] and [atan2 (0, -4)]. *)
Lemma negative_sqrt_log_complex_witness :
  cval_sqrt (engine_at 5) (VInt (-4))
  = Val (@VComplex rational_bignum (def_type CTYPE_DECIMAL) (VDec dec_zero)
           (real_sqrt (VInt 4)))
  /\ (exists l arg,
       cval_op1 (engine_at 5) (real_sqrt (VInt 16)) BC_OP1_LOG = Val l
       /\ cval_atan2 (engine_at 5) (VInt 0) (VInt (-4)) = Val arg
       /\ cval_log (engine_at 5) (VInt (-4))
          = Val (@VComplex rational_bignum (def_type CTYPE_DECIMAL) l arg)).
Proof.
  destruct (@negative_sqrt_log_complex rational_bignum 0 rational_sign_laws)
    as [H _].
  destruct (H (VInt (-4)) I eq_refl) as (_ & _ & _ & Hs & _ & l & arg & Hl & Ha & _ & _ & Hlog).
  split; [exact Hs|]. exists l, arg.
  split; [exact Hl|]. split; [exact Ha | exact Hlog].
Defined.

(** ** Integer primitives *)

Section IntegerPrimitives.

Context {B : Bignum}.
Variable n : nat.
Local Notation "'E1'" := (engine_at (S n)).

Lemma cmp_lt_int_int (x c : Z) :
  cval_cmp_lt_int E1 (VInt x) c = Val (x <? c).
Proof. reflexivity. Qed.

Lemma cmp_eq_int_int (x c : Z) :
  cval_cmp_eq_int E1 (VInt x) c = Val (x =? c).
Proof. reflexivity. Qed.

Lemma cmp_eq2_int (x y : Z) :
  cval_cmp_eq2 E1 (VInt x) (VInt y) = Val (x =? y).
Proof. reflexivity. Qed.

Lemma cval_mul_int (x y : Z) : cval_mul E1 (VInt x) (VInt y) = Val (VInt (x * y)).
Proof. reflexivity. Qed.

Lemma cval_sub_int (x y : Z) : cval_sub E1 (VInt x) (VInt y) = Val (VInt (x - y)).
Proof. reflexivity. Qed.

Lemma cval_mod_int (x y : Z) :
  0 < y -> cval_mod E1 (VInt x) (VInt y) = Val (VInt (x mod y)).
Proof.
  intros Hy. unfold cval_mod. rewrite e_op2_at.
  change (cval_op2 (engine_at n) (VInt x) (VInt y) BC_OP2_MOD)
    with (e_cint_op2 E1 (VInt x) (VInt y) BC_OP2_MOD).
  rewrite cint_mod_spec by lia. now rewrite Z.abs_eq by lia.
Qed.

Lemma cint_divide_int (x y : Z) :
  0 < y -> cint_divide E1 (VInt x) (VInt y) = Val (x mod y =? 0).
Proof.
  intros Hy. unfold cint_divide. now rewrite cval_mod_int.
Qed.

Lemma cval_divexact_int (x y : Z) :
  0 < y -> (y | x) ->
  cval_divexact E1 (VInt x) (VInt y) = Val (VInt (x / y)).
Proof.
  intros Hy Hdiv. unfold cval_divexact, cval_divrem. rewrite e_op2_at.
  change (cval_op2 (engine_at n) (VInt x) (VInt y) BC_OP2_DIVREM)
    with (match BfInt.bf_divrem x y BF_DIVREM_EUCLIDIAN with
          | Some (q, r) => Val (carray_pair (VInt q) (VInt r))
          | None => cval_range_error "division by zero"
          end).
  rewrite bf_divrem_euclid by lia.
  rewrite Z.sgn_pos, Z.abs_eq, Z.mul_1_l by lia.
  cbn [bind carray_pair]. rewrite cmp_eq_int_int. cbn [bind].
  apply Z.mod_divide in Hdiv; [|lia]. rewrite Hdiv. reflexivity.
Qed.

End IntegerPrimitives.

(** ** The modular power *)

Lemma pow_halve_mod (r a b m : Z) :
  0 < m -> 0 < b ->
  ((if Z.odd b then (r * a) mod m else r) * ((a * a) mod m) ^ (b / 2)) mod m
  = (r * a ^ b) mod m.
Proof.
  intros Hm Hb.
  assert (Hk : 0 <= b / 2) by (apply Z.div_pos; lia).
  rewrite Z.mul_mod, Z.mod_pow_l, <- Z.mul_mod by lia.
  rewrite (Z.div_mod b 2) at 3 by lia.
  rewrite <- Z.bit0_mod, Z.bit0_odd.
  rewrite Z.pow_add_r, Z.pow_mul_r by (try lia; destruct (Z.odd b); cbn; lia).
  replace (a ^ 2) with (a * a) by ring.
  destruct (Z.odd b); cbn [Z.b2z].
  - rewrite Z.pow_1_r, Z.mul_mod_idemp_l by lia. f_equal. ring.
  - rewrite Z.pow_0_r. f_equal. ring.
Qed.

Section ModularPower.

Context {B : Bignum}.
Variable n : nat.
Local Notation "'E1'" := (engine_at (S n)).

Lemma cint_pmod_body_spec (rz az bz mz : Z) :
  0 < mz ->
  cint_pmod_body E1 (VInt mz) (VInt rz, VInt az, VInt bz)
  = Val (if bz / 2 =? 0
         then Break (VInt (if Z.odd bz then (rz * az) mod mz else rz))
         else Continue (VInt (if Z.odd bz then (rz * az) mod mz else rz),
                        VInt ((az * az) mod mz), VInt (bz / 2))).
Proof.
  intros Hm. unfold cint_pmod_body. cbn [u_cint bind].
  rewrite odd_get_int32_mod, cint_shl_minus_one.
  rewrite !cval_mul_int. cbn [deref]. rewrite !cval_mod_int by assumption.
  destruct (Z.odd bz); cbn [deref]; rewrite cmp_eq_int_int; cbn [bind];
    destruct (bz / 2 =? 0); reflexivity.
Qed.

Lemma cint_pmod_spec (a b m : Z) :
  1 <= m -> 0 < b ->
  cint_pmod E1 (VInt a) (VInt b) (VInt m) = Val (VInt (pow_mod a b m)).
Proof.
  intros Hm Hb. unfold cint_pmod, pow_mod. cbn [is_int andb negb].
  rewrite !cmp_lt_int_int, cmp_eq_int_int. cbn [bind].
  destruct (Z.ltb_spec m 1); [lia|].
  destruct (Z.eqb_spec b 0); [lia|].
  destruct (Z.ltb_spec b 0); [lia|].
  cbn [bind u_cint cint_from_int].
  apply (while_loop_rule (cint_pmod_body E1 (VInt m))
           (fun s => exists rz az bz,
                s = (VInt rz, VInt az, VInt bz) /\ 0 < bz <= b
                /\ (rz * az ^ bz) mod m = (a ^ b) mod m)
           (fun r => r = Val (VInt ((a ^ b) mod m)))
           (fun s => match s with (_, _, VInt bz) => bz | _ => 0 end)).
  - intros s (rz & az & bz & -> & Hbz & Hinv).
    rewrite cint_pmod_body_spec by lia.
    pose proof (pow_halve_mod rz az bz m ltac:(lia) ltac:(lia)) as Hhalf.
    destruct (Z.eqb_spec (bz / 2) 0) as [Hz|Hz].
    + rewrite Hz, Z.pow_0_r, Z.mul_1_r in Hhalf.
      do 2 f_equal. rewrite <- Hinv, <- Hhalf.
      destruct (Z.odd bz) eqn:Hodd; [now rewrite Z.mod_mod by lia|].
      (* an even exponent has a non-zero half *)
      exfalso.
      pose proof (Z.div_mod bz 2 ltac:(lia)).
      pose proof (Z.mod_pos_bound bz 2 ltac:(lia)).
      assert (bz = 1) by lia. subst bz. discriminate Hodd.
    + assert (Hk : 0 < bz / 2 < bz).
      { pose proof (Z.div_pos bz 2). split; [lia|]. apply Z.div_lt; lia. }
      split; [|lia].
      eexists _, _, _. split; [reflexivity|]. split; [lia|].
      now rewrite Hhalf.
  - exists 1, a, b. split; [reflexivity|]. split; [lia|]. f_equal. ring.
  - lia.
Qed.

End ModularPower.

(** ** The primality test *)

Lemma ctz_pos_bound (p : positive) :
  0 <= BfInt.ctz_pos p /\ 2 ^ BfInt.ctz_pos p <= Z.pos p.
Proof.
  induction p as [p IH|p IH|]; cbn [BfInt.ctz_pos]; try (cbn; lia).
  destruct IH as [H0 H1]. split; [lia|].
  rewrite Z.pow_add_r, Z.pow_1_r by lia. lia.
Qed.

(** The odd part [d] of [n - 1] computed by [miller_rabin_test] is
    positive. *)
Lemma miller_rabin_odd_part_pos (n : Z) :
  2 <= n ->
  0 < BfInt.bf_mul_2exp_floor (n - 1)
        (if fst (BfInt.bf_get_int64 (- BfInt.bf_get_exp_min (n - 1)))
            =? BfInt.INT64_MIN
         then BfInt.INT64_MIN + 1
         else fst (BfInt.bf_get_int64 (- BfInt.bf_get_exp_min (n - 1)))).
Proof.
  intros Hn.
  destruct (n - 1) as [|p|p] eqn:Hp; try lia.
  cbn [BfInt.bf_get_exp_min].
  destruct (ctz_pos_bound p) as [H0 H1].
  set (s := BfInt.ctz_pos p) in *.
  assert (He : exists k, 0 <= k <= s
             /\ (if fst (BfInt.bf_get_int64 (- s)) =? BfInt.INT64_MIN
                 then BfInt.INT64_MIN + 1
                 else fst (BfInt.bf_get_int64 (- s))) = - k).
  { unfold BfInt.bf_get_int64, BfInt.INT64_MIN, BfInt.INT64_MAX.
    destruct (Z.ltb_spec (- s) (- 2 ^ 63)); cbn [fst].
    - exists (2 ^ 63 - 1). split; [lia|]. reflexivity.
    - destruct (Z.ltb_spec (2 ^ 63 - 1) (- s)); cbn [fst]; [lia|].
      destruct (Z.eqb_spec (- s) (- 2 ^ 63)).
      + exists (2 ^ 63 - 1). split; [lia|]. reflexivity.
      + exists s. split; [lia|]. reflexivity. }
  destruct He as (k & Hk & ->).
  unfold BfInt.bf_mul_2exp_floor.
  rewrite Z.shiftl_opp_r, Z.shiftr_div_pow2 by lia.
  apply Z.div_str_pos. split; [apply Z.pow_pos_nonneg; lia|].
  apply Z.le_trans with (2 ^ s); [|exact H1].
  apply Z.pow_le_mono_r; lia.
Qed.

Section PrimalityTest.

Context {B : Bignum}.
Variable n : nat.
Local Notation "'E1'" := (engine_at (S n)).

Lemma miller_rabin_squarings_spec (p : Z) (cnt : nat) (r : Z) :
  0 < p ->
  miller_rabin_squarings E1 (VInt p) (VInt (p - 1)) cnt (VInt r)
  = Val (mr_squarings_Z p cnt r).
Proof.
  intros Hp. revert r. induction cnt as [|cnt IH]; intros r; [reflexivity|].
  cbn [miller_rabin_squarings mr_squarings_Z].
  rewrite cval_mul_int. cbn [deref]. rewrite cval_mod_int by assumption.
  cbn [deref]. rewrite cmp_eq_int_int. cbn [bind].
  destruct (r * r mod p =? 1); [reflexivity|].
  rewrite cmp_eq2_int. cbn [bind].
  destruct (r * r mod p =? p - 1); [reflexivity | apply IH].
Qed.

Lemma miller_rabin_bases_spec (p d s : Z) (bases : list Z) :
  1 <= p -> 0 < d ->
  miller_rabin_bases E1 (VInt p) (VInt (p - 1)) (VInt d) s bases
  = Val (mr_bases_Z pow_mod p d s bases).
Proof.
  intros Hp Hd. induction bases as [|a rest IH]; [reflexivity|].
  cbn [miller_rabin_bases mr_bases_Z]. unfold cint_from_int.
  rewrite cint_pmod_spec by assumption. cbn [deref].
  rewrite cmp_eq_int_int. cbn [bind].
  destruct (pow_mod a d p =? 1); cbn [bind orb]; [exact IH|].
  rewrite cmp_eq2_int. cbn [bind].
  destruct (pow_mod a d p =? p - 1); [exact IH|].
  rewrite miller_rabin_squarings_spec by lia. cbn [bind].
  destruct (mr_squarings_Z p (Z.to_nat (s - 1)) (pow_mod a d p)) as [[|]|];
    [exact IH | reflexivity | reflexivity].
Qed.

Lemma miller_rabin_test_spec (p t : Z) :
  2 <= p ->
  miller_rabin_test E1 (VInt p) t = Val (miller_rabin_Z pow_mod p t).
Proof.
  intros Hp. unfold miller_rabin_test, miller_rabin_Z.
  cbn [is_int negb]. unfold cint_from_int.
  rewrite !cval_sub_int. cbn [deref].
  unfold cint_ctz1. cbn [u_cint bind].
  destruct (Z.eqb_spec (p - 1) 0); [lia|]. cbn [bind].
  unfold cval_shl, cint_shl. cbn [u_cint bind deref].
  apply miller_rabin_bases_spec; [lia|].
  now apply miller_rabin_odd_part_pos.
Qed.

Lemma is_prime_trial_spec (p : Z) (primes : list Z) :
  Forall (fun d => 0 < d) primes ->
  is_prime_trial E1 (VInt p) primes = Val (is_prime_trial_Z p primes).
Proof.
  induction 1 as [|d rest Hd _ IH]; [reflexivity|].
  cbn [is_prime_trial is_prime_trial_Z]. unfold cint_from_int.
  rewrite cint_divide_int by assumption. cbn [bind].
  destruct (p mod d =? 0); [reflexivity|].
  rewrite cmp_lt_int_int. cbn [bind].
  destruct (p <? d * d); [reflexivity | exact IH].
Qed.

Lemma small_primes_pos : Forall (fun d => 0 < d) small_primes.
Proof. unfold small_primes. repeat (constructor; [reflexivity|]). constructor. Qed.

(** [is_prime] is total on the Integers and computes [is_prime_Z]. *)
Lemma is_prime_spec (p : Z) :
  is_prime E1 (VInt p) 0 = Val (is_prime_Z p).
Proof.
  unfold is_prime, is_prime_Z, is_prime_with. cbn [is_int negb].
  rewrite cmp_lt_int_int. cbn [bind Z.eqb].
  destruct (Z.ltb_spec p 2); [reflexivity|].
  rewrite is_prime_trial_spec by apply small_primes_pos. cbn [bind].
  destruct (is_prime_trial_Z p small_primes); [reflexivity|].
  now apply miller_rabin_test_spec.
Qed.

End PrimalityTest.

(** ** Factorisation *)

Lemma product_app (l1 l2 : list Z) :
  product (l1 ++ l2) = product l1 * product l2.
Proof.
  unfold product. induction l1 as [|a l1 IH]; cbn [List.app fold_right].
  - now rewrite Z.mul_1_l.
  - rewrite IH. ring.
Qed.

Lemma ascending_snoc (l : list Z) (b : Z) :
  ascending l -> Forall (fun a => a <= b) l -> ascending (l ++ [b]).
Proof.
  induction l as [|a l IH]; intros Hl Hb; [exact I|].
  apply Forall_cons_iff in Hb as [Hab Hb].
  destruct l as [|c l]; cbn [List.app ascending]; [auto|].
  cbn [ascending] in Hl. destruct Hl as [Hac Hl].
  split; [exact Hac|]. now apply IH.
Qed.

Lemma ascending_app_const (l lx : list Z) (d : Z) :
  ascending l -> Forall (fun a => a <= d) l -> Forall (eq d) lx ->
  ascending (l ++ lx) /\ Forall (fun a => a <= d) (l ++ lx).
Proof.
  intros Hl Hle Hx. revert l Hl Hle.
  induction Hx as [|x lx Hx _ IH]; intros l Hl Hle.
  - now rewrite app_nil_r.
  - subst x. replace (l ++ d :: lx) with ((l ++ [d]) ++ lx)
      by (now rewrite <- app_assoc).
    apply IH.
    + now apply ascending_snoc.
    + apply Forall_app. split; [exact Hle|]. constructor; [lia | constructor].
Qed.

(** The least divisor above 1 is a prime. *)
Lemma least_divisor_prime (m d : Z) :
  1 < d -> (d | m) -> (forall k, 1 < k < d -> ~ (k | m)) -> prime d.
Proof.
  intros Hd Hdiv Hleast. apply prime_alt. split; [exact Hd|].
  intros k Hk Hkd. apply (Hleast k Hk).
  now apply Z.divide_trans with d.
Qed.

Lemma odd_divisor (m e : Z) : Z.odd m = true -> (e | m) -> Z.odd e = true.
Proof.
  intros Hm [k Hk]. subst m. rewrite Z.odd_mul in Hm.
  now apply andb_prop in Hm as [_ He].
Qed.

Lemma map_VInt_snoc {B : Bignum} (l : list Z) (d : Z) :
  carray_push1 (map VInt l) (cint_from_int d) = map VInt (l ++ [d]).
Proof. unfold carray_push1, cint_from_int. now rewrite map_app. Qed.

Section FactorLoops.

Context {B : Bignum}.
Variable n : nat.
Local Notation "'E1'" := (engine_at (S n)).

(** The first loop takes the factors 2 out. *)
Lemma factor_twos_spec (n0 bound : Z) :
  1 <= n0 < bound ->
  exists m l,
    while_loop bound (factor_twos_body E1) (VInt n0, []) = Val (VInt m, map VInt l)
    /\ 1 <= m /\ Z.odd m = true /\ product l * m = n0 /\ Forall (eq 2) l.
Proof.
  intros Hn0.
  apply (while_loop_rule (factor_twos_body E1)
           (fun s => exists m l, s = (VInt m, map VInt l)
                      /\ 1 <= m <= n0 /\ product l * m = n0 /\ Forall (eq 2) l)
           (fun r => exists m l, r = Val (VInt m, map VInt l)
                      /\ 1 <= m /\ Z.odd m = true
                      /\ product l * m = n0 /\ Forall (eq 2) l)
           (fun s => match s with (VInt m, _) => m | _ => 0 end)).
  - intros s (m & l & -> & Hm & Hprod & Hl).
    unfold factor_twos_body. unfold cint_from_int at 1.
    rewrite cint_divide_int by lia. cbn [bind].
    destruct (Z.eqb_spec (m mod 2) 0) as [H2|H2]; cbn [negb].
    + assert (Hdiv : (2 | m)) by (apply Z.mod_divide; lia).
      unfold cint_from_int at 2. rewrite cval_divexact_int by (auto; lia).
      cbn [deref]. rewrite map_VInt_snoc.
      destruct Hdiv as [k Hk].
      assert (Hq : m / 2 = k) by (subst m; apply Z.div_mul; lia).
      rewrite Hq. split; [|lia].
      exists k, (l ++ [2]). split; [reflexivity|]. split; [lia|].
      split.
      * rewrite product_app. unfold product at 2. cbn [fold_right]. lia.
      * apply Forall_app. split; [exact Hl | repeat constructor].
    + exists m, l. split; [reflexivity|]. split; [lia|]. split; [|auto].
      pose proof (Zmod_odd m) as Hmod.
      destruct (Z.odd m); [reflexivity | contradiction].
  - exists n0, []. split; [reflexivity|]. split; [lia|]. split; [|constructor].
    unfold product. cbn [fold_right]. lia.
  - lia.
Qed.

(** The search for the next odd divisor finds the least divisor. *)
Lemma factor_search_spec (m d bound : Z) :
  Z.odd m = true -> 1 < m < bound ->
  3 <= d -> Z.odd d = true ->
  (forall k, 1 < k < d -> ~ (k | m)) ->
  (exists e, 1 < e <= BfInt.INT64_MAX /\ (e | m)) ->
  exists d',
    while_loop bound (factor_search_body E1 (VInt m)) d = Val d'
    /\ d <= d' /\ Z.odd d' = true /\ (d' | m)
    /\ (forall k, 1 < k < d' -> ~ (k | m)).
Proof.
  intros Hodd Hm Hd Hdodd Hleast (e & He & Hediv).
  assert (Hge : forall x k, (forall j, 1 < j < x -> ~ (j | m)) ->
                            1 < k -> (k | m) -> x <= k).
  { intros x k Hx Hk Hkm. destruct (Z_lt_ge_dec k x) as [Hlt|]; [|lia].
    exfalso. apply (Hx k); auto. }
  apply (while_loop_rule (factor_search_body E1 (VInt m))
           (fun x => d <= x <= m /\ Z.odd x = true
                     /\ (forall k, 1 < k < x -> ~ (k | m)))
           (fun r => exists d', r = Val d' /\ d <= d' /\ Z.odd d' = true
                      /\ (d' | m) /\ (forall k, 1 < k < d' -> ~ (k | m)))
           (fun x => m - x)).
  - intros x (Hx & Hxodd & Hxleast).
    unfold factor_search_body. unfold cint_from_int.
    rewrite cint_divide_int by lia. cbn [bind].
    destruct (Z.eqb_spec (m mod x) 0) as [H0|H0].
    + exists x. repeat split; auto; try lia. apply Z.mod_divide; [lia | exact H0].
    + assert (Hndiv : ~ (x | m)).
      { intros Hdiv. apply H0. apply Z.mod_divide; [lia | exact Hdiv]. }
      assert (Hnext : forall k, 1 < k -> (k | m) -> x + 2 <= k).
      { intros k Hk Hkm.
        pose proof (Hge x k Hxleast Hk Hkm) as Hxk.
        assert (k <> x) by (intros ->; contradiction).
        assert (k <> x + 1).
        { intros ->. pose proof (odd_divisor m (x + 1) Hodd Hkm) as Ho.
          rewrite Z.odd_add, Hxodd in Ho. discriminate Ho. }
        lia. }
      pose proof (Hnext e ltac:(lia) Hediv) as Hxe.
      pose proof (Hnext m ltac:(lia) (Z.divide_refl m)) as Hxm.
      unfold c_int64.
      assert (Hrange : (BfInt.INT64_MIN <=? x + 2) && (x + 2 <=? BfInt.INT64_MAX) = true).
      { apply andb_true_intro. split; apply Z.leb_le;
          unfold BfInt.INT64_MIN, BfInt.INT64_MAX in *; lia. }
      rewrite Hrange. cbn [bind].
      split; [|lia].
      split; [lia|]. split.
      * rewrite Z.odd_add, Hxodd. reflexivity.
      * intros k Hk Hkm. pose proof (Hnext k ltac:(lia) Hkm). lia.
  - split; [|auto].
    pose proof (Hge d m Hleast ltac:(lia) (Z.divide_refl m)). lia.
  - pose proof (Hge d m Hleast ltac:(lia) (Z.divide_refl m)). lia.
Qed.

(** The divisions by the divisor found. *)
Lemma factor_divide_spec (m d bound : Z) (l : list Z) :
  1 <= m < bound -> 1 < d -> (d | m) ->
  exists m' lx,
    while_loop bound (factor_divide_body E1 d) (VInt m, map VInt l)
    = Val (VInt m', map VInt (l ++ lx))
    /\ 1 <= m' < m /\ product lx * m' = m /\ Forall (eq d) lx
    /\ ~ (d | m').
Proof.
  intros Hm Hd Hdiv.
  apply (while_loop_rule (factor_divide_body E1 d)
           (fun s => exists x lx, s = (VInt x, map VInt (l ++ lx))
                      /\ 1 <= x <= m /\ (d | x) /\ product lx * x = m
                      /\ Forall (eq d) lx)
           (fun r => exists m' lx, r = Val (VInt m', map VInt (l ++ lx))
                      /\ 1 <= m' < m /\ product lx * m' = m
                      /\ Forall (eq d) lx /\ ~ (d | m'))
           (fun s => match s with (VInt x, _) => x | _ => 0 end)).
  - intros s (x & lx & -> & Hx & Hdx & Hprod & Hlx).
    unfold factor_divide_body. rewrite map_VInt_snoc, <- app_assoc.
    unfold cint_from_int. rewrite cval_divexact_int by (auto; lia).
    cbn [deref]. rewrite cint_divide_int by lia. cbn [bind].
    destruct Hdx as [k Hk].
    assert (Hq : x / d = k) by (subst x; apply Z.div_mul; lia).
    rewrite Hq.
    assert (Hk1 : 1 <= k < x) by nia.
    assert (Hprod' : product (lx ++ [d]) * k = m).
    { rewrite product_app. unfold product at 2. cbn [fold_right]. nia. }
    assert (Hlx' : Forall (eq d) (lx ++ [d])).
    { apply Forall_app. split; [exact Hlx | repeat constructor]. }
    destruct (Z.eqb_spec (k mod d) 0) as [H0|H0]; cbn [negb].
    + split; [|lia].
      exists k, (lx ++ [d]). split; [reflexivity|]. split; [lia|].
      split; [|auto]. apply Z.mod_divide; [lia | exact H0].
    + exists k, (lx ++ [d]). split; [reflexivity|]. split; [lia|].
      split; [exact Hprod'|]. split; [exact Hlx'|].
      intros Hdk. apply H0. apply Z.mod_divide; [lia | exact Hdk].
  - exists m, []. rewrite app_nil_r. split; [reflexivity|]. split; [lia|].
    split; [exact Hdiv|]. split; [|constructor].
    unfold product. cbn [fold_right]. lia.
  - lia.
Qed.

End FactorLoops.

Lemma while_loop_break {S A : Type} (body : S -> res (step S A)) (s : S) (a : A)
  (bound : Z) :
  body s = Val (Break a) -> 0 < bound -> while_loop bound body s = Val a.
Proof.
  intros Hbody Hbound.
  apply (while_loop_rule body (fun x => x = s) (fun r => r = Val a) (fun _ => 0)).
  - intros x ->. now rewrite Hbody.
  - reflexivity.
  - lia.
Qed.

Section Factor.

Context {B : Bignum}.
Variable n : nat.
Local Notation "'E1'" := (engine_at (S n)).

Lemma factor_odd_spec (n0 m0 bound : Z) (l0 : list Z) :
  trial_divisors_fit n0 ->
  1 <= m0 <= n0 -> n0 < bound -> Z.odd m0 = true ->
  product l0 * m0 = n0 -> Forall (eq 2) l0 ->
  exists l,
    while_loop bound (factor_odd_body E1 bound) (VInt m0, 3, map VInt l0)
    = Val (map VInt l)
    /\ product l = n0 /\ ascending l
    /\ Forall (fun p => prime p \/ is_prime_Z p = true) l.
Proof.
  intros Hfit Hm0 Hbound Hodd0 Hprod0 Hl0.
  assert (Hge : forall m x k, (forall j, 1 < j < x -> ~ (j | m)) ->
                              1 < k -> (k | m) -> x <= k).
  { intros m x k Hx Hk Hkm. destruct (Z_lt_ge_dec k x) as [Hlt|]; [|lia].
    exfalso. apply (Hx k); auto. }
  apply (while_loop_rule (factor_odd_body E1 bound)
           (fun s => exists m d l, s = (VInt m, d, map VInt l)
                /\ 1 <= m <= n0 /\ Z.odd m = true /\ product l * m = n0
                /\ 3 <= d /\ Z.odd d = true
                /\ (forall k, 1 < k < d -> ~ (k | m))
                /\ ascending l /\ Forall (fun p => p <= d) l /\ Forall prime l)
           (fun r => exists l, r = Val (map VInt l)
                /\ product l = n0 /\ ascending l
                /\ Forall (fun p => prime p \/ is_prime_Z p = true) l)
           (fun s => match s with (VInt m, _, _) => m | _ => 0 end)).
  - intros s (m & d & l & -> & Hm & Hodd & Hprod & Hd & Hdodd & Hleast
              & Hasc & Hle & Hprime).
    unfold factor_odd_body. rewrite cmp_eq_int_int. cbn [bind].
    destruct (Z.eqb_spec m 1) as [->|Hm1].
    { exists l. split; [reflexivity|]. split; [lia|]. split; [exact Hasc|].
      eapply Forall_impl; [|exact Hprime]. cbn; auto. }
    rewrite is_prime_spec. cbn [bind].
    assert (Hdm : d <= m).
    { apply (Hge m d m Hleast); [lia | apply Z.divide_refl]. }
    destruct (is_prime_Z m) eqn:Hp.
    { change (VInt m) with (cint_from_int m). rewrite map_VInt_snoc.
      exists (l ++ [m]). split; [reflexivity|]. split; [|split].
      - rewrite product_app. unfold product at 2. cbn [fold_right]. lia.
      - apply ascending_snoc; [exact Hasc|].
        eapply Forall_impl; [|exact Hle]. cbn; intros; lia.
      - apply Forall_app. split.
        + eapply Forall_impl; [|exact Hprime]. cbn; auto.
        + constructor; [now right | constructor]. }
    assert (Hmn0 : (m | n0)) by (exists (product l); lia).
    destruct (factor_search_spec n m d bound Hodd ltac:(lia) Hd Hdodd Hleast
                (Hfit m Hmn0 ltac:(lia) Hp))
      as (d' & -> & Hdd' & Hd'odd & Hd'div & Hd'least).
    cbn [bind].
    destruct (factor_divide_spec n m d' bound l ltac:(lia) ltac:(lia) Hd'div)
      as (m' & lx & -> & Hm' & Hprodx & Hlx & Hndiv).
    cbn [bind].
    assert (Hm'm : (m' | m)) by (exists (product lx); lia).
    assert (Hd'prime : prime d').
    { apply (least_divisor_prime m d'); auto. lia. }
    destruct (ascending_app_const l lx d' Hasc) as [Hasc' Hle']; auto.
    { eapply Forall_impl; [|exact Hle]. cbn; intros; lia. }
    split; [|lia].
    exists m', d', (l ++ lx). split; [reflexivity|].
    split; [lia|]. split; [now apply (odd_divisor m)|].
    split; [rewrite product_app; nia|].
    split; [lia|]. split; [exact Hd'odd|].
    split.
    { intros k Hk Hkm'. apply (Hd'least k Hk).
      now apply Z.divide_trans with m'. }
    split; [exact Hasc'|]. split; [exact Hle'|].
    apply Forall_app. split; [exact Hprime|].
    eapply Forall_impl; [|exact Hlx]. cbn. now intros a <-.
  - exists m0, 3, l0. split; [reflexivity|]. split; [lia|].
    split; [exact Hodd0|]. split; [exact Hprod0|]. split; [lia|].
    split; [reflexivity|].
    split.
    { intros k Hk Hkm. assert (k = 2) as -> by lia.
      pose proof (odd_divisor m0 2 Hodd0 Hkm) as H2. discriminate H2. }
    destruct (ascending_app_const [] l0 2 I (Forall_nil _) Hl0) as [Ha Hb].
    cbn [List.app] in Ha, Hb.
    split; [exact Ha|]. split.
    + eapply Forall_impl; [|exact Hb]. cbn; intros; lia.
    + eapply Forall_impl; [|exact Hl0]. cbn. intros a <-.
      apply prime_alt. split; [lia | intros k Hk; lia].
  - lia.
Qed.

End Factor.

Section FactorSpec.

Context {B : Bignum}.
Variable n : nat.
Local Notation "'E1'" := (engine_at (S n)).

Lemma cint_factor_range (n0 : Z) :
  n0 < 1 ->
  cint_factor E1 (VInt n0) = Exc CERR_RANGE "positive integer expected".
Proof.
  intros Hn0. unfold cint_factor. rewrite cmp_lt_int_int. cbn [bind].
  destruct (Z.ltb_spec n0 1); [reflexivity | lia].
Qed.

Lemma cint_factor_spec (n0 : Z) :
  1 <= n0 -> trial_divisors_fit n0 ->
  exists l,
    cint_factor E1 (VInt n0) = Val (VArray (map VInt l))
    /\ product l = n0 /\ ascending l
    /\ Forall (fun p => prime p \/ is_prime_Z p = true) l.
Proof.
  intros Hn0 Hfit. unfold cint_factor. rewrite cmp_lt_int_int. cbn [bind].
  destruct (Z.ltb_spec n0 1); [lia|].
  cbn [factor_bound]. rewrite Z.abs_eq by lia.
  destruct (factor_twos_spec n n0 (n0 + 1) ltac:(lia))
    as (m & l0 & -> & Hm & Hodd & Hprod & Hl0).
  cbn [bind].
  assert (Hmn0 : m <= n0).
  { assert (0 < product l0).
    { clear - Hl0. unfold product. induction Hl0 as [|a l Ha _ IH]; cbn [fold_right]; lia. }
    nia. }
  destruct (factor_odd_spec n n0 m (n0 + 1) l0 Hfit ltac:(lia) ltac:(lia)
              Hodd Hprod Hl0)
    as (l & -> & Hl).
  cbn [bind]. now exists l.
Qed.

(** An odd number that the primality test accepts is returned as its
    own factorisation. *)
Lemma cint_factor_accepted (p : Z) :
  1 < p -> Z.odd p = true -> is_prime_Z p = true ->
  cint_factor E1 (VInt p) = Val (VArray [VInt p]).
Proof.
  intros Hp Hodd Hacc. unfold cint_factor. rewrite cmp_lt_int_int. cbn [bind].
  destruct (Z.ltb_spec p 1); [lia|].
  cbn [factor_bound]. rewrite Z.abs_eq by lia.
  rewrite (while_loop_break (factor_twos_body E1) (VInt p, []) (VInt p, [])).
  - cbn [bind].
    rewrite (while_loop_break (factor_odd_body E1 (p + 1)) (VInt p, 3, [])
               [VInt p]); [reflexivity| |lia].
    unfold factor_odd_body. rewrite cmp_eq_int_int. cbn [bind].
    destruct (Z.eqb_spec p 1); [lia|].
    rewrite is_prime_spec, Hacc. reflexivity.
  - unfold factor_twos_body. unfold cint_from_int.
    rewrite cint_divide_int by lia. cbn [bind].
    pose proof (Zmod_odd p) as Hmod. rewrite Hodd in Hmod. rewrite Hmod.
    reflexivity.
  - lia.
Qed.

Lemma cint_factor_one : cint_factor E1 (VInt 1) = Val (VArray []).
Proof.
  unfold cint_factor. rewrite cmp_lt_int_int. cbn [bind Z.ltb Z.compare].
  cbn [factor_bound Z.abs Z.add Pos.add].
  rewrite (while_loop_break (factor_twos_body E1) (VInt 1, []) (VInt 1, []));
    [|reflexivity|lia].
  cbn [bind].
  rewrite (while_loop_break (factor_odd_body E1 2) (VInt 1, 3, []) []);
    [reflexivity|reflexivity|lia].
Qed.

End FactorSpec.

Lemma small_trial_divisors_fit (n0 : Z) :
  1 <= n0 <= BfInt.INT64_MAX -> trial_divisors_fit n0.
Proof.
  intros Hn0 m Hm Hm1 _. exists m. split; [|apply Z.divide_refl].
  apply Z.divide_pos_le in Hm; lia.
Qed.

(** ** A composite number that the primality test accepts *)

Lemma big_pow_mod_spec (a m : bigZ) (b : positive) :
  0 < BigZ.to_Z m ->
  BigZ.to_Z (big_pow_mod a b m) = (BigZ.to_Z a) ^ (Z.pos b) mod (BigZ.to_Z m).
Proof.
  intros Hm. induction b as [b IH|b IH|]; cbn [big_pow_mod].
  - rewrite !BigZ.spec_modulo, !BigZ.spec_mul, BigZ.spec_modulo, BigZ.spec_mul, IH.
    rewrite <- Z.mul_mod by lia.
    rewrite Z.mul_mod_idemp_l by lia.
    rewrite Pos2Z.inj_xI, Z.pow_add_r, Z.pow_1_r, Z.pow_mul_r by lia.
    replace (BigZ.to_Z a ^ 2) with (BigZ.to_Z a * BigZ.to_Z a) by ring.
    now rewrite Z.pow_mul_l.
  - rewrite BigZ.spec_modulo, BigZ.spec_mul, IH.
    rewrite <- Z.mul_mod by lia.
    rewrite Pos2Z.inj_xO, Z.pow_mul_r by lia.
    replace (BigZ.to_Z a ^ 2) with (BigZ.to_Z a * BigZ.to_Z a) by ring.
    now rewrite Z.pow_mul_l.
  - now rewrite BigZ.spec_modulo, Z.pow_1_r.
Qed.

Lemma big_pm_spec (a b m : Z) :
  0 < b -> 0 < m -> big_pm a b m = pow_mod a b m.
Proof.
  intros Hb Hm. unfold big_pm, pow_mod.
  rewrite big_pow_mod_spec by (rewrite BigZ.spec_of_Z; lia).
  now rewrite !BigZ.spec_of_Z, Z2Pos.id by lia.
Qed.

Lemma mr_bases_ext (pm1 pm2 : Z -> Z -> Z -> Z) (p d s : Z) (bases : list Z) :
  (forall a, pm1 a d p = pm2 a d p) ->
  mr_bases_Z pm1 p d s bases = mr_bases_Z pm2 p d s bases.
Proof.
  intros Hext. induction bases as [|a rest IH]; [reflexivity|].
  cbn [mr_bases_Z]. now rewrite Hext, IH.
Qed.

(** The primality test evaluated with big integers. *)
Lemma is_prime_big (p : Z) : is_prime_with big_pm p = is_prime_Z p.
Proof.
  unfold is_prime_Z, is_prime_with.
  destruct (Z.ltb_spec p 2); [reflexivity|].
  destruct (is_prime_trial_Z p small_primes); [reflexivity|].
  unfold miller_rabin_Z. apply mr_bases_ext. intros a.
  apply big_pm_spec; [|lia]. now apply miller_rabin_odd_part_pos.
Qed.

Lemma pseudoprime_accepted : is_prime_Z pseudoprime = true.
Proof.
  rewrite <- is_prime_big. vm_cast_no_check (@eq_refl bool true).
Qed.

Lemma pseudoprime_composite : 1 < pseudoprime /\ ~ prime pseudoprime.
Proof.
  split; [reflexivity|].
  intros Hprime. apply prime_alt in Hprime. destruct Hprime as [_ Hnodiv].
  apply (Hnodiv pseudo_p1).
  - split; reflexivity.
  - exists (pseudo_p2 * pseudo_p3). unfold pseudoprime. ring.
Qed.

Section FactorCounterexample.

Context {B : Bignum}.
Variable n : nat.

Lemma cint_factor_pseudoprime :
  cint_factor (engine_at (S n)) (VInt pseudoprime)
  = Val (VArray [VInt pseudoprime]).
Proof.
  apply cint_factor_accepted.
  - reflexivity.
  - reflexivity.
  - exact pseudoprime_accepted.
Qed.

End FactorCounterexample.

(** C6, as amended.  For [n < 1], [factor(n)] raises the range error
    [positive integer expected], and [factor(1)] is the empty array.
    For [n >= 1] whose trial divisors fit a C [int64_t] (in particular
    for every [n] below [2^63]), [factor(n)] returns an array in
    ascending order whose product is [n]; each element is a prime found
    by trial division or a number that the primality test of the
    calculator accepts.  That test is a Miller-Rabin test with fixed
    bases, and a composite number that it accepts is returned as its own
    factorisation. *)
Theorem factor_probable_primes {B : Bignum} (n : nat) (n0 : Z) :
  (n0 < 1 ->
   cint_factor (engine_at (S n)) (VInt n0)
   = Exc CERR_RANGE "positive integer expected")
  /\ cint_factor (engine_at (S n)) (VInt 1) = Val (VArray [])
  /\ (1 <= n0 <= BfInt.INT64_MAX -> trial_divisors_fit n0)
  /\ (1 <= n0 -> trial_divisors_fit n0 ->
      exists l,
        cint_factor (engine_at (S n)) (VInt n0) = Val (VArray (map VInt l))
        /\ product l = n0 /\ ascending l
        /\ Forall (fun p => prime p \/ is_prime_Z p = true) l)
  /\ (1 < n0 -> Z.odd n0 = true -> is_prime_Z n0 = true ->
      cint_factor (engine_at (S n)) (VInt n0) = Val (VArray [VInt n0])).
Proof.
  split; [apply cint_factor_range|].
  split; [apply cint_factor_one|].
  split; [apply small_trial_divisors_fit|].
  split; [apply cint_factor_spec | apply cint_factor_accepted].
Qed.

(** The theorem at [factor(360)], on the rational reference library. *)
Lemma factor_probable_primes_witness :
  exists l,
    cint_factor (engine_at 1) (VInt 360) = Val (@VArray rational_bignum (map VInt l))
    /\ product l = 360 /\ ascending l
    /\ Forall (fun p => prime p \/ is_prime_Z p = true) l.
Proof.
  destruct (@factor_probable_primes rational_bignum 0 360) as (_ & _ & Hfit & H & _).
  apply H; [lia|]. apply Hfit. split; [lia | discriminate].
Defined.

(** C6 as stated fails: the factorisation of this product of three
    primes is the number itself. *)
Lemma factor_composite_element :
  @cint_factor rational_bignum (engine_at 1) (VInt pseudoprime)
  = Val (VArray [VInt pseudoprime])
  /\ 1 <= pseudoprime
  /\ pseudoprime = pseudo_p1 * pseudo_p2 * pseudo_p3
  /\ ~ prime pseudoprime.
Proof.
  split; [apply cint_factor_pseudoprime|].
  split; [discriminate|]. split; [reflexivity|].
  apply pseudoprime_composite.
Qed.

(** ** Series *)

Section Coefficients.

Context {B : Bignum}.
Variable n : nat.
Local Notation "'E1'" := (engine_at (S n)).
Local Notation "'E2'" := (engine_at (S (S n))).

(** Sums and products of real coefficients of compatible kinds. *)
Lemma coef_arith (k1 k2 : BCTypeEnum) (c1 c2 : value) (op : BCOP2Enum) :
  op = BC_OP2_ADD \/ op = BC_OP2_MUL ->
  coef_ok k1 c1 -> coef_ok k2 c2 -> kinds_compatible k1 k2 = true ->
  exists c, cval_op2 E1 c1 c2 op = Val c /\ coef_ok (max_tag k1 k2) c.
Proof.
  intros Hop [Hk1 Hr1] [Hk2 Hr2] Hcompat. subst k1 k2.
  destruct c1 as [ | b1 | z1 | p1 q1 | d1 | f1 | | | | | ];
    cbn [real_operand] in Hr1; try contradiction;
    destruct c2 as [ | b2 | z2 | p2 q2 | d2 | f2 | | | | | ];
    cbn [real_operand] in Hr2; try contradiction;
    try discriminate Hcompat.
  all: try (destruct Hop as [-> | ->];
            (eexists; split; [reflexivity | split; [reflexivity | exact I]])).
  - (* Integer, Fraction *)
    destruct Hr2 as [Hq2 _].
    destruct Hop as [-> | ->].
    + destruct (cfrac_new_ok n (z1 * q2 + p2 * 1) (1 * q2) ltac:(lia))
        as (p & q & Hev & Hok & _).
      exists (VFrac p q). split; [exact Hev | split; [reflexivity | exact Hok]].
    + destruct (cfrac_new_ok n (z1 * p2) (1 * q2) ltac:(lia))
        as (p & q & Hev & Hok & _).
      exists (VFrac p q). split; [exact Hev | split; [reflexivity | exact Hok]].
  - (* Fraction, Integer *)
    destruct Hr1 as [Hq1 _].
    destruct Hop as [-> | ->].
    + destruct (cfrac_new_ok n (p1 * 1 + z2 * q1) (q1 * 1) ltac:(lia))
        as (p & q & Hev & Hok & _).
      exists (VFrac p q). split; [exact Hev | split; [reflexivity | exact Hok]].
    + destruct (cfrac_new_ok n (p1 * z2) (q1 * 1) ltac:(lia))
        as (p & q & Hev & Hok & _).
      exists (VFrac p q). split; [exact Hev | split; [reflexivity | exact Hok]].
  - (* Fraction, Fraction *)
    destruct Hr1 as [Hq1 _], Hr2 as [Hq2 _].
    destruct Hop as [-> | ->].
    + destruct (cfrac_new_ok n (p1 * q2 + p2 * q1) (q1 * q2) ltac:(nia))
        as (p & q & Hev & Hok & _).
      exists (VFrac p q). split; [exact Hev | split; [reflexivity | exact Hok]].
    + destruct (cfrac_new_ok n (p1 * p2) (q1 * q2) ltac:(nia))
        as (p & q & Hev & Hok & _).
      exists (VFrac p q). split; [exact Hev | split; [reflexivity | exact Hok]].
Qed.

(** The zero of a real kind. *)
Lemma coef_zero (k : BCTypeEnum) :
  real_kind k = true ->
  exists z, e_convert E1 (cint_from_int 0) (def_type k) = Val z /\ coef_ok k z.
Proof.
  destruct k; try discriminate; intros _; eexists;
    (split; [reflexivity | split; [reflexivity|]]).
  - exact I.
  - apply frac_ok_int.
  - exact I.
  - exact I.
Qed.

Lemma coef_is_zero (k : BCTypeEnum) (c : value) :
  real_kind k = true -> coef_ok k c ->
  exists b, cval_cmp_eq_int E2 c 0 = Val b.
Proof.
  intros _ [_ Hr].
  destruct c as [ | b1 | z1 | p1 q1 | d1 | f1 | | | | | ];
    cbn [real_operand] in Hr; try contradiction; eexists; reflexivity.
Qed.

End Coefficients.

Lemma c_int_ok (z : Z) : - 2 ^ 31 <= z < 2 ^ 31 -> c_int z = Val z.
Proof.
  intros Hz. unfold c_int, INT_MIN, INT_MAX, BfInt.INT32_MIN, BfInt.INT32_MAX.
  destruct (Z.leb_spec (- 2 ^ 31) z); [|lia].
  destruct (Z.leb_spec z (2 ^ 31 - 1)); [reflexivity | lia].
Qed.

Lemma kinds_max_real (k1 k2 : BCTypeEnum) :
  real_kind k1 = true -> real_kind k2 = true ->
  kinds_compatible k1 k2 = true ->
  real_kind (max_tag k1 k2) = true
  /\ kinds_compatible k1 (max_tag k1 k2) = true
  /\ kinds_compatible (max_tag k1 k2) k2 = true
  /\ max_tag k1 (max_tag k1 k2) = max_tag k1 k2
  /\ max_tag (max_tag k1 k2) k2 = max_tag k1 k2
  /\ max_tag (max_tag k1 k2) (max_tag k1 k2) = max_tag k1 k2
  /\ kinds_compatible (max_tag k1 k2) (max_tag k1 k2) = true.
Proof.
  destruct k1; try discriminate; destruct k2; try discriminate;
    intros _ _ Hc; try discriminate Hc; cbv; repeat split.
Qed.

Lemma get_op2_type_real (k1 k2 : BCTypeEnum) :
  real_kind k1 = true -> real_kind k2 = true ->
  kinds_compatible k1 k2 = true ->
  get_op2_type (def_type k1) (def_type k2) BC_OP2_ADD
  = Val (def_type (max_tag k1 k2)).
Proof.
  destruct k1; try discriminate; destruct k2; try discriminate;
    intros _ _ Hc; try discriminate Hc; reflexivity.
Qed.

Section StoreAll.

Context {B : Bignum}.

Lemma store_all_map {A : Type} (f : A -> res value) (P : value -> Prop)
  (l : list A) :
  (forall i, In i l -> exists v, f i = Val v /\ P v) ->
  exists vs, store_all (map f l) = Val vs
             /\ List.length vs = List.length l /\ Forall P vs.
Proof.
  induction l as [|a l IH]; intros Hf.
  - exists []. repeat split. constructor.
  - destruct (Hf a (or_introl eq_refl)) as (v & Hv & HP).
    destruct IH as (vs & Hvs & Hlen & HPs).
    { intros i Hi. apply Hf. now right. }
    exists (v :: vs). cbn [map store_all]. rewrite Hv, Hvs. cbn [store bind].
    repeat split; [cbn; lia | now constructor].
Qed.

End StoreAll.

Section SeriesAdd.

Context {B : Bignum}.
Variable n : nat.
Local Notation "'E2'" := (engine_at (S (S n))).

Variables k1 k2 : BCTypeEnum.
Hypothesis Hk1 : real_kind k1 = true.
Hypothesis Hk2 : real_kind k2 = true.
Hypothesis Hcompat : kinds_compatible k1 k2 = true.

Lemma ser_new2_real (len emin : Z) :
  0 <= len ->
  exists z,
    ser_new2 E2 (def_type k1) (def_type k2) len emin
    = Val (VSer (def_type (max_tag k1 k2)) emin (repeat z (Z.to_nat len)))
    /\ coef_ok (max_tag k1 k2) z.
Proof.
  intros Hlen. unfold ser_new2.
  rewrite get_op2_type_real by assumption. cbn [bind]. unfold ser_new.
  destruct (Z.ltb_spec len 0); [lia|].
  destruct (kinds_max_real k1 k2 Hk1 Hk2 Hcompat) as (Hk & _).
  assert (Hpoly : is_poly_elem_type (tag (def_type (max_tag k1 k2))) = true).
  { destruct (max_tag k1 k2); try discriminate Hk; reflexivity. }
  rewrite Hpoly. cbn [negb].
  destruct (coef_zero (S n) (max_tag k1 k2) Hk) as (z & Hz & Hzok).
  exists z. split; [|exact Hzok].
  destruct (Z.eqb_spec len 0) as [->|].
  - reflexivity.
  - rewrite Hz. reflexivity.
Qed.

Variables tab1 tab2 : list value.
Hypothesis Htab1 : Forall (coef_ok k1) tab1.
Hypothesis Htab2 : Forall (coef_ok k2) tab2.

Lemma coef_or_zero (k : BCTypeEnum) (tab : list value) (j : Z) :
  real_kind k = true -> Forall (coef_ok k) tab ->
  kinds_compatible k (max_tag k1 k2) = true
  \/ kinds_compatible (max_tag k1 k2) k = true ->
  exists c k',
    (if (0 <=? j) && (j <? ser_len tab)
     then Val (nth (Z.to_nat j) tab VNull)
     else e_convert E2 (cint_from_int 0) (def_type (max_tag k1 k2))) = Val c
    /\ coef_ok k' c /\ (k' = k \/ k' = max_tag k1 k2).
Proof.
  intros Hk Htab _.
  destruct (kinds_max_real k1 k2 Hk1 Hk2 Hcompat) as (Hkm & _).
  destruct ((0 <=? j) && (j <? ser_len tab)) eqn:Hj.
  - apply andb_prop in Hj as [Hj0 Hj1].
    apply Z.leb_le in Hj0. apply Z.ltb_lt in Hj1. unfold ser_len in Hj1.
    exists (nth (Z.to_nat j) tab VNull), k. split; [reflexivity|].
    split; [|now left].
    rewrite Forall_forall in Htab. apply Htab. apply nth_In. lia.
  - destruct (coef_zero (S n) (max_tag k1 k2) Hkm) as (z & Hz & Hzok).
    exists z, (max_tag k1 k2). split; [exact Hz|]. split; [exact Hzok | now right].
Qed.

Lemma ser_add_coef_ok (emin emin1 emin2 i : Z) :
  - 2 ^ 31 <= i + emin - emin1 < 2 ^ 31 ->
  - 2 ^ 31 <= i + emin - emin2 < 2 ^ 31 ->
  exists c,
    ser_add_coef E2 (def_type (max_tag k1 k2)) emin emin1 emin2 tab1 tab2 i
    = Val c
    /\ coef_ok (max_tag k1 k2) c.
Proof.
  intros H1 H2. unfold ser_add_coef.
  rewrite !c_int_ok by assumption. cbn [bind].
  destruct (kinds_max_real k1 k2 Hk1 Hk2 Hcompat)
    as (Hkm & Hc1 & Hc2 & Hm1 & Hm2 & Hmm & Hcm).
  destruct (coef_or_zero k1 tab1 (i + emin - emin1) Hk1 Htab1 (or_introl Hc1))
    as (c1 & ka & -> & Hc1ok & Hka).
  cbn [deref].
  destruct (coef_or_zero k2 tab2 (i + emin - emin2) Hk2 Htab2 (or_intror Hc2))
    as (c2 & kb & -> & Hc2ok & Hkb).
  cbn [deref]. unfold cval_add. rewrite e_op2_at.
  assert (Hab : kinds_compatible ka kb = true
                /\ max_tag ka kb = max_tag k1 k2).
  { destruct Hka as [-> | ->], Hkb as [-> | ->]; auto. }
  destruct Hab as [Hcab Hmab].
  destruct (coef_arith n ka kb c1 c2 BC_OP2_ADD (or_introl eq_refl)
              Hc1ok Hc2ok Hcab) as (c & Hc & Hcok).
  exists c. split; [exact Hc|]. now rewrite <- Hmab.
Qed.

(** [ser_add], before the leading zero coefficients are removed. *)
Lemma ser_add_untrimmed_spec (emin1 emin2 : Z) :
  exp_range emin1 (ser_len tab1) -> exp_range emin2 (ser_len tab2) ->
  exists tab,
    ser_add_untrimmed E2 (VSer (def_type k1) emin1 tab1)
                         (VSer (def_type k2) emin2 tab2)
    = Val (VSer (def_type (max_tag k1 k2)) (Z.min emin1 emin2) tab)
    /\ ser_len tab
       = Z.min (emin1 + ser_len tab1) (emin2 + ser_len tab2) - Z.min emin1 emin2
    /\ Forall (coef_ok (max_tag k1 k2)) tab.
Proof.
  intros [Hlo1 Hhi1] [Hlo2 Hhi2].
  assert (Hl1 : 0 <= ser_len tab1) by (unfold ser_len; lia).
  assert (Hl2 : 0 <= ser_len tab2) by (unfold ser_len; lia).
  unfold ser_add_untrimmed. cbn [u_ser bind].
  rewrite !c_int_ok by lia. cbn [bind].
  set (d := Z.min (emin1 + ser_len tab1) (emin2 + ser_len tab2)).
  set (emin := Z.min emin1 emin2).
  assert (Hn : 0 <= d - emin < 2 ^ 30 + 2 ^ 30) by (unfold d, emin; lia).
  rewrite c_int_ok by lia. cbn [bind].
  destruct (ser_new2_real (d - emin) emin ltac:(lia)) as (z & -> & _).
  cbn [deref u_ser bind].
  destruct (store_all_map
              (fun i => ser_add_coef E2 (def_type (max_tag k1 k2)) emin emin1 emin2
                          tab1 tab2 (Z.of_nat i))
              (coef_ok (max_tag k1 k2)) (seq 0 (Z.to_nat (d - emin))))
    as (tab & -> & Hlen & Htab).
  { intros i Hi. apply in_seq in Hi.
    apply ser_add_coef_ok; unfold d, emin in *; lia. }
  cbn [bind]. exists tab. split; [reflexivity|]. split; [|exact Htab].
  unfold ser_len. rewrite Hlen, length_seq. lia.
Qed.

End SeriesAdd.

Section ListSet.

Context {B : Bignum}.

Lemma list_set_ok (P : value -> Prop) (l : list value) (i : nat) (v : value) :
  (i < List.length l)%nat -> Forall P l -> P v ->
  List.length (list_set l i v) = List.length l /\ Forall P (list_set l i v).
Proof.
  unfold list_set. revert i. induction l as [|a l IH]; intros i Hi Hl Hv.
  - cbn in Hi. lia.
  - apply Forall_cons_iff in Hl as [Ha Hl].
    destruct i as [|i].
    + cbn [firstn skipn List.app List.length]. split; [reflexivity|].
      now constructor.
    + cbn [List.length] in Hi.
      destruct (IH i ltac:(lia) Hl Hv) as [Hlen HP].
      cbn [firstn skipn List.app List.length] in *.
      split; [now rewrite Hlen | now constructor].
Qed.

Lemma Forall_repeat (P : value -> Prop) (z : value) (k : nat) :
  P z -> Forall P (repeat z k).
Proof. intros Hz. induction k; cbn; constructor; auto. Qed.

End ListSet.

Section SeriesMul.

Context {B : Bignum}.
Variable n : nat.
Local Notation "'E1'" := (engine_at (S n)).
Local Notation "'E2'" := (engine_at (S (S n))).

Variables k1 k2 : BCTypeEnum.
Hypothesis Hk1 : real_kind k1 = true.
Hypothesis Hk2 : real_kind k2 = true.
Hypothesis Hcompat : kinds_compatible k1 k2 = true.
Variables tab1 tab2 : list value.
Hypothesis Htab1 : Forall (coef_ok k1) tab1.
Hypothesis Htab2 : Forall (coef_ok k2) tab2.

Lemma ser_mul_inner_ok (i : nat) (js : list nat) (tab : list value) :
  (i < List.length tab1)%nat ->
  Forall (fun j => (j < List.length tab2)%nat /\ (i + j < List.length tab)%nat) js ->
  Forall (coef_ok (max_tag k1 k2)) tab ->
  exists tab',
    ser_mul_inner E2 tab1 tab2 i js tab = Val tab'
    /\ List.length tab' = List.length tab
    /\ Forall (coef_ok (max_tag k1 k2)) tab'.
Proof.
  intros Hi. revert tab.
  induction js as [|j js IH]; intros tab Hjs' Htab.
  - exists tab. auto.
  - apply Forall_cons_iff in Hjs' as [[Hj Hij] Hrest].
    cbn [ser_mul_inner]. unfold cval_mul, cval_add. rewrite e_op2_at.
    destruct (kinds_max_real k1 k2 Hk1 Hk2 Hcompat)
      as (Hkm & _ & _ & _ & _ & Hmm & Hcm).
    assert (Hc1 : coef_ok k1 (nth i tab1 VNull)).
    { rewrite Forall_forall in Htab1. apply Htab1, nth_In. exact Hi. }
    assert (Hc2 : coef_ok k2 (nth j tab2 VNull)).
    { rewrite Forall_forall in Htab2. apply Htab2, nth_In. exact Hj. }
    destruct (coef_arith n k1 k2 _ _ BC_OP2_MUL (or_intror eq_refl) Hc1 Hc2 Hcompat)
      as (m & -> & Hm).
    cbn [deref]. rewrite e_op2_at.
    assert (Hacc : coef_ok (max_tag k1 k2) (nth (i + j) tab VNull)).
    { rewrite Forall_forall in Htab. apply Htab, nth_In. exact Hij. }
    destruct (coef_arith n _ _ _ _ BC_OP2_ADD (or_introl eq_refl) Hacc Hm Hcm)
      as (c & -> & Hc).
    rewrite Hmm in Hc. cbn [store].
    destruct (list_set_ok (coef_ok (max_tag k1 k2)) tab (i + j) c Hij Htab Hc)
      as [Hlen Hset].
    destruct (IH (list_set tab (i + j) c)) as (tab' & Hev & Hlen' & Htab').
    + eapply Forall_impl; [|exact Hrest]. cbn. intros a [Ha1 Ha2].
      rewrite Hlen. auto.
    + exact Hset.
    + exists tab'. split; [exact Hev|]. split; [lia | exact Htab'].
Qed.

Lemma ser_mul_outer_ok (len : nat) (idxs : list nat) (tab : list value) :
  (len <= List.length tab1)%nat -> (len <= List.length tab2)%nat ->
  List.length tab = len ->
  Forall (fun i => (i < len)%nat) idxs ->
  Forall (coef_ok (max_tag k1 k2)) tab ->
  exists tab',
    ser_mul_outer E2 tab1 tab2 len idxs tab = Val tab'
    /\ List.length tab' = len
    /\ Forall (coef_ok (max_tag k1 k2)) tab'.
Proof.
  intros Hl1 Hl2. revert tab.
  induction idxs as [|i idxs IH]; intros tab Hlen Hidx Htab.
  - exists tab. auto.
  - apply Forall_cons_iff in Hidx as [Hi Hrest].
    cbn [ser_mul_outer].
    destruct (ser_mul_inner_ok i (seq 0 (len - i)) tab ltac:(lia))
      as (tab' & -> & Hlen' & Htab'); [|exact Htab|].
    + apply Forall_forall. intros j Hj. apply in_seq in Hj. lia.
    + cbn [bind]. apply IH; [lia | exact Hrest | exact Htab'].
Qed.

(** [ser_mul], before the leading zero coefficients are removed. *)
Lemma ser_mul_untrimmed_spec (emin1 emin2 : Z) :
  exp_range emin1 (ser_len tab1) -> exp_range emin2 (ser_len tab2) ->
  exists tab,
    ser_mul_untrimmed E2 (VSer (def_type k1) emin1 tab1)
                         (VSer (def_type k2) emin2 tab2)
    = Val (VSer (def_type (max_tag k1 k2)) (emin1 + emin2) tab)
    /\ ser_len tab = Z.min (ser_len tab1) (ser_len tab2)
    /\ Forall (coef_ok (max_tag k1 k2)) tab.
Proof.
  intros [Hlo1 Hhi1] [Hlo2 Hhi2].
  assert (Hl1 : 0 <= ser_len tab1) by (unfold ser_len; lia).
  assert (Hl2 : 0 <= ser_len tab2) by (unfold ser_len; lia).
  unfold ser_mul_untrimmed. rewrite c_int_ok by lia. cbn [bind].
  set (len := Z.min (ser_len tab1) (ser_len tab2)).
  destruct (ser_new2_real n k1 k2 Hk1 Hk2 Hcompat len (emin1 + emin2)
              ltac:(unfold len; lia)) as (z & -> & Hz).
  cbn [deref u_ser bind].
  destruct (ser_mul_outer_ok (Z.to_nat len) (seq 0 (Z.to_nat len))
              (repeat z (Z.to_nat len)))
    as (tab & -> & Hlen & Htab).
  - unfold len, ser_len. lia.
  - unfold len, ser_len. lia.
  - apply repeat_length.
  - apply Forall_forall. intros i Hi. apply in_seq in Hi. lia.
  - now apply Forall_repeat.
  - cbn [bind]. exists tab. split; [reflexivity|]. split; [|exact Htab].
    unfold ser_len. rewrite Hlen. unfold len in *. lia.
Qed.

End SeriesMul.

Section SeriesTrim.

Context {B : Bignum}.
Variable n : nat.
Local Notation "'E2'" := (engine_at (S (S n))).

Lemma get_emin_ok (k : BCTypeEnum) (tab : list value) :
  real_kind k = true -> Forall (coef_ok k) tab ->
  exists i, get_emin E2 tab = Val i /\ 0 <= i <= ser_len tab.
Proof.
  intros Hk. induction 1 as [|c tab Hc _ IH].
  - exists 0. split; [reflexivity | unfold ser_len; cbn; lia].
  - cbn [get_emin].
    destruct (coef_is_zero n k c Hk Hc) as [b ->]. cbn [bind].
    destruct IH as (i & -> & Hi). unfold ser_len in *. cbn [List.length].
    destruct b; cbn [bind].
    + exists (i + 1). split; [reflexivity | lia].
    + exists 0. split; [reflexivity | lia].
Qed.

Lemma ser_trim_ok (k : BCTypeEnum) (el : BCType) (emin : Z) (tab : list value) :
  real_kind k = true -> Forall (coef_ok k) tab ->
  - 2 ^ 31 <= emin -> emin + ser_len tab < 2 ^ 31 ->
  exists i,
    get_emin E2 tab = Val i /\ 0 <= i <= ser_len tab
    /\ ser_trim E2 (VSer el emin tab)
       = Val (VSer el (emin + i) (skipn (Z.to_nat i) tab)).
Proof.
  intros Hk Htab Hlo Hhi.
  destruct (get_emin_ok k tab Hk Htab) as (i & Hi & Hrange).
  exists i. split; [exact Hi|]. split; [exact Hrange|].
  unfold ser_trim. cbn [u_ser bind]. rewrite Hi. cbn [bind].
  destruct (Z.leb_spec i 0).
  - assert (i = 0) as -> by lia. now rewrite Z.add_0_r.
  - rewrite c_int_ok by lia. reflexivity.
Qed.

End SeriesTrim.

(** The precision of the sum and of the product of two series with real
    coefficients.  For two series whose coefficients are reals
    (Integers, Fractions, Decimals or Floats) of kinds that have a
    common kind, and whose exponents are in the range of the arithmetic
    on C [int]s: before the leading zero coefficients are removed, the
    sum has [emin = min (emin1, emin2)] and the terms below
    [min (emin1 + len1, emin2 + len2)], and the product has
    [emin = emin1 + emin2] and [len = min (len1, len2)]; the series
    returned is that one without its [i] leading zero coefficients, at
    [emin + i]. *)
Theorem series_add_mul_precision {B : Bignum} (n : nat) (k1 k2 : BCTypeEnum)
  (emin1 emin2 : Z) (tab1 tab2 : list value) :
  real_kind k1 = true -> real_kind k2 = true ->
  kinds_compatible k1 k2 = true ->
  Forall (coef_ok k1) tab1 -> Forall (coef_ok k2) tab2 ->
  exp_range emin1 (ser_len tab1) -> exp_range emin2 (ser_len tab2) ->
  (exists tab i,
     ser_add_untrimmed (engine_at (S (S n)))
       (VSer (def_type k1) emin1 tab1) (VSer (def_type k2) emin2 tab2)
     = Val (VSer (def_type (max_tag k1 k2)) (Z.min emin1 emin2) tab)
     /\ ser_len tab
        = Z.min (emin1 + ser_len tab1) (emin2 + ser_len tab2) - Z.min emin1 emin2
     /\ get_emin (engine_at (S (S n))) tab = Val i /\ 0 <= i <= ser_len tab
     /\ cval_op2 (engine_at (S (S n)))
          (VSer (def_type k1) emin1 tab1) (VSer (def_type k2) emin2 tab2)
          BC_OP2_ADD
        = Val (VSer (def_type (max_tag k1 k2)) (Z.min emin1 emin2 + i)
                 (skipn (Z.to_nat i) tab)))
  /\ (exists tab i,
     ser_mul_untrimmed (engine_at (S (S n)))
       (VSer (def_type k1) emin1 tab1) (VSer (def_type k2) emin2 tab2)
     = Val (VSer (def_type (max_tag k1 k2)) (emin1 + emin2) tab)
     /\ ser_len tab = Z.min (ser_len tab1) (ser_len tab2)
     /\ get_emin (engine_at (S (S n))) tab = Val i /\ 0 <= i <= ser_len tab
     /\ cval_op2 (engine_at (S (S n)))
          (VSer (def_type k1) emin1 tab1) (VSer (def_type k2) emin2 tab2)
          BC_OP2_MUL
        = Val (VSer (def_type (max_tag k1 k2)) (emin1 + emin2 + i)
                 (skipn (Z.to_nat i) tab))).
Proof.
  intros Hk1 Hk2 Hcompat Htab1 Htab2 Hr1 Hr2.
  destruct (kinds_max_real k1 k2 Hk1 Hk2 Hcompat) as (Hk & _).
  pose proof Hr1 as [Hlo1 Hhi1]. pose proof Hr2 as [Hlo2 Hhi2].
  assert (Hl1 : 0 <= ser_len tab1) by (unfold ser_len; lia).
  assert (Hl2 : 0 <= ser_len tab2) by (unfold ser_len; lia).
  split.
  - destruct (ser_add_untrimmed_spec n k1 k2 Hk1 Hk2 Hcompat tab1 tab2
                Htab1 Htab2 emin1 emin2 Hr1 Hr2) as (tab & Hev & Hlen & Htab).
    destruct (ser_trim_ok n (max_tag k1 k2) (def_type (max_tag k1 k2))
                (Z.min emin1 emin2) tab Hk Htab ltac:(lia) ltac:(lia))
      as (i & Hi & Hrange & Htrim).
    exists tab, i. repeat split; try assumption; try lia.
    change (cval_op2 (engine_at (S (S n))) (VSer (def_type k1) emin1 tab1)
              (VSer (def_type k2) emin2 tab2) BC_OP2_ADD)
      with (ser_add (engine_at (S (S n))) (VSer (def_type k1) emin1 tab1)
              (VSer (def_type k2) emin2 tab2)).
    unfold ser_add. rewrite Hev. cbn [bind]. exact Htrim.
  - destruct (ser_mul_untrimmed_spec n k1 k2 Hk1 Hk2 Hcompat tab1 tab2
                Htab1 Htab2 emin1 emin2 Hr1 Hr2) as (tab & Hev & Hlen & Htab).
    destruct (ser_trim_ok n (max_tag k1 k2) (def_type (max_tag k1 k2))
                (emin1 + emin2) tab Hk Htab ltac:(lia) ltac:(lia))
      as (i & Hi & Hrange & Htrim).
    exists tab, i. repeat split; try assumption; try lia.
    change (cval_op2 (engine_at (S (S n))) (VSer (def_type k1) emin1 tab1)
              (VSer (def_type k2) emin2 tab2) BC_OP2_MUL)
      with (ser_mul (engine_at (S (S n))) (VSer (def_type k1) emin1 tab1)
              (VSer (def_type k2) emin2 tab2)).
    unfold ser_mul. rewrite Hev. cbn [bind]. exact Htrim.
Qed.

(** The theorem at [(X + O(X^3)) + (1 + X + O(X^2))] and at the product
    of the two series, with Integer coefficients, on the rational
    reference library. *)
Lemma series_add_mul_precision_witness :
  (exists tab i,
     @cval_op2 rational_bignum (engine_at 2)
       (VSer (def_type CTYPE_INT) 1 [VInt 1; VInt 0])
       (VSer (def_type CTYPE_INT) 0 [VInt 1; VInt 1]) BC_OP2_ADD
     = Val (VSer (def_type CTYPE_INT) (0 + i) (skipn (Z.to_nat i) tab))
     /\ ser_len tab = 2)
  /\ (exists tab i,
     @cval_op2 rational_bignum (engine_at 2)
       (VSer (def_type CTYPE_INT) 1 [VInt 1; VInt 0])
       (VSer (def_type CTYPE_INT) 0 [VInt 1; VInt 1]) BC_OP2_MUL
     = Val (VSer (def_type CTYPE_INT) (1 + i) (skipn (Z.to_nat i) tab))
     /\ ser_len tab = 2).
Proof.
  destruct (@series_add_mul_precision rational_bignum 0 CTYPE_INT CTYPE_INT 1 0
              [VInt 1; VInt 0] [VInt 1; VInt 1] eq_refl eq_refl eq_refl)
    as [(ta & ia & _ & Hla & _ & _ & Ha) (tm & im & _ & Hlm & _ & _ & Hm)].
  - repeat constructor.
  - repeat constructor.
  - split; [vm_compute; discriminate | reflexivity].
  - split; [vm_compute; discriminate | reflexivity].
  - split.
    + exists ta, ia. split; [exact Ha | exact Hla].
    + exists tm, im. split; [exact Hm | exact Hlm].
Defined.

(** C4, the defect.  For the sum and for the product of a series of
    Floats and a series of Decimals, here [(1.0l + O(X)) + (1.0 + O(X))]
    and the product of the two, [get_op2_type] finds no common
    coefficient type and [ser_new2] returns the exception [NULL];
    [ser_add] and [ser_mul] do not test it, as [poly_add] and [poly_mul]
    test the result of [poly_new2], and dereference it. *)
Lemma series_float_decimal_no_series :
  @cval_op2 rational_bignum (engine_at 2)
    (VSer (def_type CTYPE_FLOAT) 0 [@VFloat rational_bignum (RationalBignum.of_Z 1)])
    (VSer (def_type CTYPE_DECIMAL) 0 [@VDec rational_bignum (RationalBignum.of_Z 1)]) BC_OP2_ADD
  = Fault NullDeref
  /\ @cval_op2 rational_bignum (engine_at 2)
    (VSer (def_type CTYPE_FLOAT) 0 [@VFloat rational_bignum (RationalBignum.of_Z 1)])
    (VSer (def_type CTYPE_DECIMAL) 0 [@VDec rational_bignum (RationalBignum.of_Z 1)]) BC_OP2_MUL
  = Fault NullDeref.
Proof. split; reflexivity. Qed.

(** * Arrays *)

(** A bound of the C [int]s. *)
Ltac int_range :=
  unfold INT_MIN, INT_MAX, BfInt.INT32_MIN, BfInt.INT32_MAX; lia.

(** [H : lhs = rhs] at a closed [lhs] that evaluates to [t]. *)
Ltac evaluated H t :=
  match type of H with
  | ?lhs = _ =>
      let Hk := fresh in
      assert (Hk : lhs = t) by reflexivity; rewrite Hk in H; clear Hk
  end.

Section ListFacts.

Context {A : Type}.

Lemma map_nth_seq (d : A) (l : list A) (k : nat) :
  (k <= List.length l)%nat ->
  map (fun i => nth i l d) (seq 0 k) = firstn k l.
Proof.
  revert k. induction l as [|x l IH]; intros k Hk.
  - cbn in Hk. assert (k = 0%nat) as -> by lia. reflexivity.
  - destruct k as [|k]; [reflexivity|].
    cbn [seq map firstn nth]. f_equal.
    rewrite <- seq_shift, map_map. cbn [nth].
    apply IH. cbn in Hk. lia.
Qed.

Lemma nth_skipn_add (d : A) (l : list A) (s i : nat) :
  nth (s + i) l d = nth i (skipn s l) d.
Proof.
  revert l. induction s as [|s IH]; intros l; [reflexivity|].
  destruct l as [|x l]; cbn [skipn Nat.add nth].
  - now destruct i.
  - apply IH.
Qed.

Lemma slice_get_loop (d : A) (l : list A) (s k : nat) :
  (s + k <= List.length l)%nat ->
  map (fun i => nth (s + i) l d) (seq 0 k) = sublist s (s + k) l.
Proof.
  intros H. unfold sublist.
  replace (s + k - s)%nat with k by lia.
  rewrite <- (map_nth_seq d (skipn s l) k) by (rewrite length_skipn; lia).
  apply map_ext. intros i. apply nth_skipn_add.
Qed.

Lemma list_set_middle (l1 l2 : list A) (x v : A) :
  firstn (List.length l1) (l1 ++ x :: l2) ++ v :: skipn (Datatypes.S (List.length l1)) (l1 ++ x :: l2)
  = l1 ++ v :: l2.
Proof.
  rewrite firstn_app, Nat.sub_diag, firstn_all. cbn [firstn].
  rewrite app_nil_r. f_equal. f_equal.
  replace (Datatypes.S (List.length l1)) with (List.length (l1 ++ [x]))%nat
    by (rewrite length_app; cbn; lia).
  replace (l1 ++ x :: l2) with ((l1 ++ [x]) ++ l2)
    by (now rewrite <- app_assoc).
  rewrite skipn_app, Nat.sub_diag, skipn_all. reflexivity.
Qed.

End ListFacts.

Section Arrays.

Context {B : Bignum}.

Lemma list_set_length (l : list value) (i : nat) (v : value) :
  (i < List.length l)%nat -> List.length (list_set l i v) = List.length l.
Proof.
  intros H. unfold list_set.
  rewrite length_app, length_firstn. cbn [List.length].
  rewrite length_skipn. lia.
Qed.

Lemma list_set_nth_error_eq (l : list value) (i : nat) (v : value) :
  (i < List.length l)%nat -> nth_error (list_set l i v) i = Some v.
Proof.
  intros H. unfold list_set.
  rewrite nth_error_app2 by (rewrite length_firstn; lia).
  rewrite length_firstn.
  replace (i - Nat.min i (List.length l))%nat with 0%nat by lia.
  reflexivity.
Qed.

Lemma list_set_nth_error_neq (l : list value) (i j : nat) (v : value) :
  (i < List.length l)%nat -> j <> i ->
  nth_error (list_set l i v) j = nth_error l j.
Proof.
  intros H Hj. unfold list_set.
  destruct (Nat.lt_ge_cases j i) as [Hlt|Hge].
  - rewrite nth_error_app1 by (rewrite length_firstn; lia).
    now rewrite nth_error_firstn, (proj2 (Nat.ltb_lt j i)) by assumption.
  - rewrite nth_error_app2 by (rewrite length_firstn; lia).
    rewrite length_firstn.
    replace (j - Nat.min i (List.length l))%nat with (Datatypes.S (j - i - 1)) by lia.
    cbn [nth_error]. rewrite nth_error_skipn. f_equal. lia.
Qed.

Lemma slice_set_loop (tab tab1 : list value) (s : nat) :
  (s + List.length tab1 <= List.length tab)%nat ->
  fold_left (fun t i => list_set t (s + i) (nth i tab1 VNull))
    (seq 0 (List.length tab1)) tab
  = firstn s tab ++ tab1 ++ skipn (s + List.length tab1) tab.
Proof.
  intros H.
  assert (Hk : forall k, (k <= List.length tab1)%nat ->
            fold_left (fun t i => list_set t (s + i) (nth i tab1 VNull))
              (seq 0 k) tab
            = firstn s tab ++ firstn k tab1 ++ skipn (s + k) tab).
  { induction k as [|k IH]; intros Hle.
    - cbn [seq fold_left firstn app]. rewrite Nat.add_0_r.
      now rewrite firstn_skipn.
    - rewrite seq_S, fold_left_app, IH by lia. cbn [fold_left Nat.add].
      unfold list_set.
      assert (Hx : exists x rest, skipn (s + k) tab = x :: rest
                                  /\ skipn (Datatypes.S (s + k)) tab = rest).
      { destruct (skipn (s + k) tab) as [|x rest] eqn:Hs.
        - apply (f_equal (@List.length value)) in Hs.
          rewrite length_skipn in Hs. cbn in Hs. lia.
        - exists x, rest. split; [reflexivity|].
          replace (Datatypes.S (s + k)) with (1 + (s + k))%nat by lia.
          rewrite <- skipn_skipn, Hs. reflexivity. }
      destruct Hx as (x & rest & Hx1 & Hx2).
      rewrite Hx1.
      replace (s + Datatypes.S k)%nat with (Datatypes.S (s + k)) by lia.
      rewrite Hx2.
      assert (Hlen : List.length (firstn s tab ++ firstn k tab1) = (s + k)%nat).
      { rewrite length_app, !length_firstn. lia. }
      rewrite app_assoc. rewrite <- Hlen at 1 2.
      rewrite list_set_middle.
      rewrite <- app_assoc. f_equal.
      assert (Hf : firstn (Datatypes.S k) tab1 = firstn k tab1 ++ [nth k tab1 VNull]).
      { clear - Hle. revert k Hle. induction tab1 as [|y l IHl]; intros k Hle.
        - cbn in Hle. lia.
        - destruct k as [|k]; [reflexivity|].
          cbn [firstn nth app]. f_equal. apply IHl. cbn in Hle. lia. }
      rewrite Hf, <- app_assoc. reflexivity. }
  rewrite Hk by lia. now rewrite firstn_all.
Qed.

Lemma cint_to_int_in_range (i : Z) :
  INT_MIN <= i <= INT_MAX -> cint_to_int (VInt i) = Val i.
Proof.
  unfold INT_MIN, INT_MAX, cint_to_int, BfInt.bf_get_int32. intros H.
  destruct (Z.ltb_spec i BfInt.INT32_MIN); [lia|].
  destruct (Z.ltb_spec BfInt.INT32_MAX i); [lia|]. reflexivity.
Qed.

Lemma cint_to_int_too_large (i : Z) :
  ~ INT_MIN <= i <= INT_MAX ->
  cint_to_int (VInt i) = Exc CERR_RANGE "integer is too large".
Proof.
  unfold INT_MIN, INT_MAX, cint_to_int, BfInt.bf_get_int32. intros H.
  destruct (Z.ltb_spec i BfInt.INT32_MIN); [reflexivity|].
  destruct (Z.ltb_spec BfInt.INT32_MAX i); [reflexivity|]. lia.
Qed.

Lemma carray_index_unfold (tab : list value) (i : Z) (rest : list value)
  (is_set : bool) :
  Z.of_nat (List.length rest) = (if is_set then 1 else 0) ->
  INT_MIN <= i <= INT_MAX ->
  carray_getsetitem (VArray tab :: VInt i :: rest) is_set
  = let len := Z.of_nat (List.length tab) in
    let idx := resolve_index i len in
    if (idx <? 0) || (len <=? idx) then
      cval_range_error "array index out of bounds"
    else if is_set then
      match rest with
      | v :: _ =>
          if is_array v then Fault NotModelled
          else Val (VNull, list_set tab (Z.to_nat idx) v)
      | [] => Fault OutOfBounds
      end
    else Val (nth (Z.to_nat idx) tab VNull, tab).
Proof.
  intros Hn Hi. unfold carray_getsetitem.
  replace (Z.of_nat (List.length (VArray tab :: VInt i :: rest)) =?
           2 + (if is_set then 1 else 0)) with true
    by (symmetry; apply Z.eqb_eq; cbn [List.length]; lia).
  cbn [negb]. rewrite cint_to_int_in_range by assumption. reflexivity.
Qed.

Lemma slice_bounds_spec (start stop len : Z) :
  0 <= len ->
  let start0 := if start =? RANGE_DEFAULT then 0 else start in
  let stop0 := if stop =? RANGE_DEFAULT then len else stop in
  let start1 := if start0 <? 0 then start0 + len else start0 in
  let stop1 := if stop0 <? 0 then stop0 + len else stop0 in
  let start2 := if start1 <? 0 then 0 else start1 in
  let start3 := clamp_int start2 0 len in
  let stop3 := clamp_int stop1 0 len in
  let stop4 := if stop3 <? start3 then start3 else stop3 in
  start3 = slice_bound start 0 len
  /\ stop4 = Z.max (slice_bound start 0 len) (slice_bound stop len len).
Proof.
  intros Hlen. cbv zeta. unfold slice_bound, clamp_int.
  repeat match goal with
         | |- context [Z.eqb ?a ?b] => destruct (Z.eqb_spec a b)
         | |- context [Z.ltb ?a ?b] => destruct (Z.ltb_spec a b)
         | H : context [Z.ltb ?a ?b] |- _ => destruct (Z.ltb_spec a b)
         end; unfold RANGE_DEFAULT, BfInt.INT32_MIN in *; lia.
Qed.

End Arrays.

Section ArraySubscripts.

Context {B : Bignum}.
Variable E : engine.

Lemma carray_get_in_range (tab : list value) (i : Z) :
  INT_MIN <= i <= INT_MAX ->
  0 <= resolve_index i (Z.of_nat (List.length tab)) < Z.of_nat (List.length tab) ->
  exists v,
    nth_error tab (Z.to_nat (resolve_index i (Z.of_nat (List.length tab)))) = Some v
    /\ carray_getitem [VArray tab; VInt i] = Val (v, tab).
Proof.
  intros Hi Hr. unfold carray_getitem.
  rewrite carray_index_unfold by (assumption || reflexivity). cbv zeta.
  set (r := resolve_index i (Z.of_nat (List.length tab))) in *.
  destruct (Z.ltb_spec r 0); [lia|].
  destruct (Z.leb_spec (Z.of_nat (List.length tab)) r); [lia|].
  cbn [orb]. exists (nth (Z.to_nat r) tab VNull). split; [|reflexivity].
  apply nth_error_nth'. lia.
Qed.

Lemma carray_index_out_of_range (tab rest : list value) (i : Z) (is_set : bool) :
  Z.of_nat (List.length rest) = (if is_set then 1 else 0) ->
  INT_MIN <= i <= INT_MAX ->
  ~ 0 <= resolve_index i (Z.of_nat (List.length tab)) < Z.of_nat (List.length tab) ->
  carray_getsetitem (VArray tab :: VInt i :: rest) is_set
  = Exc CERR_RANGE "array index out of bounds".
Proof.
  intros Hn Hi Hr.
  rewrite carray_index_unfold by assumption. cbv zeta.
  set (r := resolve_index i (Z.of_nat (List.length tab))) in *.
  destruct (Z.ltb_spec r 0); [reflexivity|].
  destruct (Z.leb_spec (Z.of_nat (List.length tab)) r); [reflexivity|]. lia.
Qed.

Lemma carray_index_too_large (tab rest : list value) (i : Z) (is_set : bool) :
  Z.of_nat (List.length rest) = (if is_set then 1 else 0) ->
  ~ INT_MIN <= i <= INT_MAX ->
  carray_getsetitem (VArray tab :: VInt i :: rest) is_set
  = Exc CERR_RANGE "integer is too large".
Proof.
  intros Hn Hi. unfold carray_getsetitem.
  replace (Z.of_nat (List.length (VArray tab :: VInt i :: rest)) =?
           2 + (if is_set then 1 else 0)) with true
    by (symmetry; apply Z.eqb_eq; cbn [List.length]; lia).
  cbn [negb]. now rewrite cint_to_int_too_large.
Qed.

Lemma cval_getitem_array (tab : list value) (a1 : value) :
  cval_getitem E [VArray tab; a1]
  = (r <- carray_getitem [VArray tab; a1] ;; Val (fst r)).
Proof. reflexivity. Qed.

Lemma cval_get_in_range (tab : list value) (i : Z) :
  INT_MIN <= i <= INT_MAX ->
  0 <= resolve_index i (Z.of_nat (List.length tab)) < Z.of_nat (List.length tab) ->
  cval_getitem E [VArray tab; VInt i]
  = Val (nth (Z.to_nat (resolve_index i (Z.of_nat (List.length tab)))) tab VNull).
Proof.
  intros Hi Hr. rewrite cval_getitem_array.
  destruct (carray_get_in_range tab i Hi Hr) as (v & Hv & ->). cbn [bind fst].
  f_equal. symmetry. now apply nth_error_nth.
Qed.

Lemma carray_slice_get (tab : list value) (start stop : Z) :
  carray_getitem [VArray tab; VRange start stop]
  = Val (VArray (sublist
                   (Z.to_nat (slice_bound start 0 (Z.of_nat (List.length tab))))
                   (Z.to_nat (slice_bound stop (Z.of_nat (List.length tab))
                                (Z.of_nat (List.length tab))))
                   tab),
         tab).
Proof.
  unfold carray_getitem, carray_getsetitem.
  match goal with
  | |- (if negb ?c then _ else _) = _ => change c with true
  end.
  cbn [negb].
  set (len := Z.of_nat (List.length tab)).
  destruct (slice_bounds_spec start stop len ltac:(lia)) as [Hs He].
  cbv zeta in Hs, He. rewrite He, Hs. clear Hs He.
  set (s := slice_bound start 0 len). set (e := slice_bound stop len len).
  assert (Hsr : 0 <= s <= len /\ 0 <= e <= len).
  { unfold s, e, slice_bound.
    destruct (start =? RANGE_DEFAULT), (stop =? RANGE_DEFAULT); lia. }
  f_equal. f_equal. f_equal.
  rewrite slice_get_loop by lia.
  unfold sublist. f_equal. lia.
Qed.

Lemma carray_slice_set (tab tab1 : list value) (start stop : Z) :
  let len := Z.of_nat (List.length tab) in
  let s := slice_bound start 0 len in
  let e := Z.max s (slice_bound stop len len) in
  carray_setitem [VArray tab; VRange start stop; VArray tab1]
  = if negb (Z.of_nat (List.length tab1) =? e - s) then
      Exc CERR_TYPE "invalid length of right hande side array"
    else if existsb is_array tab1 then Fault NotModelled
    else Val (VNull, firstn (Z.to_nat s) tab ++ tab1 ++ skipn (Z.to_nat e) tab).
Proof.
  intros len s e.
  unfold carray_setitem, carray_getsetitem.
  match goal with
  | |- (if negb ?c then _ else _) = _ => change c with true
  end.
  cbn [negb].
  fold len.
  destruct (slice_bounds_spec start stop len ltac:(lia)) as [Hs He].
  cbv zeta in Hs, He. rewrite He, Hs. clear Hs He. fold s. fold e.
  assert (Hsr : 0 <= s <= len /\ s <= e <= len).
  { unfold e, s, slice_bound.
    destruct (start =? RANGE_DEFAULT), (stop =? RANGE_DEFAULT); lia. }
  destruct (Z.eqb_spec (Z.of_nat (List.length tab1)) (e - s)) as [Heq|Hne];
    cbn [negb]; [|reflexivity].
  destruct (existsb is_array tab1); [reflexivity|].
  f_equal. f_equal.
  replace (Z.to_nat (e - s)) with (List.length tab1) by lia.
  rewrite slice_set_loop by lia.
  do 3 f_equal. lia.
Qed.

End ArraySubscripts.

(** Reading [a[i]] in an array [a] of [len] elements, for an Integer [i]
    that fits a C [int]: a negative [i] stands for [i + len]; when the
    position is in [0, len) the result is the element at that position and
    the array is left as it was; otherwise the call raises the range error
    [array index out of bounds].  An Integer that does not fit a C [int]
    raises the range error [integer is too large]. *)
Theorem array_index_get {B : Bignum} (E : engine) (tab : list value) (i : Z) :
  let len := Z.of_nat (List.length tab) in
  let r := resolve_index i len in
  (INT_MIN <= i <= INT_MAX -> 0 <= r < len ->
   exists v, nth_error tab (Z.to_nat r) = Some v
             /\ carray_getitem [VArray tab; VInt i] = Val (v, tab)
             /\ cval_getitem E [VArray tab; VInt i] = Val v)
  /\ (INT_MIN <= i <= INT_MAX -> ~ 0 <= r < len ->
      cval_getitem E [VArray tab; VInt i]
      = Exc CERR_RANGE "array index out of bounds")
  /\ (~ INT_MIN <= i <= INT_MAX ->
      cval_getitem E [VArray tab; VInt i]
      = Exc CERR_RANGE "integer is too large").
Proof.
  intros len r. repeat split.
  - intros Hi Hr.
    destruct (carray_get_in_range tab i Hi Hr) as (v & Hv & Hget).
    exists v. split; [exact Hv|]. split; [exact Hget|].
    rewrite cval_getitem_array, Hget. reflexivity.
  - intros Hi Hr. rewrite cval_getitem_array. unfold carray_getitem.
    rewrite carray_index_out_of_range by (assumption || reflexivity). reflexivity.
  - intros Hi. rewrite cval_getitem_array. unfold carray_getitem.
    rewrite carray_index_too_large by (assumption || reflexivity). reflexivity.
Qed.

(** The theorem at [[10, 20, 30][-1]] and [[10, 20, 30][3]]. *)
Lemma array_index_get_witness :
  @cval_getitem rational_bignum (engine_at 1) [VArray [VInt 10; VInt 20; VInt 30]; VInt (-1)]
  = Val (VInt 30)
  /\ @cval_getitem rational_bignum (engine_at 1)
       [VArray [VInt 10; VInt 20; VInt 30]; VInt 3]
     = Exc CERR_RANGE "array index out of bounds".
Proof.
  destruct (@array_index_get rational_bignum (engine_at 1)
              [VInt 10; VInt 20; VInt 30] (-1)) as (H1 & _ & _).
  destruct (@array_index_get rational_bignum (engine_at 1)
              [VInt 10; VInt 20; VInt 30] 3) as (_ & H2 & _).
  split.
  - destruct H1 as (v & Hv & _ & Hget);
      [int_range | change (0 <= 2 < 3); lia |].
    change (Some (VInt 30) = Some v) in Hv. injection Hv as <-. exact Hget.
  - apply H2; [int_range|]. change (~ 0 <= 3 < 3). lia.
Defined.

(** Assigning [a[i] = v] in an array of [len] elements, for an Integer [i]
    that fits a C [int] and denotes a position in [0, len), and for a
    value [v] that is not an array: the call returns null and keeps the
    length of the array; afterwards [a[i]] reads [v], and every subscript
    that denotes another position reads what it read before.  (An array
    [v] is stored by reference: it is shared, and may be [a] itself.)
    For a position outside [0, len) the assignment raises the range error
    [array index out of bounds], whatever [v] is: an array never grows by
    assignment. *)
Theorem array_set_get {B : Bignum} (E : engine) (tab : list value) (i : Z)
  (v : value) :
  let len := Z.of_nat (List.length tab) in
  INT_MIN <= i <= INT_MAX ->
  (0 <= resolve_index i len < len -> is_array v = false ->
   exists tab',
     cval_setitem [VArray tab; VInt i; v] = Val (VNull, tab')
     /\ List.length tab' = List.length tab
     /\ cval_getitem E [VArray tab'; VInt i] = Val v
     /\ forall j, INT_MIN <= j <= INT_MAX ->
          resolve_index j len <> resolve_index i len ->
          cval_getitem E [VArray tab'; VInt j] = cval_getitem E [VArray tab; VInt j])
  /\ (~ 0 <= resolve_index i len < len ->
      cval_setitem [VArray tab; VInt i; v]
      = Exc CERR_RANGE "array index out of bounds").
Proof.
  intros len Hi. split.
  - intros Hr Hv.
    set (r := resolve_index i len) in *.
    exists (list_set tab (Z.to_nat r) v).
    assert (Hlen : List.length (list_set tab (Z.to_nat r) v) = List.length tab)
      by (apply list_set_length; lia).
    split; [|split; [exact Hlen|split]].
    + change (cval_setitem [VArray tab; VInt i; v])
        with (carray_getsetitem [VArray tab; VInt i; v] true).
      rewrite carray_index_unfold by (assumption || reflexivity). cbv zeta.
      fold len. fold r.
      destruct (Z.ltb_spec r 0); [lia|].
      destruct (Z.leb_spec len r); [lia|]. cbn [orb]. now rewrite Hv.
    + rewrite cval_get_in_range; rewrite ?Hlen; fold len; fold r; try assumption.
      f_equal. apply nth_error_nth.
      apply list_set_nth_error_eq. lia.
    + intros j Hj Hne.
      destruct (Z.ltb_spec (resolve_index j len) 0) as [Hneg|Hpos];
        [|destruct (Z.ltb_spec (resolve_index j len) len) as [Hin|Hout]].
      * rewrite !cval_getitem_array. unfold carray_getitem.
        rewrite !carray_index_out_of_range;
          rewrite ?Hlen; fold len; try reflexivity; try assumption; lia.
      * rewrite !cval_get_in_range; rewrite ?Hlen; fold len; try assumption; try lia.
        f_equal.
        assert (Hn : nth_error (list_set tab (Z.to_nat r) v)
                       (Z.to_nat (resolve_index j len))
                     = nth_error tab (Z.to_nat (resolve_index j len))).
        { apply list_set_nth_error_neq; lia. }
        rewrite (nth_error_nth' tab VNull) in Hn by lia.
        now apply nth_error_nth.
      * rewrite !cval_getitem_array. unfold carray_getitem.
        rewrite !carray_index_out_of_range;
          rewrite ?Hlen; fold len; try reflexivity; try assumption; lia.
  - intros Hr.
    change (cval_setitem [VArray tab; VInt i; v])
      with (carray_getsetitem [VArray tab; VInt i; v] true).
    now rewrite carray_index_out_of_range by (assumption || reflexivity).
Qed.

(** The theorem at [a = [10, 20, 30]; a[-3] = 7]. *)
Lemma array_set_get_witness :
  exists tab',
    @cval_setitem rational_bignum [VArray [VInt 10; VInt 20; VInt 30]; VInt (-3); VInt 7]
    = Val (VNull, tab')
    /\ List.length tab' = 3%nat
    /\ cval_getitem (engine_at 1) [VArray tab'; VInt (-3)] = Val (VInt 7)
    /\ cval_getitem (engine_at 1) [VArray tab'; VInt 1] = Val (VInt 20).
Proof.
  destruct (@array_set_get rational_bignum (engine_at 1)
              [VInt 10; VInt 20; VInt 30] (-3) (VInt 7)) as [H _];
    [int_range|].
  destruct H as (tab' & Hset & Hlen & Hget & Hother);
    [change (0 <= 0 < 3); lia | reflexivity |].
  exists tab'. repeat split; try assumption.
  rewrite (Hother 1); [reflexivity | int_range | change (1 <> 0); lia].
Defined.

(** Reading a slice [a[start:stop]] of an array of [len] elements never
    raises: each bound is brought into [0, len] (a negative bound counts
    from the end, a missing [start] is 0 and a missing [stop] is [len]),
    the result is a new array with the elements from the start position
    up to the stop position, empty when the stop position is not after the
    start position, and the array is left as it was. *)
Theorem array_slice_get {B : Bignum} (E : engine) (tab : list value)
  (start stop : Z) :
  let len := Z.of_nat (List.length tab) in
  let s := Z.to_nat (slice_bound start 0 len) in
  let e := Z.to_nat (slice_bound stop len len) in
  carray_getitem [VArray tab; VRange start stop] = Val (VArray (sublist s e tab), tab)
  /\ cval_getitem E [VArray tab; VRange start stop] = Val (VArray (sublist s e tab))
  /\ (s <= List.length tab)%nat /\ (e <= List.length tab)%nat
  /\ List.length (sublist s e tab) = (e - s)%nat.
Proof.
  intros len s e.
  assert (Hsr : (s <= List.length tab)%nat /\ (e <= List.length tab)%nat).
  { unfold s, e, slice_bound.
    destruct (start =? RANGE_DEFAULT), (stop =? RANGE_DEFAULT); lia. }
  split; [apply carray_slice_get|].
  split; [rewrite cval_getitem_array, carray_slice_get; reflexivity|].
  split; [apply Hsr|]. split; [apply Hsr|].
  unfold sublist. rewrite length_firstn, length_skipn. lia.
Qed.

(** Assigning to a slice [a[start:stop] = b] replaces the elements of the
    slice by those of [b] and returns null when [b] is an array with as
    many elements as the slice, none of them an array (an element that is
    an array is stored by reference: it is shared, and may be [a]
    itself); an array of another length, or a value that is not an array,
    raises a type error: a slice assignment neither inserts nor deletes
    elements. *)
Theorem array_slice_set {B : Bignum} (tab : list value) (start stop : Z)
  (rhs : value) :
  let len := Z.of_nat (List.length tab) in
  let s := slice_bound start 0 len in
  let e := Z.max s (slice_bound stop len len) in
  (forall tab1, rhs = VArray tab1 -> Z.of_nat (List.length tab1) = e - s ->
     existsb is_array tab1 = false ->
     exists tab',
       cval_setitem [VArray tab; VRange start stop; rhs] = Val (VNull, tab')
       /\ tab' = firstn (Z.to_nat s) tab ++ tab1 ++ skipn (Z.to_nat e) tab
       /\ List.length tab' = List.length tab)
  /\ (forall tab1, rhs = VArray tab1 -> Z.of_nat (List.length tab1) <> e - s ->
        cval_setitem [VArray tab; VRange start stop; rhs]
        = Exc CERR_TYPE "invalid length of right hande side array")
  /\ ((forall tab1, rhs <> VArray tab1) ->
      cval_setitem [VArray tab; VRange start stop; rhs]
      = Exc CERR_TYPE "right hand side of array slice assignment must be an array").
Proof.
  intros len s e.
  assert (Hsr : 0 <= s <= len /\ s <= e <= len).
  { unfold e, s, slice_bound.
    destruct (start =? RANGE_DEFAULT), (stop =? RANGE_DEFAULT); lia. }
  split; [|split].
  - intros tab1 -> Hlen Hel.
    exists (firstn (Z.to_nat s) tab ++ tab1 ++ skipn (Z.to_nat e) tab).
    split; [|split; [reflexivity|]].
    + change (cval_setitem [VArray tab; VRange start stop; VArray tab1])
        with (carray_setitem [VArray tab; VRange start stop; VArray tab1]).
      rewrite carray_slice_set. fold len. fold s. fold e.
      now rewrite (proj2 (Z.eqb_eq _ _) Hlen), Hel.
    + rewrite !length_app, length_firstn, length_skipn. lia.
  - intros tab1 -> Hlen.
    change (cval_setitem [VArray tab; VRange start stop; VArray tab1])
      with (carray_setitem [VArray tab; VRange start stop; VArray tab1]).
    rewrite carray_slice_set. fold len. fold s. fold e.
    now rewrite (proj2 (Z.eqb_neq _ _) Hlen).
  - intros Hna.
    destruct rhs; try reflexivity. now destruct (Hna tab0).
Qed.

(** The theorem at [a = [1, 2, 3, 4]]: [a[1:3] = [8, 9]] gives
    [[1, 8, 9, 4]], and [a[1:3] = [8]] is a type error. *)
Lemma array_slice_set_witness :
  @cval_setitem rational_bignum
    [VArray [VInt 1; VInt 2; VInt 3; VInt 4]; VRange 1 3; VArray [VInt 8; VInt 9]]
  = Val (VNull, [VInt 1; VInt 8; VInt 9; VInt 4])
  /\ @cval_setitem rational_bignum
       [VArray [VInt 1; VInt 2; VInt 3; VInt 4]; VRange 1 3; VArray [VInt 8]]
     = Exc CERR_TYPE "invalid length of right hande side array".
Proof.
  destruct (@array_slice_set rational_bignum [VInt 1; VInt 2; VInt 3; VInt 4] 1 3
              (VArray [VInt 8; VInt 9])) as (H1 & _ & _).
  destruct (@array_slice_set rational_bignum [VInt 1; VInt 2; VInt 3; VInt 4] 1 3
              (VArray [VInt 8])) as (_ & H2 & _).
  split.
  - destruct (H1 [VInt 8; VInt 9]) as (tab' & Hset & -> & _);
      [reflexivity | reflexivity | reflexivity | exact Hset].
  - apply (H2 [VInt 8]); [reflexivity | change (1 <> 2); lia].
Defined.



(** Subscripts are defined for arrays, tensors, strings, polynomials and
    series, and assignment to a subscript for arrays and tensors: on a
    value of any other kind [getitem] and [setitem] raise a type error,
    so that a string or a series is never changed through a subscript;
    an array with more than one subscript is a type error as well. *)
Theorem subscript_type_errors {B : Bignum} (E : engine) (v : value)
  (args : list value) :
  let g := cval_type v in
  (g <> CTYPE_ARRAY -> g <> CTYPE_TENSOR -> g <> CTYPE_STRING ->
   g <> CTYPE_POLY -> g <> CTYPE_SER ->
   cval_getitem E (v :: args)
   = Exc CERR_TYPE "getitem is not supported for this type")
  /\ (g <> CTYPE_ARRAY -> g <> CTYPE_TENSOR ->
      cval_setitem (v :: args)
      = Exc CERR_TYPE "setitem is not supported for this type")
  /\ (forall s, cval_setitem (VString s :: args)
                = Exc CERR_TYPE "setitem is not supported for this type")
  /\ (forall el emin tab,
        cval_setitem (VSer el emin tab :: args)
        = Exc CERR_TYPE "setitem is not supported for this type")
  /\ (forall tab, v = VArray tab -> List.length args <> 1%nat ->
        cval_getitem E (v :: args) = Exc CERR_TYPE "arrays have a single dimension")
  /\ (forall tab, v = VArray tab -> List.length args <> 2%nat ->
        cval_setitem (v :: args) = Exc CERR_TYPE "arrays have a single dimension").
Proof.
  intros g. subst g. split; [|split; [|split; [|split; [|split]]]].
  - intros Ha Ht Hs Hp Hse.
    destruct v; try reflexivity; exfalso;
      (now apply Ha) || (now apply Hs) || (now apply Hse).
  - intros Ha Ht. destruct v; try reflexivity. exfalso. now apply Ha.
  - reflexivity.
  - reflexivity.
  - intros tab -> Hn. unfold cval_getitem, carray_getitem, carray_getsetitem.
    cbn [List.length cval_type vtype tag def_type].
    replace (Z.of_nat (Datatypes.S (List.length args)) =? 2 + 0) with false
      by (symmetry; apply Z.eqb_neq; lia).
    reflexivity.
  - intros tab -> Hn. unfold cval_setitem, carray_setitem, carray_getsetitem.
    cbn [List.length cval_type vtype tag def_type].
    replace (Z.of_nat (Datatypes.S (List.length args)) =? 2 + 1) with false
      by (symmetry; apply Z.eqb_neq; lia).
    reflexivity.
Qed.

(** * Factorial and binomial coefficient *)

Lemma interval_product_app (a : Z) (k1 k2 : nat) :
  interval_product a (k1 + k2)
  = interval_product a k1 * interval_product (a + Z.of_nat k1) k2.
Proof.
  revert a. induction k1 as [|k1 IH]; intros a.
  - cbn [Nat.add interval_product Z.of_nat]. rewrite Z.add_0_r. lia.
  - cbn [Nat.add interval_product]. rewrite IH.
    replace (a + 1 + Z.of_nat k1) with (a + Z.of_nat (Datatypes.S k1)) by lia.
    lia.
Qed.

Lemma interval_product_snoc (a : Z) (k : nat) :
  interval_product a (Datatypes.S k) = interval_product a k * (a + Z.of_nat k).
Proof.
  replace (Datatypes.S k) with (k + 1)%nat by lia.
  rewrite interval_product_app. cbn [interval_product]. lia.
Qed.

Lemma interval_product_fact (j k : nat) :
  Z.of_nat (fact j) * interval_product (Z.of_nat j + 1) k = Z.of_nat (fact (j + k)).
Proof.
  induction k as [|k IH].
  - cbn [interval_product]. rewrite Nat.add_0_r. lia.
  - rewrite interval_product_snoc, Z.mul_assoc, IH.
    replace (j + Datatypes.S k)%nat with (Datatypes.S (j + k)) by lia.
    cbn [fact]. lia.
Qed.

Lemma interval_product_one (k : nat) : interval_product 1 k = Z.of_nat (fact k).
Proof.
  pose proof (interval_product_fact 0 k) as H.
  cbn [fact Z.of_nat Z.add Nat.add] in H. lia.
Qed.

Lemma fact_pos_Z (k : nat) : 0 < Z.of_nat (fact k).
Proof. pose proof (lt_O_fact k). lia. Qed.

Lemma binomial_above (n k : nat) : (n < k)%nat -> binomial n k = 0.
Proof.
  revert k. induction n as [|n IH]; intros k Hk.
  - destruct k; [lia | reflexivity].
  - destruct k as [|k]; [lia|]. cbn [binomial].
    rewrite !IH by lia. reflexivity.
Qed.

Lemma binomial_diag (n : nat) : binomial n n = 1.
Proof.
  induction n as [|n IH]; [reflexivity|].
  cbn [binomial]. rewrite IH, binomial_above by lia. reflexivity.
Qed.

Lemma binomial_fact (n k : nat) :
  (k <= n)%nat ->
  binomial n k * Z.of_nat (fact k) * Z.of_nat (fact (n - k)) = Z.of_nat (fact n).
Proof.
  revert k. induction n as [|n IH]; intros k Hk.
  - assert (k = 0%nat) as -> by lia. reflexivity.
  - destruct k as [|k].
    + cbn [binomial]. rewrite Nat.sub_0_r. cbn [fact]. lia.
    + cbn [binomial].
      destruct (Nat.eq_dec k n) as [->|Hne].
      * rewrite binomial_diag, binomial_above by lia.
        rewrite Nat.sub_diag. cbn [fact]. lia.
      * pose proof (IH k ltac:(lia)) as H1.
        pose proof (IH (Datatypes.S k) ltac:(lia)) as H2.
        replace (Datatypes.S n - Datatypes.S k)%nat with (n - k)%nat by lia.
        replace (n - k)%nat with (Datatypes.S (n - Datatypes.S k)) in * by lia.
        set (m := (n - Datatypes.S k)%nat) in *.
        assert (Hn : Z.of_nat n = Z.of_nat k + 1 + Z.of_nat m) by lia.
        change (fact (Datatypes.S m)) with (Datatypes.S m * fact m)%nat in *.
        change (fact (Datatypes.S k)) with (Datatypes.S k * fact k)%nat in *.
        change (fact (Datatypes.S n)) with (Datatypes.S n * fact n)%nat.
        rewrite !Nat2Z.inj_mul in *. rewrite !Nat2Z.inj_succ in *.
        set (fk := Z.of_nat (fact k)) in *. set (fm := Z.of_nat (fact m)) in *.
        set (fn := Z.of_nat (fact n)) in *.
        set (b1 := binomial n k) in *. set (b2 := binomial n (Datatypes.S k)) in *.
        replace ((b1 + b2) * (Z.succ (Z.of_nat k) * fk) * (Z.succ (Z.of_nat m) * fm))
          with (Z.succ (Z.of_nat k) * (b1 * fk * (Z.succ (Z.of_nat m) * fm))
                + Z.succ (Z.of_nat m) * (b2 * (Z.succ (Z.of_nat k) * fk) * fm)) by ring.
        rewrite H1, H2. lia.
Qed.

Lemma binomial_sym (n k : nat) :
  (k <= n)%nat -> binomial n (n - k) = binomial n k.
Proof.
  intros Hk.
  pose proof (binomial_fact n k Hk) as H1.
  pose proof (binomial_fact n (n - k) ltac:(lia)) as H2.
  replace (n - (n - k))%nat with k in H2 by lia.
  pose proof (fact_pos_Z k) as Hp1. pose proof (fact_pos_Z (n - k)) as Hp2.
  assert (H : binomial n (n - k) * (Z.of_nat (fact k) * Z.of_nat (fact (n - k)))
              = binomial n k * (Z.of_nat (fact k) * Z.of_nat (fact (n - k)))) by lia.
  apply Z.mul_cancel_r in H; [exact H | nia].
Qed.

Lemma binomial_falling (n k : nat) :
  (k <= n)%nat ->
  interval_product (Z.of_nat (n - k) + 1) k = binomial n k * Z.of_nat (fact k).
Proof.
  intros Hk.
  pose proof (binomial_fact n k Hk) as H1.
  pose proof (interval_product_fact (n - k) k) as H2.
  replace (n - k + k)%nat with n in H2 by lia.
  pose proof (fact_pos_Z (n - k)) as Hp.
  assert (H : interval_product (Z.of_nat (n - k) + 1) k * Z.of_nat (fact (n - k))
              = binomial n k * Z.of_nat (fact k) * Z.of_nat (fact (n - k))) by lia.
  apply Z.mul_cancel_r in H; [exact H | lia].
Qed.

Section Factorial.

Context {B : Bignum}.
Variable n : nat.
Local Notation "'E1'" := (engine_at (S n)).

Lemma c_int_in_range (z : Z) : INT_MIN <= z <= INT_MAX -> c_int z = Val z.
Proof.
  intros [H1 H2]. unfold c_int.
  now rewrite (proj2 (Z.leb_le _ _) H1), (proj2 (Z.leb_le _ _) H2).
Qed.

Lemma fact_rec_loop (a b : Z) :
  INT_MIN <= a -> a <= b -> b < INT_MAX -> b - a <= 5 ->
  while_loop 7 (fact_rec_body E1 b) (cint_from_int a, a + 1)
  = Val (VInt (interval_product a (Z.to_nat (b - a + 1)))).
Proof.
  intros Ha Hab Hb Hd.
  apply (while_loop_rule (fact_rec_body E1 b)
           (fun s => exists r i, s = (VInt r, i) /\ a + 1 <= i <= b + 1
                                 /\ r = interval_product a (Z.to_nat (i - a)))
           (fun r => r = Val (VInt (interval_product a (Z.to_nat (b - a + 1)))))
           (fun s => b + 1 - snd s)).
  - intros s (r & i & -> & Hi & Hr). unfold fact_rec_body.
    destruct (Z.leb_spec i b) as [Hle|Hgt].
    + unfold cint_from_int. rewrite cval_mul_int. cbn [deref].
      rewrite c_int_in_range by (unfold INT_MIN, INT_MAX in *; lia).
      cbn [bind snd]. split; [|lia].
      exists (r * i), (i + 1). split; [reflexivity|]. split; [lia|].
      replace (Z.to_nat (i + 1 - a)) with (Datatypes.S (Z.to_nat (i - a))) by lia.
      rewrite interval_product_snoc, <- Hr. f_equal. lia.
    + do 2 f_equal. rewrite Hr. do 2 f_equal. lia.
  - exists a, (a + 1). split; [reflexivity|]. split; [lia|].
    replace (a + 1 - a) with 1 by lia.
    change (Z.to_nat 1) with 1%nat. cbn [interval_product]. lia.
  - cbn [snd]. lia.
Qed.

Lemma fact_rec_spec (d : nat) (a b : Z) :
  1 <= a -> a <= b -> 2 * b <= INT_MAX -> b - a < 6 * 2 ^ Z.of_nat d ->
  fact_rec E1 (Datatypes.S d) a b
  = Val (VInt (interval_product a (Z.to_nat (b - a + 1)))).
Proof.
  revert a b. induction d as [|d IH]; intros a b Ha Hab Hb Hd;
    assert (Hmax : INT_MAX = 2147483647) by reflexivity;
    assert (Hmin : INT_MIN = -2147483648) by reflexivity.
  - cbn [fact_rec]. rewrite c_int_in_range by lia. cbn [bind].
    change (2 ^ Z.of_nat 0) with 1 in Hd.
    destruct (Z.leb_spec (b - a) 5); [|lia].
    rewrite c_int_in_range by lia. cbn [bind].
    apply fact_rec_loop; lia.
  - change (fact_rec E1 (Datatypes.S (Datatypes.S d)) a b)
      with (dd <- c_int (b - a) ;;
            if dd <=? 5 then
              i <- c_int (a + 1) ;;
              while_loop 7 (fact_rec_body E1 b) (cint_from_int a, i)
            else
              s <- c_int (a + b) ;;
              let i := Z.shiftr s 1 in
              x <-! fact_rec E1 (Datatypes.S d) a i ;;
              i1 <- c_int (i + 1) ;;
              y <-! fact_rec E1 (Datatypes.S d) i1 b ;;
              cval_mul E1 x y).
    rewrite c_int_in_range by lia. cbn [bind].
    destruct (Z.leb_spec (b - a) 5) as [Hle|Hgt].
    + rewrite c_int_in_range by lia. cbn [bind].
      apply fact_rec_loop; lia.
    + rewrite c_int_in_range by lia. cbn [bind]. cbv zeta.
      rewrite Z.shiftr_div_pow2 by lia. change (2 ^ 1) with 2.
      set (i := (a + b) / 2).
      assert (Hi : a + 3 <= i /\ i + 3 <= b /\ 2 * i <= a + b < 2 * i + 2).
      { unfold i. pose proof (Z.div_mod (a + b) 2 ltac:(lia)).
        pose proof (Z.mod_pos_bound (a + b) 2 ltac:(lia)). lia. }
      assert (Hpow : 2 ^ Z.of_nat (Datatypes.S d) = 2 * 2 ^ Z.of_nat d).
      { rewrite Nat2Z.inj_succ, Z.pow_succ_r by lia. reflexivity. }
      rewrite IH by lia. cbn [deref].
      rewrite c_int_in_range by lia. cbn [bind].
      rewrite IH by lia. cbn [deref].
      rewrite cval_mul_int. do 2 f_equal.
      replace (Z.to_nat (b - a + 1))
        with (Z.to_nat (i - a + 1) + Z.to_nat (b - (i + 1) + 1))%nat by lia.
      rewrite interval_product_app. do 2 f_equal. lia.
Qed.

Lemma fact_rec_int (a b : Z) :
  1 <= a -> a <= b -> 2 * b <= INT_MAX ->
  fact_rec E1 fact_rec_depth a b
  = Val (VInt (interval_product a (Z.to_nat (b - a + 1)))).
Proof.
  intros Ha Hab Hb. unfold fact_rec_depth.
  apply (fact_rec_spec 31); try assumption.
  assert (Hmax : INT_MAX = 2147483647) by reflexivity.
  change (2 ^ Z.of_nat 31) with 2147483648. lia.
Qed.

End Factorial.

(** [fact(n)] for an Integer [n]: 1 when [n <= 1] (so also for a negative
    [n]), and the factorial of [n] when [0 <= n < 2^30]; an Integer that
    does not fit a C [int] raises the range error [integer is too large].
    (From [2^30] on, the sums [a + b] of [fact_rec] leave the C [int]s.) *)
Theorem factorial_spec {B : Bignum} (m : nat) (n : Z) :
  (INT_MIN <= n <= 1 -> cval_fact (engine_at (S m)) (VInt n) = Val (VInt 1))
  /\ (0 <= n -> 2 * n <= INT_MAX ->
      cval_fact (engine_at (S m)) (VInt n)
      = Val (VInt (Z.of_nat (fact (Z.to_nat n)))))
  /\ (~ INT_MIN <= n <= INT_MAX ->
      cval_fact (engine_at (S m)) (VInt n)
      = Exc CERR_RANGE "integer is too large").
Proof.
  assert (Hmax : INT_MAX = 2147483647) by reflexivity.
  assert (Hmin : INT_MIN = -2147483648) by reflexivity.
  split; [|split].
  - intros Hn. unfold cval_fact. rewrite cint_to_int_in_range by lia.
    cbn [bind]. unfold cval_fact1.
    destruct (Z.leb_spec n 1); [reflexivity | lia].
  - intros H0 Hn. unfold cval_fact. rewrite cint_to_int_in_range by lia.
    cbn [bind]. unfold cval_fact1.
    destruct (Z.leb_spec n 1) as [Hle|Hgt].
    + assert (n = 0 \/ n = 1) as [-> | ->] by lia; reflexivity.
    + rewrite fact_rec_int by lia.
      replace (n - 1 + 1) with n by lia.
      now rewrite interval_product_one.
  - intros Hn. unfold cval_fact. now rewrite cint_to_int_too_large.
Qed.

(** The theorem at [fact(7)] and [fact(-3)]. *)
Lemma factorial_spec_witness :
  @cval_fact rational_bignum (engine_at 1) (VInt 7) = Val (VInt 5040)
  /\ @cval_fact rational_bignum (engine_at 1) (VInt (-3)) = Val (VInt 1).
Proof.
  destruct (@factorial_spec rational_bignum 0 7) as (_ & H & _).
  destruct (@factorial_spec rational_bignum 0 (-3)) as (H' & _ & _).
  split.
  - rewrite H; [reflexivity | lia | vm_compute; discriminate].
  - apply H'. vm_compute. split; discriminate.
Defined.

(** [comb(n, k)] for Integers that fit a C [int]: 0 when [k < 0] or
    [k > n]; and for [0 <= k <= n < 2^30] the binomial coefficient, that is
    the number [c] with [c * k! * (n - k)! = n!]. *)
Theorem binomial_spec {B : Bignum} (m : nat) (n k : Z) :
  INT_MIN <= n <= INT_MAX -> INT_MIN <= k <= INT_MAX ->
  (k < 0 \/ n < k -> cval_comb (engine_at (S m)) (VInt n) (VInt k) = Val (VInt 0))
  /\ (0 <= k <= n -> 2 * n <= INT_MAX ->
      cval_comb (engine_at (S m)) (VInt n) (VInt k)
      = Val (VInt (binomial (Z.to_nat n) (Z.to_nat k)))
      /\ binomial (Z.to_nat n) (Z.to_nat k) * Z.of_nat (fact (Z.to_nat k))
         * Z.of_nat (fact (Z.to_nat (n - k)))
         = Z.of_nat (fact (Z.to_nat n))).
Proof.
  intros Hn Hk.
  assert (Hmax : INT_MAX = 2147483647) by reflexivity.
  assert (Hmin : INT_MIN = -2147483648) by reflexivity.
  unfold cval_comb. rewrite !cint_to_int_in_range by assumption. cbn [bind].
  split.
  - intros Hout.
    destruct (Z.ltb_spec k 0); [reflexivity|].
    destruct (Z.ltb_spec n k); [reflexivity | lia].
  - intros Hkn H2n.
    split; [|rewrite Z2Nat.inj_sub by lia; apply binomial_fact; lia].
    destruct (Z.ltb_spec k 0); [lia|].
    destruct (Z.ltb_spec n k); [lia|]. cbn [orb].
    rewrite c_int_in_range by lia. cbn [bind].
    assert (Hsym : binomial (Z.to_nat n) (Z.to_nat (if n - k <? k then n - k else k))
                   = binomial (Z.to_nat n) (Z.to_nat k)).
    { destruct (Z.ltb_spec (n - k) k); [|reflexivity].
      rewrite Z2Nat.inj_sub by lia. apply binomial_sym. lia. }
    assert (Hk' : 0 <= (if n - k <? k then n - k else k) <= n)
      by (destruct (Z.ltb_spec (n - k) k); lia).
    rewrite <- Hsym. clear Hsym.
    set (k' := if n - k <? k then n - k else k) in *.
    destruct (Z.eqb_spec k' 0) as [->|Hk0];
      [now destruct (Z.to_nat n)|].
    rewrite c_int_in_range by lia. cbn [bind].
    rewrite c_int_in_range by lia. cbn [bind].
    rewrite fact_rec_int by lia. cbn [deref].
    rewrite fact_rec_int by lia. cbn [deref].
    replace (n - (n - k' + 1) + 1) with k' by lia.
    replace (k' - 1 + 1) with k' by lia.
    rewrite interval_product_one.
    pose proof (binomial_falling (Z.to_nat n) (Z.to_nat k') ltac:(lia)) as Hf.
    replace (Z.of_nat (Z.to_nat n - Z.to_nat k') + 1) with (n - k' + 1) in Hf by lia.
    rewrite Hf.
    pose proof (fact_pos_Z (Z.to_nat k')).
    rewrite cval_divexact_int.
    + now rewrite Z.div_mul by lia.
    + lia.
    + now exists (binomial (Z.to_nat n) (Z.to_nat k')).
Qed.

(** The theorem at [comb(10, 7)] and [comb(3, 5)]. *)
Lemma binomial_spec_witness :
  @cval_comb rational_bignum (engine_at 1) (VInt 10) (VInt 7) = Val (VInt 120)
  /\ @cval_comb rational_bignum (engine_at 1) (VInt 3) (VInt 5) = Val (VInt 0).
Proof.
  destruct (@binomial_spec rational_bignum 0 10 7) as (_ & H);
    [vm_compute; split; discriminate | vm_compute; split; discriminate |].
  destruct (@binomial_spec rational_bignum 0 3 5) as (H' & _);
    [vm_compute; split; discriminate | vm_compute; split; discriminate |].
  split.
  - destruct H as [H _]; [lia | vm_compute; discriminate | exact H].
  - apply H'. right. lia.
Defined.

(** * Greatest common divisor and modular power *)

Section GcdPmod.

Context {B : Bignum}.
Variable n : nat.
Local Notation "'E1'" := (engine_at (S n)).

Lemma gcd_euclid_step (x y : Z) :
  y <> 0 -> Z.gcd y (x mod Z.abs y) = Z.gcd x y.
Proof.
  intros Hy. rewrite <- (Z.gcd_abs_l y), Z.gcd_mod_r, Z.gcd_abs_l.
  apply Z.gcd_comm.
Qed.

Lemma cint_gcd_general (a b : Z) :
  exists g,
    cint_gcd E1 (VInt a) (VInt b) = Val (VInt g)
    /\ (b = 0 -> g = a)
    /\ (b <> 0 -> (b | a) -> g = b)
    /\ (b <> 0 -> ~ (b | a) -> g = Z.gcd a b).
Proof.
  unfold cint_gcd.
  apply (while_loop_rule (cint_gcd_body E1)
           (fun s => exists x y,
                s = (VInt x, VInt y) /\ Z.gcd x y = Z.gcd a b
                /\ ((x = a /\ y = b)
                    \/ (b <> 0 /\ x = b /\ y = a mod Z.abs b)
                    \/ (b <> 0 /\ ~ (b | a) /\ 0 < x /\ 0 <= y)))
           (fun r => exists g,
                r = Val (VInt g)
                /\ (b = 0 -> g = a)
                /\ (b <> 0 -> (b | a) -> g = b)
                /\ (b <> 0 -> ~ (b | a) -> g = Z.gcd a b))
           (fun s => match s with (_, VInt y) => Z.abs y | _ => 0 end)).
  - intros s (x & y & -> & Hg & Hcase).
    unfold cint_gcd_body.
    change (cval_cmp_eq_int E1 (VInt y) 0) with (@Val bool (y =? 0)).
    cbn [bind].
    destruct (Z.eqb_spec y 0) as [->|Hy0].
    + exists x. split; [reflexivity|].
      destruct Hcase as [[-> Hb] | [(Hb & -> & Hm) | (Hb & Hnd & Hx & _)]].
      * repeat split; intros; congruence.
      * assert (Hdiv : (b | a)).
        { apply Z.divide_abs_l. apply Z.mod_divide; [lia | congruence]. }
        repeat split; intros; try congruence; try contradiction.
      * rewrite Z.gcd_0_r in Hg.
        repeat split; intros; try contradiction; try lia.
    + rewrite cint_mod_spec by assumption. cbn [deref].
      assert (Hm : 0 <= x mod Z.abs y < Z.abs y) by (apply Z.mod_pos_bound; lia).
      split; [|lia].
      exists y, (x mod Z.abs y). split; [reflexivity|].
      split; [now rewrite gcd_euclid_step|].
      destruct Hcase as [[-> ->] | [(Hb & -> & ->) | (Hb & Hnd & Hx & Hy)]].
      * right; left. repeat split; auto.
      * pose proof (Z.mod_pos_bound a (Z.abs b) ltac:(lia)) as Hab.
        right; right. split; [exact Hb|]. split; [|lia].
        intros Hdiv. apply Hy0. apply Z.mod_divide; [lia|].
        now apply Z.divide_abs_l.
      * right; right. split; [exact Hb|]. split; [exact Hnd|]. lia.
  - exists a, b. split; [reflexivity|]. split; [reflexivity|]. now left.
  - lia.
Qed.

Lemma cval_neg_int (x : Z) : cval_neg E1 (VInt x) = Val (VInt (- x)).
Proof. reflexivity. Qed.

Lemma cint_pmod_unfold_pos (a b m : Z) :
  1 <= m -> 0 < b ->
  cint_pmod E1 (VInt a) (VInt b) (VInt m)
  = while_loop (Z.abs b + 1) (cint_pmod_body E1 (VInt m))
      (cint_from_int 1, VInt a, VInt b).
Proof.
  intros Hm Hb. unfold cint_pmod. cbn [is_int andb negb].
  rewrite !cmp_lt_int_int, cmp_eq_int_int. cbn [bind].
  destruct (Z.ltb_spec m 1); [lia|].
  destruct (Z.eqb_spec b 0); [lia|].
  destruct (Z.ltb_spec b 0); [lia|]. reflexivity.
Qed.

Lemma cint_pmod_unfold_neg (a b m : Z) :
  1 <= m -> b < 0 ->
  cint_pmod E1 (VInt a) (VInt b) (VInt m)
  = (a1 <- cint_invmod E1 (VInt a) (VInt m) ;;
     match a1 with
     | VInt r => cint_pmod E1 (VInt r) (VInt (- b)) (VInt m)
     | _ => Fault NotModelled
     end).
Proof.
  intros Hm Hb. unfold cint_pmod at 1. cbn [is_int andb negb].
  rewrite !cmp_lt_int_int, cmp_eq_int_int. cbn [bind].
  destruct (Z.ltb_spec m 1); [lia|].
  destruct (Z.eqb_spec b 0); [lia|].
  destruct (Z.ltb_spec b 0); [|lia].
  destruct (cint_invmod_spec n a m) as (_ & Hbad1 & Hbad2 & Hgood).
  destruct (Z.eq_dec (Z.gcd a m) 1) as [Hg|Hg];
    [destruct (Z.eq_dec a (-1)) as [Ha|Ha]|].
  - rewrite Hbad2 by assumption. reflexivity.
  - destruct Hgood as (r & -> & _); try assumption.
    cbn [bind]. rewrite cval_neg_int. cbn [deref bind u_cint].
    rewrite cint_pmod_unfold_pos by lia. reflexivity.
  - rewrite Hbad1 by assumption. reflexivity.
Qed.

Lemma inverse_power (a r e m : Z) :
  0 < m -> 0 <= e -> (a * r) mod m = 1 mod m ->
  (pow_mod r e m * a ^ e) mod m = 1 mod m.
Proof.
  intros Hm He Hinv. unfold pow_mod.
  rewrite Z.mul_mod_idemp_l by lia.
  rewrite <- Z.pow_mul_l, (Z.mul_comm r a).
  rewrite <- Z.mod_pow_l, Hinv, Z.mod_pow_l.
  now rewrite Z.pow_1_l.
Qed.

End GcdPmod.

(** [gcd(a, b)] on Integers: [a] itself when [b] is 0; [b] itself, with
    its sign, when [b] is not 0 and divides [a]; the (positive) greatest
    common divisor in every other case.  In all cases the absolute value
    of the result is the greatest common divisor.  An Integer with a
    second operand that is not an Integer raises the type error
    [integer expected]; a first operand that is neither an Integer nor a
    polynomial raises the type error [incompatible types], whatever the
    second is (a polynomial goes to the gcd of polynomials). *)
Theorem gcd_spec {B : Bignum} (n : nat) (a b : Z) :
  exists g,
    cval_gcd (engine_at (S n)) (VInt a) (VInt b) = Val (VInt g)
    /\ Z.abs g = Z.gcd a b
    /\ (b = 0 -> g = a)
    /\ (b <> 0 -> (b | a) -> g = b)
    /\ (b <> 0 -> ~ (b | a) -> g = Z.gcd a b)
    /\ (forall v, cval_type v <> CTYPE_INT ->
          cval_gcd (engine_at (S n)) (VInt a) v = Exc CERR_TYPE "integer expected")
    /\ (forall v w, cval_type v <> CTYPE_INT -> cval_type v <> CTYPE_POLY ->
          cval_gcd (engine_at (S n)) v w = Exc CERR_TYPE "incompatible types").
Proof.
  destruct (cint_gcd_general n a b) as (g & Hg & H0 & Hdiv & Hnd).
  exists g. split; [exact Hg|].
  split; [|split; [exact H0|split; [exact Hdiv|split; [exact Hnd|split]]]].
  - destruct (Z.eq_dec b 0) as [->|Hb].
    + rewrite H0 by reflexivity. now rewrite Z.gcd_0_r.
    + destruct (Z.eq_dec (a mod b) 0) as [Hd|Hd].
      * apply Z.mod_divide in Hd; [|assumption].
        rewrite Hdiv by assumption.
        rewrite <- Z.gcd_abs_r.
        apply Z.divide_abs_l in Hd. destruct Hd as [k ->].
        rewrite Z.gcd_comm, Z.mul_comm.
        symmetry. apply Z.gcd_mul_diag_l. apply Z.abs_nonneg.
      * assert (Hnd' : ~ (b | a)).
        { intros H. apply Hd. now apply Z.mod_divide. }
        rewrite Hnd by assumption. apply Z.abs_eq. apply Z.gcd_nonneg.
  - intros v Hv. destruct v; try reflexivity. exfalso. now apply Hv.
  - intros v w Hv Hp. destruct v; try reflexivity. exfalso. now apply Hv.
Qed.

(** The theorem at [gcd(12, 18)], [gcd(12, -4)] and [gcd(5, 0)]. *)
Lemma gcd_spec_witness :
  @cval_gcd rational_bignum (engine_at 1) (VInt 12) (VInt 18) = Val (VInt 6)
  /\ @cval_gcd rational_bignum (engine_at 1) (VInt 12) (VInt (-4)) = Val (VInt (-4))
  /\ @cval_gcd rational_bignum (engine_at 1) (VInt 5) (VInt 0) = Val (VInt 5).
Proof.
  destruct (@gcd_spec rational_bignum 0 12 18) as (g1 & H1 & _ & _ & _ & Hn1 & _).
  destruct (@gcd_spec rational_bignum 0 12 (-4)) as (g2 & H2 & _ & _ & Hd2 & _ & _).
  destruct (@gcd_spec rational_bignum 0 5 0) as (g3 & H3 & _ & Hz3 & _).
  rewrite H1, H2, H3.
  rewrite Hn1, Hd2, Hz3; try reflexivity; try discriminate.
  - split; [reflexivity|]. split; reflexivity.
  - now exists (-3).
  - intros [k Hk]. lia.
Defined.

(** [pmod(a, b, m)] on Integers: a range error when [m < 1]; 1 when
    [b = 0] (also for [m = 1]); [a^b mod m] when [b > 0]; and for [b < 0]
    the power [|b|] of the inverse of [a] modulo [m], that is a number
    [r] in [0, m) with [r * a^|b| = 1] modulo [m], or the range error of
    [invmod] when [a] has no inverse (which [invmod] also reports for
    [a = -1]). *)
Theorem pmod_spec {B : Bignum} (n : nat) (a b m : Z) :
  (m < 1 ->
   cint_pmod (engine_at (S n)) (VInt a) (VInt b) (VInt m)
   = Exc CERR_RANGE "the modulo must be positive")
  /\ (1 <= m -> b = 0 ->
      cint_pmod (engine_at (S n)) (VInt a) (VInt b) (VInt m) = Val (VInt 1))
  /\ (1 <= m -> 0 < b ->
      cint_pmod (engine_at (S n)) (VInt a) (VInt b) (VInt m)
      = Val (VInt (a ^ b mod m)))
  /\ (1 <= m -> b < 0 -> Z.gcd a m = 1 -> a <> -1 ->
      exists r,
        cint_pmod (engine_at (S n)) (VInt a) (VInt b) (VInt m) = Val (VInt r)
        /\ 0 <= r < m /\ (r * a ^ (- b)) mod m = 1 mod m)
  /\ (1 <= m -> b < 0 -> Z.gcd a m <> 1 \/ a = -1 ->
      cint_pmod (engine_at (S n)) (VInt a) (VInt b) (VInt m)
      = Exc CERR_RANGE "not invertible").
Proof.
  split; [|split; [|split; [|split]]].
  - intros Hm. unfold cint_pmod. cbn [is_int andb negb].
    rewrite cmp_lt_int_int. cbn [bind].
    destruct (Z.ltb_spec m 1); [reflexivity | lia].
  - intros Hm ->. unfold cint_pmod. cbn [is_int andb negb].
    rewrite cmp_lt_int_int, cmp_eq_int_int. cbn [bind].
    destruct (Z.ltb_spec m 1); [lia | reflexivity].
  - intros Hm Hb. now apply cint_pmod_spec.
  - intros Hm Hb Hg Ha.
    rewrite cint_pmod_unfold_neg by assumption.
    destruct (cint_invmod_spec n a m) as (_ & _ & _ & Hgood).
    destruct Hgood as (r & -> & Hr & Hinv); try assumption.
    cbn [bind]. rewrite cint_pmod_spec by lia.
    exists (pow_mod r (- b) m). split; [reflexivity|]. split.
    + unfold pow_mod. apply Z.mod_pos_bound. lia.
    + apply inverse_power; (lia || exact Hinv).
  - intros Hm Hb Hbad.
    rewrite cint_pmod_unfold_neg by assumption.
    destruct (cint_invmod_spec n a m) as (_ & Hbad1 & Hbad2 & _).
    destruct Hbad as [Hg | Ha]; [rewrite Hbad1 | rewrite Hbad2]; auto.
Qed.

(** The theorem at [pmod(3, 4, 7)], [pmod(3, -1, 7)] and [pmod(2, -1, 4)]. *)
Lemma pmod_spec_witness :
  @cint_pmod rational_bignum (engine_at 1) (VInt 3) (VInt 4) (VInt 7) = Val (VInt 4)
  /\ (exists r,
        @cint_pmod rational_bignum (engine_at 1) (VInt 3) (VInt (-1)) (VInt 7)
        = Val (VInt r)
        /\ 0 <= r < 7 /\ (r * 3 ^ (- -1)) mod 7 = 1 mod 7)
  /\ @cint_pmod rational_bignum (engine_at 1) (VInt 2) (VInt (-1)) (VInt 4)
     = Exc CERR_RANGE "not invertible".
Proof.
  destruct (@pmod_spec rational_bignum 0 3 4 7) as (_ & _ & H1 & _).
  destruct (@pmod_spec rational_bignum 0 3 (-1) 7) as (_ & _ & _ & H2 & _).
  destruct (@pmod_spec rational_bignum 0 2 (-1) 4) as (_ & _ & _ & _ & H3).
  split; [|split].
  - rewrite H1; [reflexivity | lia | lia].
  - apply H2; [lia | lia | reflexivity | discriminate].
  - apply H3; [lia | lia | left; vm_compute; discriminate].
Defined.

(** * The primality test below the square of the last trial divisor *)

(** A composite number has a prime factor that is at most its square
    root. *)
Lemma small_prime_factor (m : Z) :
  1 < m -> ~ prime m -> exists q, prime q /\ (q | m) /\ q * q <= m.
Proof.
  induction m as [m IH] using (well_founded_induction (Z.lt_wf 0)).
  intros Hm Hnp.
  destruct (not_prime_divide m Hm Hnp) as (k & Hk & c & Hc).
  assert (Hc1 : 1 < c < m) by nia.
  set (j := if k <=? c then k else c).
  assert (Hj : 1 < j < m /\ j * j <= m /\ (j | m)).
  { unfold j. destruct (Z.leb_spec k c).
    - repeat split; try lia; try nia. exists c. lia.
    - repeat split; try lia; try nia. exists k. lia. }
  destruct Hj as (Hj1 & Hj2 & Hj3).
  destruct (prime_dec j) as [Hp|Hnpj].
  - exists j. auto.
  - destruct (IH j ltac:(lia) ltac:(lia) Hnpj) as (q & Hq & Hqj & Hqq).
    exists q. split; [exact Hq|]. split.
    + now apply Z.divide_trans with j.
    + lia.
Qed.

Lemma is_prime_trial_Z_some (p : Z) (l : list Z) (b : bool) :
  is_prime_trial_Z p l = Some b ->
  exists pre d post,
    l = pre ++ d :: post
    /\ Forall (fun d' => p mod d' <> 0 /\ d' * d' <= p) pre
    /\ (if b then p mod d <> 0 /\ p < d * d else p mod d = 0).
Proof.
  induction l as [|d l IH]; cbn [is_prime_trial_Z]; [discriminate|].
  destruct (Z.eqb_spec (p mod d) 0) as [H0|H0].
  - intros [= <-]. exists [], d, l. repeat split; auto.
  - destruct (Z.ltb_spec p (d * d)) as [Hlt|Hge].
    + intros [= <-]. exists [], d, l. repeat split; auto.
    + intros H. destruct (IH H) as (pre & d1 & post & -> & Hpre & Hb).
      exists (d :: pre), d1, post. repeat split; auto.
Qed.

Lemma is_prime_trial_Z_none (p : Z) (l : list Z) :
  is_prime_trial_Z p l = None ->
  Forall (fun d' => p mod d' <> 0 /\ d' * d' <= p) l.
Proof.
  induction l as [|d l IH]; cbn [is_prime_trial_Z]; [constructor|].
  destruct (Z.eqb_spec (p mod d) 0) as [H0|H0]; [discriminate|].
  destruct (Z.ltb_spec p (d * d)) as [Hlt|Hge]; [discriminate|].
  intros H. constructor; auto.
Qed.

Lemma ascending_tail (pre l : list Z) : ascending (pre ++ l) -> ascending l.
Proof.
  induction pre as [|a pre IH]; [auto|].
  cbn [List.app]. intros H. apply IH.
  destruct (pre ++ l); [exact I | apply H].
Qed.

Lemma ascending_head (d : Z) (post : list Z) :
  ascending (d :: post) -> Forall (fun x => d <= x) post.
Proof.
  revert d. induction post as [|a post IH]; intros d H; [constructor|].
  destruct H as [Hda Ha]. constructor; [exact Hda|].
  eapply Forall_impl; [|apply (IH a Ha)]. cbn. intros; lia.
Qed.

Lemma ascending_before (pre post : list Z) (d q : Z) :
  ascending (pre ++ d :: post) -> In q (pre ++ d :: post) -> q < d -> In q pre.
Proof.
  intros Hasc Hin Hq.
  apply in_app_or in Hin. destruct Hin as [Hin|[->|Hin]]; [exact Hin | lia |].
  apply ascending_tail, ascending_head in Hasc.
  rewrite Forall_forall in Hasc. specialize (Hasc q Hin). lia.
Qed.

Lemma small_primes_ascending : ascending small_primes.
Proof. cbn [ascending small_primes]. repeat (split; [lia|]). exact I. Qed.

Lemma small_primes_bounds : Forall (fun d => 2 <= d <= 499) small_primes.
Proof. unfold small_primes. repeat (constructor; [lia|]). constructor. Qed.

(** Every number from 2 to 499 is in the table or has a proper divisor in
    the table. *)
Lemma small_primes_complete (q : Z) :
  prime q -> q <= 499 -> In q small_primes.
Proof.
  intros Hq Hle.
  assert (Hge : 2 <= q) by (destruct Hq; lia).
  assert (Htab : forallb
                   (fun k => existsb (fun d => (d =? k) || ((d <? k) && (k mod d =? 0)))
                               small_primes)
                   (map (fun i => Z.of_nat i + 2) (seq 0 498)) = true)
    by (vm_compute; reflexivity).
  rewrite forallb_forall in Htab.
  assert (Hin : In q (map (fun i => Z.of_nat i + 2) (seq 0 498))).
  { apply in_map_iff. exists (Z.to_nat (q - 2)). split; [lia|].
    apply in_seq. lia. }
  specialize (Htab q Hin). apply existsb_exists in Htab.
  destruct Htab as (d & Hd & Hcase).
  apply orb_true_iff in Hcase. destruct Hcase as [Heq|Hdiv].
  - apply Z.eqb_eq in Heq. now subst d.
  - apply andb_true_iff in Hdiv. destruct Hdiv as [Hlt Hmod].
    apply Z.ltb_lt in Hlt. apply Z.eqb_eq in Hmod.
    pose proof small_primes_bounds as Hb. rewrite Forall_forall in Hb.
    specialize (Hb d Hd).
    apply Z.mod_divide in Hmod; [|lia].
    apply prime_alt in Hq. destruct Hq as [_ Hq].
    exfalso. apply (Hq d); [lia | exact Hmod].
Qed.

(** Every entry of the table but the first is below the square of an
    earlier entry. *)
Lemma small_primes_gap (d : Z) :
  In d small_primes -> d <> 2 ->
  exists d', In d' small_primes /\ d' < d /\ d < d' * d'.
Proof.
  intros Hd Hd2.
  assert (Htab : forallb
                   (fun d => (d =? 2)
                             || existsb (fun d' => (d' <? d) && (d <? d' * d'))
                                  small_primes)
                   small_primes = true)
    by (vm_compute; reflexivity).
  rewrite forallb_forall in Htab. specialize (Htab d Hd).
  apply orb_true_iff in Htab. destruct Htab as [Heq|Hex].
  - apply Z.eqb_eq in Heq. contradiction.
  - apply existsb_exists in Hex. destruct Hex as (d' & Hd' & Hc).
    apply andb_true_iff in Hc. destruct Hc as [H1 H2].
    apply Z.ltb_lt in H1. apply Z.ltb_lt in H2. now exists d'.
Qed.

(** Below [499^2] the trial divisions decide primality, except at 2. *)
Lemma is_prime_Z_exact (p : Z) :
  3 <= p < 249001 -> (is_prime_Z p = true <-> prime p).
Proof.
  intros Hp. unfold is_prime_Z, is_prime_with.
  destruct (Z.ltb_spec p 2); [lia|].
  pose proof small_primes_bounds as Hb. rewrite Forall_forall in Hb.
  destruct (is_prime_trial_Z p small_primes) as [b|] eqn:Ht.
  - destruct (is_prime_trial_Z_some p small_primes b Ht)
      as (pre & d & post & Hl & Hpre & Hd).
    assert (Hdin : In d small_primes)
      by (rewrite Hl; apply in_or_app; right; now left).
    pose proof (Hb d Hdin) as Hdb.
    pose proof small_primes_ascending as Hasc. rewrite Hl in Hasc.
    rewrite Forall_forall in Hpre.
    destruct b.
    + split; [intros _|reflexivity].
      destruct Hd as [Hmod Hlt].
      destruct (prime_dec p) as [Hprime|Hnp]; [exact Hprime|exfalso].
      destruct (small_prime_factor p ltac:(lia) Hnp) as (q & Hq & Hqp & Hqq).
      assert (Hq2 : 2 <= q) by (destruct Hq; lia).
      assert (Hqd : q < d) by nia.
      assert (Hqin : In q small_primes) by (apply small_primes_complete; [exact Hq | lia]).
      rewrite Hl in Hqin.
      pose proof (ascending_before pre post d q Hasc Hqin Hqd) as Hqpre.
      destruct (Hpre q Hqpre) as [Hnz _].
      apply Hnz. apply Z.mod_divide; [lia | exact Hqp].
    + split; [discriminate|intros Hprime; exfalso].
      apply Z.mod_divide in Hd; [|lia].
      apply prime_alt in Hprime. destruct Hprime as [_ Hprime].
      destruct (Z.eq_dec d p) as [Hdp|Hdp].
      * subst d.
        destruct (small_primes_gap p Hdin ltac:(lia)) as (d' & Hd' & Hlt & Hsq).
        rewrite Hl in Hd'.
        pose proof (ascending_before pre post p d' Hasc Hd' Hlt) as Hin.
        destruct (Hpre d' Hin) as [_ Hle]. lia.
      * apply (Hprime d); [|exact Hd].
        apply Z.divide_pos_le in Hd; lia.
  - apply is_prime_trial_Z_none in Ht. rewrite Forall_forall in Ht.
    assert (Hlast : In 499 small_primes).
    { unfold small_primes. apply in_rev. cbn [rev List.app]. now left. }
    destruct (Ht 499 Hlast) as [_ Hle]. lia.
Qed.

Section PrimeFunctions.

Context {B : Bignum}.
Variable n : nat.
Local Notation "'E1'" := (engine_at (S n)).

Lemma cint_isprime_one_arg (p : Z) :
  cint_isprime E1 [VInt p] = Val (VBool (is_prime_Z p)).
Proof.
  unfold cint_isprime. cbn [List.length Z.of_nat Z.ltb Z.compare Pos.compare
                             Pos.compare_cont Pos.of_succ_nat is_int negb bind].
  now rewrite is_prime_spec.
Qed.

Lemma cval_add_int (x y : Z) : cval_add E1 (VInt x) (VInt y) = Val (VInt (x + y)).
Proof. reflexivity. Qed.

Lemma cint_nextprime_least (p q bound : Z) :
  p < q -> q - p < bound ->
  is_prime_Z q = true ->
  (forall k, p < k < q -> is_prime_Z k = false) ->
  cint_nextprime E1 bound (VInt p) = Val (VInt q).
Proof.
  intros Hpq Hbound Hq Hbelow. unfold cint_nextprime. cbn [is_int negb].
  apply (while_loop_rule (cint_nextprime_body E1)
           (fun s => exists x, s = VInt x /\ p <= x < q)
           (fun r => r = Val (VInt q))
           (fun s => match s with VInt x => q - x | _ => 0 end)).
  - intros s (x & -> & Hx). unfold cint_nextprime_body, cint_from_int.
    rewrite cval_add_int. cbn [deref]. rewrite is_prime_spec. cbn [bind].
    destruct (Z.eq_dec (x + 1) q) as [Heq|Hne].
    + rewrite Heq, Hq. reflexivity.
    + rewrite Hbelow by lia. split; [|lia].
      exists (x + 1). split; [reflexivity | lia].
  - exists p. split; [reflexivity | lia].
  - lia.
Qed.

End PrimeFunctions.

(** [isprime(p)] with one argument: false below 2, and for
    [3 <= p < 499^2] true exactly when [p] is a prime number, the trial
    divisions by the table of small primes deciding.  At [p = 2] the
    answer is false: the first trial divisor, 2, divides it. *)
Theorem isprime_exact {B : Bignum} (n : nat) (p : Z) :
  (p < 2 -> cint_isprime (engine_at (S n)) [VInt p] = Val (VBool false))
  /\ cint_isprime (engine_at (S n)) [VInt 2] = Val (VBool false)
  /\ (3 <= p < 249001 ->
      exists b, cint_isprime (engine_at (S n)) [VInt p] = Val (VBool b)
                /\ (b = true <-> prime p)).
Proof.
  rewrite !cint_isprime_one_arg. split; [|split].
  - intros Hp. do 2 f_equal. unfold is_prime_Z, is_prime_with.
    destruct (Z.ltb_spec p 2); [reflexivity | lia].
  - reflexivity.
  - intros Hp. exists (is_prime_Z p). split; [reflexivity|].
    now apply is_prime_Z_exact.
Qed.

(** The theorem at [isprime(97)] and [isprime(91)]. *)
Lemma isprime_exact_witness :
  @cint_isprime rational_bignum (engine_at 1) [VInt 97] = Val (VBool true)
  /\ prime 97
  /\ @cint_isprime rational_bignum (engine_at 1) [VInt 91] = Val (VBool false)
  /\ ~ prime 91.
Proof.
  destruct (@isprime_exact rational_bignum 0 97) as (_ & _ & H1).
  destruct (@isprime_exact rational_bignum 0 91) as (_ & _ & H2).
  destruct H1 as (b1 & Hb1 & Hp1); [lia|].
  destruct H2 as (b2 & Hb2 & Hp2); [lia|].
  evaluated Hb1 (@Val (@value rational_bignum) (VBool true)).
  evaluated Hb2 (@Val (@value rational_bignum) (VBool false)).
  injection Hb1 as <-. injection Hb2 as <-.
  split; [reflexivity|]. split; [now apply Hp1|]. split; [reflexivity|].
  intros H. apply Hp2 in H. discriminate H.
Defined.

(** [nextprime(p)] returns the least number above [p] that [isprime]
    accepts: when [q > p] is accepted and no number between [p] and [q]
    is, the loop ends at [q]. *)
Theorem nextprime_least {B : Bignum} (n : nat) (p q bound : Z) :
  p < q -> q - p < bound ->
  is_prime (engine_at (S n)) (VInt q) 0 = Val true ->
  (forall k, p < k < q -> is_prime (engine_at (S n)) (VInt k) 0 = Val false) ->
  cint_nextprime (engine_at (S n)) bound (VInt p) = Val (VInt q).
Proof.
  intros Hpq Hbound Hq Hbelow.
  apply cint_nextprime_least; try assumption.
  - rewrite is_prime_spec in Hq. congruence.
  - intros k Hk. specialize (Hbelow k Hk). rewrite is_prime_spec in Hbelow.
    congruence.
Qed.

(** The theorem at [nextprime(1)], which is 3: [isprime] rejects 2. *)
Lemma nextprime_least_witness :
  @cint_nextprime rational_bignum (engine_at 1) 10 (VInt 1) = Val (VInt 3).
Proof.
  apply (@nextprime_least rational_bignum 0 1 3 10); [lia | lia | reflexivity |].
  intros k Hk. assert (k = 2) as -> by lia. reflexivity.
Defined.

(** * Fraction arithmetic, comparison and rounding *)

Lemma frac_Q_add (p q a b c d : Z) :
  0 < q -> 0 < b -> 0 < d ->
  p * (b * d) = (a * d + c * b) * q -> (frac_Q p q == frac_Q a b + frac_Q c d)%Q.
Proof.
  intros Hq Hb Hd H. unfold frac_Q, Qeq, Qplus. cbn [Qnum Qden].
  rewrite Pos2Z.inj_mul, !Z2Pos.id by lia. exact H.
Qed.

Lemma frac_Q_sub (p q a b c d : Z) :
  0 < q -> 0 < b -> 0 < d ->
  p * (b * d) = (a * d - c * b) * q -> (frac_Q p q == frac_Q a b - frac_Q c d)%Q.
Proof.
  intros Hq Hb Hd H. unfold frac_Q, Qeq, Qminus, Qplus, Qopp. cbn [Qnum Qden].
  rewrite Pos2Z.inj_mul, !Z2Pos.id by lia. lia.
Qed.

Lemma frac_Q_div (p q a b c d : Z) :
  0 < q -> 0 < b -> 0 < d -> c <> 0 ->
  p * (b * c) = (a * d) * q -> (frac_Q p q == frac_Q a b / frac_Q c d)%Q.
Proof.
  intros Hq Hb Hd Hc H. unfold Qdiv.
  assert (Hinv : (frac_Q (Z.sgn c * d) (Z.abs c) == / frac_Q c d)%Q).
  { apply frac_Q_inv; lia. }
  rewrite <- Hinv. apply frac_Q_mul; [lia | lia | lia |].
  assert (Hs : Z.abs c = Z.sgn c * c) by (rewrite Z.mul_comm; symmetry; apply Z.sgn_abs).
  rewrite Hs.
  replace (p * (b * (Z.sgn c * c))) with (Z.sgn c * (p * (b * c))) by ring.
  rewrite H. ring.
Qed.

Lemma frac_Q_zero (c d : Z) : 0 < d -> (frac_Q c d == 0)%Q <-> c = 0.
Proof.
  intros Hd. unfold frac_Q, Qeq. cbn [Qnum Qden]. lia.
Qed.

Lemma frac_Q_lt (a b c d : Z) :
  0 < b -> 0 < d -> (frac_Q a b < frac_Q c d)%Q <-> a * d < b * c.
Proof.
  intros Hb Hd. unfold frac_Q, Qlt. cbn [Qnum Qden].
  rewrite !Z2Pos.id by lia. lia.
Qed.

Lemma frac_Q_le (a b c d : Z) :
  0 < b -> 0 < d -> (frac_Q a b <= frac_Q c d)%Q <-> a * d <= b * c.
Proof.
  intros Hb Hd. unfold frac_Q, Qle. cbn [Qnum Qden].
  rewrite !Z2Pos.id by lia. lia.
Qed.

Lemma frac_Q_eq (a b c d : Z) :
  0 < b -> 0 < d -> (frac_Q a b == frac_Q c d)%Q <-> a * d = b * c.
Proof.
  intros Hb Hd. unfold frac_Q, Qeq. cbn [Qnum Qden].
  rewrite !Z2Pos.id by lia. lia.
Qed.

Section FractionArithmetic.

Context {B : Bignum}.
Variable n : nat.
Local Notation "'E1'" := (engine_at (S n)).

Lemma to_cfrac_parts (v : value) :
  frac_operand v ->
  exists a b, to_cfrac E1 v = Val (VFrac a b) /\ 0 < b
              /\ operand_Q v = frac_Q a b.
Proof.
  destruct v; cbn [frac_operand]; try contradiction; intros H.
  - destruct bool_val; eexists _, 1; (split; [reflexivity|]); split; (lia || reflexivity).
  - eexists _, 1. split; [reflexivity|]. split; [lia | reflexivity].
  - eexists _, _. split; [reflexivity|]. split; [apply H | reflexivity].
Qed.

Lemma cval_op2_frac (v1 v2 : value) (a b c d : Z) (op : BCOP2Enum) :
  max_tag (cval_type v1) (cval_type v2) = CTYPE_FRAC ->
  to_cfrac E1 v1 = Val (VFrac a b) -> to_cfrac E1 v2 = Val (VFrac c d) ->
  cval_op2 E1 v1 v2 op = cfrac_op2 E1 (VFrac a b) (VFrac c d) op.
Proof.
  intros Hmax H1 H2. unfold cval_op2. rewrite Hmax.
  unfold cfrac_op2. rewrite H1, H2. reflexivity.
Qed.

Lemma cfrac_sub_spec (a b c d : Z) :
  0 < b -> 0 < d ->
  exists p q,
    cfrac_op2 E1 (VFrac a b) (VFrac c d) BC_OP2_SUB = Val (VFrac p q)
    /\ frac_ok p q /\ p * (b * d) = (a * d - c * b) * q.
Proof.
  intros Hb Hd.
  change (cfrac_op2 E1 (VFrac a b) (VFrac c d) BC_OP2_SUB)
    with (cfrac_new E1 (VInt (a * d - c * b)) (VInt (b * d))).
  destruct (cfrac_new_ok n (a * d - c * b) (b * d) ltac:(nia))
    as (p & q & -> & Hok & Hv).
  now exists p, q.
Qed.

Lemma cfrac_add_op2 (a b c d : Z) :
  0 < b -> 0 < d ->
  exists p q,
    cfrac_op2 E1 (VFrac a b) (VFrac c d) BC_OP2_ADD = Val (VFrac p q)
    /\ frac_ok p q /\ p * (b * d) = (a * d + c * b) * q.
Proof.
  intros Hb Hd.
  change (cfrac_op2 E1 (VFrac a b) (VFrac c d) BC_OP2_ADD)
    with (cfrac_new E1 (VInt (a * d + c * b)) (VInt (b * d))).
  destruct (cfrac_new_ok n (a * d + c * b) (b * d) ltac:(nia))
    as (p & q & -> & Hok & Hv).
  now exists p, q.
Qed.

Lemma cfrac_mul_op2 (a b c d : Z) :
  0 < b -> 0 < d ->
  exists p q,
    cfrac_op2 E1 (VFrac a b) (VFrac c d) BC_OP2_MUL = Val (VFrac p q)
    /\ frac_ok p q /\ p * (b * d) = a * c * q.
Proof.
  intros Hb Hd.
  change (cfrac_op2 E1 (VFrac a b) (VFrac c d) BC_OP2_MUL)
    with (cfrac_new E1 (VInt (a * c)) (VInt (b * d))).
  destruct (cfrac_new_ok n (a * c) (b * d) ltac:(nia))
    as (p & q & -> & Hok & Hv).
  now exists p, q.
Qed.

Lemma cfrac_div_op2 (a b c d : Z) (op : BCOP2Enum) :
  op = BC_OP2_DIV \/ op = BC_OP2_FRAC_DIV ->
  0 < b -> 0 < d ->
  (c = 0 -> cfrac_op2 E1 (VFrac a b) (VFrac c d) op
            = Exc CERR_RANGE "division by zero")
  /\ (c <> 0 ->
      exists p q,
        cfrac_op2 E1 (VFrac a b) (VFrac c d) op = Val (VFrac p q)
        /\ frac_ok p q /\ p * (b * c) = a * d * q).
Proof.
  intros Hop Hb Hd.
  assert (Hnew : cfrac_op2 E1 (VFrac a b) (VFrac c d) op
                 = cfrac_new E1 (VInt (a * d)) (VInt (b * c)))
    by (destruct Hop as [-> | ->]; reflexivity).
  rewrite Hnew. split.
  - intros ->. rewrite Z.mul_0_r. apply cfrac_new_zero.
  - intros Hc.
    destruct (cfrac_new_ok n (a * d) (b * c) ltac:(nia))
      as (p & q & -> & Hok & Hv).
    now exists p, q.
Qed.

Lemma cfrac_cmp_op2 (a b c d : Z) :
  cfrac_op2 E1 (VFrac a b) (VFrac c d) BC_OP2_CMP_EQ = Val (VBool (a * d =? b * c))
  /\ cfrac_op2 E1 (VFrac a b) (VFrac c d) BC_OP2_CMP_LT = Val (VBool (a * d <? b * c))
  /\ cfrac_op2 E1 (VFrac a b) (VFrac c d) BC_OP2_CMP_LE = Val (VBool (a * d <=? b * c)).
Proof. repeat split. Qed.

Lemma cfrac_new_fixed (p q : Z) :
  frac_ok p q -> cfrac_new E1 (VInt p) (VInt q) = Val (VFrac p q).
Proof.
  intros Hok. rewrite cfrac_new_spec by (destruct Hok; lia).
  now rewrite frac_norm_fixed.
Qed.

Lemma cfrac_round_ops (p q : Z) :
  q <> 0 ->
  cval_op1 E1 (VFrac p q) BC_OP1_FLOOR = Val (VInt (p / q))
  /\ cval_op1 E1 (VFrac p q) BC_OP1_CEIL = Val (VInt (- ((- p) / q)))
  /\ cval_op1 E1 (VFrac p q) BC_OP1_TRUNC = Val (VInt (Z.quot p q))
  /\ cval_op1 E1 (VFrac p q) BC_OP1_ROUND
     = Val (VInt (if 2 * Z.abs (Z.rem p q) <? Z.abs q then Z.quot p q
                  else Z.quot p q + Z.sgn p * Z.sgn q)).
Proof.
  intros Hq. repeat split; cbn; unfold BfInt.bf_divrem;
    (destruct (Z.eqb_spec q 0); [contradiction | reflexivity]).
Qed.

End FractionArithmetic.

Lemma quot_rem_pos (p q : Z) :
  0 < q ->
  exists k m, Z.abs p = q * k + m /\ 0 <= m < q /\ 0 <= k
              /\ Z.quot p q = Z.sgn p * k /\ Z.rem p q = Z.sgn p * m.
Proof.
  intros Hq. exists (Z.abs p / q), (Z.abs p mod q).
  pose proof (Z.div_mod (Z.abs p) q ltac:(lia)) as Hdm.
  pose proof (Z.mod_pos_bound (Z.abs p) q Hq) as Hm.
  assert (Hk : 0 <= Z.abs p / q) by (apply Z.div_pos; lia).
  split; [exact Hdm|]. split; [exact Hm|]. split; [exact Hk|].
  destruct (Z.lt_trichotomy p 0) as [Hp|[->|Hp]].
  - rewrite Z.sgn_neg, Z.abs_neq by lia.
    replace p with (- - p) at 1 3 by lia.
    rewrite Z.quot_opp_l, Z.rem_opp_l by lia.
    rewrite Z.quot_div_nonneg, Z.rem_mod_nonneg by lia. lia.
  - cbn. lia.
  - rewrite Z.sgn_pos, Z.abs_eq by lia.
    rewrite Z.quot_div_nonneg, Z.rem_mod_nonneg by lia. lia.
Qed.

Section FractionOperations.
Context {B : Bignum}.
Variable n : nat.
Variables v1 v2 : value.
Hypothesis H1 : frac_operand v1.
Hypothesis H2 : frac_operand v2.
Hypothesis Hmax : max_tag (cval_type v1) (cval_type v2) = CTYPE_FRAC.

Lemma frac_add_exact :
  exists p q, cval_op2 (engine_at (S n)) v1 v2 BC_OP2_ADD = Val (VFrac p q)
              /\ frac_ok p q
              /\ (frac_Q p q == operand_Q v1 + operand_Q v2)%Q.
Proof.
  destruct (to_cfrac_parts n v1 H1) as (a & b & Hv1 & Hb & ->).
  destruct (to_cfrac_parts n v2 H2) as (c & d & Hv2 & Hd & ->).
  rewrite (cval_op2_frac n v1 v2 a b c d) by assumption.
  destruct (cfrac_add_op2 n a b c d Hb Hd) as (p & q & -> & Hok & Hv).
  exists p, q. split; [reflexivity|]. split; [exact Hok|].
  apply frac_Q_add; (apply Hok || assumption).
Qed.

Lemma frac_sub_exact :
  exists p q, cval_op2 (engine_at (S n)) v1 v2 BC_OP2_SUB = Val (VFrac p q)
              /\ frac_ok p q
              /\ (frac_Q p q == operand_Q v1 - operand_Q v2)%Q.
Proof.
  destruct (to_cfrac_parts n v1 H1) as (a & b & Hv1 & Hb & ->).
  destruct (to_cfrac_parts n v2 H2) as (c & d & Hv2 & Hd & ->).
  rewrite (cval_op2_frac n v1 v2 a b c d) by assumption.
  destruct (cfrac_sub_spec n a b c d Hb Hd) as (p & q & -> & Hok & Hv).
  exists p, q. split; [reflexivity|]. split; [exact Hok|].
  apply frac_Q_sub; (apply Hok || assumption).
Qed.

Lemma frac_mul_exact :
  exists p q, cval_op2 (engine_at (S n)) v1 v2 BC_OP2_MUL = Val (VFrac p q)
              /\ frac_ok p q
              /\ (frac_Q p q == operand_Q v1 * operand_Q v2)%Q.
Proof.
  destruct (to_cfrac_parts n v1 H1) as (a & b & Hv1 & Hb & ->).
  destruct (to_cfrac_parts n v2 H2) as (c & d & Hv2 & Hd & ->).
  rewrite (cval_op2_frac n v1 v2 a b c d) by assumption.
  destruct (cfrac_mul_op2 n a b c d Hb Hd) as (p & q & -> & Hok & Hv).
  exists p, q. split; [reflexivity|]. split; [exact Hok|].
  apply frac_Q_mul; (apply Hok || assumption).
Qed.

Lemma frac_div_exact (op : BCOP2Enum) :
  op = BC_OP2_DIV \/ op = BC_OP2_FRAC_DIV ->
  ((operand_Q v2 == 0)%Q ->
   cval_op2 (engine_at (S n)) v1 v2 op = Exc CERR_RANGE "division by zero")
  /\ (~ (operand_Q v2 == 0)%Q ->
      exists p q, cval_op2 (engine_at (S n)) v1 v2 op = Val (VFrac p q)
                  /\ frac_ok p q
                  /\ (frac_Q p q == operand_Q v1 / operand_Q v2)%Q).
Proof.
  intros Hop.
  destruct (to_cfrac_parts n v1 H1) as (a & b & Hv1 & Hb & ->).
  destruct (to_cfrac_parts n v2 H2) as (c & d & Hv2 & Hd & ->).
  rewrite (cval_op2_frac n v1 v2 a b c d) by assumption.
  destruct (cfrac_div_op2 n a b c d op Hop Hb Hd) as [Hzero Hval].
  rewrite frac_Q_zero by assumption. split; [exact Hzero|].
  intros Hc. destruct (Hval Hc) as (p & q & -> & Hok & Hv).
  exists p, q. split; [reflexivity|]. split; [exact Hok|].
  apply frac_Q_div; (apply Hok || assumption).
Qed.
End FractionOperations.

(** Arithmetic on Fractions is exact.  For two operands that are
    Fractions in lowest terms, Integers or Booleans, at least one of them
    a Fraction, [+], [-] and [*] return the Fraction, in lowest terms,
    that is the sum, the difference and the product of the operands; [/]
    and [//] return their quotient, or raise the range error [division by
    zero] when the second operand is zero. *)
Theorem fraction_arithmetic_exact {B : Bignum} (n : nat) (v1 v2 : value) :
  frac_operand v1 -> frac_operand v2 ->
  max_tag (cval_type v1) (cval_type v2) = CTYPE_FRAC ->
  (exists p q, cval_op2 (engine_at (S n)) v1 v2 BC_OP2_ADD = Val (VFrac p q)
               /\ frac_ok p q
               /\ (frac_Q p q == operand_Q v1 + operand_Q v2)%Q)
  /\ (exists p q, cval_op2 (engine_at (S n)) v1 v2 BC_OP2_SUB = Val (VFrac p q)
                  /\ frac_ok p q
                  /\ (frac_Q p q == operand_Q v1 - operand_Q v2)%Q)
  /\ (exists p q, cval_op2 (engine_at (S n)) v1 v2 BC_OP2_MUL = Val (VFrac p q)
                  /\ frac_ok p q
                  /\ (frac_Q p q == operand_Q v1 * operand_Q v2)%Q)
  /\ (forall op, op = BC_OP2_DIV \/ op = BC_OP2_FRAC_DIV ->
        ((operand_Q v2 == 0)%Q ->
         cval_op2 (engine_at (S n)) v1 v2 op = Exc CERR_RANGE "division by zero")
        /\ (~ (operand_Q v2 == 0)%Q ->
            exists p q, cval_op2 (engine_at (S n)) v1 v2 op = Val (VFrac p q)
                        /\ frac_ok p q
                        /\ (frac_Q p q == operand_Q v1 / operand_Q v2)%Q)).
Proof.
  intros H1 H2 Hmax.
  split; [exact (frac_add_exact n v1 v2 H1 H2 Hmax)|].
  split; [exact (frac_sub_exact n v1 v2 H1 H2 Hmax)|].
  split; [exact (frac_mul_exact n v1 v2 H1 H2 Hmax)|].
  intros op Hop. exact (frac_div_exact n v1 v2 H1 H2 Hmax op Hop).
Qed.

(** The theorem at [1/2 + 1/3], [3 - 1/2] and [(1/2) / 0]. *)
Lemma fraction_arithmetic_exact_witness :
  @cval_op2 rational_bignum (engine_at 1) (VFrac 1 2) (VFrac 1 3) BC_OP2_ADD
  = Val (VFrac 5 6)
  /\ (exists p q,
        @cval_op2 rational_bignum (engine_at 1) (VInt 3) (VFrac 1 2) BC_OP2_SUB
        = Val (VFrac p q)
        /\ (frac_Q p q == inject_Z 3 - frac_Q 1 2)%Q)
  /\ @cval_op2 rational_bignum (engine_at 1) (VFrac 1 2) (VInt 0) BC_OP2_DIV
     = Exc CERR_RANGE "division by zero".
Proof.
  assert (Hok : @frac_operand rational_bignum (VFrac 1 2)) by (split; reflexivity).
  assert (Hok3 : @frac_operand rational_bignum (VFrac 1 3)) by (split; reflexivity).
  destruct (@fraction_arithmetic_exact rational_bignum 0 (VFrac 1 2) (VFrac 1 3)
              Hok Hok3 eq_refl) as ((p & q & Hadd & _) & _).
  destruct (@fraction_arithmetic_exact rational_bignum 0 (VInt 3) (VFrac 1 2)
              I Hok eq_refl) as (_ & (p' & q' & Hsub & _ & Hq') & _).
  destruct (@fraction_arithmetic_exact rational_bignum 0 (VFrac 1 2) (VInt 0)
              Hok I eq_refl) as (_ & _ & _ & Hdiv).
  split; [|split].
  - rewrite Hadd. evaluated Hadd (@Val (@value rational_bignum) (VFrac 5 6)).
    injection Hadd as <- <-. reflexivity.
  - exists p', q'. split; [exact Hsub | exact Hq'].
  - destruct (Hdiv BC_OP2_DIV (or_introl eq_refl)) as [Hz _].
    apply Hz. reflexivity.
Defined.

(** Comparison of Fractions decides the order of the rational numbers.
    For two operands that are Fractions in lowest terms, Integers or
    Booleans, at least one of them a Fraction, [==], [<], [<=] and [!=]
    return the Boolean that tells whether the first operand is equal to,
    less than, at most, or different from the second. *)
Theorem fraction_compare {B : Bignum} (n : nat) (v1 v2 : value) :
  frac_operand v1 -> frac_operand v2 ->
  max_tag (cval_type v1) (cval_type v2) = CTYPE_FRAC ->
  (exists b, cval_op2 (engine_at (S n)) v1 v2 BC_OP2_CMP_EQ = Val (VBool b)
             /\ (b = true <-> (operand_Q v1 == operand_Q v2)%Q))
  /\ (exists b, cval_op2 (engine_at (S n)) v1 v2 BC_OP2_CMP_LT = Val (VBool b)
                /\ (b = true <-> (operand_Q v1 < operand_Q v2)%Q))
  /\ (exists b, cval_op2 (engine_at (S n)) v1 v2 BC_OP2_CMP_LE = Val (VBool b)
                /\ (b = true <-> (operand_Q v1 <= operand_Q v2)%Q))
  /\ (exists b, cval_cmp_neq (engine_at (S (S n))) v1 v2 = Val (VBool b)
                /\ (b = true <-> ~ (operand_Q v1 == operand_Q v2)%Q)).
Proof.
  intros H1 H2 Hmax.
  destruct (to_cfrac_parts n v1 H1) as (a & b & Hv1 & Hb & ->).
  destruct (to_cfrac_parts n v2 H2) as (c & d & Hv2 & Hd & ->).
  destruct (cfrac_cmp_op2 n a b c d) as (Heq & Hlt & Hle).
  assert (Heq' : cval_op2 (engine_at (S n)) v1 v2 BC_OP2_CMP_EQ
                 = Val (VBool (a * d =? b * c)))
    by (rewrite (cval_op2_frac n v1 v2 a b c d) by assumption; exact Heq).
  split; [|split; [|split]].
  - exists (a * d =? b * c). split; [exact Heq'|].
    rewrite frac_Q_eq by assumption. apply Z.eqb_eq.
  - rewrite (cval_op2_frac n v1 v2 a b c d) by assumption.
    exists (a * d <? b * c). split; [exact Hlt|].
    rewrite frac_Q_lt by assumption. apply Z.ltb_lt.
  - rewrite (cval_op2_frac n v1 v2 a b c d) by assumption.
    exists (a * d <=? b * c). split; [exact Hle|].
    rewrite frac_Q_le by assumption. apply Z.leb_le.
  - exists (negb (a * d =? b * c)). split.
    + unfold cval_cmp_neq. rewrite e_op2_at, Heq'. reflexivity.
    + rewrite frac_Q_eq by assumption.
      rewrite negb_true_iff, Z.eqb_neq. reflexivity.
Qed.

(** The theorem at [1/3 < 1/2] and [2/4 != 1/2] (the operands in lowest
    terms). *)
Lemma fraction_compare_witness :
  @cval_op2 rational_bignum (engine_at 1) (VFrac 1 3) (VFrac 1 2) BC_OP2_CMP_LT
  = Val (VBool true)
  /\ @cval_cmp_neq rational_bignum (engine_at 2) (VFrac 1 2) (VFrac 1 2)
     = Val (VBool false).
Proof.
  assert (Hok : @frac_operand rational_bignum (VFrac 1 2)) by (split; reflexivity).
  assert (Hok3 : @frac_operand rational_bignum (VFrac 1 3)) by (split; reflexivity).
  destruct (@fraction_compare rational_bignum 0 (VFrac 1 3) (VFrac 1 2)
              Hok3 Hok eq_refl) as (_ & (b & Hlt & Hb) & _).
  destruct (@fraction_compare rational_bignum 0 (VFrac 1 2) (VFrac 1 2)
              Hok Hok eq_refl) as (_ & _ & _ & (b' & Hne & Hb')).
  split.
  - rewrite Hlt. do 2 f_equal. apply Hb. reflexivity.
  - rewrite Hne. do 2 f_equal.
    destruct b'; [|reflexivity].
    exfalso. apply (proj1 Hb' eq_refl). reflexivity.
Defined.

Lemma frac_round_nearest {B : Bignum} (n : nat) (p q : Z) :
  0 < q ->
  exists r, cval_round (engine_at (S (S n))) (VFrac p q) = Val (VInt r)
            /\ 2 * Z.abs (p - r * q) <= q
            /\ (2 * Z.abs (p - r * q) = q -> Z.abs p < Z.abs r * q).
Proof.
  intros Hq.
  destruct (cfrac_round_ops n p q ltac:(lia)) as (_ & _ & _ & Hr).
  unfold cval_round. rewrite !e_op1_at.
  eexists. split; [exact Hr|].
  destruct (quot_rem_pos p q Hq) as (k & m & Habs & Hm & Hk & -> & ->).
  replace (Z.abs q) with q by lia. replace (Z.sgn q) with 1 by lia.
  destruct (Z.lt_trichotomy p 0) as [Hp|[->|Hp]].
  - rewrite Z.sgn_neg by lia. rewrite Z.abs_neq in Habs by lia.
    replace (Z.abs (-1 * m)) with m by lia.
    replace (Z.abs p) with (q * k + m) by lia.
    destruct (Z.ltb_spec (2 * m) q).
    + replace (Z.abs (-1 * k)) with k by lia.
      replace (p - -1 * k * q) with (- m) by lia.
      rewrite Z.abs_opp, (Z.abs_eq m) by lia. split; intros; lia.
    + replace (Z.abs (-1 * k + -1 * 1)) with (k + 1) by lia.
      replace (p - (-1 * k + -1 * 1) * q) with (q - m) by lia.
      rewrite (Z.abs_eq (q - m)) by lia. split; intros; lia.
  - cbn in Habs.
    assert (k = 0)
      by (destruct (Z.eq_dec k 0); [assumption|];
          assert (0 < q * k) by (apply Z.mul_pos_pos; lia); lia).
    subst k. assert (m = 0) as -> by lia.
    cbn. destruct (Z.ltb_spec 0 q); [|lia]. cbn. split; lia.
  - rewrite Z.sgn_pos by lia. rewrite Z.abs_eq in Habs by lia.
    replace (Z.abs (1 * m)) with m by lia.
    replace (Z.abs p) with (q * k + m) by lia.
    destruct (Z.ltb_spec (2 * m) q).
    + replace (Z.abs (1 * k)) with k by lia.
      replace (p - 1 * k * q) with m by lia.
      rewrite (Z.abs_eq m) by lia. split; intros; lia.
    + replace (Z.abs (1 * k + 1 * 1)) with (k + 1) by lia.
      replace (p - (1 * k + 1 * 1) * q) with (- (q - m)) by lia.
      rewrite Z.abs_opp, (Z.abs_eq (q - m)) by lia. split; intros; lia.
Qed.

(** Rounding a Fraction [p/q] with [q > 0] to an Integer: [floor] is the
    greatest Integer at most [p/q], [ceil] the least Integer at least
    [p/q], [trunc] rounds toward zero, and [round] rounds to a nearest
    Integer, a tie going away from zero.  On an Integer operand the four
    functions call [abort]. *)
Theorem fraction_rounding {B : Bignum} (n : nat) (p q : Z) :
  0 < q ->
  (exists f, cval_floor (engine_at (S (S n))) (VFrac p q) = Val (VInt f)
             /\ f * q <= p < (f + 1) * q)
  /\ (exists c, cval_ceil (engine_at (S (S n))) (VFrac p q) = Val (VInt c)
                /\ (c - 1) * q < p <= c * q)
  /\ (exists t, cval_trunc (engine_at (S (S n))) (VFrac p q) = Val (VInt t)
                /\ Z.abs t * q <= Z.abs p < (Z.abs t + 1) * q /\ 0 <= t * p)
  /\ (exists r, cval_round (engine_at (S (S n))) (VFrac p q) = Val (VInt r)
                /\ 2 * Z.abs (p - r * q) <= q
                /\ (2 * Z.abs (p - r * q) = q -> Z.abs p < Z.abs r * q))
  /\ (forall a op,
        op = BC_OP1_FLOOR \/ op = BC_OP1_CEIL \/ op = BC_OP1_TRUNC
        \/ op = BC_OP1_ROUND ->
        cval_op1 (engine_at (S n)) (VInt a) op = Fault Aborted).
Proof.
  intros Hq.
  destruct (cfrac_round_ops n p q ltac:(lia)) as (Hf & Hc & Ht & _).
  unfold cval_floor, cval_ceil, cval_trunc. rewrite !e_op1_at.
  split; [|split; [|split; [|split]]].
  - exists (p / q). split; [exact Hf|].
    pose proof (Z.div_mod p q ltac:(lia)). pose proof (Z.mod_pos_bound p q Hq). nia.
  - exists (- ((- p) / q)). split; [exact Hc|].
    pose proof (Z.div_mod (- p) q ltac:(lia)).
    pose proof (Z.mod_pos_bound (- p) q Hq). nia.
  - exists (Z.quot p q). split; [exact Ht|].
    destruct (quot_rem_pos p q Hq) as (k & m & Habs & Hm & Hk & -> & _).
    destruct (Z.lt_trichotomy p 0) as [Hp|[->|Hp]].
    + rewrite Z.sgn_neg by lia.
      replace (Z.abs (-1 * k)) with k by lia.
      rewrite Z.abs_neq in * by lia. nia.
    + cbn in Habs.
      assert (k = 0)
        by (destruct (Z.eq_dec k 0); [assumption|];
            assert (0 < q * k) by (apply Z.mul_pos_pos; lia); lia).
      subst k.
      replace (Z.abs (Z.sgn 0 * 0)) with 0 by reflexivity.
      replace (Z.abs 0) with 0 by reflexivity. lia.
    + rewrite Z.sgn_pos by lia.
      replace (Z.abs (1 * k)) with k by lia.
      rewrite Z.abs_eq in * by lia. nia.
  - exact (frac_round_nearest n p q Hq).
  - intros a op [-> | [-> | [-> | ->]]]; reflexivity.
Qed.

(** The theorem at [-7/2]: floor -4, ceil -3, trunc -3, round -4. *)
Lemma fraction_rounding_witness :
  @cval_floor rational_bignum (engine_at 2) (VFrac (-7) 2) = Val (VInt (-4))
  /\ @cval_ceil rational_bignum (engine_at 2) (VFrac (-7) 2) = Val (VInt (-3))
  /\ @cval_trunc rational_bignum (engine_at 2) (VFrac (-7) 2) = Val (VInt (-3))
  /\ @cval_round rational_bignum (engine_at 2) (VFrac (-7) 2) = Val (VInt (-4)).
Proof.
  destruct (@fraction_rounding rational_bignum 0 (-7) 2 ltac:(lia))
    as ((f & Hf & Hfb) & (c & Hc & Hcb) & (t & Ht & Htb) & (r & Hr & Hrb) & _).
  rewrite Hf, Hc, Ht, Hr.
  evaluated Hf (@Val (@value rational_bignum) (VInt (-4))).
  evaluated Hc (@Val (@value rational_bignum) (VInt (-3))).
  evaluated Ht (@Val (@value rational_bignum) (VInt (-3))).
  evaluated Hr (@Val (@value rational_bignum) (VInt (-4))).
  injection Hf as <-. injection Hc as <-. injection Ht as <-. injection Hr as <-.
  repeat split.
Defined.

(** * Slices and concatenation of strings *)

Lemma string_app_empty (s : string) : String.append s EmptyString = s.
Proof. induction s; cbn; congruence. Qed.

Section StringSlices.

Context {B : Bignum}.

(** The slice of the characters [mid]. *)
Lemma cstring_slice_chars (pre mid post : list uchar) :
  Forall uchar_ok pre -> Forall uchar_ok mid -> Forall uchar_ok post ->
  cstring_slice (concat_chars (pre ++ mid ++ post))
    (Z.of_nat (List.length pre))
    (Z.of_nat (List.length pre) + Z.of_nat (List.length mid))
  = Val (VString (concat_chars mid)).
Proof.
  intros Hpre Hmid Hpost. unfold cstring_slice.
  destruct (Z.eqb_spec (Z.of_nat (List.length pre))
              (Z.of_nat (List.length pre) + Z.of_nat (List.length mid)))
    as [Heq|Hne].
  - destruct mid; [reflexivity | cbn [List.length] in Heq; lia].
  - rewrite Nat2Z.id, utf8_pos_chars by (auto using Forall_app; apply Forall_app; auto).
    cbn [bind].
    rewrite Nat2Z.id, concat_chars_app, string_skipn_app.
    replace (Z.to_nat (Z.of_nat (List.length pre) + Z.of_nat (List.length mid)
                       - Z.of_nat (List.length pre)))
      with (List.length mid) by lia.
    rewrite (utf8_pos_chars mid post) by auto. cbn [bind].
    rewrite Nat2Z.id, concat_chars_app.
    now rewrite string_firstn_app.
Qed.

Lemma sublist_split {A : Type} (l : list A) (a b : nat) :
  (a <= b)%nat -> (b <= List.length l)%nat ->
  l = firstn a l ++ sublist a b l ++ skipn b l
  /\ List.length (firstn a l) = a
  /\ List.length (sublist a b l) = (b - a)%nat.
Proof.
  intros Hab Hb. unfold sublist. repeat split.
  - rewrite <- (firstn_skipn a l) at 1. f_equal.
    rewrite <- (firstn_skipn (b - a) (skipn a l)) at 1. f_equal.
    rewrite skipn_skipn. f_equal. lia.
  - rewrite length_firstn. lia.
  - rewrite length_firstn, length_skipn. lia.
Qed.

Lemma Forall_sublist {A : Type} (P : A -> Prop) (l : list A) (a b : nat) :
  Forall P l -> Forall P (firstn a l) /\ Forall P (sublist a b l) /\ Forall P (skipn b l).
Proof.
  intros H.
  assert (Hf : forall k l', Forall P l' -> Forall P (firstn k l')).
  { induction k as [|k IHk]; intros l' Hl'; [constructor|].
    destruct Hl'; cbn [firstn]; constructor; auto. }
  assert (Hs : forall k l', Forall P l' -> Forall P (skipn k l')).
  { induction k as [|k IHk]; intros l' Hl'; [exact Hl'|].
    destruct Hl'; cbn [skipn]; [constructor | auto]. }
  unfold sublist. repeat split; auto.
Qed.

Lemma cstring_getitem_slice (chars : list uchar) (start stop : Z) :
  Forall uchar_ok chars ->
  let len := Z.of_nat (List.length chars) in
  let s := slice_bound start 0 len in
  let e := Z.max s (slice_bound stop len len) in
  cstring_getitem [VString (concat_chars chars); VRange start stop]
  = Val (VString (concat_chars (sublist (Z.to_nat s) (Z.to_nat e) chars))).
Proof.
  intros Hok len s e. unfold cstring_getitem.
  rewrite cstring_len_chars by assumption. fold len.
  destruct (slice_bounds_spec start stop len ltac:(lia)) as [Hs He].
  cbv zeta in Hs, He. rewrite He, Hs. clear Hs He. fold s. fold e.
  assert (Hsr : 0 <= s <= len /\ s <= e <= len).
  { unfold e, s, slice_bound.
    destruct (start =? RANGE_DEFAULT), (stop =? RANGE_DEFAULT); lia. }
  destruct (sublist_split chars (Z.to_nat s) (Z.to_nat e) ltac:(lia) ltac:(lia))
    as (Hsplit & Hl1 & Hl2).
  destruct (Forall_sublist uchar_ok chars (Z.to_nat s) (Z.to_nat e) Hok)
    as (H1 & H2 & H3).
  set (pre := firstn (Z.to_nat s) chars) in *.
  set (mid := sublist (Z.to_nat s) (Z.to_nat e) chars) in *.
  set (post := skipn (Z.to_nat e) chars) in *.
  assert (Es : s = Z.of_nat (List.length pre)) by lia.
  assert (Ee : e = Z.of_nat (List.length pre) + Z.of_nat (List.length mid)) by lia.
  clearbody pre mid post.
  rewrite Hsplit, Ee, Es.
  now apply cstring_slice_chars.
Qed.

End StringSlices.

(** Reading a slice [s[start:stop]] of a string of [len] characters in
    UTF-8 never raises: the bounds are brought into [0, len] as for an
    array, and the result is the string of the characters from the start
    position up to the stop position, empty when the stop position is not
    after the start position.  The positions count characters, not
    bytes. *)
Theorem string_slice {B : Bignum} (E : engine) (chars : list uchar)
  (start stop : Z) :
  Forall uchar_ok chars ->
  let len := Z.of_nat (List.length chars) in
  let s := Z.to_nat (slice_bound start 0 len) in
  let e := Z.to_nat (slice_bound stop len len) in
  cval_getitem E [VString (concat_chars chars); VRange start stop]
  = Val (VString (concat_chars (sublist s e chars)))
  /\ cval_len (VString (concat_chars (sublist s e chars)))
     = Val (VInt (Z.of_nat (e - s))).
Proof.
  intros Hok len s e.
  assert (Hsr : (s <= List.length chars)%nat /\ (e <= List.length chars)%nat).
  { unfold s, e, slice_bound.
    destruct (start =? RANGE_DEFAULT), (stop =? RANGE_DEFAULT); lia. }
  split.
  - change (cval_getitem E [VString (concat_chars chars); VRange start stop])
      with (cstring_getitem [VString (concat_chars chars); VRange start stop]).
    rewrite cstring_getitem_slice by assumption. fold len.
    do 3 f_equal. unfold sublist. f_equal. fold s. fold e.
    unfold s, e. lia.
  - unfold cval_len, cint_from_int.
    rewrite cstring_len_chars by (now apply Forall_sublist).
    do 3 f_equal. unfold sublist. rewrite length_firstn, length_skipn. lia.
Qed.

(** The theorem at ["héllo"[1:-1]], which is ["éll"]: the second
    character takes two bytes. *)
Lemma string_slice_witness :
  @cval_getitem rational_bignum (engine_at 1)
    [VString (String "h" (String (ascii_of_nat 195) (String (ascii_of_nat 169) "llo")));
     VRange 1 (-1)]
  = Val (VString (String (ascii_of_nat 195) (String (ascii_of_nat 169) "ll"))).
Proof.
  assert (Hok : Forall uchar_ok
                  [("h"%char, EmptyString);
                   (ascii_of_nat 195, String (ascii_of_nat 169) EmptyString);
                   ("l"%char, EmptyString); ("l"%char, EmptyString);
                   ("o"%char, EmptyString)])
    by (repeat constructor).
  exact (proj1 (@string_slice rational_bignum (engine_at 1) _ 1 (-1) Hok)).
Defined.



(** * Parts of a Fraction, integer division, promotion of types *)

Section IntegerQuotients.

Context {B : Bignum}.
Variable n : nat.
Local Notation "'E1'" := (engine_at (S n)).

Lemma cval_divrem_int (a b : Z) :
  cval_divrem E1 (VInt a) (VInt b)
  = if b =? 0 then Exc CERR_RANGE "division by zero"
    else Val (VArray [VInt (Z.sgn b * (a / Z.abs b)); VInt (a mod Z.abs b)]).
Proof.
  unfold cval_divrem. rewrite e_op2_at.
  change (cval_op2 (engine_at n) (VInt a) (VInt b) BC_OP2_DIVREM)
    with (match BfInt.bf_divrem a b BF_DIVREM_EUCLIDIAN with
          | Some (q, r) => Val (carray_pair (VInt q) (VInt r))
          | None => cval_range_error "division by zero"
          end).
  unfold BfInt.bf_divrem. destruct (Z.eqb_spec b 0); [reflexivity|].
  cbn [BfInt.quotient BF_DIVREM_EUCLIDIAN]. unfold carray_pair.
  now rewrite euclid_rem.
Qed.

Lemma cval_mod_int_any (a b : Z) :
  cval_mod E1 (VInt a) (VInt b)
  = if b =? 0 then Exc CERR_RANGE "division by zero"
    else Val (VInt (a mod Z.abs b)).
Proof.
  unfold cval_mod. rewrite e_op2_at.
  change (cval_op2 (engine_at n) (VInt a) (VInt b) BC_OP2_MOD)
    with (match BfInt.bf_rem a b BF_DIVREM_EUCLIDIAN with
          | Some r => Val (VInt r)
          | None => cval_range_error "division by zero"
          end).
  unfold BfInt.bf_rem, BfInt.bf_divrem. destruct (Z.eqb_spec b 0); [reflexivity|].
  cbn [option_map snd BfInt.quotient BF_DIVREM_EUCLIDIAN].
  now rewrite euclid_rem.
Qed.

End IntegerQuotients.

(** Division with remainder on Integers is Euclidean.  For [b <> 0],
    [divrem(a, b)] is the array [[q, r]] with [a = q * b + r] and
    [0 <= r < |b|], [a % b] is that [r] (never negative, whatever the
    signs), and [divexact(a, b)] is [q] when [r = 0] and the range error
    [division is not exact] otherwise.  For [b = 0] the three raise the
    range error [division by zero]. *)
Theorem integer_divrem {B : Bignum} (n : nat) (a b : Z) :
  (b <> 0 ->
   exists q r,
     cval_divrem (engine_at (S n)) (VInt a) (VInt b) = Val (VArray [VInt q; VInt r])
     /\ a = q * b + r /\ 0 <= r < Z.abs b
     /\ cval_mod (engine_at (S n)) (VInt a) (VInt b) = Val (VInt r)
     /\ (r = 0 -> cval_divexact (engine_at (S n)) (VInt a) (VInt b) = Val (VInt q))
     /\ (r <> 0 ->
         cval_divexact (engine_at (S n)) (VInt a) (VInt b)
         = Exc CERR_RANGE "division is not exact"))
  /\ (b = 0 ->
      cval_divrem (engine_at (S n)) (VInt a) (VInt b) = Exc CERR_RANGE "division by zero"
      /\ cval_mod (engine_at (S n)) (VInt a) (VInt b) = Exc CERR_RANGE "division by zero"
      /\ cval_divexact (engine_at (S n)) (VInt a) (VInt b)
         = Exc CERR_RANGE "division by zero").
Proof.
  split.
  - intros Hb.
    exists (Z.sgn b * (a / Z.abs b)), (a mod Z.abs b).
    assert (Hdr : cval_divrem (engine_at (S n)) (VInt a) (VInt b)
                  = Val (VArray [VInt (Z.sgn b * (a / Z.abs b)); VInt (a mod Z.abs b)])).
    { rewrite cval_divrem_int. now destruct (Z.eqb_spec b 0). }
    split; [exact Hdr|]. split; [|split; [|split; [|split]]].
    + rewrite <- (euclid_rem a b Hb). ring.
    + apply Z.mod_pos_bound. lia.
    + rewrite cval_mod_int_any. now destruct (Z.eqb_spec b 0).
    + intros Hr. unfold cval_divexact. rewrite Hdr. cbn [bind].
      rewrite cmp_eq_int_int, Hr. reflexivity.
    + intros Hr. unfold cval_divexact. rewrite Hdr. cbn [bind].
      rewrite cmp_eq_int_int. cbn [bind].
      destruct (Z.eqb_spec (a mod Z.abs b) 0); [contradiction | reflexivity].
  - intros ->. unfold cval_divexact.
    rewrite cval_divrem_int, cval_mod_int_any. repeat split.
Qed.

(** The theorem at [divrem(-7, 2)] and [divrem(7, -2)]. *)
Lemma integer_divrem_witness :
  @cval_divrem rational_bignum (engine_at 1) (VInt (-7)) (VInt 2)
  = Val (VArray [VInt (-4); VInt 1])
  /\ @cval_divrem rational_bignum (engine_at 1) (VInt 7) (VInt (-2))
     = Val (VArray [VInt (-3); VInt 1])
  /\ @cval_divexact rational_bignum (engine_at 1) (VInt 7) (VInt (-2))
     = Exc CERR_RANGE "division is not exact".
Proof.
  destruct (@integer_divrem rational_bignum 0 (-7) 2) as [H1 _].
  destruct (@integer_divrem rational_bignum 0 7 (-2)) as [H2 _].
  destruct H1 as (q1 & r1 & Hd1 & _); [discriminate|].
  destruct H2 as (q2 & r2 & Hd2 & _ & _ & _ & _ & Hne); [discriminate|].
  rewrite Hd1, Hd2.
  evaluated Hd1 (@Val (@value rational_bignum) (VArray [VInt (-4); VInt 1])).
  evaluated Hd2 (@Val (@value rational_bignum) (VArray [VInt (-3); VInt 1])).
  injection Hd1 as <- <-. injection Hd2 as <- <-.
  split; [reflexivity|]. split; [reflexivity|].
  apply Hne. discriminate.
Defined.

(** The parts of [a // b] for Integers [a] and [b <> 0]: [num] and [den]
    return the numerator and the denominator of the Fraction in lowest
    terms, with [den > 0] and [num * b = a * den]; dividing the numerator
    by the denominator gives the Fraction back.  [num] and [den] of a
    value that is neither a Fraction nor a rational function, an Integer
    included, raise a type error. *)
Theorem fraction_parts {B : Bignum} (n : nat) (a b : Z) :
  b <> 0 ->
  (exists p q,
     cval_frac_div (engine_at (S (S n))) (VInt a) (VInt b) = Val (VFrac p q)
     /\ cval_num (VFrac p q) = Val (VInt p)
     /\ cval_den (VFrac p q) = Val (VInt q)
     /\ 0 < q /\ Z.gcd (Z.abs p) q = 1 /\ p * b = a * q
     /\ cval_frac_div (engine_at (S (S n))) (VInt p) (VInt q) = Val (VFrac p q))
  /\ (forall v, cval_type v <> CTYPE_FRAC -> cval_type v <> CTYPE_RFRAC ->
        cval_num v = Exc CERR_TYPE "incompatible type"
        /\ cval_den v = Exc CERR_TYPE "incompatible type").
Proof.
  intros Hb. split.
  - assert (Hfd : forall x y,
               cval_frac_div (engine_at (S (S n))) (VInt x) (VInt y)
               = cfrac_new (engine_at (S n)) (VInt x) (VInt y)) by reflexivity.
    destruct (cfrac_new_ok n a b Hb) as (p & q & Hev & Hok & Hv).
    exists p, q. rewrite !Hfd. split; [exact Hev|].
    split; [reflexivity|]. split; [reflexivity|].
    split; [apply Hok|]. split; [apply Hok|]. split; [exact Hv|].
    now apply cfrac_new_fixed.
  - intros v Hf Hr.
    destruct v; try (split; reflexivity). exfalso. now apply Hf.
Qed.

(** The theorem at [6 // -4], which is [-3/2]. *)
Lemma fraction_parts_witness :
  @cval_frac_div rational_bignum (engine_at 2) (VInt 6) (VInt (-4)) = Val (VFrac (-3) 2)
  /\ @cval_frac_div rational_bignum (engine_at 2) (VInt (-3)) (VInt 2)
     = Val (VFrac (-3) 2).
Proof.
  destruct (@fraction_parts rational_bignum 0 6 (-4)) as [H _]; [discriminate|].
  destruct H as (p & q & Hev & _ & _ & _ & _ & _ & Hback).
  pose proof Hev as Hpq.
  evaluated Hpq (@Val (@value rational_bignum) (VFrac (-3) 2)).
  injection Hpq as <- <-. split; [exact Hev | exact Hback].
Defined.

Lemma tag_num_inj (g1 g2 : BCTypeEnum) : tag_num g1 = tag_num g2 -> g1 = g2.
Proof. destruct g1, g2; cbn; intros H; (reflexivity || discriminate H). Qed.

Lemma ctype_depth_pos (t : BCType) : exists d, ctype_depth t = Datatypes.S d.
Proof. destruct t as [g [e|]]; cbn [ctype_depth]; eauto. Qed.

(** The promoted type of a binary operation does not depend on the order
    of the operands when their kinds differ (or the types are equal); a
    comparison has type Boolean whatever the operands; and for the scalar
    kinds, from Boolean to Float, the promoted kind of another operation
    is never below the kind of an operand. *)
Theorem op2_type_symmetric (t1 t2 : BCType) (op : BCOP2Enum) :
  (tag t1 <> tag t2 -> get_op2_type t1 t2 op = get_op2_type t2 t1 op)
  /\ (is_cmp_op op = true -> get_op2_type t1 t2 op = Val (def_type CTYPE_BOOL))
  /\ (forall t, is_cmp_op op = false ->
        tag_leb (tag t1) CTYPE_FLOAT = true -> tag_leb (tag t2) CTYPE_FLOAT = true ->
        elem_type t1 = None -> elem_type t2 = None ->
        get_op2_type t1 t2 op = Val t ->
        tag_leb (max_tag (tag t1) (tag t2)) (tag t) = true).
Proof.
  split; [|split].
  - intros Hne. unfold get_op2_type.
    rewrite (Nat.add_comm (ctype_depth t2)).
    destruct (ctype_depth_pos t1) as [d ->].
    cbn [Nat.add get_op2_type_rec].
    destruct (is_cmp_op op); [reflexivity|].
    unfold tag_ltb.
    destruct (Z.ltb_spec (tag_num (tag t1)) (tag_num (tag t2))) as [H12|H12],
             (Z.ltb_spec (tag_num (tag t2)) (tag_num (tag t1))) as [H21|H21];
      try reflexivity; try lia.
    exfalso. apply Hne. apply tag_num_inj. lia.
  - intros Hcmp. unfold get_op2_type.
    destruct (ctype_depth_pos t1) as [d ->].
    cbn [Nat.add get_op2_type_rec]. now rewrite Hcmp.
  - intros t Hcmp H1 H2 He1 He2.
    destruct t1 as [g1 e1], t2 as [g2 e2]. cbn [elem_type tag] in *. subst e1 e2.
    destruct g1; try discriminate H1; destruct g2; try discriminate H2;
      destruct op; try discriminate Hcmp;
      cbv; intros H; try discriminate H; injection H as <-; reflexivity.
Qed.

(** The complement [~x] of an Integer is [-(x + 1)]: each bit of [x] is
    flipped, and the complement of the complement is [x].  A value that
    is not an Integer raises a type error. *)
Theorem integer_not {B : Bignum} (x : Z) :
  exists y,
    cval_not (VInt x) = Val (VInt y)
    /\ x + y = -1
    /\ (forall i, 0 <= i -> Z.testbit y i = negb (Z.testbit x i))
    /\ cval_not (VInt y) = Val (VInt x)
    /\ (forall v, is_int v = false ->
          cval_not v = Exc CERR_TYPE "operands must be integer").
Proof.
  exists (- (x + 1)). split; [reflexivity|]. split; [lia|]. split; [|split].
  - intros i Hi. replace (- (x + 1)) with (Z.lnot x) by (unfold Z.lnot; lia).
    now apply Z.lnot_spec.
  - unfold cval_not. do 2 f_equal. lia.
  - intros v Hv. destruct v; try discriminate Hv; reflexivity.
Qed.

(** * Coefficients of a series *)

(** Reading [s[e]] in a series [s] that holds the terms of exponent
    [emin] to [emin + len - 1], with coefficients of a real kind: the
    stored coefficient of [X^e] when [e] is one of these exponents, and
    otherwise the zero of the kind of the coefficients; an exponent
    outside the series is no error.  A range as subscript, or more than
    one subscript, raises a type error. *)
Theorem series_coefficient {B : Bignum} (n : nat) (k : BCTypeEnum) (emin : Z)
  (tab : list value) (e : Z) :
  real_kind k = true ->
  INT_MIN <= e <= INT_MAX -> INT_MIN <= e - emin <= INT_MAX ->
  (emin <= e < emin + ser_len tab ->
   exists c, nth_error tab (Z.to_nat (e - emin)) = Some c
             /\ cval_getitem (engine_at (S n)) [VSer (def_type k) emin tab; VInt e]
                = Val c)
  /\ (~ emin <= e < emin + ser_len tab ->
      cval_getitem (engine_at (S n)) [VSer (def_type k) emin tab; VInt e]
      = Val (match k with
             | CTYPE_INT => VInt 0
             | CTYPE_FRAC => VFrac 0 1
             | CTYPE_DECIMAL => VDec dec_zero
             | _ => VFloat float_zero
             end))
  /\ (forall start stop,
        cval_getitem (engine_at (S n)) [VSer (def_type k) emin tab; VRange start stop]
        = Exc CERR_TYPE "ranges are not supported for series")
  /\ (forall a1 a2 rest,
        cval_getitem (engine_at (S n)) (VSer (def_type k) emin tab :: a1 :: a2 :: rest)
        = Exc CERR_TYPE "series have a single dimension").
Proof.
  intros Hk He Hd.
  assert (Hget : cval_getitem (engine_at (S n)) [VSer (def_type k) emin tab; VInt e]
                 = if (e - emin <? 0) || (ser_len tab <=? e - emin)
                   then e_convert (engine_at (S n)) (cint_from_int 0) (def_type k)
                   else Val (nth (Z.to_nat (e - emin)) tab VNull)).
  { unfold cval_getitem, ser_getitem.
    rewrite cint_to_int_in_range by assumption. cbn [bind].
    rewrite c_int_in_range by assumption. reflexivity. }
  split; [|split; [|split]].
  - intros Hin. rewrite Hget.
    destruct (Z.ltb_spec (e - emin) 0); [lia|].
    destruct (Z.leb_spec (ser_len tab) (e - emin)); [lia|]. cbn [orb].
    exists (nth (Z.to_nat (e - emin)) tab VNull). split; [|reflexivity].
    apply nth_error_nth'. unfold ser_len in *. lia.
  - intros Hout. rewrite Hget.
    assert (Hc : (e - emin <? 0) || (ser_len tab <=? e - emin) = true).
    { destruct (Z.ltb_spec (e - emin) 0); [reflexivity|].
      destruct (Z.leb_spec (ser_len tab) (e - emin)); [reflexivity | lia]. }
    rewrite Hc. destruct k; try discriminate Hk; reflexivity.
  - reflexivity.
  - reflexivity.
Qed.

(** The theorem at the series [X + 2 X^2 + O(X^3)]: the coefficient of
    [X^2] is 2 and that of [X^7] is 0. *)
Lemma series_coefficient_witness :
  @cval_getitem rational_bignum (engine_at 1)
    [VSer (def_type CTYPE_INT) 1 [VInt 1; VInt 2]; VInt 2] = Val (VInt 2)
  /\ @cval_getitem rational_bignum (engine_at 1)
       [VSer (def_type CTYPE_INT) 1 [VInt 1; VInt 2]; VInt 7] = Val (VInt 0).
Proof.
  destruct (@series_coefficient rational_bignum 0 CTYPE_INT 1 [VInt 1; VInt 2] 2)
    as (H1 & _); [reflexivity | int_range | int_range |].
  destruct (@series_coefficient rational_bignum 0 CTYPE_INT 1 [VInt 1; VInt 2] 7)
    as (_ & H2 & _); [reflexivity | int_range | int_range |].
  split.
  - destruct H1 as (c & Hc & Hget); [change (1 <= 2 < 1 + 2); lia|].
    change (Some (VInt 2) = Some c) in Hc. injection Hc as <-. exact Hget.
  - apply H2. change (~ 1 <= 7 < 1 + 2). lia.
Defined.

(** * Series with Integer coefficients *)

Lemma leading_zeros_spec (l : list Z) :
  (leading_zeros l <= List.length l)%nat
  /\ (forall j, (j < leading_zeros l)%nat -> nth j l 0 = 0)
  /\ (skipn (leading_zeros l) l = [] \/ hd 0 (skipn (leading_zeros l) l) <> 0).
Proof.
  induction l as [|c l (IH1 & IH2 & IH3)].
  - cbn. repeat split; auto. intros j Hj. lia.
  - destruct c as [|p|p]; cbn [leading_zeros List.length skipn hd].
    + split; [lia|]. split; [|exact IH3].
      intros [|j] Hj; [reflexivity|]. cbn [nth]. apply IH2. lia.
    + split; [lia|]. split; [intros j Hj; lia | right; discriminate].
    + split; [lia|]. split; [intros j Hj; lia | right; discriminate].
Qed.

Lemma nth_skipn_Z (l : list Z) (z j : nat) :
  nth j (skipn z l) 0 = nth (z + j) l 0.
Proof.
  revert l. induction z as [|z IH]; intros l; [reflexivity|].
  destruct l as [|c l]; cbn [skipn Nat.add nth]; [now destruct j | apply IH].
Qed.

Lemma nth_map_seq (f : nat -> Z) (k j : nat) :
  (j < k)%nat -> nth j (map f (seq 0 k)) 0 = f j.
Proof.
  intros Hj. rewrite (nth_indep _ 0 (f 0%nat)) by (rewrite length_map, length_seq; lia).
  rewrite map_nth, seq_nth by lia. reflexivity.
Qed.

Section IntegerSeries.

Context {B : Bignum}.
Variable n : nat.
Local Notation "'E2'" := (engine_at (S (S n))).

Lemma store_all_map_val {A : Type} (f : A -> res value) (g : A -> value)
  (l : list A) :
  (forall i, In i l -> f i = Val (g i)) ->
  store_all (map f l) = Val (map g l).
Proof.
  induction l as [|a l IH]; intros Hf; [reflexivity|].
  cbn [map store_all]. rewrite (Hf a (or_introl eq_refl)). cbn [store].
  rewrite IH by (intros i Hi; apply Hf; now right). reflexivity.
Qed.

Lemma nth_map_VInt (l : list Z) (j : nat) :
  (j < List.length l)%nat -> nth j (map VInt l) VNull = VInt (nth j l 0).
Proof.
  intros Hj. rewrite (nth_indep _ VNull (VInt 0)) by (rewrite length_map; lia).
  apply map_nth.
Qed.

Lemma ser_add_coef_int (emin emin1 emin2 i : Z) (l1 l2 : list Z) :
  - 2 ^ 31 <= i + emin - emin1 < 2 ^ 31 ->
  - 2 ^ 31 <= i + emin - emin2 < 2 ^ 31 ->
  ser_add_coef E2 (def_type CTYPE_INT) emin emin1 emin2
    (map VInt l1) (map VInt l2) i
  = Val (VInt (ser_coef emin1 l1 (i + emin) + ser_coef emin2 l2 (i + emin))).
Proof.
  intros H1 H2. unfold ser_add_coef, ser_coef, ser_len.
  rewrite !c_int_ok by assumption. cbn [bind]. rewrite !length_map.
  assert (Hc : forall em (l : list Z),
             (if (0 <=? i + emin - em) && (i + emin - em <? Z.of_nat (List.length l))
              then Val (nth (Z.to_nat (i + emin - em)) (map VInt l) VNull)
              else e_convert E2 (cint_from_int 0) (def_type CTYPE_INT))
             = Val (VInt (if (em <=? i + emin)
                             && (i + emin <? em + Z.of_nat (List.length l))
                          then nth (Z.to_nat (i + emin - em)) l 0 else 0))).
  { intros em l.
    destruct (Z.leb_spec 0 (i + emin - em)), (Z.leb_spec em (i + emin)); try lia;
      cbn [andb]; try reflexivity.
    destruct (Z.ltb_spec (i + emin - em) (Z.of_nat (List.length l))),
             (Z.ltb_spec (i + emin) (em + Z.of_nat (List.length l))); try lia;
      try reflexivity.
    rewrite nth_map_VInt by lia. reflexivity. }
  rewrite !Hc. reflexivity.
Qed.

Lemma ser_add_untrimmed_int (emin1 emin2 : Z) (l1 l2 : list Z) :
  exp_range emin1 (Z.of_nat (List.length l1)) ->
  exp_range emin2 (Z.of_nat (List.length l2)) ->
  let d := Z.min (emin1 + Z.of_nat (List.length l1))
             (emin2 + Z.of_nat (List.length l2)) in
  let emin := Z.min emin1 emin2 in
  ser_add_untrimmed E2 (VSer (def_type CTYPE_INT) emin1 (map VInt l1))
                       (VSer (def_type CTYPE_INT) emin2 (map VInt l2))
  = Val (VSer (def_type CTYPE_INT) emin
           (map VInt
              (map (fun i => ser_coef emin1 l1 (Z.of_nat i + emin)
                             + ser_coef emin2 l2 (Z.of_nat i + emin))
                 (seq 0 (Z.to_nat (d - emin)))))).
Proof.
  intros [Hlo1 Hhi1] [Hlo2 Hhi2] d emin.
  unfold ser_add_untrimmed. cbn [u_ser bind]. unfold ser_len.
  rewrite !length_map. rewrite !c_int_ok by lia. cbn [bind].
  fold d. fold emin.
  assert (Hn : 0 <= d - emin < 2 ^ 30 + 2 ^ 30) by (unfold d, emin; lia).
  rewrite c_int_ok by lia. cbn [bind].
  destruct (ser_new2_real n CTYPE_INT CTYPE_INT eq_refl eq_refl eq_refl
              (d - emin) emin ltac:(lia)) as (z & -> & _).
  cbn [deref u_ser bind].
  change (def_type (max_tag CTYPE_INT CTYPE_INT)) with (def_type CTYPE_INT).
  rewrite (store_all_map_val _
             (fun i => VInt (ser_coef emin1 l1 (Z.of_nat i + emin)
                             + ser_coef emin2 l2 (Z.of_nat i + emin)))).
  - cbn [bind]. now rewrite map_map.
  - intros i Hi. apply in_seq in Hi.
    apply ser_add_coef_int; unfold d, emin in *; lia.
Qed.

Lemma get_emin_int (l : list Z) :
  get_emin E2 (map VInt l) = Val (Z.of_nat (leading_zeros l)).
Proof.
  induction l as [|c l IH]; [reflexivity|].
  cbn [map get_emin]. rewrite (cmp_eq_int_int (S n)). cbn [bind].
  destruct c as [|p|p]; cbn [Z.eqb leading_zeros]; [|reflexivity|reflexivity].
  rewrite IH. cbn [bind]. f_equal. lia.
Qed.

Lemma ser_trim_int (el : BCType) (emin : Z) (l : list Z) :
  - 2 ^ 31 <= emin -> emin + Z.of_nat (List.length l) < 2 ^ 31 ->
  ser_trim E2 (VSer el emin (map VInt l))
  = Val (VSer el (emin + Z.of_nat (leading_zeros l))
           (map VInt (skipn (leading_zeros l) l))).
Proof.
  intros Hlo Hhi. unfold ser_trim. cbn [u_ser bind].
  rewrite get_emin_int. cbn [bind].
  destruct (leading_zeros_spec l) as (Hz & _).
  destruct (Z.leb_spec (Z.of_nat (leading_zeros l)) 0) as [H0|H0].
  - assert (leading_zeros l = 0%nat) as -> by lia.
    cbn [Z.of_nat skipn]. now rewrite Z.add_0_r.
  - rewrite c_int_ok by lia. cbn [bind].
    now rewrite Nat2Z.id, skipn_map.
Qed.

End IntegerSeries.

(** The sum of two series with Integer coefficients, with exponents in
    the range of the arithmetic on C [int]s: up to the common precision
    [min (emin1 + len1, emin2 + len2)], the coefficient of each power of
    [X] is the sum of the coefficients of the operands.  The result holds
    the terms up to that precision, and it is in canonical form: it is
    empty or its first coefficient is not zero. *)
Theorem series_add_coefficients {B : Bignum} (n : nat) (emin1 emin2 : Z)
  (l1 l2 : list Z) :
  exp_range emin1 (Z.of_nat (List.length l1)) ->
  exp_range emin2 (Z.of_nat (List.length l2)) ->
  let d := Z.min (emin1 + Z.of_nat (List.length l1))
             (emin2 + Z.of_nat (List.length l2)) in
  exists emin l,
    cval_op2 (engine_at (S (S n)))
      (VSer (def_type CTYPE_INT) emin1 (map VInt l1))
      (VSer (def_type CTYPE_INT) emin2 (map VInt l2)) BC_OP2_ADD
    = Val (VSer (def_type CTYPE_INT) emin (map VInt l))
    /\ emin + Z.of_nat (List.length l) = d
    /\ (l = [] \/ hd 0 l <> 0)
    /\ (forall e, e < d ->
          ser_coef emin l e = ser_coef emin1 l1 e + ser_coef emin2 l2 e).
Proof.
  intros Hr1 Hr2 d.
  pose proof Hr1 as [Hlo1 Hhi1]. pose proof Hr2 as [Hlo2 Hhi2].
  set (emin0 := Z.min emin1 emin2).
  set (f := fun i : nat => ser_coef emin1 l1 (Z.of_nat i + emin0)
                           + ser_coef emin2 l2 (Z.of_nat i + emin0)).
  set (L := map f (seq 0 (Z.to_nat (d - emin0)))).
  assert (Hn : 0 <= d - emin0) by (unfold d, emin0; lia).
  assert (HL : List.length L = Z.to_nat (d - emin0))
    by (unfold L; now rewrite length_map, length_seq).
  destruct (leading_zeros_spec L) as (Hz & Hzero & Hcanon).
  exists (emin0 + Z.of_nat (leading_zeros L)), (skipn (leading_zeros L) L).
  split; [|split; [|split]].
  - change (cval_op2 (engine_at (S (S n)))
              (VSer (def_type CTYPE_INT) emin1 (map VInt l1))
              (VSer (def_type CTYPE_INT) emin2 (map VInt l2)) BC_OP2_ADD)
      with (ser_add (engine_at (S (S n)))
              (VSer (def_type CTYPE_INT) emin1 (map VInt l1))
              (VSer (def_type CTYPE_INT) emin2 (map VInt l2))).
    unfold ser_add. rewrite ser_add_untrimmed_int by assumption. cbn [bind].
    fold d. fold emin0. fold f. fold L.
    apply ser_trim_int; unfold d, emin0 in *; lia.
  - rewrite length_skipn. lia.
  - exact Hcanon.
  - intros e He. unfold ser_coef at 1. rewrite length_skipn.
    destruct (Z.leb_spec (emin0 + Z.of_nat (leading_zeros L)) e) as [Hge|Hlt].
    + destruct (Z.ltb_spec e (emin0 + Z.of_nat (leading_zeros L)
                              + Z.of_nat (List.length L - leading_zeros L)));
        [|lia].
      cbn [andb]. rewrite nth_skipn_Z.
      replace (leading_zeros L + Z.to_nat (e - (emin0 + Z.of_nat (leading_zeros L))))%nat
        with (Z.to_nat (e - emin0)) by lia.
      unfold L. rewrite nth_map_seq by lia. unfold f.
      now replace (Z.of_nat (Z.to_nat (e - emin0)) + emin0) with e by lia.
    + cbn [andb].
      destruct (Z.leb_spec emin0 e) as [He0|He0].
      * specialize (Hzero (Z.to_nat (e - emin0)) ltac:(lia)).
        unfold L in Hzero. rewrite nth_map_seq in Hzero by lia. unfold f in Hzero.
        now replace (Z.of_nat (Z.to_nat (e - emin0)) + emin0) with e in Hzero by lia.
      * unfold ser_coef.
        destruct (Z.leb_spec emin1 e); [unfold emin0 in *; lia|].
        destruct (Z.leb_spec emin2 e); [unfold emin0 in *; lia|].
        reflexivity.
Qed.

(** The theorem at [(1 + 2 X + O(X^2)) + (-1 + 3 X + X^2 + O(X^3))],
    which is [5 X + O(X^2)]. *)
Lemma series_add_coefficients_witness :
  @cval_op2 rational_bignum (engine_at 2)
    (VSer (def_type CTYPE_INT) 0 [VInt 1; VInt 2])
    (VSer (def_type CTYPE_INT) 0 [VInt (-1); VInt 3; VInt 1]) BC_OP2_ADD
  = Val (VSer (def_type CTYPE_INT) 1 [VInt 5]).
Proof.
  destruct (@series_add_coefficients rational_bignum 0 0 0 [1; 2] [-1; 3; 1])
    as (emin & l & Hadd & _);
    [split; cbn [List.length Z.of_nat]; lia | split; cbn [List.length Z.of_nat]; lia |].
  cbn [map] in Hadd. pose proof Hadd as Hv.
  evaluated Hv (@Val (@value rational_bignum) (VSer (def_type CTYPE_INT) 1 [VInt 5])).
  rewrite Hadd. symmetry. exact Hv.
Defined.

(** * The product of two series with Integer coefficients *)

Lemma nth_update_Z (T : list Z) (p k : nat) (c : Z) :
  (p < List.length T)%nat ->
  nth k (firstn p T ++ c :: skipn (Datatypes.S p) T) 0
  = if (k =? p)%nat then c else nth k T 0.
Proof.
  intros Hp.
  assert (Hlen : List.length (firstn p T) = p) by (rewrite length_firstn; lia).
  destruct (Nat.eqb_spec k p) as [->|Hne].
  - rewrite app_nth2 by lia. rewrite Hlen, Nat.sub_diag. reflexivity.
  - destruct (Nat.lt_ge_cases k p) as [Hlt|Hge].
    + rewrite app_nth1 by lia.
      rewrite <- (firstn_skipn p T) at 2. now rewrite app_nth1 by lia.
    + rewrite app_nth2 by lia. rewrite Hlen.
      replace (k - p)%nat with (Datatypes.S (k - p - 1)) by lia.
      cbn [nth]. rewrite nth_skipn_Z. f_equal. lia.
Qed.

Lemma length_update_Z (T : list Z) (p : nat) (c : Z) :
  (p < List.length T)%nat ->
  List.length (firstn p T ++ c :: skipn (Datatypes.S p) T) = List.length T.
Proof.
  intros Hp. rewrite length_app, length_firstn. cbn [List.length].
  rewrite length_skipn. lia.
Qed.

Lemma sum_zero {A : Type} (g : A -> Z) (l : list A) :
  (forall x, In x l -> g x = 0) -> fold_right Z.add 0 (map g l) = 0.
Proof.
  induction l as [|a l IH]; intros H; [reflexivity|].
  cbn [map fold_right]. rewrite (H a (or_introl eq_refl)), IH; [reflexivity|].
  intros x Hx. apply H. now right.
Qed.

Lemma sum_app (l1 l2 : list Z) :
  fold_right Z.add 0 (l1 ++ l2) = fold_right Z.add 0 l1 + fold_right Z.add 0 l2.
Proof. induction l1 as [|a l1 IH]; cbn [List.app fold_right]; lia. Qed.

(** The sum over [j = s .. s + m - 1] of the terms [g j] with [j = t]. *)
Lemma sum_indicator (g : nat -> Z) (t s m : nat) :
  fold_right Z.add 0 (map (fun j => if (j =? t)%nat then g j else 0) (seq s m))
  = if (s <=? t)%nat && (t <? s + m)%nat then g t else 0.
Proof.
  revert s. induction m as [|m IH]; intros s.
  - cbn [seq map fold_right].
    destruct (Nat.leb_spec s t), (Nat.ltb_spec t (s + 0)); cbn [andb]; try reflexivity; lia.
  - cbn [seq map fold_right]. rewrite IH.
    destruct (Nat.eqb_spec s t) as [->|Hne].
    + destruct (Nat.leb_spec t t); [|lia].
      destruct (Nat.ltb_spec t (t + Datatypes.S m)); [|lia].
      destruct (Nat.leb_spec (Datatypes.S t) t); [lia|]. cbn [andb]. lia.
    + destruct (Nat.leb_spec s t), (Nat.leb_spec (Datatypes.S s) t); try lia;
        destruct (Nat.ltb_spec t (s + Datatypes.S m)),
                 (Nat.ltb_spec t (Datatypes.S s + m)); try lia;
        cbn [andb]; lia.
Qed.

(** The terms [a i * b j] with [i + j = k], over [i < len] and
    [j < len - i], are those of the coefficient [k] of the product. *)
Lemma cauchy_sum (l1 l2 : list Z) (len k : nat) :
  (k < len)%nat ->
  fold_right Z.add 0
    (map (fun i =>
            fold_right Z.add 0
              (map (fun j => if (i + j =? k)%nat then nth i l1 0 * nth j l2 0 else 0)
                 (seq 0 (len - i))))
       (seq 0 len))
  = cauchy_coef l1 l2 k.
Proof.
  intros Hk. unfold cauchy_coef.
  assert (Hseq : seq 0 len
                 = seq 0 (Datatypes.S k) ++ seq (Datatypes.S k) (len - Datatypes.S k)).
  { replace len with (Datatypes.S k + (len - Datatypes.S k))%nat at 1 by lia.
    now rewrite seq_app. }
  rewrite Hseq, map_app, sum_app.
  rewrite (sum_zero _ (seq (Datatypes.S k) (len - Datatypes.S k))).
  - rewrite Z.add_0_r. f_equal. apply map_ext_in. intros i Hi.
    apply in_seq in Hi.
    transitivity (fold_right Z.add 0
                    (map (fun j => if (j =? k - i)%nat
                                   then nth i l1 0 * nth j l2 0 else 0)
                       (seq 0 (len - i)))).
    + f_equal. apply map_ext. intros j.
      destruct (Nat.eqb_spec (i + j) k), (Nat.eqb_spec j (k - i)); try lia; reflexivity.
    + rewrite (sum_indicator (fun j => nth i l1 0 * nth j l2 0)).
      destruct (Nat.leb_spec 0 (k - i)); [|lia].
      destruct (Nat.ltb_spec (k - i) (0 + (len - i))); [reflexivity | lia].
  - intros i Hi. apply in_seq in Hi. apply sum_zero.
    intros j Hj. destruct (Nat.eqb_spec (i + j) k); [lia | reflexivity].
Qed.

Section IntegerSeriesMul.

Context {B : Bignum}.
Variable n : nat.
Local Notation "'E2'" := (engine_at (S (S n))).

Variables l1 l2 : list Z.

Lemma list_set_map_VInt (T : list Z) (p : nat) (c : Z) :
  list_set (map VInt T) p (VInt c)
  = map VInt (firstn p T ++ c :: skipn (Datatypes.S p) T).
Proof.
  unfold list_set. now rewrite map_app, firstn_map, skipn_map.
Qed.

Lemma ser_mul_inner_int (i : nat) (js : list nat) (T : list Z) :
  (i < List.length l1)%nat ->
  Forall (fun j => (j < List.length l2)%nat /\ (i + j < List.length T)%nat) js ->
  exists T',
    ser_mul_inner E2 (map VInt l1) (map VInt l2) i js (map VInt T)
    = Val (map VInt T')
    /\ List.length T' = List.length T
    /\ forall k,
         nth k T' 0
         = nth k T 0
           + fold_right Z.add 0
               (map (fun j => if (i + j =? k)%nat
                              then nth i l1 0 * nth j l2 0 else 0) js).
Proof.
  intros Hi. revert T.
  induction js as [|j js IH]; intros T Hjs.
  - exists T. split; [reflexivity|]. split; [reflexivity|].
    intros k. cbn [map fold_right]. lia.
  - apply Forall_cons_iff in Hjs as [[Hj Hij] Hrest].
    cbn [ser_mul_inner].
    rewrite !nth_map_VInt by assumption.
    rewrite (cval_mul_int (S n)). cbn [deref].
    rewrite (cval_add_int (S n)). cbn [store].
    rewrite list_set_map_VInt.
    set (c := nth (i + j) T 0 + nth i l1 0 * nth j l2 0).
    destruct (IH (firstn (i + j) T ++ c :: skipn (Datatypes.S (i + j)) T))
      as (T' & Hev & Hlen & Hnth).
    { eapply Forall_impl; [|exact Hrest]. cbn. intros j' [H1 H2].
      rewrite length_update_Z by assumption. auto. }
    exists T'. split; [exact Hev|].
    split; [rewrite Hlen; now apply length_update_Z|].
    intros k. rewrite Hnth, nth_update_Z by assumption.
    cbn [map fold_right]. unfold c.
    destruct (Nat.eqb_spec k (i + j)), (Nat.eqb_spec (i + j) k); try lia.
    subst k. lia.
Qed.

Lemma ser_mul_outer_int (len : nat) (idxs : list nat) (T : list Z) :
  (len <= List.length l1)%nat -> (len <= List.length l2)%nat ->
  List.length T = len ->
  Forall (fun i => (i < len)%nat) idxs ->
  exists T',
    ser_mul_outer E2 (map VInt l1) (map VInt l2) len idxs (map VInt T)
    = Val (map VInt T')
    /\ List.length T' = len
    /\ forall k,
         nth k T' 0
         = nth k T 0
           + fold_right Z.add 0
               (map (fun i =>
                       fold_right Z.add 0
                         (map (fun j => if (i + j =? k)%nat
                                        then nth i l1 0 * nth j l2 0 else 0)
                            (seq 0 (len - i))))
                  idxs).
Proof.
  intros Hl1 Hl2. revert T.
  induction idxs as [|i idxs IH]; intros T Hlen Hidx.
  - exists T. split; [reflexivity|]. split; [exact Hlen|].
    intros k. cbn [map fold_right]. lia.
  - apply Forall_cons_iff in Hidx as [Hi Hrest].
    cbn [ser_mul_outer].
    destruct (ser_mul_inner_int i (seq 0 (len - i)) T ltac:(lia))
      as (T1 & -> & Hlen1 & Hnth1).
    { apply Forall_forall. intros j Hj. apply in_seq in Hj. lia. }
    cbn [bind].
    destruct (IH T1 ltac:(lia) Hrest) as (T' & Hev & Hlen' & Hnth').
    exists T'. split; [exact Hev|]. split; [exact Hlen'|].
    intros k. rewrite Hnth', Hnth1. cbn [map fold_right]. lia.
Qed.

Lemma ser_new2_int (len emin : Z) :
  0 <= len ->
  ser_new2 E2 (def_type CTYPE_INT) (def_type CTYPE_INT) len emin
  = Val (VSer (def_type CTYPE_INT) emin (map VInt (repeat 0 (Z.to_nat len)))).
Proof.
  intros Hlen. unfold ser_new2.
  rewrite get_op2_type_real by reflexivity. cbn [bind]. unfold ser_new.
  destruct (Z.ltb_spec len 0); [lia|].
  change (is_poly_elem_type (tag (def_type (max_tag CTYPE_INT CTYPE_INT))))
    with true.
  cbn [negb].
  destruct (Z.eqb_spec len 0) as [->|]; [reflexivity|].
  rewrite map_repeat. reflexivity.
Qed.

Lemma ser_mul_untrimmed_int (emin1 emin2 : Z) :
  exp_range emin1 (Z.of_nat (List.length l1)) ->
  exp_range emin2 (Z.of_nat (List.length l2)) ->
  exists T,
    ser_mul_untrimmed E2 (VSer (def_type CTYPE_INT) emin1 (map VInt l1))
                         (VSer (def_type CTYPE_INT) emin2 (map VInt l2))
    = Val (VSer (def_type CTYPE_INT) (emin1 + emin2) (map VInt T))
    /\ List.length T = Nat.min (List.length l1) (List.length l2)
    /\ forall k, (k < Nat.min (List.length l1) (List.length l2))%nat ->
                 nth k T 0 = cauchy_coef l1 l2 k.
Proof.
  intros [Hlo1 Hhi1] [Hlo2 Hhi2].
  unfold ser_mul_untrimmed. rewrite c_int_ok by lia. cbn [bind].
  unfold ser_len. rewrite !length_map.
  set (len := Nat.min (List.length l1) (List.length l2)).
  replace (Z.min (Z.of_nat (List.length l1)) (Z.of_nat (List.length l2)))
    with (Z.of_nat len) by (unfold len; lia).
  rewrite ser_new2_int by lia. cbn [deref u_ser bind].
  rewrite Nat2Z.id.
  destruct (ser_mul_outer_int len (seq 0 len) (repeat 0 len))
    as (T & -> & HlenT & Hnth).
  - unfold len; lia.
  - unfold len; lia.
  - apply repeat_length.
  - apply Forall_forall. intros i Hi. apply in_seq in Hi. lia.
  - cbn [bind]. exists T. split; [reflexivity|]. split; [exact HlenT|].
    intros k Hk. rewrite Hnth, nth_repeat, Z.add_0_l.
    now apply cauchy_sum.
Qed.

End IntegerSeriesMul.

(** The product of two series with Integer coefficients, with exponents
    in the range of the arithmetic on C [int]s, holds
    [len = min (len1, len2)] terms from the exponent [emin1 + emin2] on,
    and the coefficient of [X^(emin1 + emin2 + k)], for [k < len], is the
    sum of the products [a_i * b_(k - i)] of the coefficients of the
    operands: the product of the two polynomials, cut at the common
    precision.  The result is in canonical form: it is empty or its first
    coefficient is not zero. *)
Theorem series_mul_coefficients {B : Bignum} (n : nat) (emin1 emin2 : Z)
  (l1 l2 : list Z) :
  exp_range emin1 (Z.of_nat (List.length l1)) ->
  exp_range emin2 (Z.of_nat (List.length l2)) ->
  let len := Nat.min (List.length l1) (List.length l2) in
  exists emin l,
    cval_op2 (engine_at (S (S n)))
      (VSer (def_type CTYPE_INT) emin1 (map VInt l1))
      (VSer (def_type CTYPE_INT) emin2 (map VInt l2)) BC_OP2_MUL
    = Val (VSer (def_type CTYPE_INT) emin (map VInt l))
    /\ emin + Z.of_nat (List.length l) = emin1 + emin2 + Z.of_nat len
    /\ (l = [] \/ hd 0 l <> 0)
    /\ (forall k, (k < len)%nat ->
          ser_coef emin l (emin1 + emin2 + Z.of_nat k) = cauchy_coef l1 l2 k).
Proof.
  intros Hr1 Hr2 len.
  pose proof Hr1 as [Hlo1 Hhi1]. pose proof Hr2 as [Hlo2 Hhi2].
  destruct (ser_mul_untrimmed_int n l1 l2 emin1 emin2 Hr1 Hr2)
    as (T & Hev & HlenT & Hnth).
  fold len in HlenT, Hnth.
  destruct (leading_zeros_spec T) as (Hz & Hzero & Hcanon).
  exists (emin1 + emin2 + Z.of_nat (leading_zeros T)), (skipn (leading_zeros T) T).
  split; [|split; [|split]].
  - change (cval_op2 (engine_at (S (S n)))
              (VSer (def_type CTYPE_INT) emin1 (map VInt l1))
              (VSer (def_type CTYPE_INT) emin2 (map VInt l2)) BC_OP2_MUL)
      with (ser_mul (engine_at (S (S n)))
              (VSer (def_type CTYPE_INT) emin1 (map VInt l1))
              (VSer (def_type CTYPE_INT) emin2 (map VInt l2))).
    unfold ser_mul. rewrite Hev. cbn [bind].
    apply ser_trim_int; unfold len in *; lia.
  - rewrite length_skipn. lia.
  - exact Hcanon.
  - intros k Hk. rewrite <- (Hnth k Hk). unfold ser_coef. rewrite length_skipn.
    destruct (Z.leb_spec (emin1 + emin2 + Z.of_nat (leading_zeros T))
                (emin1 + emin2 + Z.of_nat k)) as [Hge|Hlt].
    + destruct (Z.ltb_spec (emin1 + emin2 + Z.of_nat k)
                  (emin1 + emin2 + Z.of_nat (leading_zeros T)
                   + Z.of_nat (List.length T - leading_zeros T))); [|lia].
      cbn [andb]. rewrite nth_skipn_Z. f_equal. lia.
    + cbn [andb]. symmetry. apply Hzero. lia.
Qed.

(** The theorem at [(1 + 2 X + O(X^2)) * (3 + 4 X + 5 X^2 + O(X^3))],
    which is [3 + 10 X + O(X^2)]. *)
Lemma series_mul_coefficients_witness :
  @cval_op2 rational_bignum (engine_at 2)
    (VSer (def_type CTYPE_INT) 0 [VInt 1; VInt 2])
    (VSer (def_type CTYPE_INT) 0 [VInt 3; VInt 4; VInt 5]) BC_OP2_MUL
  = Val (VSer (def_type CTYPE_INT) 0 [VInt 3; VInt 10]).
Proof.
  destruct (@series_mul_coefficients rational_bignum 0 0 0 [1; 2] [3; 4; 5])
    as (emin & l & Hmul & _);
    [split; cbn [List.length Z.of_nat]; lia | split; cbn [List.length Z.of_nat]; lia |].
  cbn [map] in Hmul. pose proof Hmul as Hv.
  evaluated Hv (@Val (@value rational_bignum)
                  (VSer (def_type CTYPE_INT) 0 [VInt 3; VInt 10])).
  rewrite Hmul. symmetry. exact Hv.
Defined.

(** * Complex numbers with Integer parts *)

(** Arithmetic on the complex numbers [a + b i] and [c + d i] with
    Integer parts is the arithmetic of the Gaussian integers: the sum,
    the difference and the product have the parts
    [(a + c, b + d)], [(a - c, b - d)] and [(a c - b d, a d + b c)]; an
    Integer operand counts as [c + 0 i]; [==] compares both parts, and
    [<] and [<=] raise a type error.  The conjugate negates the
    imaginary part, and a number times its conjugate is its squared
    norm [a^2 + b^2]. *)
Theorem gaussian_integer_arithmetic {B : Bignum} (n : nat) (a b c d : Z) :
  let E := engine_at (S (S (S n))) in
  let gauss := fun x y : Z => VComplex (def_type CTYPE_INT) (VInt x) (VInt y) in
  complex_new_int E a b = Val (gauss a b)
  /\ cval_op2 E (gauss a b) (gauss c d) BC_OP2_ADD = Val (gauss (a + c) (b + d))
  /\ cval_op2 E (gauss a b) (gauss c d) BC_OP2_SUB = Val (gauss (a - c) (b - d))
  /\ cval_op2 E (gauss a b) (gauss c d) BC_OP2_MUL
     = Val (gauss (a * c - b * d) (a * d + b * c))
  /\ cval_op2 E (gauss a b) (VInt c) BC_OP2_MUL
     = cval_op2 E (gauss a b) (gauss c 0) BC_OP2_MUL
  /\ cval_op2 E (VInt c) (gauss a b) BC_OP2_ADD
     = cval_op2 E (gauss c 0) (gauss a b) BC_OP2_ADD
  /\ cval_op2 E (gauss a b) (gauss c d) BC_OP2_CMP_EQ
     = Val (VBool ((a =? c) && (b =? d)))
  /\ cval_op2 E (gauss a b) (gauss c d) BC_OP2_CMP_LT
     = Exc CERR_TYPE "complex numbers are not comparable"
  /\ cval_op2 E (gauss a b) (gauss c d) BC_OP2_CMP_LE
     = Exc CERR_TYPE "complex numbers are not comparable"
  /\ cval_op1 E (gauss a b) BC_OP1_CONJ = Val (gauss a (- b))
  /\ cval_op1 E (gauss a b) BC_OP1_NEG = Val (gauss (- a) (- b))
  /\ cval_op1 E (gauss a b) BC_OP1_RE = Val (VInt a)
  /\ cval_op1 E (gauss a b) BC_OP1_IM = Val (VInt b)
  /\ complex_norm2 E (gauss a b) = Val (VInt (a * a + b * b))
  /\ (exists z, cval_op1 E (gauss a b) BC_OP1_CONJ = Val z
                /\ cval_op2 E (gauss a b) z BC_OP2_MUL
                   = Val (gauss (a * a + b * b) 0)).
Proof.
  cbv zeta.
  repeat match goal with |- _ /\ _ => split end; try reflexivity.
  - transitivity (r <- (if a =? c then @Val bool (b =? d) else Val false) ;;
                  @Val value (cbool_new r)); [reflexivity|].
    destruct (a =? c); reflexivity.
  - exists (VComplex (def_type CTYPE_INT) (VInt a) (VInt (- b))).
    split; [reflexivity|].
    change (cval_op2 (engine_at (S (S (S n))))
              (VComplex (def_type CTYPE_INT) (VInt a) (VInt b))
              (VComplex (def_type CTYPE_INT) (VInt a) (VInt (- b))) BC_OP2_MUL)
      with (@Val value (VComplex (def_type CTYPE_INT) (VInt (a * a - b * - b))
                          (VInt (a * - b + b * a)))).
    replace (a * a - b * - b) with (a * a + b * b) by ring.
    replace (a * - b + b * a) with 0 by ring. reflexivity.
Qed.

(** * Euclidean division of Gaussian integers *)

Lemma frac_Q_ratio (t u N D : Z) :
  0 < u -> 0 < D ->
  (frac_Q t u == inject_Z N / inject_Z D)%Q -> t * D = N * u.
Proof.
  intros Hu HD H.
  assert (HND : (inject_Z N / inject_Z D == frac_Q N D)%Q).
  { destruct D as [|p|p]; try lia.
    unfold Qdiv, Qinv, inject_Z, frac_Q, Qeq, Qmult. cbn [Qnum Qden Z.to_pos].
    rewrite ?Pos2Z.inj_mul. ring. }
  rewrite HND in H. apply (proj1 (frac_Q_eq t u N D Hu HD)) in H. rewrite H. ring.
Qed.

Lemma nearest_scaled (t u N D g : Z) :
  0 < u -> 0 < D -> t * D = N * u ->
  2 * Z.abs (t - g * u) <= u -> 2 * Z.abs (N - g * D) <= D.
Proof.
  intros Hu HD H Hr.
  assert (He : u * (N - g * D) = D * (t - g * u)) by lia.
  assert (Ha : u * Z.abs (N - g * D) = D * Z.abs (t - g * u)).
  { rewrite <- (Z.abs_eq u) at 1 by lia. rewrite <- Z.abs_mul, He, Z.abs_mul.
    rewrite (Z.abs_eq D) by lia. reflexivity. }
  apply (Z.mul_le_mono_pos_l _ _ u); [lia|].
  replace (u * (2 * Z.abs (N - g * D))) with (D * (2 * Z.abs (t - g * u))) by lia.
  rewrite (Z.mul_comm u D). apply Z.mul_le_mono_nonneg_l; lia.
Qed.

Lemma gauss_remainder_bound (a b c d g1 g2 : Z) :
  let D := c * c + d * d in
  0 < D ->
  2 * Z.abs (a * c + b * d - g1 * D) <= D ->
  2 * Z.abs (b * c - a * d - g2 * D) <= D ->
  let r1 := a - (c * g1 - d * g2) in
  let r2 := b - (c * g2 + d * g1) in
  2 * (r1 * r1 + r2 * r2) <= D.
Proof.
  intros D HD H1 H2 r1 r2.
  set (e1 := a * c + b * d - g1 * D) in *.
  set (e2 := b * c - a * d - g2 * D) in *.
  assert (E1 : D * r1 = c * e1 - d * e2) by (unfold r1, e1, e2, D; ring).
  assert (E2 : D * r2 = d * e1 + c * e2) by (unfold r2, e1, e2, D; ring).
  assert (E3 : D * (D * (r1 * r1 + r2 * r2)) = D * (e1 * e1 + e2 * e2)).
  { transitivity ((D * r1) * (D * r1) + (D * r2) * (D * r2)); [ring|].
    rewrite E1, E2. unfold D. ring. }
  apply Z.mul_reg_l in E3; [|lia].
  assert (B : forall e, 2 * Z.abs e <= D -> 4 * (e * e) <= D * D).
  { intros e He. rewrite <- (Z.abs_square e).
    replace (4 * (Z.abs e * Z.abs e)) with ((2 * Z.abs e) * (2 * Z.abs e)) by ring.
    apply Z.square_le_mono_nonneg; lia. }
  pose proof (B e1 H1) as B1. pose proof (B e2 H2) as B2.
  clearbody r1 r2 e1 e2 D. clear B E1 E2 H1 H2.
  apply (Z.mul_le_mono_pos_l _ _ (2 * D)); [lia|]. lia.
Qed.

Section GaussianDivision.
Context {B : Bignum}.

Lemma cval_neg_frac (m : nat) (p q : Z) :
  cval_neg (engine_at (S (S m))) (VFrac p q) = Val (VFrac (- p) q).
Proof. reflexivity. Qed.

Lemma complex_new_frac (m : nat) (p q p' q' : Z) :
  complex_new (engine_at (S m)) (VFrac p q) (VFrac p' q')
  = Val (gauss_frac p q p' q').
Proof. reflexivity. Qed.

Lemma complex_new_gauss (m : nat) (x y : Z) :
  complex_new (engine_at (S m)) (VInt x) (VInt y) = Val (gauss_int x y).
Proof. reflexivity. Qed.

Lemma to_complex_frac_gauss (m : nat) (c d : Z) :
  to_complex_frac (engine_at (S m)) (gauss_int c d) = Val (gauss_frac c 1 d 1).
Proof. reflexivity. Qed.

Lemma complex_divrem_unfold (m : nat) (a b c d : Z) :
  cval_op2 (engine_at (S m)) (gauss_int a b) (gauss_int c d) BC_OP2_DIVREM
  = (q <- cval_op2 (engine_at m) (gauss_int a b) (gauss_int c d) BC_OP2_FRAC_DIV ;;
     q <-! cval_op1 (engine_at m) q BC_OP1_ROUND ;;
     m' <-! cval_op2 (engine_at m) (gauss_int c d) q BC_OP2_MUL ;;
     r <-# cval_op2 (engine_at m) (gauss_int a b) m' BC_OP2_SUB ;;
     Val (carray_pair q r)).
Proof. reflexivity. Qed.

Lemma complex_frac_div_unfold (m : nat) (a b c d : Z) :
  cval_op2 (engine_at (S (S m))) (gauss_int a b) (gauss_int c d) BC_OP2_FRAC_DIV
  = (i <-! complex_inverse (engine_at (S (S m))) (gauss_frac c 1 d 1) ;;
     complex_op2 (engine_at (S m)) (gauss_int a b) i BC_OP2_MUL).
Proof. reflexivity. Qed.

Lemma complex_inverse_unfold (m : nat) (c d : Z) :
  complex_inverse (engine_at (S (S m))) (gauss_frac c 1 d 1)
  = (nrm <-! (x <-! cval_op2 (engine_at (S m)) (VFrac c 1) (VFrac c 1) BC_OP2_MUL ;;
              y <-! cval_op2 (engine_at (S m)) (VFrac d 1) (VFrac d 1) BC_OP2_MUL ;;
              cval_op2 (engine_at (S m)) x y BC_OP2_ADD) ;;
     a <-! cval_op2 (engine_at (S m)) (VFrac c 1) nrm BC_OP2_DIV ;;
     b0 <-! cval_op2 (engine_at (S m)) (VFrac d 1) nrm BC_OP2_DIV ;;
     b <-! cval_op1 (engine_at (S m)) b0 BC_OP1_NEG ;;
     complex_new (engine_at (S (S m))) a b).
Proof. reflexivity. Qed.

Lemma complex_mul_unfold (m : nat) (a b p q p' q' : Z) :
  complex_op2 (engine_at (S m)) (gauss_int a b) (gauss_frac p q p' q') BC_OP2_MUL
  = (rr <-! cval_op2 (engine_at m) (VInt a) (VFrac p q) BC_OP2_MUL ;;
     ii <-! cval_op2 (engine_at m) (VInt b) (VFrac p' q') BC_OP2_MUL ;;
     x <-! cval_op2 (engine_at m) rr ii BC_OP2_SUB ;;
     ri <-! cval_op2 (engine_at m) (VInt a) (VFrac p' q') BC_OP2_MUL ;;
     ir <-! cval_op2 (engine_at m) (VInt b) (VFrac p q) BC_OP2_MUL ;;
     y <-! cval_op2 (engine_at m) ri ir BC_OP2_ADD ;;
     complex_new (engine_at (S m)) x y).
Proof. reflexivity. Qed.

Lemma complex_round_unfold (m : nat) (p q p' q' : Z) :
  cval_op1 (engine_at (S (S m))) (gauss_frac p q p' q') BC_OP1_ROUND
  = (x <-! cval_round (engine_at (S (S m))) (VFrac p q) ;;
     y <-! cval_round (engine_at (S (S m))) (VFrac p' q') ;;
     complex_new (engine_at (S (S m))) x y).
Proof. reflexivity. Qed.

(** The norm of [c + d i], computed on Fractions. *)
Lemma complex_norm_frac (m : nat) (c d : Z) :
  (x <-! cval_op2 (engine_at (S m)) (VFrac c 1) (VFrac c 1) BC_OP2_MUL ;;
   y <-! cval_op2 (engine_at (S m)) (VFrac d 1) (VFrac d 1) BC_OP2_MUL ;;
   cval_op2 (engine_at (S m)) x y BC_OP2_ADD)
  = Val (VFrac (c * c + d * d) 1).
Proof.
  assert (Hone : forall x, frac_ok x 1).
  { intros x. split; [lia|]. apply Z.gcd_1_r. }
  destruct (frac_mul_exact m (VFrac c 1) (VFrac c 1) (Hone c) (Hone c) eq_refl)
    as (p1 & q1 & -> & Hok1 & Hq1).
  destruct (frac_mul_exact m (VFrac d 1) (VFrac d 1) (Hone d) (Hone d) eq_refl)
    as (p2 & q2 & -> & Hok2 & Hq2).
  cbn [deref].
  destruct (frac_add_exact m (VFrac p1 q1) (VFrac p2 q2) Hok1 Hok2 eq_refl)
    as (p & q & -> & Hok & Hq).
  cbn [operand_Q] in Hq1, Hq2, Hq. rewrite Hq1, Hq2 in Hq.
  change (frac_Q c 1) with (inject_Z c) in Hq.
  change (frac_Q d 1) with (inject_Z d) in Hq.
  rewrite <- !inject_Z_mult, <- inject_Z_plus in Hq.
  change (inject_Z (c * c + d * d)) with (frac_Q (c * c + d * d) 1) in Hq.
  apply (proj1 (frac_Q_eq p q _ 1 (proj1 Hok) Z.lt_0_1)) in Hq.
  assert (Hdiv : (q | 1)).
  { apply (Z.gauss q (Z.abs p) 1).
    - rewrite Z.mul_1_r. exists (Z.abs (c * c + d * d)).
      replace p with (q * (c * c + d * d)) by lia.
      rewrite Z.abs_mul, (Z.abs_eq q) by (destruct Hok; lia). ring.
    - rewrite Z.gcd_comm. apply Hok. }
  assert (q = 1).
  { destruct Hok as [Hpos _]. apply Z.divide_1_r_nonneg in Hdiv; lia. }
  subst q. f_equal. f_equal. lia.
Qed.

Lemma frac_Q_opp (p q : Z) : (frac_Q (- p) q == - frac_Q p q)%Q.
Proof. reflexivity. Qed.

Lemma frac_ok_opp (p q : Z) : frac_ok p q -> frac_ok (- p) q.
Proof. intros [Hq Hg]. split; [exact Hq|]. rewrite Z.abs_opp. exact Hg. Qed.

Lemma frac_ok_one (x : Z) : frac_ok x 1.
Proof. split; [lia|]. apply Z.gcd_1_r. Qed.

(** The inverse of [c + d i] on Fractions: [c / N - (d / N) i] for the
    norm [N = c^2 + d^2]; for [N = 0] the exception of the division is
    used as a value. *)
Lemma complex_inverse_gauss (m : nat) (c d : Z) :
  (c * c + d * d = 0 ->
   complex_inverse (engine_at (S (S m))) (gauss_frac c 1 d 1) = Fault NullDeref)
  /\ (c * c + d * d <> 0 ->
      exists p q p' q',
        complex_inverse (engine_at (S (S m))) (gauss_frac c 1 d 1)
        = Val (gauss_frac p q p' q')
        /\ frac_ok p q /\ frac_ok p' q'
        /\ (frac_Q p q == inject_Z c / inject_Z (c * c + d * d))%Q
        /\ (frac_Q p' q' == - (inject_Z d / inject_Z (c * c + d * d)))%Q).
Proof.
  rewrite complex_inverse_unfold, complex_norm_frac. cbn [deref].
  set (N := c * c + d * d).
  pose proof (frac_div_exact m (VFrac c 1) (VFrac N 1) (frac_ok_one c)
                (frac_ok_one N) eq_refl BC_OP2_DIV (or_introl eq_refl)) as Hc.
  pose proof (frac_div_exact m (VFrac d 1) (VFrac N 1) (frac_ok_one d)
                (frac_ok_one N) eq_refl BC_OP2_DIV (or_introl eq_refl)) as Hd.
  cbn [operand_Q] in Hc, Hd.
  change (frac_Q N 1) with (inject_Z N) in Hc, Hd.
  change (frac_Q c 1) with (inject_Z c) in Hc.
  change (frac_Q d 1) with (inject_Z d) in Hd.
  assert (Hz : (inject_Z N == 0)%Q <-> N = 0).
  { unfold inject_Z, Qeq. cbn [Qnum Qden]. lia. }
  split; intros HN.
  - rewrite (proj1 Hc (proj2 Hz HN)). reflexivity.
  - assert (HNq : ~ (inject_Z N == 0)%Q) by (rewrite Hz; exact HN).
    destruct (proj2 Hc HNq) as (p & q & -> & Hok & Hq).
    destruct (proj2 Hd HNq) as (p0 & q0 & -> & Hok0 & Hq0).
    cbn [deref].
    exists p, q, (- p0), q0.
    split; [reflexivity|]. split; [exact Hok|].
    split; [apply frac_ok_opp; exact Hok0|].
    split; [exact Hq|]. rewrite frac_Q_opp, Hq0. reflexivity.
Qed.

(** The product of a Gaussian integer and a complex number with
    Fraction parts. *)
Lemma complex_mul_gauss_frac (m : nat) (a b p q p' q' : Z) :
  frac_ok p q -> frac_ok p' q' ->
  exists t u t' u',
    complex_op2 (engine_at (S (S m))) (gauss_int a b) (gauss_frac p q p' q')
      BC_OP2_MUL = Val (gauss_frac t u t' u')
    /\ frac_ok t u /\ frac_ok t' u'
    /\ (frac_Q t u
        == inject_Z a * frac_Q p q - inject_Z b * frac_Q p' q')%Q
    /\ (frac_Q t' u'
        == inject_Z a * frac_Q p' q' + inject_Z b * frac_Q p q)%Q.
Proof.
  intros Hok Hok'. rewrite complex_mul_unfold.
  destruct (frac_mul_exact m (VInt a) (VFrac p q) I Hok eq_refl)
    as (x1 & y1 & -> & Hk1 & Hq1).
  destruct (frac_mul_exact m (VInt b) (VFrac p' q') I Hok' eq_refl)
    as (x2 & y2 & -> & Hk2 & Hq2).
  cbn [deref].
  destruct (frac_sub_exact m (VFrac x1 y1) (VFrac x2 y2) Hk1 Hk2 eq_refl)
    as (t & u & -> & Hk & Hq).
  destruct (frac_mul_exact m (VInt a) (VFrac p' q') I Hok' eq_refl)
    as (x3 & y3 & -> & Hk3 & Hq3).
  destruct (frac_mul_exact m (VInt b) (VFrac p q) I Hok eq_refl)
    as (x4 & y4 & -> & Hk4 & Hq4).
  cbn [deref].
  destruct (frac_add_exact m (VFrac x3 y3) (VFrac x4 y4) Hk3 Hk4 eq_refl)
    as (t' & u' & -> & Hk' & Hq').
  cbn [deref].
  exists t, u, t', u'.
  split; [reflexivity|]. split; [exact Hk|]. split; [exact Hk'|].
  cbn [operand_Q] in *.
  split.
  - rewrite Hq, Hq1, Hq2. reflexivity.
  - rewrite Hq', Hq3, Hq4. reflexivity.
Qed.

Lemma gauss_mul (m : nat) (a b c d : Z) :
  cval_op2 (engine_at (S (S (S m)))) (gauss_int a b) (gauss_int c d) BC_OP2_MUL
  = Val (gauss_int (a * c - b * d) (a * d + b * c)).
Proof. reflexivity. Qed.

Lemma gauss_sub (m : nat) (a b c d : Z) :
  cval_op2 (engine_at (S (S (S m)))) (gauss_int a b) (gauss_int c d) BC_OP2_SUB
  = Val (gauss_int (a - c) (b - d)).
Proof. reflexivity. Qed.

Lemma gauss_quotient_Q (a b c d : Z) (x y : Q) :
  c * c + d * d <> 0 ->
  (x == inject_Z c / inject_Z (c * c + d * d))%Q ->
  (y == - (inject_Z d / inject_Z (c * c + d * d)))%Q ->
  (inject_Z a * x - inject_Z b * y
   == inject_Z (a * c + b * d) / inject_Z (c * c + d * d))%Q
  /\ (inject_Z a * y + inject_Z b * x
      == inject_Z (b * c - a * d) / inject_Z (c * c + d * d))%Q.
Proof.
  intros HN Hx Hy.
  assert (HNq : ~ (inject_Z (c * c + d * d) == 0)%Q).
  { unfold inject_Z, Qeq. cbn [Qnum Qden]. lia. }
  rewrite Hx, Hy.
  unfold Z.sub. rewrite !inject_Z_plus, inject_Z_opp, !inject_Z_mult.
  rewrite !inject_Z_plus, !inject_Z_mult in HNq.
  split; field; exact HNq.
Qed.
End GaussianDivision.

(** Division with remainder of complex numbers with Integer parts is the
    Euclidean division of the Gaussian integers.  For a divisor
    [c + d i] other than zero, [divrem] returns the pair of a quotient
    [q1 + q2 i] and a remainder [r1 + r2 i] with Integer parts such that
    the dividend is the divisor times the quotient plus the remainder,
    each part of the quotient is an integer nearest to the part of the
    exact quotient, and twice the squared norm of the remainder is at
    most the squared norm of the divisor.  For the divisor zero the
    exception of the division is not tested and is used as a value.  An
    operand with Fraction parts is a type error. *)
Theorem gaussian_divrem {B : Bignum} (n : nat) (a b c d : Z) :
  let E := engine_at (S (S (S (S n)))) in
  let N := c * c + d * d in
  (c = 0 /\ d = 0 ->
   cval_op2 E (gauss_int a b) (gauss_int c d) BC_OP2_DIVREM = Fault NullDeref)
  /\ (~ (c = 0 /\ d = 0) ->
      exists q1 q2 r1 r2,
        cval_op2 E (gauss_int a b) (gauss_int c d) BC_OP2_DIVREM
        = Val (VArray [gauss_int q1 q2; gauss_int r1 r2])
        /\ a = c * q1 - d * q2 + r1
        /\ b = c * q2 + d * q1 + r2
        /\ 2 * Z.abs (a * c + b * d - q1 * N) <= N
        /\ 2 * Z.abs (b * c - a * d - q2 * N) <= N
        /\ 2 * (r1 * r1 + r2 * r2) <= N)
  /\ (forall p q p' q',
        cval_op2 E (gauss_frac p q p' q') (gauss_int c d) BC_OP2_DIVREM
        = Exc CERR_TYPE "both complex must have integer components for divrem"
        /\ cval_op2 E (gauss_int a b) (gauss_frac p q p' q') BC_OP2_DIVREM
           = Exc CERR_TYPE "both complex must have integer components for divrem").
Proof.
  cbv zeta. split; [|split].
  - intros [-> ->].
    rewrite complex_divrem_unfold, complex_frac_div_unfold.
    rewrite (proj1 (complex_inverse_gauss (S n) 0 0) eq_refl). reflexivity.
  - intros Hnz.
    assert (HN : c * c + d * d <> 0) by nia.
    assert (HNpos : 0 < c * c + d * d) by nia.
    rewrite complex_divrem_unfold, complex_frac_div_unfold.
    destruct (proj2 (complex_inverse_gauss (S n) c d) HN)
      as (p & q & p' & q' & -> & Hok & Hok' & Hq & Hq').
    cbn [deref].
    destruct (complex_mul_gauss_frac n a b p q p' q' Hok Hok')
      as (t & u & t' & u' & -> & Hk & Hk' & Ht & Ht').
    cbn [bind].
    destruct (gauss_quotient_Q a b c d _ _ HN Hq Hq') as [Hre Him].
    rewrite Hre in Ht. rewrite Him in Ht'.
    apply frac_Q_ratio in Ht; [|apply Hk|exact HNpos].
    apply frac_Q_ratio in Ht'; [|apply Hk'|exact HNpos].
    rewrite complex_round_unfold.
    destruct (frac_round_nearest (S n) t u (proj1 Hk)) as (g1 & -> & Hg1 & _).
    destruct (frac_round_nearest (S n) t' u' (proj1 Hk')) as (g2 & -> & Hg2 & _).
    cbn [deref]. rewrite complex_new_gauss. cbn [deref].
    rewrite gauss_mul. cbn [deref]. rewrite gauss_sub. cbn [store].
    pose proof (nearest_scaled t u _ _ g1 (proj1 Hk) HNpos Ht Hg1) as Hn1.
    pose proof (nearest_scaled t' u' _ _ g2 (proj1 Hk') HNpos Ht' Hg2) as Hn2.
    exists g1, g2, (a - (c * g1 - d * g2)), (b - (c * g2 + d * g1)).
    split; [reflexivity|]. split; [lia|]. split; [lia|].
    split; [exact Hn1|]. split; [exact Hn2|].
    exact (gauss_remainder_bound a b c d g1 g2 HNpos Hn1 Hn2).
  - intros p q p' q'. split; reflexivity.
Qed.

Lemma gaussian_divrem_witness :
  exists q1 q2 r1 r2,
    cval_op2 (@engine_at rational_bignum 4) (gauss_int 7 3) (gauss_int 2 1)
      BC_OP2_DIVREM
    = Val (VArray [gauss_int q1 q2; gauss_int r1 r2])
    /\ 7 = 2 * q1 - 1 * q2 + r1
    /\ 3 = 2 * q2 + 1 * q1 + r2
    /\ 2 * Z.abs (7 * 2 + 3 * 1 - q1 * (2 * 2 + 1 * 1)) <= 2 * 2 + 1 * 1
    /\ 2 * Z.abs (3 * 2 - 7 * 1 - q2 * (2 * 2 + 1 * 1)) <= 2 * 2 + 1 * 1
    /\ 2 * (r1 * r1 + r2 * r2) <= 2 * 2 + 1 * 1.
Proof.
  apply (proj1 (proj2 (@gaussian_divrem rational_bignum 0 7 3 2 1))).
  intros [H _]. discriminate H.
Defined.

(** * The inverse of a Fraction, and conversions *)

(** A Fraction in lowest terms has one representation. *)
Lemma frac_ok_unique (a b c d : Z) :
  frac_ok a b -> frac_ok c d -> a * d = b * c -> a = c /\ b = d.
Proof.
  intros [Hb Hab] [Hd Hcd] H.
  rewrite Z.gcd_abs_l in Hab, Hcd.
  assert (Hbd : (b | d)).
  { apply (Z.gauss b a d); [exists c; lia | rewrite Z.gcd_comm; exact Hab]. }
  assert (Hdb : (d | b)).
  { apply (Z.gauss d c b); [exists a; lia | rewrite Z.gcd_comm; exact Hcd]. }
  assert (b = d) by (apply Z.divide_antisym_nonneg; (lia || assumption)).
  subst d. split; [|reflexivity]. nia.
Qed.

Lemma frac_ok_swap (p q : Z) :
  frac_ok p q -> p <> 0 -> frac_ok (Z.sgn p * q) (Z.abs p).
Proof.
  intros [Hq Hg] Hp. split; [lia|].
  rewrite Z.abs_mul, Z.gcd_comm.
  replace (Z.abs (Z.sgn p) * Z.abs q) with q by lia. exact Hg.
Qed.

Section FractionInverse.
Context {B : Bignum}.
Variable n : nat.

Lemma cval_inverse_frac_unfold (p q : Z) :
  cval_inverse (engine_at (S (S n))) (VFrac p q)
  = cval_op2 (engine_at (S n)) (VInt 1) (VFrac p q) BC_OP2_DIV.
Proof. reflexivity. Qed.

Lemma cval_inverse_frac (p q : Z) :
  frac_ok p q -> p <> 0 ->
  cval_inverse (engine_at (S (S n))) (VFrac p q)
  = Val (VFrac (Z.sgn p * q) (Z.abs p)).
Proof.
  intros Hok Hp. rewrite cval_inverse_frac_unfold.
  rewrite (cval_op2_frac n (VInt 1) (VFrac p q) 1 1 p q) by reflexivity.
  destruct (cfrac_div_op2 n 1 1 p q BC_OP2_DIV (or_introl eq_refl)
              Z.lt_0_1 (proj1 Hok)) as [_ Hval].
  destruct (Hval Hp) as (p' & q' & -> & Hok' & Hv).
  destruct (frac_ok_unique p' q' (Z.sgn p * q) (Z.abs p) Hok'
              (frac_ok_swap p q Hok Hp)) as [-> ->]; [|reflexivity].
  destruct Hok as [Hq _]. destruct Hok' as [Hq' _].
  destruct (Z.lt_trichotomy p 0) as [Hn|[->|Hn]]; [|lia|].
  - rewrite Z.sgn_neg, Z.abs_neq by lia. lia.
  - rewrite Z.sgn_pos, Z.abs_eq by lia. lia.
Qed.

Lemma cval_inverse_frac_zero (q : Z) :
  0 < q ->
  cval_inverse (engine_at (S (S n))) (VFrac 0 q)
  = Exc CERR_RANGE "division by zero".
Proof.
  intros Hq. rewrite cval_inverse_frac_unfold.
  rewrite (cval_op2_frac n (VInt 1) (VFrac 0 q) 1 1 0 q) by reflexivity.
  exact (proj1 (cfrac_div_op2 n 1 1 0 q BC_OP2_DIV (or_introl eq_refl)
                  Z.lt_0_1 Hq) eq_refl).
Qed.
End FractionInverse.

(** The inverse of a Fraction [p/q] in lowest terms is the Fraction
    [q/p], with the sign in the numerator and again in lowest terms; the
    inverse of the inverse is the Fraction itself.  The inverse of the
    Fraction zero raises the range error [division by zero], and the
    inverse of a string is a type error. *)
Theorem fraction_inverse {B : Bignum} (n : nat) (p q : Z) :
  frac_ok p q ->
  let E := engine_at (S (S n)) in
  (p = 0 -> cval_inverse E (VFrac p q) = Exc CERR_RANGE "division by zero")
  /\ (p <> 0 ->
      cval_inverse E (VFrac p q) = Val (VFrac (Z.sgn p * q) (Z.abs p))
      /\ frac_ok (Z.sgn p * q) (Z.abs p)
      /\ (x <- cval_inverse E (VFrac p q) ;; cval_inverse E x) = Val (VFrac p q))
  /\ (forall s, cval_inverse E (VString s) = Exc CERR_TYPE "incompatible type").
Proof.
  intros Hok E. split; [|split].
  - intros ->. apply cval_inverse_frac_zero. apply Hok.
  - intros Hp. unfold E.
    rewrite (cval_inverse_frac n p q Hok Hp). cbn [bind].
    split; [reflexivity|]. split; [apply frac_ok_swap; assumption|].
    rewrite cval_inverse_frac; [|apply frac_ok_swap; assumption|].
    + f_equal. destruct Hok as [Hq _].
      destruct (Z.lt_trichotomy p 0) as [Hn|[->|Hn]]; [|lia|].
      * rewrite (Z.sgn_neg p), (Z.abs_neq p) by lia.
        rewrite Z.sgn_neg, Z.abs_neq by lia. f_equal; lia.
      * rewrite (Z.sgn_pos p), (Z.abs_eq p) by lia.
        rewrite Z.sgn_pos, Z.abs_eq by lia. f_equal; lia.
    + destruct Hok as [Hq _].
      destruct (Z.lt_trichotomy p 0) as [Hn|[->|Hn]]; [|lia|].
      * rewrite Z.sgn_neg by lia. lia.
      * rewrite Z.sgn_pos by lia. lia.
  - intros s. reflexivity.
Qed.

Lemma fraction_inverse_witness :
  frac_ok (-3) 4
  /\ cval_inverse (@engine_at rational_bignum 2) (VFrac (-3) 4)
     = Val (VFrac (-4) 3)
  /\ (x <- cval_inverse (@engine_at rational_bignum 2) (VFrac (-3) 4) ;;
      cval_inverse (@engine_at rational_bignum 2) x) = Val (VFrac (-3) 4).
Proof.
  assert (Hok : frac_ok (-3) 4) by (split; [lia | reflexivity]).
  split; [exact Hok|].
  destruct (@fraction_inverse rational_bignum 0 (-3) 4 Hok) as (_ & H & _).
  destruct (H ltac:(lia)) as (H1 & _ & H2).
  split; [exact H1 | exact H2].
Defined.

(** Conversions between Integers and Fractions.  An Integer [z]
    converts to the Fraction [z/1]; a Fraction [p/q] converts to the
    Integer that is its quotient truncated toward zero; converting an
    Integer to a Fraction and back returns the Integer.  A Boolean
    converts to 0 or 1, a value converts to its own type unchanged, and
    a string does not convert to an Integer. *)
Theorem convert_integer_fraction {B : Bignum} (n : nat) (z p q : Z) (b : bool) :
  0 < q ->
  let E := engine_at (S n) in
  cval_convert E (VInt z) (def_type CTYPE_FRAC) = Val (VFrac z 1)
  /\ cval_convert E (VFrac p q) (def_type CTYPE_INT) = Val (VInt (Z.quot p q))
  /\ Z.abs (Z.quot p q) * q <= Z.abs p < (Z.abs (Z.quot p q) + 1) * q
  /\ 0 <= Z.quot p q * p
  /\ (x <- cval_convert E (VInt z) (def_type CTYPE_FRAC) ;;
      cval_convert E x (def_type CTYPE_INT)) = Val (VInt z)
  /\ cval_convert E (VBool b) (def_type CTYPE_INT)
     = Val (VInt (if b then 1 else 0))
  /\ cval_convert E (VBool b) (def_type CTYPE_FRAC)
     = Val (VFrac (if b then 1 else 0) 1)
  /\ cval_convert E (VInt z) (def_type CTYPE_INT) = Val (VInt z)
  /\ cval_convert E (VFrac p q) (def_type CTYPE_FRAC) = Val (VFrac p q)
  /\ (forall s, cval_convert E (VString s) (def_type CTYPE_INT)
                = Exc CERR_TYPE "cannot convert to integer")
  /\ cval_convert E (VInt z) (def_type CTYPE_STRING)
     = Exc CERR_TYPE "cannot convert type".
Proof.
  intros Hq E.
  assert (Hdiv : cval_convert E (VFrac p q) (def_type CTYPE_INT)
                 = Val (VInt (Z.quot p q))).
  { change (cval_convert E (VFrac p q) (def_type CTYPE_INT))
      with (e_cint_op2 E (VInt p) (VInt q) BC_OP2_DIV).
    apply cint_div_spec. lia. }
  split; [reflexivity|]. split; [exact Hdiv|].
  split; [|split].
  - destruct (Z.lt_trichotomy p 0) as [Hn|[->|Hn]].
    + replace p with (- - p) by lia. set (m := - p) in *.
      rewrite Z.quot_opp_l, !Z.abs_opp by lia.
      rewrite Z.quot_div_nonneg by lia.
      pose proof (Z.div_mod m q ltac:(lia)) as Hdm.
      pose proof (Z.mod_pos_bound m q Hq) as Hm.
      pose proof (Z.div_pos m q ltac:(lia) Hq) as Hd.
      rewrite (Z.abs_eq (m / q)), (Z.abs_eq m) by lia. nia.
    + rewrite Z.quot_0_l by lia. change (Z.abs 0) with 0. lia.
    + rewrite Z.quot_div_nonneg by lia.
      pose proof (Z.div_mod p q ltac:(lia)) as Hdm.
      pose proof (Z.mod_pos_bound p q Hq) as Hm.
      pose proof (Z.div_pos p q ltac:(lia) Hq) as Hd.
      rewrite (Z.abs_eq (p / q)), (Z.abs_eq p) by lia. nia.
  - destruct (Z.lt_trichotomy p 0) as [Hn|[->|Hn]].
    + replace p with (- - p) at 1 by lia. rewrite Z.quot_opp_l by lia.
      pose proof (Z.quot_pos (- p) q ltac:(lia) ltac:(lia)). nia.
    + lia.
    + pose proof (Z.quot_pos p q ltac:(lia) ltac:(lia)). nia.
  - split.
    + change (cval_convert E (VInt z) (def_type CTYPE_FRAC))
        with (@Val value (VFrac z 1)). cbn [bind].
      change (cval_convert E (VFrac z 1) (def_type CTYPE_INT))
        with (e_cint_op2 E (VInt z) (VInt 1) BC_OP2_DIV).
      unfold E. rewrite cint_div_spec by lia. now rewrite Z.quot_1_r.
    + repeat split; try reflexivity; now destruct b.
Qed.

Lemma convert_integer_fraction_witness :
  0 < 2
  /\ cval_convert (@engine_at rational_bignum 1) (VFrac (-7) 2)
       (def_type CTYPE_INT) = Val (VInt (-3)).
Proof.
  split; [lia|].
  exact (proj1 (proj2 (@convert_integer_fraction rational_bignum 0 5 (-7) 2 true
                         ltac:(lia)))).
Defined.
